(** * levtrie: a trie with Levenshtein-bounded lookups

    A shallow embedding of the Go package [levtrie] (trie point operations,
    the Levenshtein NFA simulation and the guided traversal) together with
    the properties of its specification.

    Conventions of the embedding.
    - A Go [string] is a sequence of bytes: [String.string].
    - A [rune] (int32) and an [int] are integers [Z]; an [int8] is a [Z]
      kept in range by [int8], which is applied wherever Go computes in
      int8 (Go's signed arithmetic wraps around silently).
    - A run-time panic is the result [Panic]; the loops that Go runs until
      a work list is empty are given fuel computed from the size of the
      trie, and [OutOfFuel] is shown never to be the result.
    - A [map[rune]*node] is an association list without repeated keys; the
      order of the list is the order in which [range] visits the map, so a
      statement about every trie covers every iteration order.
    - Nodes are owned by exactly one parent, so a [*node] is addressed by
      the path of runes that leads to it from the root.
    - What a call may change is settled on a second embedding, the module
      [heap], where nodes, maps, KVs and int8 arrays are objects of a store
      that pointers refer to and that the operations read and write in
      place. The two embeddings are shown to agree: a trie of the store
      that stands for a tree answers every call as the tree does. *)

From Stdlib Require Import ZArith List String Ascii Bool Lia Sorted.
Import ListNotations.
Local Open Scope Z_scope.

(* ================================================================== *)
(** * Results of partial operations *)

Inductive panic : Type :=
| IndexOutOfRange     (* index out of range *)
| SliceBoundsOutOfRange
| MakeSliceLenOutOfRange
| NilDereference
| NilMapAssignment.   (* assignment to entry in nil map *)

Inductive result (A : Type) : Type :=
| Ok (a : A)
| Panic (p : panic)
| OutOfFuel.
Arguments Ok {A} a.
Arguments Panic {A} p.
Arguments OutOfFuel {A}.

Definition bind {A B : Type} (m : result A) (k : A -> result B) : result B :=
  match m with
  | Ok a => k a
  | Panic p => Panic p
  | OutOfFuel => OutOfFuel
  end.

Notation "x <- m ;; k" := (bind m (fun x => k))
  (at level 61, m at next level, right associativity).
Notation "' pat <- m ;; k" := (bind m (fun x => match x with pat => k end))
  (at level 61, pat pattern, m at next level, right associativity).

(* ================================================================== *)
(** * Machine integers and slices *)

Definition rune := Z.

(** Conversion to int8: the value modulo 2^8, in [-128, 127]. *)
Definition int8 (z : Z) : Z := (z + 128) mod 256 - 128.

Definition len {A : Type} (l : list A) : Z := Z.of_nat (List.length l).

(** [l[i]] with Go's bounds check. *)
Definition index {A : Type} (l : list A) (i : Z) : result A :=
  if i <? 0 then Panic IndexOutOfRange
  else match nth_error l (Z.to_nat i) with
       | Some x => Ok x
       | None => Panic IndexOutOfRange
       end.

(** [l[i] = x] on a position known to exist. *)
Fixpoint set_nth {A : Type} (l : list A) (i : nat) (x : A) : list A :=
  match l, i with
  | [], _ => []
  | _ :: l', O => x :: l'
  | y :: l', S i' => y :: set_nth l' i' x
  end.

(** [l[i] = x] with Go's bounds check. *)
Definition assign {A : Type} (l : list A) (i : Z) (x : A) : result (list A) :=
  if (i <? 0) || (len l <=? i) then Panic IndexOutOfRange
  else Ok (set_nth l (Z.to_nat i) x).

(** [make([]T, n)] filled with [x]. *)
Definition make {A : Type} (n : Z) (x : A) : result (list A) :=
  if n <? 0 then Panic MakeSliceLenOutOfRange
  else Ok (repeat x (Z.to_nat n)).

(** [l[:hi]] for a slice of length [len l] and capacity [cap]; the cells
    between the length and the capacity hold the zero value [z]. *)
Definition slice_to {A : Type} (z : A) (cap : Z) (l : list A) (hi : Z)
  : result (list A) :=
  if (hi <? 0) || (cap <? hi) then Panic SliceBoundsOutOfRange
  else if hi <=? len l then Ok (firstn (Z.to_nat hi) l)
  else Ok (l ++ repeat z (Z.to_nat (hi - len l))).

(** [l[lo:]]. *)
Definition slice_from {A : Type} (l : list A) (lo : Z) : result (list A) :=
  if (lo <? 0) || (len l <? lo) then Panic SliceBoundsOutOfRange
  else Ok (skipn (Z.to_nat lo) l).

(* ================================================================== *)
(** * UTF-8 decoding (Go's unicode/utf8, which the package imports) *)

Module utf8.

Definition RuneError : rune := 0xFFFD.

Definition byte_val (c : ascii) : Z := Z.of_N (N_of_ascii c).

(** What the first byte of an encoding announces: a one-byte rune, an
    invalid lead byte, or a sequence of [size] bytes whose second byte must
    lie in [[lo, hi]]. *)
Inductive lead : Type :=
| LeadAscii
| LeadInvalid
| LeadMulti (size : nat) (lo hi : Z).

Definition first (b : Z) : lead :=
  if b <? 0x80 then LeadAscii
  else if b <? 0xC2 then LeadInvalid
  else if b <? 0xE0 then LeadMulti 2 0x80 0xBF
  else if b =? 0xE0 then LeadMulti 3 0xA0 0xBF
  else if b <? 0xED then LeadMulti 3 0x80 0xBF
  else if b =? 0xED then LeadMulti 3 0x80 0x9F
  else if b <? 0xF0 then LeadMulti 3 0x80 0xBF
  else if b =? 0xF0 then LeadMulti 4 0x90 0xBF
  else if b <? 0xF4 then LeadMulti 4 0x80 0xBF
  else if b =? 0xF4 then LeadMulti 4 0x80 0x8F
  else LeadInvalid.

Definition continuation (b : Z) : bool := (0x80 <=? b) && (b <=? 0xBF).

(** [utf8.DecodeRuneInString]: the first rune of [s] and its width in
    bytes; [(RuneError, 0)] on the empty string and [(RuneError, 1)] on an
    invalid or truncated encoding. *)
Definition DecodeRuneInString (s : string) : rune * nat :=
  match s with
  | EmptyString => (RuneError, 0%nat)
  | String c0 t0 =>
    let s0 := byte_val c0 in
    match first s0 with
    | LeadAscii => (s0, 1%nat)
    | LeadInvalid => (RuneError, 1%nat)
    | LeadMulti sz lo hi =>
      if (String.length s <? sz)%nat then (RuneError, 1%nat) else
      match t0 with
      | EmptyString => (RuneError, 1%nat)
      | String c1 t1 =>
        let s1 := byte_val c1 in
        if (s1 <? lo) || (hi <? s1) then (RuneError, 1%nat) else
        if (sz <=? 2)%nat then
          (Z.lor (Z.shiftl (Z.land s0 0x1F) 6) (Z.land s1 0x3F), 2%nat)
        else
        match t1 with
        | EmptyString => (RuneError, 1%nat)
        | String c2 t2 =>
          let s2 := byte_val c2 in
          if negb (continuation s2) then (RuneError, 1%nat) else
          if (sz <=? 3)%nat then
            (Z.lor (Z.lor (Z.shiftl (Z.land s0 0x0F) 12)
                          (Z.shiftl (Z.land s1 0x3F) 6))
                   (Z.land s2 0x3F), 3%nat)
          else
          match t2 with
          | EmptyString => (RuneError, 1%nat)
          | String c3 _ =>
            let s3 := byte_val c3 in
            if negb (continuation s3) then (RuneError, 1%nat) else
            (Z.lor (Z.lor (Z.lor (Z.shiftl (Z.land s0 0x07) 18)
                                 (Z.shiftl (Z.land s1 0x3F) 12))
                          (Z.shiftl (Z.land s2 0x3F) 6))
                   (Z.land s3 0x3F), 4%nat)
          end
        end
      end
    end
  end.

End utf8.

(** [s[n:]]. *)
Fixpoint drop (n : nat) (s : string) : string :=
  match n, s with
  | O, _ => s
  | S n', String _ s' => drop n' s'
  | S _, EmptyString => EmptyString
  end.

(** The decoding loop [for i, w := 0, 0; i < len(s); i += w] shared by
    [extractRunes], [Get], [Set] and [Delete]; the fuel is [len(s)], which
    suffices since every step consumes at least one byte. *)
Fixpoint decode_loop (fuel : nat) (s : string) : list rune :=
  match fuel with
  | O => []
  | S fuel' =>
    match s with
    | EmptyString => []
    | _ => let '(r, w) := utf8.DecodeRuneInString s in
           r :: decode_loop fuel' (drop w s)
    end
  end.

(** [extractRunes] converts a string to an array of runes. *)
Definition extractRunes (s : string) : list rune :=
  decode_loop (String.length s) s.

(* ================================================================== *)
(** * The trie *)

(** KV is a key-value pair, the basic storage unit of the Trie. *)
Record KV : Type := mkKV { Key : string; Value : string }.

(** The operations of [map[rune]*T] on association lists. *)
Module runemap.
Section ops.
Context {A : Type}.

(** [m[r]] *)
Fixpoint lookup (r : rune) (m : list (rune * A)) : option A :=
  match m with
  | [] => None
  | (r', x) :: m' => if r =? r' then Some x else lookup r m'
  end.

(** [m[r] = x]: the binding of [r] is replaced where it stands; a new
    key is placed last. *)
Fixpoint store (r : rune) (x : A) (m : list (rune * A)) : list (rune * A) :=
  match m with
  | [] => [(r, x)]
  | (r', y) :: m' =>
    if r =? r' then (r, x) :: m' else (r', y) :: store r x m'
  end.

(** [delete(m, r)] *)
Fixpoint remove (r : rune) (m : list (rune * A)) : list (rune * A) :=
  match m with
  | [] => []
  | (r', y) :: m' =>
    if r =? r' then remove r m' else (r', y) :: remove r m'
  end.
End ops.
End runemap.

(** node is a Trie node. *)
#[local] Set Warnings "-register-all".
Inductive node : Type :=
  Node { data : option KV; child : list (rune * node) }.

(** Trie supports common map operations as well as lookups within a given
    edit distance bound. *)
Record Trie : Type := mkTrie { root : node }.

(** New returns a new Trie. *)
Definition New : Trie := mkTrie (Node None []).

(** The node reached from [n] along [path], if every edge exists. *)
Fixpoint descend (n : node) (path : list rune) : option node :=
  match path with
  | [] => Some n
  | r :: path' =>
    match runemap.lookup r (child n) with
    | Some x => descend x path'
    | None => None
    end
  end.

(** In-place modification [f] of the node at [path] below [n]. *)
Fixpoint update (n : node) (path : list rune) (f : node -> node) : node :=
  match path with
  | [] => f n
  | r :: path' =>
    match runemap.lookup r (child n) with
    | Some x => Node (data n) (runemap.store r (update x path' f) (child n))
    | None => n
    end
  end.

(** Get returns the value stored in the Trie at the given key. If there is
    no such key in the Trie, it returns the empty string. The second value
    returned is true exactly when the key exists in the Trie. *)
Definition Get (t : Trie) (key : string) : string * bool :=
  match descend (root t) (extractRunes key) with
  | None => (EmptyString, false)
  | Some n =>
    match data n with
    | Some kv => (Value kv, true)
    | None => (EmptyString, false)
    end
  end.

(** The loop of [Set]: descend from [n] along [rs], creating the missing
    nodes, and install [kv] at the end. *)
Fixpoint Set_walk (n : node) (rs : list rune) (kv : KV) : node :=
  match rs with
  | [] => Node (Some kv) (child n)
  | r :: rs' =>
    match runemap.lookup r (child n) with
    | None =>
      Node (data n)
           (runemap.store r (Set_walk (Node None []) rs' kv) (child n))
    | Some x =>
      Node (data n) (runemap.store r (Set_walk x rs' kv) (child n))
    end
  end.

(** Set associates key with val in the Trie. ([Set] is a reserved word.) *)
Definition Set_ (t : Trie) (key val : string) : Trie :=
  mkTrie (Set_walk (root t) (extractRunes key) (mkKV key val)).

(** The loop of [Delete]. [here] is the path of [n]; [cut] is the pair
    [cnode, crune], absent while [cnode == nil]. The result is [None] when
    an edge is missing (the early [return]), and otherwise the node reached
    with the final [cnode, crune]. *)
Fixpoint Delete_walk (n : node) (here rs : list rune)
         (cut : option (list rune * rune))
  : option (node * option (list rune * rune)) :=
  match rs with
  | [] => Some (n, cut)
  | r :: rs' =>
    let cut' :=
      if (1 <? len (child n)) || (match cut with None => true | _ => false end)
      then Some (here, r) else cut in
    match runemap.lookup r (child n) with
    | None => None
    | Some x => Delete_walk x (here ++ [r]) rs' cut'
    end
  end.

(** Delete removes the key from the Trie. *)
Definition Delete (t : Trie) (key : string) : result Trie :=
  let rs := extractRunes key in
  match Delete_walk (root t) [] rs None with
  | None => Ok t
  | Some (n, cut) =>
    let cleared := update (root t) rs (fun x => Node None (child x)) in
    if len (child n) =? 0 then
      match cut with
      | None => Panic NilDereference
      | Some (cnode, crune) =>
        Ok (mkTrie (update cleared cnode
                      (fun x => Node (data x) (runemap.remove crune (child x)))))
      end
    else Ok (mkTrie cleared)
  end.

(* ================================================================== *)
(** * The Levenshtein NFA *)

(** state is a state in the simulation of a Levenshtein NFA. *)
Record state : Type := mkState { offset : Z; arr : list Z }.

(** [newState(d, offset)]: [2*d+1] cells, all [int8(d+1)]; the length is
    computed in int8. *)
Definition newState (d : Z) (offset : Z) : result state :=
  a <- make (int8 (int8 (2 * d) + 1)) (int8 (int8 (d + 1))) ;;
  Ok (mkState offset a).

(** nfa is a Levenshtein NFA: the word it matches, the edit distance and
    the scratch space of [transition]. *)
Record nfa : Type := mkNfa { nfa_rs : list rune; nfa_d : Z; nfa_jump : list Z }.

(** [newNfa(rs, d)]: the length of [jump] is computed in int. *)
Definition newNfa (rs : list rune) (d : Z) : result nfa :=
  j <- make (3 * d + 2) 0 ;;
  Ok (mkNfa rs d j).

(** start returns the start state of the nfa. *)
Definition start (n : nfa) : result state :=
  initial <- newState (nfa_d n) (int8 (-2 * nfa_d n)) ;;
  a <- assign (arr initial) (int8 (2 * nfa_d n)) 0 ;;
  Ok (mkState (offset initial) a).

(** The loop of [accepts] from index [i] on. *)
Fixpoint accepts_from (n : nfa) (off : Z) (i : Z) (a : list Z) : bool :=
  match a with
  | [] => false
  | x :: a' =>
    let dist := int8 (len (nfa_rs n) - off - i) in
    if (dist <=? nfa_d n) && (dist >=? x) then true
    else accepts_from n off (i + 1) a'
  end.

(** accepts returns true exactly when the NFA state passed is accepting. *)
Definition accepts (n : nfa) (s : state) : bool :=
  accepts_from n (offset s) 0 (arr s).

(** The first loop of [transition]: it writes [jump[i]] for [i] from
    [len(jump)-1] down to [0]. [fill_jump ... i next acc] has the cells
    from [i] on in [acc] and is about to write cell [i-1] with the counter
    at [next]. Every cell is written, so the previous contents of the
    scratch space do not matter. *)
Fixpoint fill_jump (rs : list rune) (r : rune) (off : Z)
         (i : nat) (next : Z) (acc : list Z) : list Z :=
  match i with
  | O => acc
  | S i' =>
    let x := off + Z.of_nat i' in
    let next' :=
      if (x <? len rs) && (x >=? 0) &&
         (match nth_error rs (Z.to_nat x) with
          | Some c => c =? r
          | None => false
          end)
      then 0 else next in
    fill_jump rs r off i' (int8 (next' + 1)) (next' :: acc)
  end.

(** One round of the second loop of [transition], for diagonal [j]: the
    value [val] of the cell. *)
Definition transition_cell (n : nfa) (s : state) (jump : list Z) (j : Z)
  : result Z :=
  let val := int8 (nfa_d n + 1) in
  (* horizontal *)
  sj <- index (arr s) j ;;
  jv <- index jump (j + sj) ;;
  let cr := int8 (sj + jv) in
  let val := if cr <? val then cr else val in
  (* diagonal *)
  val <- (if j <? len (arr s) - 1 then
            s1 <- index (arr s) (j + 1) ;;
            Ok (if int8 (s1 + 1) <? val then int8 (s1 + 1) else val)
          else Ok val) ;;
  (* vertical *)
  val <- (if j <? len (arr s) - 2 then
            s2 <- index (arr s) (j + 2) ;;
            Ok (if int8 (s2 + 1) <? val then int8 (s2 + 1) else val)
          else Ok val) ;;
  Ok val.

(** The second loop of [transition], [for j := range ns.arr]: [todo] cells
    remain from index [j] on; [done] holds the cells written so far, last
    one first, and [min] the running minimum. *)
Fixpoint transition_loop (n : nfa) (s : state) (jump : list Z)
         (todo : nat) (j : Z) (min : Z) (done : list Z)
  : result (list Z * Z) :=
  match todo with
  | O => Ok (rev done, min)
  | S todo' =>
    val <- transition_cell n s jump j ;;
    let cell := if val <? int8 (nfa_d n + 1) then val
                else int8 (int8 (nfa_d n + 1)) in
    let min := if val <? min then val else min in
    transition_loop n s jump todo' (j + 1) min (cell :: done)
  end.

(** transition computes the effect of a rune transition on a set of NFA
    states. Given a set of NFA states and a rune, it returns a new NFA state
    and the minimum edit distance among those states. *)
Definition transition (n : nfa) (s : state) (r : rune) : result (state * Z) :=
  ns <- newState (nfa_d n) (offset s + 1) ;;
  let min := int8 (nfa_d n + 1) in
  let jump := fill_jump (nfa_rs n) r (offset s)
                        (List.length (nfa_jump n)) (int8 (nfa_d n + 1)) [] in
  '(a, min) <- transition_loop n s jump (List.length (arr ns)) 0 min [] ;;
  Ok (mkState (offset ns) a, min).

(* ================================================================== *)
(** * The guided traversal *)

(** frame is the complete state needed during a traversal of the Trie
    that's informed by a Levenshtein NFA: a node from the Trie plus a set
    of states in the NFA. *)
Record frame : Type := mkFrame { f_n : node; f_s : state }.

(** The number of nodes of a subtree and of a work list. *)
Fixpoint size (n : node) : nat :=
  match n with
  | Node _ cs =>
    S ((fix sizes (cs : list (rune * node)) : nat :=
          match cs with
          | [] => O
          | (_, x) :: cs' => (size x + sizes cs')%nat
          end) cs)
  end.

Definition sizes (ns : list node) : nat :=
  fold_right (fun x acc => (size x + acc)%nat) O ns.

(** A stack is a list whose head is the top: [append(stack, x)] is
    [x :: stack] and the pop takes the head. *)

(** doNotExpandSuffixes is a strategy for searching a Trie that does not
    expand a node to explore suffixes of matches. *)
Definition doNotExpandSuffixes (n : node) (limit : Z)
  : result (list KV * bool) :=
  match data n with
  | Some kv => Ok ([kv], false)
  | None => Ok ([], false)
  end.

(** [for _, child := range x.child { stack = append(stack, *child) }] *)
Definition push_children (cs : list (rune * node)) (stack : list node)
  : list node :=
  fold_left (fun st e => snd e :: st) cs stack.

(** The loop of [expandSuffixes]. *)
Fixpoint expand_loop (fuel : nat) (stack : list node) (results : list KV)
         (limit : Z) : result (list KV) :=
  match fuel with
  | O => OutOfFuel
  | S fuel' =>
    match stack with
    | [] => Ok results
    | x :: stack' =>
      match data x with
      | Some kv =>
        let results' := results ++ [kv] in
        if len results' >=? limit then Ok results'
        else expand_loop fuel' (push_children (child x) stack') results' limit
      | None =>
        expand_loop fuel' (push_children (child x) stack') results limit
      end
    end
  end.

(** expandSuffixes is a strategy for searching a Trie that adds all
    descendents of a node to the result set. *)
Definition expandSuffixes (n : node) (limit : Z) : result (list KV * bool) :=
  rs <- expand_loop (S (size n)) [n] [] limit ;;
  Ok (rs, true).

Definition processAcceptingNode : Type := node -> Z -> result (list KV * bool).

(** [stacks[min] = append(stacks[min], f)] *)
Definition push (stacks : list (list frame)) (min : Z) (f : frame)
  : result (list (list frame)) :=
  st <- index stacks min ;;
  assign stacks min (f :: st).

(** Register each of the current Trie node's children for a traversal. *)
Fixpoint register (n : nfa) (d : Z) (s : state) (cs : list (rune * node))
         (stacks : list (list frame)) : result (list (list frame)) :=
  match cs with
  | [] => Ok stacks
  | (r, x) :: cs' =>
    '(ns, min) <- transition n s r ;;
    if min <? int8 (d + 1) then
      stacks' <- push stacks min (mkFrame x ns) ;;
      register n d s cs' stacks'
    else register n d s cs' stacks
  end.

(** The loops of [suggest]: [i] is the index of the outer loop over
    [stacks]; each unit of fuel pays for one pop or for one step of [i]. *)
Fixpoint suggest_loop (fuel : nat) (process : processAcceptingNode)
         (n : nfa) (d limit : Z) (i : nat) (stacks : list (list frame))
         (results : list KV) : result (list KV) :=
  match fuel with
  | O => OutOfFuel
  | S fuel' =>
    match nth_error stacks i with
    | None => Ok results
    | Some [] => suggest_loop fuel' process n d limit (S i) stacks results
    | Some (f :: rest) =>
      let stacks := set_nth stacks i rest in
      if accepts n (f_s f) then
        '(rs, halt) <- process (f_n f) (limit - len results) ;;
        let results := results ++ rs in
        if len results >=? limit then
          slice_to (mkKV EmptyString EmptyString) (len results) results limit
        else if halt : bool then
          suggest_loop fuel' process n d limit i stacks results
        else
          stacks <- register n d (f_s f) (child (f_n f)) stacks ;;
          suggest_loop fuel' process n d limit i stacks results
      else
        stacks <- register n d (f_s f) (child (f_n f)) stacks ;;
        suggest_loop fuel' process n d limit i stacks results
    end
  end.

(** suggest runs the traversal of the Trie, using frames consisting of a
    Trie state and a set of NFA nodes to store state. *)
Definition suggest (process : processAcceptingNode) (root : node)
           (runes : list rune) (d : Z) (limit : Z) : result (list KV) :=
  n <- newNfa runes d ;;
  start <- start n ;;
  stacks <- make (int8 (d + 1)) [] ;;
  stacks <- assign stacks 0 [mkFrame root start] ;;
  suggest_loop (S (size root + List.length stacks)) process n d limit
               O stacks [].

(** Suggest returns up to n KVs with keys that are within edit distance d
    of the input key. *)
Definition Suggest (t : Trie) (key : string) (d : Z) (n : Z)
  : result (list KV) :=
  suggest doNotExpandSuffixes (root t) (extractRunes key) d n.

(** SuggestSuffixes returns up to n KVs, all of whose keys have a prefix
    that is within edit distance d of the input key. *)
Definition SuggestSuffixes (t : Trie) (key : string) (d : Z) (n : Z)
  : result (list KV) :=
  suggest expandSuffixes (root t) (extractRunes key) d n.

(** The descent [for _, r := range runes[:p]] of the two operations below;
    [None] is the early [return nil]. *)
Fixpoint exact_prefix (curr : node) (prefix : list rune) : option node :=
  match prefix with
  | [] => Some curr
  | r :: prefix' =>
    match runemap.lookup r (child curr) with
    | Some x => exact_prefix x prefix'
    | None => None
    end
  end.

Section ExactPrefix.
(** The capacity that the run time gives to the slice which
    [extractRunes] builds by appending [k] runes, one at a time, to
    [[]rune{}]. Go leaves the growth policy to the implementation; it
    decides whether [runes[:p]] with [p] beyond the length panics. *)
Variable runes_cap : nat -> nat.

Definition after_exact_prefix (process : processAcceptingNode)
           (t : Trie) (key : string) (p : Z) (d : Z) (n : Z)
  : result (list KV) :=
  let runes := extractRunes key in
  prefix <- slice_to 0 (Z.of_nat (runes_cap (List.length runes))) runes p ;;
  match exact_prefix (root t) prefix with
  | None => Ok []
  | Some curr =>
    rest <- slice_from runes p ;;
    suggest process curr rest d n
  end.

(** SuggestAfterExactPrefix returns up to n KVs that share an exact prefix
    of length p with the input key and are within edit distance d of the
    input key. *)
Definition SuggestAfterExactPrefix :=
  after_exact_prefix doNotExpandSuffixes.

(** SuggestSuffixesAfterExactPrefix returns up to n KVs, all of whose keys
    have a prefix that is within edit distance d of the input key and
    share an exact prefix of at least length p with the input key. *)
Definition SuggestSuffixesAfterExactPrefix :=
  after_exact_prefix expandSuffixes.
End ExactPrefix.

(* ================================================================== *)
(** * The typeahead example (examples/typeahead) *)

(** [seen[x]] for a [map[string]bool] whose keys set to true are listed in
    [seen]. *)
Fixpoint seen_has (x : string) (seen : list string) : bool :=
  match seen with
  | [] => false
  | y :: seen' => if String.eqb x y then true else seen_has x seen'
  end.

(** The loop of [uniq]. The function writes the strings it keeps to the
    front of its argument, [xs[j] = xs[i]] with [j <= i], so no string is
    overwritten before it is read; [kept] is [xs[:j]], last one first. *)
Fixpoint uniq_loop (xs seen kept : list string) (n : Z) : list string :=
  match xs with
  | [] => rev kept
  | x :: xs' =>
    if seen_has x seen then uniq_loop xs' seen kept n
    else
      let kept' := x :: kept in
      if len kept' >=? n then rev kept'
      else uniq_loop xs' (x :: seen) kept' n
  end.

(** uniq returns up to n strings in the input slice, omitting
    duplicates. *)
Definition uniq (xs : list string) (n : Z) : list string :=
  uniq_loop xs [] [] n.

(* ================================================================== *)
(** * Programs over a trie *)

(** The public operations. *)
Inductive op : Type :=
| OpGet (key : string)
| OpSet (key val : string)
| OpDelete (key : string)
| OpSuggest (key : string) (d n : Z)
| OpSuggestSuffixes (key : string) (d n : Z)
| OpSuggestAfterExactPrefix (key : string) (p d n : Z)
| OpSuggestSuffixesAfterExactPrefix (key : string) (p d n : Z).

Inductive answer : Type :=
| Done
| Found (val : string) (ok : bool)
| Matches (kvs : list KV).

Definition is_search (o : op) : bool :=
  match o with
  | OpSuggest _ _ _ | OpSuggestSuffixes _ _ _
  | OpSuggestAfterExactPrefix _ _ _ _
  | OpSuggestSuffixesAfterExactPrefix _ _ _ _ => true
  | _ => false
  end.

Section Programs.
Variable runes_cap : nat -> nat.

(** One call on the trie [t]: the trie after the call and what the call
    returned. [Get] and the four searches only read the nodes they visit
    (the searches work on copies, [frame{n: *node}]), so they hand the
    store back as they found it; that they do is shown on the store
    itself, in the module [heap] below. *)
Definition call (t : Trie) (o : op) : result (Trie * answer) :=
  match o with
  | OpGet key => let '(v, ok) := Get t key in Ok (t, Found v ok)
  | OpSet key val => Ok (Set_ t key val, Done)
  | OpDelete key => t' <- Delete t key ;; Ok (t', Done)
  | OpSuggest key d n =>
    kvs <- Suggest t key d n ;; Ok (t, Matches kvs)
  | OpSuggestSuffixes key d n =>
    kvs <- SuggestSuffixes t key d n ;; Ok (t, Matches kvs)
  | OpSuggestAfterExactPrefix key p d n =>
    kvs <- SuggestAfterExactPrefix runes_cap t key p d n ;;
    Ok (t, Matches kvs)
  | OpSuggestSuffixesAfterExactPrefix key p d n =>
    kvs <- SuggestSuffixesAfterExactPrefix runes_cap t key p d n ;;
    Ok (t, Matches kvs)
  end.

(** A sequence of calls, the first of the list first. *)
Fixpoint run (t : Trie) (ops : list op) : result Trie :=
  match ops with
  | [] => Ok t
  | o :: ops' => '(t', _) <- call t o ;; run t' ops'
  end.
End Programs.

(** What a program leaves under the empty key: the value of its last
    [Set("", v)] unless a [Delete("")] came after it. *)
Fixpoint empty_key_binding (ops : list op) (now : option string)
  : option string :=
  match ops with
  | [] => now
  | OpSet EmptyString v :: ops' => empty_key_binding ops' (Some v)
  | OpDelete EmptyString :: ops' => empty_key_binding ops' None
  | _ :: ops' => empty_key_binding ops' now
  end.

(* ================================================================== *)
(** * The package on a store *)

(** The operations once more, this time on the store of the Go program:
    nodes, maps and KVs are objects that pointers refer to and that
    [Set] and [Delete] change in place; the int8 arrays that the NFA
    allocates and writes ([jump], the [arr] of a state) live in the same
    store. A frame holds a copy of a node, that is, of its two pointers.
    The slices that a call keeps to itself ([stacks], [results], the
    stack of [expandSuffixes], [runes]) are values. The loops take their
    fuel as an argument. *)
Module heap.

(** A pointer: [None] is nil, [Some l] refers to the object [l] of its
    kind. *)
Definition ptr : Type := option nat.

(** node is a Trie node: [child] refers to the map, [data] to the KV. *)
Record node : Type := mkNode { child : ptr; data : ptr }.

Record Trie : Type := mkTrie { root : ptr }.

(** The store: the objects of each kind in the order of their allocation.
    An int8 slice is the array that [make] allocated for it (none of them
    is ever resliced), referred to by its index. *)
Record store : Type := mkStore {
  nodes : list node;
  maps : list (list (rune * ptr));
  kvs : list KV;
  arrays : list (list Z)
}.

Definition empty : store := mkStore [] [] [] [].

(** Computations on the store; the store is there after a panic too. *)
Definition M (A : Type) : Type := store -> store * result A.

Definition ret {A : Type} (a : A) : M A := fun h => (h, Ok a).

Definition mbind {A B : Type} (m : M A) (k : A -> M B) : M B :=
  fun h =>
    match m h with
    | (h', Ok a) => k a h'
    | (h', Panic p) => (h', Panic p)
    | (h', OutOfFuel) => (h', OutOfFuel)
    end.

(** An operation on values. *)
Definition lift {A : Type} (r : result A) : M A := fun h => (h, r).

Notation "x <~ m ;; k" := (mbind m (fun x => k))
  (at level 61, m at next level, right associativity).
Notation "' pat <~ m ;; k" := (mbind m (fun x => match x with pat => k end))
  (at level 61, pat pattern, m at next level, right associativity).

(** [for _, a := range l { acc = body(acc, a) }] *)
Fixpoint foldM {A B : Type} (body : B -> A -> M B) (l : list A) (acc : B)
  : M B :=
  match l with
  | [] => ret acc
  | a :: l' => acc' <~ body acc a ;; foldM body l' acc'
  end.

(** The indices [0, ..., k-1]. *)
Definition indices (k : Z) : list Z := map Z.of_nat (seq 0 (Z.to_nat k)).

(** ** The objects *)

(** The stores of a Go program hold no reference to an object that was
    never allocated; the operations treat such a reference as nil. *)

(** [*p] *)
Definition deref_node (p : ptr) : M node :=
  fun h =>
    match p with
    | None => (h, Panic NilDereference)
    | Some l =>
      match nth_error (nodes h) l with
      | Some x => (h, Ok x)
      | None => (h, Panic NilDereference)
      end
    end.

(** [&node{...}] *)
Definition new_node (x : node) : M ptr :=
  fun h =>
    (mkStore (nodes h ++ [x]) (maps h) (kvs h) (arrays h),
     Ok (Some (List.length (nodes h)))).

(** [p.data = q] *)
Definition set_data (p : ptr) (q : ptr) : M unit :=
  fun h =>
    match p with
    | None => (h, Panic NilDereference)
    | Some l =>
      match nth_error (nodes h) l with
      | Some x =>
        (mkStore (set_nth (nodes h) l (mkNode (child x) q))
                 (maps h) (kvs h) (arrays h), Ok tt)
      | None => (h, Panic NilDereference)
      end
    end.

(** [make(map[rune]*node)] *)
Definition new_map : M ptr :=
  fun h =>
    (mkStore (nodes h) (maps h ++ [[]]) (kvs h) (arrays h),
     Ok (Some (List.length (maps h)))).

(** The entries of the map [m], in the order in which [range m] visits
    them; a nil map reads as an empty one. *)
Definition entries (m : ptr) : M (list (rune * ptr)) :=
  fun h =>
    match m with
    | None => (h, Ok [])
    | Some l =>
      match nth_error (maps h) l with
      | Some es => (h, Ok es)
      | None => (h, Ok [])
      end
    end.

(** [m[r] = z] *)
Definition map_assign (m : ptr) (r : rune) (z : ptr) : M unit :=
  fun h =>
    match m with
    | None => (h, Panic NilMapAssignment)
    | Some l =>
      match nth_error (maps h) l with
      | Some es =>
        (mkStore (nodes h) (set_nth (maps h) l (runemap.store r z es))
                 (kvs h) (arrays h), Ok tt)
      | None => (h, Panic NilMapAssignment)
      end
    end.

(** [delete(m, r)] *)
Definition map_delete (m : ptr) (r : rune) : M unit :=
  fun h =>
    match m with
    | None => (h, Ok tt)
    | Some l =>
      match nth_error (maps h) l with
      | Some es =>
        (mkStore (nodes h) (set_nth (maps h) l (runemap.remove r es))
                 (kvs h) (arrays h), Ok tt)
      | None => (h, Ok tt)
      end
    end.

(** [&KV{...}] *)
Definition new_kv (kv : KV) : M ptr :=
  fun h =>
    (mkStore (nodes h) (maps h) (kvs h ++ [kv]) (arrays h),
     Ok (Some (List.length (kvs h)))).

(** [*p] *)
Definition deref_kv (p : ptr) : M KV :=
  fun h =>
    match p with
    | None => (h, Panic NilDereference)
    | Some l =>
      match nth_error (kvs h) l with
      | Some kv => (h, Ok kv)
      | None => (h, Panic NilDereference)
      end
    end.

(** The cells of the array [a]. *)
Definition cells (a : nat) : M (list Z) :=
  fun h => (h, Ok (nth a (arrays h) [])).

(** [make([]int8, k)] *)
Definition make_int8 (k : Z) : M nat :=
  fun h =>
    if k <? 0 then (h, Panic MakeSliceLenOutOfRange)
    else (mkStore (nodes h) (maps h) (kvs h)
                  (arrays h ++ [repeat 0 (Z.to_nat k)]),
          Ok (List.length (arrays h))).

(** [a[i]] *)
Definition get (a : nat) (i : Z) : M Z :=
  c <~ cells a ;; lift (index c i).

(** [a[i] = x] *)
Definition set (a : nat) (i : Z) (x : Z) : M unit :=
  fun h =>
    match assign (nth a (arrays h) []) i x with
    | Ok c =>
      (mkStore (nodes h) (maps h) (kvs h) (set_nth (arrays h) a c), Ok tt)
    | Panic p => (h, Panic p)
    | OutOfFuel => (h, OutOfFuel)
    end.

(** ** The trie *)

(** New returns a new Trie. *)
Definition New : M Trie :=
  m <~ new_map ;;
  r <~ new_node (mkNode m None) ;;
  ret (mkTrie r).

(** The loop of [Get] and of the exact-prefix searches:
    [n, ok = n.child[r]] for every rune, [None] when an edge is missing. *)
Fixpoint walk (n : ptr) (rs : list rune) : M (option ptr) :=
  match rs with
  | [] => ret (Some n)
  | r :: rs' =>
    x <~ deref_node n ;;
    es <~ entries (child x) ;;
    match runemap.lookup r es with
    | None => ret None
    | Some n' => walk n' rs'
    end
  end.

(** Get returns the value stored in the Trie at the given key. *)
Definition Get (t : Trie) (key : string) : M (string * bool) :=
  o <~ walk (root t) (extractRunes key) ;;
  match o with
  | None => ret (EmptyString, false)
  | Some n =>
    x <~ deref_node n ;;
    match data x with
    | None => ret (EmptyString, false)
    | Some _ => kv <~ deref_kv (data x) ;; ret (Value kv, true)
    end
  end.

(** The loop of [Set]. *)
Fixpoint Set_walk (n : ptr) (rs : list rune) : M ptr :=
  match rs with
  | [] => ret n
  | r :: rs' =>
    x <~ deref_node n ;;
    es <~ entries (child x) ;;
    match runemap.lookup r es with
    | None =>
      m <~ new_map ;;
      z <~ new_node (mkNode m None) ;;
      _ <~ map_assign (child x) r z ;;
      Set_walk z rs'
    | Some n' => Set_walk n' rs'
    end
  end.

(** Set associates key with val in the Trie. ([Set] is a reserved
    word.) *)
Definition Set_ (t : Trie) (key val : string) : M unit :=
  n <~ Set_walk (root t) (extractRunes key) ;;
  q <~ new_kv (mkKV key val) ;;
  set_data n q.

(** The loop of [Delete], with [cnode] and [crune]. *)
Fixpoint Delete_walk (n : ptr) (rs : list rune) (cnode : ptr) (crune : rune)
  : M (option (ptr * ptr * rune)) :=
  match rs with
  | [] => ret (Some (n, cnode, crune))
  | r :: rs' =>
    x <~ deref_node n ;;
    es <~ entries (child x) ;;
    let '(cnode', crune') :=
      if (1 <? len es) || (match cnode with None => true | _ => false end)
      then (n, r) else (cnode, crune) in
    match runemap.lookup r es with
    | None => ret None
    | Some n' => Delete_walk n' rs' cnode' crune'
    end
  end.

(** Delete removes the key from the Trie. *)
Definition Delete (t : Trie) (key : string) : M unit :=
  o <~ Delete_walk (root t) (extractRunes key) None 0 ;;
  match o with
  | None => ret tt
  | Some (n, cnode, crune) =>
    _ <~ set_data n None ;;
    x <~ deref_node n ;;
    es <~ entries (child x) ;;
    if len es =? 0 then
      c <~ deref_node cnode ;;
      map_delete (child c) crune
    else ret tt
  end.

(** ** The Levenshtein NFA *)

Record state : Type := mkState { offset : Z; arr : nat }.

Record nfa : Type := mkNfa { nfa_rs : list rune; nfa_d : Z; nfa_jump : nat }.

Definition newState (d : Z) (offset : Z) : M state :=
  a <~ make_int8 (int8 (int8 (2 * d) + 1)) ;;
  c <~ cells a ;;
  _ <~ foldM (fun _ i => set a i (int8 (int8 (d + 1)))) (indices (len c)) tt ;;
  ret (mkState offset a).

Definition newNfa (rs : list rune) (d : Z) : M nfa :=
  j <~ make_int8 (3 * d + 2) ;;
  ret (mkNfa rs d j).

(** start returns the start state of the nfa. *)
Definition start (n : nfa) : M state :=
  initial <~ newState (nfa_d n) (int8 (-2 * nfa_d n)) ;;
  _ <~ set (arr initial) (int8 (2 * nfa_d n)) 0 ;;
  ret initial.

(** The loop of [accepts] from index [i] on. *)
Fixpoint accepts_from (n : nfa) (off : Z) (i : Z) (a : list Z) : bool :=
  match a with
  | [] => false
  | x :: a' =>
    let dist := int8 (len (nfa_rs n) - off - i) in
    if (dist <=? nfa_d n) && (dist >=? x) then true
    else accepts_from n off (i + 1) a'
  end.

(** accepts returns true exactly when the NFA state passed is accepting. *)
Definition accepts (n : nfa) (s : state) : M bool :=
  c <~ cells (arr s) ;;
  ret (accepts_from n (offset s) 0 c).

(** One round of the first loop of [transition]: [jump[i] = next], and
    the counter for the next round. *)
Definition transition_jump (n : nfa) (s : state) (r : rune) (next : Z)
           (i : Z) : M Z :=
  let x := offset s + i in
  let next' :=
    if (x <? len (nfa_rs n)) && (x >=? 0) &&
       (match nth_error (nfa_rs n) (Z.to_nat x) with
        | Some c => c =? r
        | None => false
        end)
    then 0 else next in
  _ <~ set (nfa_jump n) i next' ;;
  ret (int8 (next' + 1)).

(** One round of the second loop of [transition]. *)
Definition transition_cell (n : nfa) (s ns : state) (min : Z) (j : Z)
  : M Z :=
  let val := int8 (nfa_d n + 1) in
  (* horizontal *)
  sj <~ get (arr s) j ;;
  jv <~ get (nfa_jump n) (j + sj) ;;
  let cr := int8 (sj + jv) in
  let val := if cr <? val then cr else val in
  sa <~ cells (arr s) ;;
  (* diagonal *)
  val <~ (if j <? len sa - 1 then
            s1 <~ get (arr s) (j + 1) ;;
            ret (if int8 (s1 + 1) <? val then int8 (s1 + 1) else val)
          else ret val) ;;
  (* vertical *)
  val <~ (if j <? len sa - 2 then
            s2 <~ get (arr s) (j + 2) ;;
            ret (if int8 (s2 + 1) <? val then int8 (s2 + 1) else val)
          else ret val) ;;
  _ <~ (if val <? int8 (nfa_d n + 1) then set (arr ns) j val else ret tt) ;;
  ret (if val <? min then val else min).

(** transition computes the effect of a rune transition on a set of NFA
    states. *)
Definition transition (n : nfa) (s : state) (r : rune) : M (state * Z) :=
  ns <~ newState (nfa_d n) (offset s + 1) ;;
  let min := int8 (nfa_d n + 1) in
  jc <~ cells (nfa_jump n) ;;
  _ <~ foldM (transition_jump n s r) (rev (indices (len jc)))
             (int8 (nfa_d n + 1)) ;;
  nc <~ cells (arr ns) ;;
  min <~ foldM (transition_cell n s ns) (indices (len nc)) min ;;
  ret (ns, min).

(** ** The guided traversal *)

Record frame : Type := mkFrame { f_n : node; f_s : state }.

Definition doNotExpandSuffixes (x : node) (limit : Z) : M (list KV * bool) :=
  match data x with
  | Some _ => kv <~ deref_kv (data x) ;; ret ([kv], false)
  | None => ret ([], false)
  end.

(** [for _, child := range x.child { stack = append(stack, *child) }] *)
Definition push_children (x : node) (stack : list node) : M (list node) :=
  es <~ entries (child x) ;;
  foldM (fun st e => c <~ deref_node (snd e) ;; ret (c :: st)) es stack.

(** The loop of [expandSuffixes]. *)
Fixpoint expand_loop (fuel : nat) (stack : list node) (results : list KV)
         (limit : Z) : M (list KV) :=
  match fuel with
  | O => lift OutOfFuel
  | S fuel' =>
    match stack with
    | [] => ret results
    | x :: stack' =>
      match data x with
      | Some _ =>
        kv <~ deref_kv (data x) ;;
        let results' := results ++ [kv] in
        if len results' >=? limit then ret results'
        else
          stack2 <~ push_children x stack' ;;
          expand_loop fuel' stack2 results' limit
      | None =>
        stack2 <~ push_children x stack' ;;
        expand_loop fuel' stack2 results limit
      end
    end
  end.

Definition expandSuffixes (fuel : nat) (x : node) (limit : Z)
  : M (list KV * bool) :=
  rs <~ expand_loop fuel [x] [] limit ;;
  ret (rs, true).

Definition processAcceptingNode : Type := node -> Z -> M (list KV * bool).

(** Register each of the current Trie node's children for a traversal. *)
Definition register_child (n : nfa) (d : Z) (s : state)
           (stacks : list (list frame)) (e : rune * ptr)
  : M (list (list frame)) :=
  '(ns, min) <~ transition n s (fst e) ;;
  if min <? int8 (d + 1) then
    st <~ lift (index stacks min) ;;
    x <~ deref_node (snd e) ;;
    lift (assign stacks min (mkFrame x ns :: st))
  else ret stacks.

Definition register (n : nfa) (d : Z) (s : state) (x : node)
           (stacks : list (list frame)) : M (list (list frame)) :=
  es <~ entries (child x) ;;
  foldM (register_child n d s) es stacks.

(** The loops of [suggest]. *)
Fixpoint suggest_loop (fuel : nat) (process : processAcceptingNode)
         (n : nfa) (d limit : Z) (i : nat) (stacks : list (list frame))
         (results : list KV) : M (list KV) :=
  match fuel with
  | O => lift OutOfFuel
  | S fuel' =>
    match nth_error stacks i with
    | None => ret results
    | Some [] => suggest_loop fuel' process n d limit (S i) stacks results
    | Some (f :: rest) =>
      let stacks := set_nth stacks i rest in
      a <~ accepts n (f_s f) ;;
      if a : bool then
        '(rs, halt) <~ process (f_n f) (limit - len results) ;;
        let results := results ++ rs in
        if len results >=? limit then
          lift (slice_to (mkKV EmptyString EmptyString) (len results)
                         results limit)
        else if halt : bool then
          suggest_loop fuel' process n d limit i stacks results
        else
          stacks <~ register n d (f_s f) (f_n f) stacks ;;
          suggest_loop fuel' process n d limit i stacks results
      else
        stacks <~ register n d (f_s f) (f_n f) stacks ;;
        suggest_loop fuel' process n d limit i stacks results
    end
  end.

(** suggest runs the traversal of the Trie. *)
Definition suggest (fuel : nat) (process : processAcceptingNode) (root : node)
           (runes : list rune) (d : Z) (limit : Z) : M (list KV) :=
  n <~ newNfa runes d ;;
  start <~ start n ;;
  stacks <~ lift (make (int8 (d + 1)) []) ;;
  stacks <~ lift (assign stacks 0 [mkFrame root start]) ;;
  suggest_loop fuel process n d limit O stacks [].

Definition Suggest (fuel : nat) (t : Trie) (key : string) (d : Z) (n : Z)
  : M (list KV) :=
  x <~ deref_node (root t) ;;
  suggest fuel doNotExpandSuffixes x (extractRunes key) d n.

Definition SuggestSuffixes (fuel : nat) (t : Trie) (key : string) (d : Z)
           (n : Z) : M (list KV) :=
  x <~ deref_node (root t) ;;
  suggest fuel (expandSuffixes fuel) x (extractRunes key) d n.

Section ExactPrefix.
Variable runes_cap : nat -> nat.

Definition after_exact_prefix (fuel : nat) (process : processAcceptingNode)
           (t : Trie) (key : string) (p : Z) (d : Z) (n : Z)
  : M (list KV) :=
  let runes := extractRunes key in
  prefix <~ lift (slice_to 0 (Z.of_nat (runes_cap (List.length runes)))
                           runes p) ;;
  o <~ walk (root t) prefix ;;
  match o with
  | None => ret []
  | Some curr =>
    x <~ deref_node curr ;;
    rest <~ lift (slice_from runes p) ;;
    suggest fuel process x rest d n
  end.

Definition SuggestAfterExactPrefix (fuel : nat) :=
  after_exact_prefix fuel doNotExpandSuffixes.

Definition SuggestSuffixesAfterExactPrefix (fuel : nat) :=
  after_exact_prefix fuel (expandSuffixes fuel).
End ExactPrefix.

(** ** Calls *)

Section Programs.
Variable runes_cap : nat -> nat.

(** One call on the trie [t] of the store, and what the call returned. *)
Definition call (fuel : nat) (t : Trie) (o : op) : M answer :=
  match o with
  | OpGet key => vo <~ Get t key ;; ret (Found (fst vo) (snd vo))
  | OpSet key val => _ <~ Set_ t key val ;; ret Done
  | OpDelete key => _ <~ Delete t key ;; ret Done
  | OpSuggest key d n =>
    kvs <~ Suggest fuel t key d n ;; ret (Matches kvs)
  | OpSuggestSuffixes key d n =>
    kvs <~ SuggestSuffixes fuel t key d n ;; ret (Matches kvs)
  | OpSuggestAfterExactPrefix key p d n =>
    kvs <~ SuggestAfterExactPrefix runes_cap fuel t key p d n ;;
    ret (Matches kvs)
  | OpSuggestSuffixesAfterExactPrefix key p d n =>
    kvs <~ SuggestSuffixesAfterExactPrefix runes_cap fuel t key p d n ;;
    ret (Matches kvs)
  end.
End Programs.
End heap.

(** ** What a search may change *)

(** The stores [h] and [h'] hold the same nodes, maps and KVs. *)
Definition same_trie (h h' : heap.store) : Prop :=
  heap.nodes h' = heap.nodes h /\
  heap.maps h' = heap.maps h /\
  heap.kvs h' = heap.kvs h.

(** The computation [m] leaves the nodes, the maps and the KVs of every
    store as they are, whatever its outcome. *)
Definition keeps {A : Type} (m : heap.M A) : Prop :=
  forall h, same_trie h (fst (m h)).

(** The computation [m] changes nothing, and its outcome depends on the
    nodes, the maps and the KVs alone. *)
Definition reads {A : Type} (m : heap.M A) : Prop :=
  (forall h, fst (m h) = h) /\
  (forall h h', same_trie h h' -> snd (m h') = snd (m h)).

(** ** The store and the path-addressed trie *)

(** The entries of the map [m] in the store [h]. *)
Definition entries_of (h : heap.store) (m : heap.ptr)
  : list (rune * heap.ptr) :=
  match m with
  | None => []
  | Some l => nth l (heap.maps h) []
  end.

(** [rep h xh x]: in the store [h] the node [xh] stands for the tree [x]:
    its KV is the entry of [x], and its map holds, in the same order, the
    edges of [x], each to a node that stands for the subtree. *)
Fixpoint rep (h : heap.store) (xh : heap.node) (x : node) : Prop :=
  match x with
  | Node dt cs =>
    match heap.data xh with
    | None => dt = None
    | Some l => dt <> None /\ nth_error (heap.kvs h) l = dt
    end /\
    (fix all (es : list (rune * heap.ptr)) (cs : list (rune * node))
         {struct cs} : Prop :=
       match cs, es with
       | [], [] => True
       | (r', y) :: cs', (r, p) :: es' =>
         r = r' /\
         (exists l c, p = Some l /\ nth_error (heap.nodes h) l = Some c /\
                      rep h c y) /\
         all es' cs'
       | _, _ => False
       end) (entries_of h (heap.child xh)) cs
  end.

(** The pointer [p] refers to a node that stands for [x]. *)
Definition rep_ptr (h : heap.store) (p : heap.ptr) (x : node) : Prop :=
  exists l c, p = Some l /\ nth_error (heap.nodes h) l = Some c /\ rep h c x.

(** The array [a] of the store holds the cells [c]. *)
Definition arr_at (h : heap.store) (a : nat) (c : list Z) : Prop :=
  nth_error (heap.arrays h) a = Some c.

(** The NFA of the store and the NFA of the path-addressed model. *)
Definition nfa_rel (h : heap.store) (nh : heap.nfa) (n : nfa) : Prop :=
  heap.nfa_rs nh = nfa_rs n /\ heap.nfa_d nh = nfa_d n /\
  exists jc, arr_at h (heap.nfa_jump nh) jc /\
             List.length jc = List.length (nfa_jump n).

(** A state: its array is not the scratch space [J] of the NFA. *)
Definition state_rel (J : nat) (h : heap.store) (sh : heap.state) (s : state)
  : Prop :=
  heap.offset sh = offset s /\ arr_at h (heap.arr sh) (arr s) /\
  heap.arr sh <> J.

(** A frame, with a bound on the size of its subtree. *)
Definition frame_rel (J B : nat) (h : heap.store) (fh : heap.frame)
           (f : frame) : Prop :=
  rep h (heap.f_n fh) (f_n f) /\ state_rel J h (heap.f_s fh) (f_s f) /\
  (size (f_n f) <= B)%nat.

(** [h'] comes after [h] in a search whose NFA has the scratch space [J]:
    the trie is the same, no array is gone, and the arrays of [h] other
    than [J] are as they were; [J] has kept its length. *)
Definition evolves (J : nat) (h h' : heap.store) : Prop :=
  same_trie h h' /\
  (List.length (heap.arrays h) <= List.length (heap.arrays h'))%nat /\
  (forall a c, a <> J -> arr_at h a c -> arr_at h' a c) /\
  (forall c, arr_at h J c ->
             exists c', arr_at h' J c' /\ List.length c' = List.length c).

(** The store [h] with the cells [c] in the array [a], and with one more
    array. *)
Definition with_array (h : heap.store) (a : nat) (c : list Z) : heap.store :=
  heap.mkStore (heap.nodes h) (heap.maps h) (heap.kvs h)
               (set_nth (heap.arrays h) a c).

Definition with_new_array (h : heap.store) (c : list Z) : heap.store :=
  heap.mkStore (heap.nodes h) (heap.maps h) (heap.kvs h)
               (heap.arrays h ++ [c]).

(** The outcome of a computation on the store is the outcome [r] of the
    path-addressed model; when [r] is a value, the store becomes [h']. *)
Definition runs_as {A B : Type} (m : heap.M A) (h : heap.store)
           (r : result B) (ok : B -> heap.store * result A) : Prop :=
  match r with
  | Ok b => m h = ok b
  | Panic p => snd (m h) = Panic p
  | OutOfFuel => snd (m h) = OutOfFuel
  end.

(** The computation [m] in the store [h] does what the path-addressed
    model does with the outcome [r]: the same panic, or a value related by
    [R] to the value of [r], in a store that comes after [h]. *)
Definition sim {A B : Type} (J : nat) (R : heap.store -> A -> B -> Prop)
           (m : heap.M A) (h : heap.store) (r : result B) : Prop :=
  match r with
  | Ok b => exists h' a, m h = (h', Ok a) /\ evolves J h h' /\ R h' a b
  | Panic p => snd (m h) = Panic p
  | OutOfFuel => snd (m h) = OutOfFuel
  end.

(** The stacks of frames of a traversal. *)
Definition stacks_rel (J B : nat) (h : heap.store)
           (sth : list (list heap.frame)) (st : list (list frame)) : Prop :=
  Forall2 (Forall2 (frame_rel J B h)) sth st.

(** The outcomes of an operation on values in the two models. *)
Definition res_rel {A B : Type} (R : A -> B -> Prop) (rh : result A)
           (r : result B) : Prop :=
  match r with
  | Ok b => exists a, rh = Ok a /\ R a b
  | Panic p => rh = Panic p
  | OutOfFuel => rh = OutOfFuel
  end.

(** A strategy of the store and the strategy of the path-addressed model,
    on subtrees of at most [B] nodes. *)
Definition process_rel (B : nat) (ph : heap.processAcceptingNode)
           (p : processAcceptingNode) : Prop :=
  forall h xh x lim,
    rep h xh x -> (size x <= B)%nat -> ph xh lim h = (h, p x lim).

(** ** Tries that own their nodes *)

(** The KV that the pointer [p] refers to. *)
Definition kv_at (h : heap.store) (p : heap.ptr) (dt : option KV) : Prop :=
  match p with
  | None => dt = None
  | Some q => dt <> None /\ nth_error (heap.kvs h) q = dt
  end.

(** [owns h l x N M]: the node [l] of the store stands for the tree [x],
    as in [rep], and it does so with the nodes [N] and the maps [M], the
    node and the map of every tree node listed where the tree node comes
    in a walk of [x]. Every node has a map (the one that [New] or [Set]
    made for it). *)
Inductive owns (h : heap.store)
  : nat -> node -> list nat -> list nat -> Prop :=
| owns_node (l : nat) (c : heap.node) (m : nat)
            (es : list (rune * heap.ptr)) (dt : option KV)
            (cs : list (rune * node)) (Ns Ms : list (list nat)) :
    nth_error (heap.nodes h) l = Some c ->
    kv_at h (heap.data c) dt ->
    heap.child c = Some m ->
    nth_error (heap.maps h) m = Some es ->
    owns_edges h es cs Ns Ms ->
    owns h l (Node dt cs) (l :: List.concat Ns) (m :: List.concat Ms)
with owns_edges (h : heap.store)
  : list (rune * heap.ptr) -> list (rune * node) ->
    list (list nat) -> list (list nat) -> Prop :=
| owns_edges_nil : owns_edges h [] [] [] []
| owns_edges_cons (r : rune) (l : nat) (y : node)
                  (es : list (rune * heap.ptr)) (cs : list (rune * node))
                  (N1 M1 : list nat) (Ns Ms : list (list nat)) :
    owns h l y N1 M1 ->
    owns_edges h es cs Ns Ms ->
    owns_edges h ((r, Some l) :: es) ((r, y) :: cs) (N1 :: Ns) (M1 :: Ms).

Scheme owns_mut := Induction for owns Sort Prop
  with owns_edges_mut := Induction for owns_edges Sort Prop.

(** The trie [t] of the store stands for the tree [x], and no node and no
    map is used twice. *)
Definition wf (h : heap.store) (t : heap.Trie) (x : node) : Prop :=
  exists l N M, heap.root t = Some l /\ owns h l x N M /\ NoDup N /\ NoDup M.

(** What an operation that works on the nodes [N] and the maps [M] leaves
    alone: the other nodes and maps, the KVs and the arrays. *)
Definition changes_within (N M : list nat) (h h' : heap.store) : Prop :=
  (forall i c, ~ In i N -> nth_error (heap.nodes h) i = Some c ->
               nth_error (heap.nodes h') i = Some c) /\
  (forall j es, ~ In j M -> nth_error (heap.maps h) j = Some es ->
                nth_error (heap.maps h') j = Some es) /\
  (forall q kv, nth_error (heap.kvs h) q = Some kv ->
                nth_error (heap.kvs h') q = Some kv) /\
  heap.arrays h' = heap.arrays h.

(** The stores agree on the nodes [N], the maps [M] and the KVs of [h]. *)
Definition agree_on (N M : list nat) (h h' : heap.store) : Prop :=
  (forall i c, In i N -> nth_error (heap.nodes h) i = Some c ->
               nth_error (heap.nodes h') i = Some c) /\
  (forall j es, In j M -> nth_error (heap.maps h) j = Some es ->
                nth_error (heap.maps h') j = Some es) /\
  (forall q kv, nth_error (heap.kvs h) q = Some kv ->
                nth_error (heap.kvs h') q = Some kv).

(** The loop of [Set] and what follows it. *)
Definition Set_from (p : heap.ptr) (rs : list rune) (kv : KV) : heap.M unit :=
  heap.mbind (heap.Set_walk p rs)
             (fun n => heap.mbind (heap.new_kv kv)
                                  (fun q => heap.set_data n q)).

(** The store after [z := &node{child: make(map[rune]*node)}] and
    [n.child[r] = z] for a node whose map is [m], holding [es]. *)
Definition grown (h : heap.store) (m : nat) (r : rune)
           (es : list (rune * heap.ptr)) : heap.store :=
  heap.mkStore
    (heap.nodes h ++ [heap.mkNode (Some (List.length (heap.maps h))) None])
    (set_nth (heap.maps h ++ [[]]) m
             (runemap.store r (Some (List.length (heap.nodes h))) es))
    (heap.kvs h) (heap.arrays h).

(** The node that the walk along [path] from the node [l] reaches. *)
Fixpoint locate (h : heap.store) (l : nat) (path : list rune) : option nat :=
  match path with
  | [] => Some l
  | r :: path' =>
    match nth_error (heap.nodes h) l with
    | Some c =>
      match runemap.lookup r (entries_of h (heap.child c)) with
      | Some (Some l') => locate h l' path'
      | _ => None
      end
    | None => None
    end
  end.

(** [cnode, crune] of the store and the cut point of the path-addressed
    model. *)
Definition cut_rel (h : heap.store) (l0 : nat)
           (cut : option (list rune * rune)) (cnode : heap.ptr)
           (crune : rune) : Prop :=
  match cut with
  | None => cnode = None
  | Some (cp, cr) =>
    exists lc, cnode = Some lc /\ locate h l0 cp = Some lc /\ crune = cr
  end.

(* ================================================================== *)
(** * The oracle of the tests (levtrie_test.go) *)

Module levtrie_test.
(** [editDistanceHelper(s, t)]: the recursion works on the slices without
    their last scalar; each unit of fuel pays for one call. The result is
    an int8. *)
Fixpoint editDistanceHelper (fuel : nat) (s t : list rune) : result Z :=
  match fuel with
  | O => OutOfFuel
  | S fuel' =>
    if len s =? 0 then Ok (int8 (len t))
    else if len t =? 0 then Ok (int8 (len s))
    else if last s 0 =? last t 0
         then editDistanceHelper fuel' (removelast s) (removelast t)
         else
           x <- editDistanceHelper fuel' s (removelast t) ;;
           y <- editDistanceHelper fuel' (removelast s) t ;;
           z <- editDistanceHelper fuel' (removelast s) (removelast t) ;;
           let d := x in
           let d := if y <? d then y else d in
           let d := if z <? d then z else d in
           Ok (int8 (1 + d))
  end.

(** Returns the edit distance between s and t. *)
Definition editDistance (s t : string) : result Z :=
  let rs := extractRunes s in
  let rt := extractRunes t in
  editDistanceHelper (S (List.length rs + List.length rt)) rs rt.
End levtrie_test.

(* ================================================================== *)
(** * Notions of the specification *)

(** Levenshtein distance between two sequences of scalars: the least number
    of insertions, deletions and substitutions turning one into the
    other. *)
Fixpoint levenshtein (s t : list rune) : nat :=
  match s with
  | [] => List.length t
  | a :: s' =>
    (fix against (t : list rune) : nat :=
       match t with
       | [] => List.length s
       | b :: t' =>
         Nat.min (Nat.min (S (levenshtein s' t)) (S (against t')))
                 ((if a =? b then 0 else 1) + levenshtein s' t')
       end) t
  end.

Definition editDistance (k q : string) : nat :=
  levenshtein (extractRunes k) (extractRunes q).

(** ** Edit scripts *)

(** [edits s t k]: [s] is turned into [t] by a script of exactly [k]
    insertions, deletions and substitutions (a substitution may replace a
    scalar by itself); these are the moves of the Levenshtein NFA. *)
Inductive edits : list rune -> list rune -> nat -> Prop :=
| edits_nil : edits [] [] 0
| edits_ins (a : rune) (s t : list rune) (k : nat) :
    edits s t k -> edits (a :: s) t (S k)
| edits_del (b : rune) (s t : list rune) (k : nat) :
    edits s t k -> edits s (b :: t) (S k)
| edits_sub (a b : rune) (s t : list rune) (k : nat) :
    edits s t k -> edits (a :: s) (b :: t) (S k)
| edits_match (a : rune) (s t : list rune) (k : nat) :
    edits s t k -> edits (a :: s) (a :: t) k.


(** The entry stored at [path] below [n], if the node exists and is
    terminal. *)
Definition data_at (n : node) (path : list rune) : option KV :=
  match descend n path with
  | Some x => data x
  | None => None
  end.

(** What [Get] answers for a node's entry. *)
Definition answer_of (e : option KV) : string * bool :=
  match e with
  | Some kv => (Value kv, true)
  | None => (EmptyString, false)
  end.

(** [p] is a prefix of [l]. *)
Definition is_prefix (p l : list rune) : Prop := exists rest, l = p ++ rest.

(** Along [rs] below [n] every node left behind has at most one child. *)
Fixpoint single_chain (n : node) (rs : list rune) : Prop :=
  match rs with
  | [] => True
  | r :: rs' =>
    len (child n) <= 1 /\
    exists x, runemap.lookup r (child n) = Some x /\ single_chain x rs'
  end.

(** [inside x n]: [x] is a node of the subtree [n]. *)
Inductive inside : node -> node -> Prop :=
| inside_here (n : node) : inside n n
| inside_child (n : node) (r : rune) (y x : node) :
    In (r, y) (child n) -> inside x y -> inside x n.

(** The entry [kv] is stored in the subtree [n]. *)
Definition stored (kv : KV) (n : node) : Prop :=
  exists x, inside x n /\ data x = Some kv.

(** No node of the subtree has two edges with the same label (what a Go
    map guarantees). *)
Fixpoint distinct_edges (n : node) : Prop :=
  match n with
  | Node _ cs =>
    NoDup (map fst cs) /\
    (fix all (cs : list (rune * node)) : Prop :=
       match cs with
       | [] => True
       | (_, x) :: cs' => distinct_edges x /\ all cs'
       end) cs
  end.

(** Every entry of the subtree [n], whose root lies at [path], is filed
    under the key that spells its path. *)
Fixpoint keyed_at (path : list rune) (n : node) : Prop :=
  match n with
  | Node dt cs =>
    match dt with
    | Some kv => extractRunes (Key kv) = path
    | None => True
    end /\
    (fix all (cs : list (rune * node)) : Prop :=
       match cs with
       | [] => True
       | (r, x) :: cs' => keyed_at (path ++ [r]) x /\ all cs'
       end) cs
  end.

Definition keyed (t : Trie) : Prop := keyed_at [] (root t).

(** The run of the NFA along a path of the trie: the state reached from
    [s] and the minimum reported by the last transition ([level] when the
    path is empty). *)
Fixpoint nfa_run (n : nfa) (s : state) (level : Z) (path : list rune)
  : result (state * Z) :=
  match path with
  | [] => Ok (s, level)
  | r :: path' =>
    '(ns, min) <- transition n s r ;;
    nfa_run n ns min path'
  end.

(** The frame that [suggest] builds for the node at [path] below its start
    node, and the stack it is pushed on: the stratum of the path. The start
    node itself is pushed on stack 0. *)
Definition reach (q : list rune) (d : Z) (path : list rune)
  : result (nfa * state * Z) :=
  n <- newNfa q d ;;
  s0 <- start n ;;
  '(s, level) <- nfa_run n s0 0 path ;;
  Ok (n, s, level).

(** The entry [kv] is emitted at stratum [level] by a search for [q] below
    the node at [pre]: its key runs through an accepting node that lies at
    [pre ++ path] and was scheduled at [level]; under the exact policy that
    node is the entry's own. *)
Definition emitted_at (exact : bool) (pre q : list rune) (d : Z)
           (kv : KV) (level : Z) : Prop :=
  exists path rest n s,
    extractRunes (Key kv) = pre ++ path ++ rest /\
    reach q d path = Ok (n, s, level) /\
    accepts n s = true /\
    (exact = true -> rest = []).

(** The order that the traversal gives to a result: the strata at which the
    entries are emitted never decrease. *)
Definition ordered_by_stratum (exact : bool) (pre q : list rune) (d : Z)
           (results : list KV) : Prop :=
  exists levels,
    Forall2 (emitted_at exact pre q d) results levels /\
    Sorted Z.le levels.

(** ** Invariants of the traversal *)

(** The frame [f] stands for the node at [pre ++ path], for some [path]
    along which the NFA run from [s0] ends in the frame's state and reports
    [level]. *)
Definition frame_ok (n0 : nfa) (s0 : state) (pre : list rune) (level : Z)
           (f : frame) : Prop :=
  exists path,
    keyed_at (pre ++ path) (f_n f) /\
    nfa_run n0 s0 0 path = Ok (f_s f, level).

(** Every frame waits on the stack of its level. *)
Definition stacks_ok (n0 : nfa) (s0 : state) (pre : list rune)
           (stacks : list (list frame)) : Prop :=
  forall j st, nth_error stacks j = Some st ->
               Forall (frame_ok n0 s0 pre (Z.of_nat j)) st.

(** [emitted_at] for a search whose NFA and start state are at hand. *)
Definition emitted_by (exact : bool) (n0 : nfa) (s0 : state)
           (pre : list rune) (kv : KV) (level : Z) : Prop :=
  exists path rest s,
    extractRunes (Key kv) = pre ++ path ++ rest /\
    nfa_run n0 s0 0 path = Ok (s, level) /\
    accepts n0 s = true /\
    (exact = true -> rest = []).

(** What a policy may emit at a node lying at [base]: entries filed below
    that node, the node's own entry only under the exact policy. *)
Definition process_ok (exact : bool) (process : processAcceptingNode) : Prop :=
  forall (x : node) (limit : Z) (rs : list KV) (halt : bool)
         (base : list rune),
    keyed_at base x ->
    process x limit = Ok (rs, halt) ->
    Forall (fun kv => exists rest,
                extractRunes (Key kv) = base ++ rest /\
                (exact = true -> rest = [])) rs.

(** The nodes held by a work list of frames. *)
Definition frames_size (stacks : list (list frame)) : nat :=
  fold_right (fun st acc => (sizes (map f_n st) + acc)%nat) O stacks.

(** ** The transition as the specification words it *)

(** The first position [x >= pos] of [Q] holding [r], scanning from
    position [at_]. *)
Fixpoint next_position (Q : list rune) (r : rune) (at_ pos : Z) : option Z :=
  match Q with
  | [] => None
  | c :: Q' =>
    if (pos <=? at_) && (c =? r) then Some at_
    else next_position Q' r (at_ + 1) pos
  end.

(** The distance from [pos] to the next position of [Q] holding [r],
    capped at [d+1]. *)
Definition capped_distance (Q : list rune) (d : Z) (r : rune) (pos : Z) : Z :=
  match next_position Q r 0 pos with
  | Some x => Z.min (x - pos) (d + 1)
  | None => d + 1
  end.

Definition cell (a : list Z) (j : Z) : Z := nth (Z.to_nat j) a 0.

(** The cell [arr'[j]]: the minimum of the three contributions, [d+1] when
    it is not below [d+1]. *)
Definition spec_cell (Q : list rune) (d : Z) (s : state) (r : rune) (j : Z)
  : Z :=
  let horizontal :=
    cell (arr s) j + capped_distance Q d r (offset s + j + cell (arr s) j) in
  let m := horizontal in
  let m := if j <? 2 * d then Z.min m (cell (arr s) (j + 1) + 1) else m in
  let m := if j <? 2 * d - 1 then Z.min m (cell (arr s) (j + 2) + 1) else m in
  if m >=? d + 1 then d + 1 else m.

(** The successor state and the reported minimum. *)
Definition spec_transition (Q : list rune) (d : Z) (s : state) (r : rune)
  : state * Z :=
  let a := map (fun j => spec_cell Q d s r (Z.of_nat j))
               (seq 0 (Z.to_nat (2 * d + 1))) in
  (mkState (offset s + 1) a, fold_right Z.min (d + 1) a).

(** The representation invariant of a state of the NFA for bound [d]. *)
Definition state_inv (d : Z) (s : state) : Prop :=
  len (arr s) = 2 * d + 1 /\ Forall (fun x => 0 <= x <= d + 1) (arr s).

(** ** The transition without wrap-around *)

(** The value that [transition_cell] computes for diagonal [j] when no
    int8 operation overflows: the least of [d+1] and the contributions. *)
Definition cell_value (d : Z) (a jump : list Z) (j : Z) : Z :=
  let m := Z.min (d + 1) (cell a j + cell jump (j + cell a j)) in
  let m := if j <? len a - 1 then Z.min m (cell a (j + 1) + 1) else m in
  let m := if j <? len a - 2 then Z.min m (cell a (j + 2) + 1) else m in
  m.

(** The jump table of a transition. *)
Definition jump_table (n : nfa) (s : state) (r : rune) : list Z :=
  fill_jump (nfa_rs n) r (offset s) (List.length (nfa_jump n))
            (int8 (nfa_d n + 1)) [].

(** The diagonals [j, j+1, ...] that the second loop of [transition]
    visits in [todo] rounds. *)
Fixpoint diagonals (j : Z) (todo : nat) : list Z :=
  match todo with
  | O => []
  | S todo' => j :: diagonals (j + 1) todo'
  end.

(** The successor state and the reported minimum when no int8 operation
    overflows. *)
Definition next_state (n : nfa) (s : state) (r : rune) : state * Z :=
  let d := nfa_d n in
  let a := map (cell_value d (arr s) (jump_table n s r))
               (diagonals 0 (Z.to_nat (2 * d + 1))) in
  (mkState (offset s + 1) a, fold_left Z.min a (d + 1)).

(** The work list of a search with bound [d]: one stack per level, every
    frame with a state of the NFA in its representation. *)
Definition stacks_valid (d : Z) (stacks : list (list frame)) : Prop :=
  len stacks = d + 1 /\
  Forall (Forall (fun f => state_inv d (f_s f))) stacks.

(** The test of the first loop of [transition]: position [x] lies in the
    word and holds [r]. *)
Definition holds_at (rs : list rune) (r : rune) (x : Z) : bool :=
  (x <? len rs) && (x >=? 0) &&
  match nth_error rs (Z.to_nat x) with
  | Some c => c =? r
  | None => false
  end.

(** The NFA that [newNfa] builds for a bound in range. *)
Definition nfa_for (n : nfa) (d : Z) : Prop :=
  nfa_d n = d /\ len (nfa_jump n) = 3 * d + 2.

(** ** The meaning of a state *)

(** [reaches Q w i e]: a script of exactly [e] edits turns the word [w]
    into the first [i] scalars of [Q]; in terms of the automaton, the
    position [i] of [Q] is reached with [e] errors once [w] has been
    read. *)
Definition reaches (Q w : list rune) (i e : Z) : Prop :=
  edits w (firstn (Z.to_nat i) Q) (Z.to_nat e).

(** [tracks Q d w s]: the state [s] stands for the word [w]. The offset is
    [len w - 2d]; cell [j] belongs to the diagonal [offset + j] and holds
    the least number of errors [e] with which the position
    [offset + j + e] of that diagonal is reached, [d + 1] when there is
    none up to [d]. A cell may point past the end of [Q]; it never points
    before its start. *)
Definition tracks (Q : list rune) (d : Z) (w : list rune) (s : state)
  : Prop :=
  offset s = len w - 2 * d /\
  state_inv d s /\
  (forall j, 0 <= j <= 2 * d -> cell (arr s) j <= d ->
             0 <= offset s + j + cell (arr s) j /\ offset s + j <= len Q) /\
  (forall j e, 0 <= j <= 2 * d -> 0 <= e <= d ->
               0 <= offset s + j + e <= len Q ->
               (cell (arr s) j <= e <-> reaches Q w (offset s + j + e) e)).

(** ** The traversal and the entries within the bound *)

(** [on_the_way n0 d u v kv j f]: the frame [f], taken from stack [j], is
    on the way to the entry [kv] stored at path [u ++ v]: its node lies at
    a prefix [w1] of [u], its state stands for [w1], and no cell of the
    state is below [j]. *)
Definition on_the_way (n0 : nfa) (d : Z) (u v : list rune) (kv : KV)
           (j : nat) (f : frame) : Prop :=
  exists (w1 u2 : list rune) (x : node),
    u = w1 ++ u2 /\ tracks (nfa_rs n0) d w1 (f_s f) /\
    Forall (fun c => Z.of_nat j <= c) (arr (f_s f)) /\
    descend (f_n f) (u2 ++ v) = Some x /\ data x = Some kv.

(** Some stack from [i] on holds a frame on the way to the entry. *)
Definition awaits (n0 : nfa) (d : Z) (u v : list rune) (kv : KV) (i : nat)
           (stacks : list (list frame)) : Prop :=
  exists (j : nat) (st : list frame) (f : frame),
    (i <= j)%nat /\ nth_error stacks j = Some st /\ In f st /\
    on_the_way n0 d u v kv j f.

(** What a policy emits at an accepting node: the exact policy the node's
    own entry, going on with the children; the suffix policy every entry of
    the subtree, unless it fills its limit, without going on. *)
Definition process_finds (exact : bool) (process : processAcceptingNode)
  : Prop :=
  forall (x : node) (lim : Z) (rs : list KV) (halt : bool),
    process x lim = Ok (rs, halt) ->
    if exact
    then halt = false /\ (forall kv, data x = Some kv -> In kv rs)
    else halt = true /\
         (len rs < lim ->
          forall path y kv, descend x path = Some y -> data y = Some kv ->
                            In kv rs).

(** [grounded Q d w s]: every cell of [s] that is not blank is at least
    the distance from [w] to some prefix of [Q]. *)
Definition grounded (Q : list rune) (d : Z) (w : list rune) (s : state)
  : Prop :=
  forall j, 0 <= j <= 2 * d -> cell (arr s) j <= d ->
            exists i e, 0 <= i <= len Q /\ 0 <= e <= cell (arr s) j /\
                        reaches Q w i e.

(** ** The entries of a subtree *)

(** The entries stored in the subtree [n], the node's own first. *)
Fixpoint entries (n : node) : list KV :=
  match n with
  | Node dt cs =>
    match dt with
    | Some kv => [kv]
    | None => []
    end ++
    (fix all (cs : list (rune * node)) : list KV :=
       match cs with
       | [] => []
       | (_, x) :: cs' => entries x ++ all cs'
       end) cs
  end.

Definition KV_eq_dec (x y : KV) : {x = y} + {x <> y}.
Proof. decide equality; apply string_dec. Defined.

(** The number of times that [kv] occurs in [l]. *)
Definition occurrences (kv : KV) (l : list KV) : nat :=
  count_occ KV_eq_dec l kv.

(** The entries held by the frames of a stack, and of a work list. *)
Definition held (st : list frame) : list KV :=
  flat_map (fun f => entries (f_n f)) st.

Definition held_all (stacks : list (list frame)) : list KV :=
  flat_map held stacks.

(* ================================================================== *)
(** * Concrete tries and queries used below *)

Fixpoint string_of (c : ascii) (k : nat) : string :=
  match k with
  | O => EmptyString
  | S k' => String c (string_of c k')
  end.

Definition trie_a : Trie := Set_ New "a" "a".
Definition trie_b : Trie := Set_ New "b" "v".
Definition trie_a_ab : Trie := Set_ (Set_ New "a" "1") "ab" "2".
Definition query_257 : string := string_of "a" 257.
Definition query_33 : string := string_of "a" 33.
Definition trie_ba : Trie := Set_ New "ba" "v".
Definition nfa_a_32 : nfa := mkNfa [97] 32 (repeat 0 98).
Definition start_32 : state := mkState (-64) (repeat 33 64 ++ [0]).
Definition id_cap : nat -> nat := fun k => k.
Definition runes_ab : list rune := [97; 98].
Definition runes_ac : list rune := [97; 99].
Definition store_t : heap.Trie := heap.mkTrie (Some O).
Definition store_a_ab : heap.store :=
  fst (heap.mbind heap.New (fun t =>
       heap.mbind (heap.Set_ t "a" "1") (fun _ =>
       heap.Set_ t "ab" "2")) heap.empty).
Definition trie_alpha : Trie :=
  Set_ (Set_ (Set_ New "alpha" "1") "alphabet" "2") "beta" "4".

(** The calls of the package's test [TestDeletePathCleanup] up to its
    third [Delete]. *)
Definition path_cleanup_ops : list op :=
  [OpSet "alpha" "1"; OpSet "alphabet" "2"; OpSet "alphanumeric" "3";
   OpSet "beta" "4"; OpSet "delta" "5"; OpDelete "alpha"; OpSet "alpha" "1";
   OpDelete "alphanumeric"].


(* ================================================================== *)
(** * Basic facts *)

Lemma bind_Ok {A B : Type} (m : result A) (k : A -> result B) (b : B) :
  bind m k = Ok b -> exists a, m = Ok a /\ k a = Ok b.
Proof.
  destruct m as [a | p | ]; simpl; intros H; try discriminate.
  exists a; split; [reflexivity | exact H].
Qed.

Lemma bind_not_OutOfFuel {A B : Type} (m : result A) (k : A -> result B) :
  m <> OutOfFuel -> (forall a, m = Ok a -> k a <> OutOfFuel) ->
  bind m k <> OutOfFuel.
Proof.
  destruct m as [a | p | ]; simpl; intros Hm Hk.
  - apply Hk; reflexivity.
  - discriminate.
  - contradiction.
Qed.

Lemma len_app {A : Type} (l1 l2 : list A) : len (l1 ++ l2) = len l1 + len l2.
Proof. unfold len. rewrite length_app. lia. Qed.

Lemma len_nonneg {A : Type} (l : list A) : 0 <= len l.
Proof. unfold len. lia. Qed.

Lemma int8_range (z : Z) : -128 <= int8 z <= 127.
Proof.
  unfold int8. pose proof (Z.mod_pos_bound (z + 128) 256). lia.
Qed.

Lemma int8_small (z : Z) : -128 <= z <= 127 -> int8 z = z.
Proof.
  intros H. unfold int8. rewrite Z.mod_small; lia.
Qed.

(** ** The decoder *)

Lemma extractRunes_empty : extractRunes EmptyString = [].
Proof. reflexivity. Qed.

Lemma extractRunes_nonempty (c : ascii) (s : string) :
  extractRunes (String c s) <> [].
Proof.
  unfold extractRunes. simpl String.length. cbn [decode_loop].
  destruct (utf8.DecodeRuneInString (String c s)) as [r w]. discriminate.
Qed.

Lemma extractRunes_nil_iff (s : string) :
  extractRunes s = [] <-> s = EmptyString.
Proof.
  split.
  - destruct s as [| c s]; [reflexivity |].
    intros H. exfalso. exact (extractRunes_nonempty c s H).
  - intros ->. reflexivity.
Qed.

(** ** Maps of children *)

Section runemap_facts.
Context {A : Type}.
Implicit Types (m : list (rune * A)) (r : rune) (x : A).

Lemma lookup_store_same r x m :
  runemap.lookup r (runemap.store r x m) = Some x.
Proof.
  induction m as [| [r' y] m IH]; simpl.
  - rewrite Z.eqb_refl. reflexivity.
  - destruct (r =? r') eqn:E; simpl.
    + rewrite Z.eqb_refl. reflexivity.
    + rewrite E. exact IH.
Qed.

Lemma lookup_store_other r r' x m :
  r <> r' -> runemap.lookup r' (runemap.store r x m) = runemap.lookup r' m.
Proof.
  intros Hne. induction m as [| [r0 y] m IH]; simpl.
  - destruct (r' =? r) eqn:E; [apply Z.eqb_eq in E; congruence | reflexivity].
  - destruct (r =? r0) eqn:E; simpl.
    + apply Z.eqb_eq in E. subst r0.
      destruct (r' =? r) eqn:E'; [apply Z.eqb_eq in E'; congruence |].
      reflexivity.
    + destruct (r' =? r0); [reflexivity | exact IH].
Qed.

Lemma lookup_remove_same r m :
  runemap.lookup r (runemap.remove r m) = None.
Proof.
  induction m as [| [r' y] m IH]; simpl; [reflexivity |].
  destruct (r =? r') eqn:E; simpl; [exact IH |].
  rewrite E. exact IH.
Qed.

Lemma lookup_remove_other r r' m :
  r <> r' -> runemap.lookup r' (runemap.remove r m) = runemap.lookup r' m.
Proof.
  intros Hne. induction m as [| [r0 y] m IH]; simpl; [reflexivity |].
  destruct (r =? r0) eqn:E; simpl.
  - apply Z.eqb_eq in E. subst r0.
    destruct (r' =? r) eqn:E'; [apply Z.eqb_eq in E'; congruence | exact IH].
  - destruct (r' =? r0); [reflexivity | exact IH].
Qed.

Lemma lookup_In r x m : runemap.lookup r m = Some x -> In (r, x) m.
Proof.
  induction m as [| [r' y] m IH]; simpl; [discriminate |].
  destruct (r =? r') eqn:E.
  - apply Z.eqb_eq in E. intros [= ->]. left. congruence.
  - intros H. right. exact (IH H).
Qed.
End runemap_facts.

(* ================================================================== *)
(** * Point operations *)

Lemma Get_data_at (t : Trie) (key : string) :
  Get t key = answer_of (data_at (root t) (extractRunes key)).
Proof.
  unfold Get, data_at, answer_of.
  destruct (descend (root t) (extractRunes key)) as [x |]; reflexivity.
Qed.

Lemma data_at_nil (n : node) : data_at n [] = data n.
Proof. reflexivity. Qed.

Lemma data_at_cons (n : node) (r : rune) (q : list rune) :
  data_at n (r :: q) =
  match runemap.lookup r (child n) with
  | Some x => data_at x q
  | None => None
  end.
Proof.
  unfold data_at. simpl.
  destruct (runemap.lookup r (child n)); reflexivity.
Qed.

Lemma data_at_leaf (q : list rune) : data_at (Node None []) q = None.
Proof. destruct q; reflexivity. Qed.

Lemma data_at_Set_walk_same (rs : list rune) (n : node) (kv : KV) :
  data_at (Set_walk n rs kv) rs = Some kv.
Proof.
  revert n. induction rs as [| r rs IH]; intros n; simpl.
  - reflexivity.
  - destruct (runemap.lookup r (child n)) as [x |];
      rewrite data_at_cons; simpl; rewrite lookup_store_same; apply IH.
Qed.

Lemma data_at_Set_walk_other (rs : list rune) (n : node) (kv : KV)
      (q : list rune) :
  q <> rs -> data_at (Set_walk n rs kv) q = data_at n q.
Proof.
  revert n q. induction rs as [| r rs IH]; intros n q Hne.
  - destruct q as [| r0 q]; [congruence |].
    simpl. rewrite !data_at_cons. reflexivity.
  - destruct q as [| r0 q].
    + simpl. destruct (runemap.lookup r (child n)); reflexivity.
    + simpl. rewrite (data_at_cons n).
      destruct (Z.eq_dec r r0) as [-> | Hr].
      * assert (Hq : q <> rs) by congruence.
        destruct (runemap.lookup r0 (child n)) as [x |];
          rewrite data_at_cons; simpl; rewrite lookup_store_same;
          rewrite (IH _ _ Hq); [reflexivity | apply data_at_leaf].
      * destruct (runemap.lookup r (child n)) as [x |];
          rewrite data_at_cons; simpl;
          rewrite (lookup_store_other _ _ _ _ Hr); reflexivity.
Qed.


Lemma Get_Set_other (t : Trie) (key val key' : string) :
  extractRunes key' <> extractRunes key ->
  Get (Set_ t key val) key' = Get t key'.
Proof.
  intros Hne. rewrite !Get_data_at. unfold Set_. simpl root.
  rewrite (data_at_Set_walk_other _ _ _ _ Hne). reflexivity.
Qed.

Lemma data_Set_walk (n : node) (rs : list rune) (kv : KV) :
  rs <> [] -> data (Set_walk n rs kv) = data n.
Proof.
  destruct rs as [| r rs]; [congruence |]. intros _. simpl.
  destruct (runemap.lookup r (child n)); reflexivity.
Qed.

Lemma data_update (n : node) (path : list rune) (f : node -> node) :
  path <> [] \/ (forall x, data (f x) = data x) ->
  data (update n path f) = data n.
Proof.
  destruct path as [| r path]; simpl.
  - intros [H | H]; [congruence | apply H].
  - intros _. destruct (runemap.lookup r (child n)); reflexivity.
Qed.

Lemma data_root_Delete (t t' : Trie) (key : string) :
  Delete t key = Ok t' ->
  data (root t') =
  match key with EmptyString => None | _ => data (root t) end.
Proof.
  unfold Delete. intros H.
  destruct key as [| c key].
  - simpl in H. destruct (len (child (root t)) =? 0); [discriminate |].
    injection H as <-. reflexivity.
  - pose proof (extractRunes_nonempty c key) as Hne.
    destruct (Delete_walk (root t) [] (extractRunes (String c key)) None)
      as [[n cut] |]; [| injection H as <-; reflexivity].
    destruct (len (child n) =? 0).
    + destruct cut as [[cnode crune] |]; [| discriminate].
      injection H as <-. simpl root.
      rewrite data_update by (right; reflexivity).
      apply data_update. left. exact Hne.
    + injection H as <-. simpl root. apply data_update. left. exact Hne.
Qed.

Lemma data_root_call (cap : nat -> nat) (t t' : Trie) (o : op) (a : answer)
      (now : option string) :
  call cap t o = Ok (t', a) ->
  data (root t) = option_map (mkKV EmptyString) now ->
  data (root t') =
  option_map (mkKV EmptyString) (empty_key_binding [o] now).
Proof.
  intros H Hnow. destruct o; simpl in H.
  - destruct (Get t key). injection H as <- _. exact Hnow.
  - injection H as <- _. destruct key as [| c key].
    + reflexivity.
    + simpl. rewrite data_Set_walk by apply extractRunes_nonempty.
      exact Hnow.
  - apply bind_Ok in H. destruct H as [t1 [Hd H]]. injection H as <- _.
    rewrite (data_root_Delete _ _ _ Hd).
    destruct key; [reflexivity | exact Hnow].
  - apply bind_Ok in H. destruct H as [x [_ H]]. injection H as <- _.
    exact Hnow.
  - apply bind_Ok in H. destruct H as [x [_ H]]. injection H as <- _.
    exact Hnow.
  - apply bind_Ok in H. destruct H as [x [_ H]]. injection H as <- _.
    exact Hnow.
  - apply bind_Ok in H. destruct H as [x [_ H]]. injection H as <- _.
    exact Hnow.
Qed.

Lemma empty_key_binding_cons (o : op) (ops : list op) (now : option string) :
  empty_key_binding (o :: ops) now =
  empty_key_binding ops (empty_key_binding [o] now).
Proof.
  destruct o; try reflexivity; destruct key; reflexivity.
Qed.

Lemma data_root_run (cap : nat -> nat) (ops : list op) (t t' : Trie)
      (now : option string) :
  run cap t ops = Ok t' ->
  data (root t) = option_map (mkKV EmptyString) now ->
  data (root t') = option_map (mkKV EmptyString) (empty_key_binding ops now).
Proof.
  revert t now. induction ops as [| o ops IH]; intros t now H Hnow.
  - simpl in H. injection H as <-. exact Hnow.
  - simpl in H. apply bind_Ok in H. destruct H as [[t1 a] [Hc H]].
    rewrite empty_key_binding_cons.
    apply (IH t1); [exact H |].
    exact (data_root_call cap t t1 o a now Hc Hnow).
Qed.

(* ================================================================== *)
(** * Claims on the point operations *)

(** C2 (the code departs from the claim). [Delete] is claimed to leave
    every other key as it was. It does not: when the deleted leaf hangs
    below a terminal node that has no other child, the cut point stays
    above that node and the cleanup removes it with the leaf. After
    [Set("a","1"); Set("ab","2")], [Delete("ab")] makes [Get("a")] answer
    [("", false)]; the same happens to "alpha" in the package's own
    path-cleanup test when "alphabet" is deleted. *)
Theorem Delete_drops_terminal_ancestor :
  Get trie_a_ab "a" = ("1"%string, true) /\
  (exists t', Delete trie_a_ab "ab" = Ok t' /\
              Get t' "a" = (EmptyString, false)) /\
  (exists t t', run id_cap New path_cleanup_ops = Ok t /\
                Get t "alpha" = ("1"%string, true) /\
                Delete t "alphabet" = Ok t' /\
                Get t' "alpha" = (EmptyString, false)).
Proof.
  split; [reflexivity |]. split.
  - eexists. split; [vm_compute; reflexivity | vm_compute; reflexivity].
  - eexists. eexists. split; [vm_compute; reflexivity |].
    split; [vm_compute; reflexivity |].
    split; [vm_compute; reflexivity | vm_compute; reflexivity].
Qed.

(** C7, as claimed, fails: [Set] with the empty key installs its entry at
    the root, and [Get("")] then finds it. *)
Lemma root_terminal_after_Set_empty :
  Get (Set_ New "" "v") "" = ("v"%string, true) /\
  data (root (Set_ New "" "v")) <> None.
Proof. split; [reflexivity | discriminate]. Qed.

(** C7 (amended). The root carries an entry exactly while the empty key is
    bound: after any program run on a fresh trie, the root's entry is what
    the program's last [Set("", v)] left (none if there was no such call,
    or a [Delete("")] came after it), and [Get("")] answers accordingly. *)
Theorem root_entry_is_empty_key_binding (cap : nat -> nat) (ops : list op)
        (t : Trie) :
  run cap New ops = Ok t ->
  data (root t) = option_map (mkKV EmptyString) (empty_key_binding ops None) /\
  Get t EmptyString =
  match empty_key_binding ops None with
  | Some v => (v, true)
  | None => (EmptyString, false)
  end.
Proof.
  intros H.
  assert (Hd := data_root_run cap ops New t None H eq_refl).
  split; [exact Hd |].
  rewrite Get_data_at. simpl extractRunes. rewrite data_at_nil, Hd.
  destruct (empty_key_binding ops None); reflexivity.
Qed.

Lemma root_entry_is_empty_key_binding_witness :
  run id_cap New [OpSet "b" "1"; OpSet "" "v"; OpGet ""; OpDelete "b"]
  = Ok (mkTrie (Node (Some (mkKV "" "v")) [])) /\
  data (root (mkTrie (Node (Some (mkKV "" "v")) []))) = Some (mkKV "" "v") /\
  Get (mkTrie (Node (Some (mkKV "" "v")) [])) "" = ("v"%string, true).
Proof.
  assert (H : run id_cap New [OpSet "b" "1"; OpSet "" "v"; OpGet "";
                              OpDelete "b"]
              = Ok (mkTrie (Node (Some (mkKV "" "v")) [])))
    by (vm_compute; reflexivity).
  split; [exact H |].
  exact (root_entry_is_empty_key_binding id_cap _ _ H).
Defined.



(* ================================================================== *)
(** * Claims settled by running the code *)

(** C1 (the code departs from the claim). [accepts] converts the number of
    columns left, [len(rs) - offset - i], to int8 before it compares it
    with [d]. With a query of 257 scalars and the stored key "a", 256
    columns are left after the first scalar, which int8 turns into 0: at
    [d = 0] the key "a" is returned although its distance to the query is
    256. (At [d = 32] the search for "a" panics on a trie that holds "b",
    at distance 1: the overflow recorded under C5.) *)
Theorem Suggest_false_match_on_long_query :
  Suggest trie_a query_257 0 1 = Ok [mkKV "a" "a"] /\
  editDistance "a" query_257 = 256%nat /\
  Suggest trie_b "a" 32 5 = Panic IndexOutOfRange /\
  editDistance "b" "a" = 1%nat.
Proof.
  split; [vm_compute; reflexivity |].
  split; [vm_compute; reflexivity |].
  split; vm_compute; reflexivity.
Qed.

Lemma state_inv_start_32 : state_inv 32 start_32.
Proof.
  split; [reflexivity |]. unfold start_32. cbn [arr].
  apply Forall_app. split.
  - apply Forall_forall. intros x Hx. apply repeat_spec in Hx. lia.
  - constructor; [lia | constructor].
Qed.

(** C4 (the code departs from the claim). For [d = 32] the start state of
    the NFA for "a" satisfies the representation invariant, and on the
    scalar "b" the horizontal contribution of diagonal 0 is
    [33 + jump[33] = 33 + 97 = 130], which int8 wraps to -126: the code
    writes -126 into [arr'[0]] and reports the minimum -128, where the
    claimed successor has 33 in that cell and the minimum 1. *)
Theorem transition_wraps_at_d32 :
  start nfa_a_32 = Ok start_32 /\
  state_inv 32 start_32 /\
  (exists s', transition nfa_a_32 start_32 98 = Ok (s', -128) /\
              offset s' = -63 /\ cell (arr s') 0 = -126) /\
  cell (arr (fst (spec_transition [97] 32 start_32 98))) 0 = 33 /\
  snd (spec_transition [97] 32 start_32 98) = 1.
Proof.
  split; [vm_compute; reflexivity |].
  split; [exact state_inv_start_32 |].
  split.
  - eexists. split; [vm_compute; reflexivity |].
    split; vm_compute; reflexivity.
  - split; vm_compute; reflexivity.
Qed.

(** C5 (the code departs from the claim). The searches are not total for
    [d <= 126]. From [d = 32] on, a sum of two int8 cells can exceed 127
    and wrap to a negative minimum, which then indexes [stacks]: all four
    operations panic with an index out of range. From [d = 64] on,
    [2*d+1] itself wraps to a negative length and [newState] panics in
    [make]. The bound [d = 31] is still served. *)
Theorem searches_panic_from_d32 :
  Suggest trie_b "a" 32 5 = Panic IndexOutOfRange /\
  SuggestSuffixes trie_b query_33 32 5 = Panic IndexOutOfRange /\
  SuggestAfterExactPrefix id_cap trie_b "a" 0 32 5 = Panic IndexOutOfRange /\
  SuggestSuffixesAfterExactPrefix id_cap trie_b query_33 0 32 5
  = Panic IndexOutOfRange /\
  Suggest trie_b "a" 64 5 = Panic MakeSliceLenOutOfRange /\
  Suggest trie_b "a" 126 5 = Panic MakeSliceLenOutOfRange /\
  Suggest trie_b "a" 31 5 = Ok [mkKV "b" "v"].
Proof.
  repeat split; vm_compute; reflexivity.
Qed.

(** C6 (the code departs from the claim). At [d = 32], with the key "ba"
    stored and a query of 33 times "a", the key is within distance 32 of
    the query, so it has a prefix (itself) that [SuggestSuffixes] should
    report; the search panics instead, on the transition for "b" (the
    overflow recorded under C5). *)
Theorem SuggestSuffixes_panics_on_stored_match :
  Get trie_ba "ba" = ("v"%string, true) /\
  editDistance "ba" query_33 = 32%nat /\
  SuggestSuffixes trie_ba query_33 32 1 = Panic IndexOutOfRange.
Proof.
  repeat split; vm_compute; reflexivity.
Qed.

(** C8 (the code departs from the claim). Neither operation checks [p]
    against the number of scalars of the query before it evaluates
    [runes[:p]]. For the empty query the slice has capacity 0, and any
    [p = 1] makes both operations panic with slice bounds out of range,
    whatever the trie, [d] and the limit. *)
Theorem exact_prefix_beyond_query_panics (cap : nat -> nat) (t : Trie)
        (d n : Z) :
  cap 0%nat = 0%nat ->
  SuggestAfterExactPrefix cap t "" 1 d n = Panic SliceBoundsOutOfRange /\
  SuggestSuffixesAfterExactPrefix cap t "" 1 d n
  = Panic SliceBoundsOutOfRange.
Proof.
  intros Hcap.
  unfold SuggestAfterExactPrefix, SuggestSuffixesAfterExactPrefix,
    after_exact_prefix.
  simpl extractRunes. simpl List.length. rewrite Hcap.
  split; reflexivity.
Qed.

Lemma exact_prefix_beyond_query_panics_witness :
  SuggestAfterExactPrefix id_cap New "" 1 1 1 = Panic SliceBoundsOutOfRange /\
  SuggestSuffixesAfterExactPrefix id_cap New "" 1 1 1
  = Panic SliceBoundsOutOfRange.
Proof.
  exact (exact_prefix_beyond_query_panics id_cap New 1 1 eq_refl).
Defined.

(* ================================================================== *)
(** * The order of the results *)

(** ** Lists *)

Lemma nth_error_set_nth {A : Type} (l : list A) (i j : nat) (x y : A) :
  nth_error (set_nth l i x) j = Some y ->
  (j = i /\ y = x) \/ nth_error l j = Some y.
Proof.
  revert i j. induction l as [| a l IH]; intros i j H.
  - destruct i; simpl in H; destruct j; discriminate.
  - destruct i as [| i]; destruct j as [| j]; simpl in *.
    + injection H as <-. left. split; reflexivity.
    + right. exact H.
    + right. exact H.
    + destruct (IH i j H) as [[-> ->] | H']; [left | right]; auto.
Qed.

Lemma length_set_nth {A : Type} (l : list A) (i : nat) (x : A) :
  List.length (set_nth l i x) = List.length l.
Proof.
  revert i. induction l as [| a l IH]; intros [| i]; simpl; auto.
Qed.

Lemma Sorted_le_app (l1 l2 : list Z) (b : Z) :
  Sorted Z.le l1 -> Forall (fun x => x <= b) l1 ->
  Sorted Z.le l2 -> Forall (fun x => b <= x) l2 ->
  Sorted Z.le (l1 ++ l2).
Proof.
  intros S1 F1 S2 F2. induction l1 as [| a l1 IH]; simpl; [exact S2 |].
  inversion S1 as [| ? ? S1' H1]; subst. inversion F1 as [| ? ? Fa F1']; subst.
  constructor; [apply IH; assumption |].
  destruct l1 as [| a' l1]; simpl.
  - destruct l2 as [| c l2]; constructor.
    inversion F2; subst. lia.
  - constructor. inversion H1; subst. assumption.
Qed.

Lemma Sorted_le_repeat (b : Z) (k : nat) : Sorted Z.le (repeat b k).
Proof.
  induction k as [| k IH]; simpl; constructor; [exact IH |].
  destruct k; simpl; constructor. lia.
Qed.

Lemma Sorted_le_firstn (k : nat) (l : list Z) :
  Sorted Z.le l -> Sorted Z.le (firstn k l).
Proof.
  revert l. induction k as [| k IH]; intros l S; simpl; [constructor |].
  destruct l as [| a l]; [constructor |].
  inversion S as [| ? ? S' H]; subst. constructor; [apply IH; exact S' |].
  destruct k; simpl; [constructor |].
  destruct l as [| a' l]; constructor. inversion H; subst. assumption.
Qed.

Lemma Forall2_firstn {A B : Type} (R : A -> B -> Prop) (k : nat)
      (l1 : list A) (l2 : list B) :
  Forall2 R l1 l2 -> Forall2 R (firstn k l1) (firstn k l2).
Proof.
  intros H. revert k. induction H as [| a b l1 l2 Hab H IH]; intros k.
  - rewrite !firstn_nil. constructor.
  - destruct k; simpl; constructor; auto.
Qed.

Lemma Forall2_repeat_r {A B : Type} (R : A -> B -> Prop) (l : list A)
      (b : B) :
  Forall (fun a => R a b) l -> Forall2 R l (repeat b (List.length l)).
Proof.
  induction 1; simpl; constructor; auto.
Qed.

(** ** Subtrees *)

Lemma keyed_at_unfold (path : list rune) (n : node) :
  keyed_at path n <->
  match data n with
  | Some kv => extractRunes (Key kv) = path
  | None => True
  end /\
  Forall (fun e => keyed_at (path ++ [fst e]) (snd e)) (child n).
Proof.
  destruct n as [dt cs]. simpl.
  assert (H : (fix all (cs : list (rune * node)) : Prop :=
                 match cs with
                 | [] => True
                 | (r, x) :: cs' => keyed_at (path ++ [r]) x /\ all cs'
                 end) cs <->
              Forall (fun e => keyed_at (path ++ [fst e]) (snd e)) cs).
  { induction cs as [| [r x] cs IH].
    - split; [constructor | trivial].
    - split.
      + intros [H1 H2]. constructor; [exact H1 | apply IH; exact H2].
      + intros H. inversion H; subst. split; [assumption | apply IH; assumption]. }
  rewrite H. reflexivity.
Qed.

Lemma keyed_at_data (path : list rune) (n : node) (kv : KV) :
  keyed_at path n -> data n = Some kv -> extractRunes (Key kv) = path.
Proof.
  intros H E. apply keyed_at_unfold in H. destruct H as [H _].
  rewrite E in H. exact H.
Qed.

Lemma keyed_at_children (path : list rune) (n : node) :
  keyed_at path n ->
  Forall (fun e => keyed_at (path ++ [fst e]) (snd e)) (child n).
Proof.
  intros H. apply keyed_at_unfold in H. apply H.
Qed.

Lemma keyed_at_lookup (path : list rune) (n x : node) (r : rune) :
  keyed_at path n -> runemap.lookup r (child n) = Some x ->
  keyed_at (path ++ [r]) x.
Proof.
  intros H E. apply keyed_at_children in H. apply lookup_In in E.
  rewrite Forall_forall in H. exact (H _ E).
Qed.

Lemma keyed_at_exact_prefix (prefix base : list rune) (n x : node) :
  keyed_at base n -> exact_prefix n prefix = Some x ->
  keyed_at (base ++ prefix) x.
Proof.
  revert base n. induction prefix as [| r prefix IH]; intros base n H E.
  - simpl in E. injection E as <-. rewrite app_nil_r. exact H.
  - simpl in E.
    destruct (runemap.lookup r (child n)) as [y |] eqn:L; [| discriminate].
    replace (base ++ r :: prefix) with ((base ++ [r]) ++ prefix)
      by (rewrite <- app_assoc; reflexivity).
    apply (IH _ y); [| exact E].
    exact (keyed_at_lookup _ _ _ _ H L).
Qed.

(** ** Runs of the NFA *)

Lemma nfa_run_snoc (n0 : nfa) (path : list rune) (s0 s ns : state)
      (l0 l min : Z) (r : rune) :
  nfa_run n0 s0 l0 path = Ok (s, l) ->
  transition n0 s r = Ok (ns, min) ->
  nfa_run n0 s0 l0 (path ++ [r]) = Ok (ns, min).
Proof.
  revert s0 l0. induction path as [| c path IH]; intros s0 l0 H T; simpl in *.
  - injection H as -> ->. rewrite T. reflexivity.
  - destruct (transition n0 s0 c) as [[s1 m1] | |]; simpl in *;
      try discriminate.
    apply IH; assumption.
Qed.

(** ** The policies *)

Lemma doNotExpandSuffixes_ok : process_ok true doNotExpandSuffixes.
Proof.
  intros x limit rs halt base K H. unfold doNotExpandSuffixes in H.
  destruct (data x) as [kv |] eqn:E; injection H as <- _.
  - constructor; [| constructor]. exists []. rewrite app_nil_r.
    split; [exact (keyed_at_data _ _ _ K E) | reflexivity].
  - constructor.
Qed.

Lemma push_children_below (base : list rune) (cs : list (rune * node))
      (stack : list node) :
  Forall (fun e => exists rest, keyed_at (base ++ rest) (snd e)) cs ->
  Forall (fun x => exists rest, keyed_at (base ++ rest) x) stack ->
  Forall (fun x => exists rest, keyed_at (base ++ rest) x)
         (push_children cs stack).
Proof.
  unfold push_children. revert stack.
  induction cs as [| e cs IH]; intros stack Hc Hs; simpl; [exact Hs |].
  inversion Hc; subst. apply IH; [assumption |].
  constructor; assumption.
Qed.

Lemma children_below (base rest : list rune) (x : node) :
  keyed_at (base ++ rest) x ->
  Forall (fun e => exists rest', keyed_at (base ++ rest') (snd e)) (child x).
Proof.
  intros K. apply keyed_at_children in K.
  eapply Forall_impl; [| exact K].
  intros e He. exists (rest ++ [fst e]). rewrite app_assoc. exact He.
Qed.

Lemma expand_loop_below (base : list rune) (fuel : nat) (stack : list node)
      (results out : list KV) (limit : Z) :
  Forall (fun x => exists rest, keyed_at (base ++ rest) x) stack ->
  Forall (fun kv => exists rest, extractRunes (Key kv) = base ++ rest)
         results ->
  expand_loop fuel stack results limit = Ok out ->
  Forall (fun kv => exists rest, extractRunes (Key kv) = base ++ rest) out.
Proof.
  revert stack results.
  induction fuel as [| fuel IH]; intros stack results Hs Hr H; simpl in H;
    [discriminate |].
  destruct stack as [| x stack]; [injection H as <-; exact Hr |].
  inversion Hs as [| ? ? [rest K] Hs']; subst.
  assert (Hpush := push_children_below base (child x) stack
                     (children_below base rest x K) Hs').
  destruct (data x) as [kv |] eqn:E.
  - assert (Hr' : Forall (fun kv => exists rest,
                              extractRunes (Key kv) = base ++ rest)
                         (results ++ [kv])).
    { apply Forall_app. split; [exact Hr |].
      constructor; [| constructor].
      exists rest. exact (keyed_at_data _ _ _ K E). }
    destruct (len (results ++ [kv]) >=? limit).
    + injection H as <-. exact Hr'.
    + exact (IH _ _ Hpush Hr' H).
  - exact (IH _ _ Hpush Hr H).
Qed.

Lemma expandSuffixes_ok : process_ok false expandSuffixes.
Proof.
  intros x limit rs halt base K H. unfold expandSuffixes in H.
  apply bind_Ok in H. destruct H as [out [H E]]. injection E as <- _.
  assert (F : Forall (fun kv => exists rest,
                          extractRunes (Key kv) = base ++ rest) out).
  { apply (expand_loop_below base (S (size x)) [x] [] out limit);
      [| constructor | exact H].
    constructor; [| constructor]. exists []. rewrite app_nil_r. exact K. }
  eapply Forall_impl; [| exact F].
  intros kv [rest Hk]. exists rest. split; [exact Hk | discriminate].
Qed.

(** ** The work list *)

Lemma stacks_ok_set_nth (n0 : nfa) (s0 : state) (pre : list rune)
      (stacks : list (list frame)) (k : nat) (st : list frame) :
  stacks_ok n0 s0 pre stacks ->
  Forall (frame_ok n0 s0 pre (Z.of_nat k)) st ->
  stacks_ok n0 s0 pre (set_nth stacks k st).
Proof.
  intros Hs Hst j st' E.
  destruct (nth_error_set_nth _ _ _ _ _ E) as [[-> ->] | E'];
    [exact Hst | exact (Hs _ _ E')].
Qed.

Lemma index_Ok {A : Type} (l : list A) (i : Z) (x : A) :
  index l i = Ok x -> 0 <= i /\ nth_error l (Z.to_nat i) = Some x.
Proof.
  unfold index. destruct (i <? 0) eqn:E; [discriminate |].
  apply Z.ltb_ge in E.
  destruct (nth_error l (Z.to_nat i)) as [y |]; [| discriminate].
  intros [= ->]. split; [exact E | reflexivity].
Qed.

Lemma assign_Ok {A : Type} (l l' : list A) (i : Z) (x : A) :
  assign l i x = Ok l' ->
  0 <= i < len l /\ l' = set_nth l (Z.to_nat i) x.
Proof.
  unfold assign.
  destruct ((i <? 0) || (len l <=? i)) eqn:E; [discriminate |].
  apply orb_false_iff in E. destruct E as [E1 E2].
  apply Z.ltb_ge in E1. apply Z.leb_gt in E2.
  intros [= <-]. split; [lia | reflexivity].
Qed.

Lemma stacks_ok_push (n0 : nfa) (s0 : state) (pre : list rune)
      (stacks stacks' : list (list frame)) (min : Z) (f : frame) :
  stacks_ok n0 s0 pre stacks ->
  frame_ok n0 s0 pre min f ->
  push stacks min f = Ok stacks' ->
  stacks_ok n0 s0 pre stacks'.
Proof.
  intros Hs Hf H. unfold push in H.
  apply bind_Ok in H. destruct H as [st [Hi Ha]].
  apply index_Ok in Hi. destruct Hi as [Hmin Hnth].
  apply assign_Ok in Ha. destruct Ha as [_ ->].
  apply stacks_ok_set_nth; [exact Hs |].
  rewrite Z2Nat.id by exact Hmin.
  constructor; [exact Hf |].
  specialize (Hs _ _ Hnth). rewrite Z2Nat.id in Hs by exact Hmin. exact Hs.
Qed.

Lemma stacks_ok_register (n0 : nfa) (s0 : state) (pre path : list rune)
      (d l : Z) (s : state) (cs : list (rune * node))
      (stacks stacks' : list (list frame)) :
  nfa_run n0 s0 0 path = Ok (s, l) ->
  Forall (fun e => keyed_at ((pre ++ path) ++ [fst e]) (snd e)) cs ->
  stacks_ok n0 s0 pre stacks ->
  register n0 d s cs stacks = Ok stacks' ->
  stacks_ok n0 s0 pre stacks'.
Proof.
  intros Hrun. revert stacks.
  induction cs as [| [r x] cs IH]; intros stacks Hc Hs H; simpl in H.
  - injection H as <-. exact Hs.
  - inversion Hc as [| ? ? Kx Hc']; subst. simpl in Kx.
    apply bind_Ok in H. destruct H as [[ns min] [T H]].
    destruct (min <? int8 (d + 1)).
    + apply bind_Ok in H. destruct H as [stacks1 [P H]].
      apply (IH stacks1 Hc'); [| exact H].
      apply (stacks_ok_push n0 s0 pre stacks stacks1 min (mkFrame x ns) Hs);
        [| exact P].
      exists (path ++ [r]). simpl. split.
      * rewrite app_assoc. exact Kx.
      * exact (nfa_run_snoc _ _ _ _ _ _ _ _ _ Hrun T).
    + exact (IH stacks Hc' Hs H).
Qed.

(** ** The loops of [suggest] *)

Lemma slice_to_full_Ok {A : Type} (z : A) (l out : list A) (hi : Z) :
  slice_to z (len l) l hi = Ok out -> out = firstn (Z.to_nat hi) l.
Proof.
  unfold slice_to.
  destruct ((hi <? 0) || (len l <? hi)) eqn:E; [discriminate |].
  apply orb_false_iff in E. destruct E as [_ E2]. apply Z.ltb_ge in E2.
  apply Z.leb_le in E2. rewrite E2. intros [= <-]. reflexivity.
Qed.

Section Ordered.
Variables (exact : bool) (process : processAcceptingNode).
Variables (n0 : nfa) (s0 : state) (pre : list rune) (d limit : Z).
Hypothesis Hprocess : process_ok exact process.

Lemma emitted_by_frame (f : frame) (l : Z) (rs : list KV) (halt : bool)
      (lim : Z) :
  frame_ok n0 s0 pre l f ->
  accepts n0 (f_s f) = true ->
  process (f_n f) lim = Ok (rs, halt) ->
  Forall (fun kv => emitted_by exact n0 s0 pre kv l) rs.
Proof.
  intros [path [K R]] Hacc Hp.
  eapply Forall_impl; [| exact (Hprocess _ _ _ _ _ K Hp)].
  intros kv [rest [Hk Hx]]. exists path, rest, (f_s f).
  rewrite <- app_assoc in Hk. auto.
Qed.

Lemma stacks_ok_expand (f : frame) (l : Z)
      (stacks stacks' : list (list frame)) :
  frame_ok n0 s0 pre l f ->
  stacks_ok n0 s0 pre stacks ->
  register n0 d (f_s f) (child (f_n f)) stacks = Ok stacks' ->
  stacks_ok n0 s0 pre stacks'.
Proof.
  intros [path [K R]] Hs H.
  exact (stacks_ok_register n0 s0 pre path d l (f_s f) _ stacks stacks'
           R (keyed_at_children _ _ K) Hs H).
Qed.

Lemma suggest_loop_ordered (fuel : nat) :
  forall (i : nat) (stacks : list (list frame)) (results : list KV)
         (levels : list Z) (out : list KV),
    stacks_ok n0 s0 pre stacks ->
    Forall2 (emitted_by exact n0 s0 pre) results levels ->
    Sorted Z.le levels ->
    Forall (fun l => l <= Z.of_nat i) levels ->
    suggest_loop fuel process n0 d limit i stacks results = Ok out ->
    exists levels',
      Forall2 (emitted_by exact n0 s0 pre) out levels' /\
      Sorted Z.le levels'.
Proof.
  induction fuel as [| fuel IH]; intros i stacks results levels out
    Hs Hem Hsorted Hle H; simpl in H; [discriminate |].
  destruct (nth_error stacks i) as [[| f rest] |] eqn:Ei.
  - (* the stack is empty: next stratum *)
    apply (IH (S i) stacks results levels out Hs Hem Hsorted); [| exact H].
    eapply Forall_impl; [| exact Hle]. intros l Hl. simpl in Hl. lia.
  - (* pop *)
    assert (Hf : frame_ok n0 s0 pre (Z.of_nat i) f)
      by (specialize (Hs _ _ Ei); inversion Hs; assumption).
    assert (Hs1 : stacks_ok n0 s0 pre (set_nth stacks i rest)).
    { apply stacks_ok_set_nth; [exact Hs |].
      specialize (Hs _ _ Ei). inversion Hs; assumption. }
    destruct (accepts n0 (f_s f)) eqn:Hacc.
    + apply bind_Ok in H. destruct H as [[rs halt] [Hp H]].
      assert (Hrs := emitted_by_frame f _ rs halt _ Hf Hacc Hp).
      assert (Hem' : Forall2 (emitted_by exact n0 s0 pre) (results ++ rs)
                             (levels ++ repeat (Z.of_nat i) (List.length rs))).
      { apply Forall2_app; [exact Hem |]. apply Forall2_repeat_r. exact Hrs. }
      assert (Hsorted' : Sorted Z.le
                           (levels ++ repeat (Z.of_nat i) (List.length rs))).
      { apply (Sorted_le_app _ _ (Z.of_nat i)); auto using Sorted_le_repeat.
        apply Forall_forall. intros x Hx. apply repeat_spec in Hx. lia. }
      assert (Hle' : Forall (fun l => l <= Z.of_nat i)
                            (levels ++ repeat (Z.of_nat i) (List.length rs))).
      { apply Forall_app. split; [exact Hle |].
        apply Forall_forall. intros x Hx. apply repeat_spec in Hx. lia. }
      destruct (len (results ++ rs) >=? limit).
      * apply slice_to_full_Ok in H. subst out.
        exists (firstn (Z.to_nat limit)
                       (levels ++ repeat (Z.of_nat i) (List.length rs))).
        split; [apply Forall2_firstn; exact Hem' |].
        apply Sorted_le_firstn. exact Hsorted'.
      * destruct halt.
        -- exact (IH i _ _ _ out Hs1 Hem' Hsorted' Hle' H).
        -- apply bind_Ok in H. destruct H as [stacks2 [Hr H]].
           apply (IH i stacks2 _ _ out) with (2 := Hem'); auto.
           exact (stacks_ok_expand f _ _ _ Hf Hs1 Hr).
    + apply bind_Ok in H. destruct H as [stacks2 [Hr H]].
      apply (IH i stacks2 results levels out); auto.
      exact (stacks_ok_expand f _ _ _ Hf Hs1 Hr).
  - (* the outer loop is over *)
    injection H as <-. exists levels. split; assumption.
Qed.
End Ordered.

Lemma emitted_by_at (exact : bool) (pre q : list rune) (d : Z) (n0 : nfa)
      (s0 : state) (kv : KV) (l : Z) :
  newNfa q d = Ok n0 -> start n0 = Ok s0 ->
  emitted_by exact n0 s0 pre kv l -> emitted_at exact pre q d kv l.
Proof.
  intros Hn Hs [path [rest [s [Hk [Hr [Ha Hx]]]]]].
  exists path, rest, n0, s. repeat split; auto.
  unfold reach. rewrite Hn. simpl. rewrite Hs. simpl. rewrite Hr. reflexivity.
Qed.

Lemma nth_error_repeat_nil (k j : nat) (st : list frame) :
  nth_error (repeat ([] : list frame) k) j = Some st -> st = [].
Proof.
  intros H. apply nth_error_In in H. apply repeat_spec in H. exact H.
Qed.

Lemma suggest_ordered (exact : bool) (process : processAcceptingNode)
      (x : node) (pre q : list rune) (d limit : Z) (out : list KV) :
  process_ok exact process ->
  keyed_at pre x ->
  suggest process x q d limit = Ok out ->
  ordered_by_stratum exact pre q d out.
Proof.
  intros Hp K H. unfold suggest in H.
  apply bind_Ok in H. destruct H as [n0 [Hn H]].
  apply bind_Ok in H. destruct H as [s0 [Hs H]].
  apply bind_Ok in H. destruct H as [stacks0 [Hm H]].
  apply bind_Ok in H. destruct H as [stacks [Ha H]].
  unfold make in Hm. destruct (int8 (d + 1) <? 0); [discriminate |].
  injection Hm as <-.
  apply assign_Ok in Ha. destruct Ha as [_ ->].
  assert (G : exists levels,
             Forall2 (emitted_by exact n0 s0 pre) out levels /\
             Sorted Z.le levels).
  { eapply (suggest_loop_ordered exact process n0 s0 pre d limit Hp)
      with (levels := []); [| | | | exact H].
    - intros j st E. apply nth_error_set_nth in E.
      destruct E as [[-> ->] | E].
      + constructor; [| constructor]. exists []. rewrite app_nil_r.
        split; [exact K | reflexivity].
      + apply nth_error_repeat_nil in E. subst st. constructor.
    - constructor.
    - constructor.
    - constructor. }
  destruct G as [levels [Hem Hsorted]].
  exists levels. split; [| exact Hsorted].
  eapply Forall2_impl; [| exact Hem].
  intros kv l. apply emitted_by_at; assumption.
Qed.

Lemma slice_from_Ok {A : Type} (l out : list A) (lo : Z) :
  slice_from l lo = Ok out ->
  0 <= lo <= len l /\ out = skipn (Z.to_nat lo) l.
Proof.
  unfold slice_from.
  destruct ((lo <? 0) || (len l <? lo)) eqn:E; [discriminate |].
  apply orb_false_iff in E. destruct E as [E1 E2].
  apply Z.ltb_ge in E1. apply Z.ltb_ge in E2.
  intros [= <-]. split; [lia | reflexivity].
Qed.

Lemma slice_to_within {A : Type} (z : A) (cap : Z) (l out : list A) (hi : Z) :
  hi <= len l -> slice_to z cap l hi = Ok out ->
  out = firstn (Z.to_nat hi) l.
Proof.
  intros Hhi. unfold slice_to.
  destruct ((hi <? 0) || (cap <? hi)); [discriminate |].
  apply Z.leb_le in Hhi. rewrite Hhi. intros [= <-]. reflexivity.
Qed.

Lemma after_exact_prefix_ordered (exact : bool)
      (process : processAcceptingNode) (cap : nat -> nat) (t : Trie)
      (key : string) (p d n : Z) (out : list KV) :
  process_ok exact process ->
  keyed t ->
  after_exact_prefix cap process t key p d n = Ok out ->
  ordered_by_stratum exact (firstn (Z.to_nat p) (extractRunes key))
                     (skipn (Z.to_nat p) (extractRunes key)) d out.
Proof.
  intros Hp K H. unfold after_exact_prefix in H.
  apply bind_Ok in H. destruct H as [prefix [Hpre H]].
  destruct (exact_prefix (root t) prefix) as [curr |] eqn:E.
  - apply bind_Ok in H. destruct H as [rest [Hrest H]].
    apply slice_from_Ok in Hrest. destruct Hrest as [Hrange ->].
    apply (slice_to_within _ _ _ _ _ (proj2 Hrange)) in Hpre. subst prefix.
    apply (suggest_ordered exact process curr _ _ d n out Hp); [| exact H].
    exact (keyed_at_exact_prefix _ [] _ _ K E).
  - injection H as <-. exists []. split; constructor.
Qed.



Lemma keyed_trie_a_ab : keyed trie_a_ab.
Proof. vm_compute. repeat split. Qed.


(* ================================================================== *)
(** * Termination of the loops *)

Lemma index_terminates {A : Type} (l : list A) (i : Z) :
  index l i <> OutOfFuel.
Proof.
  unfold index. destruct (i <? 0); [discriminate |].
  destruct (nth_error l (Z.to_nat i)); discriminate.
Qed.

Lemma assign_terminates {A : Type} (l : list A) (i : Z) (x : A) :
  assign l i x <> OutOfFuel.
Proof.
  unfold assign. destruct ((i <? 0) || (len l <=? i)); discriminate.
Qed.

Lemma make_terminates {A : Type} (k : Z) (x : A) : make k x <> OutOfFuel.
Proof. unfold make. destruct (k <? 0); discriminate. Qed.

Lemma slice_to_terminates {A : Type} (z : A) (cap : Z) (l : list A) (hi : Z) :
  slice_to z cap l hi <> OutOfFuel.
Proof.
  unfold slice_to. destruct ((hi <? 0) || (cap <? hi)); [discriminate |].
  destruct (hi <=? len l); discriminate.
Qed.

Lemma slice_from_terminates {A : Type} (l : list A) (lo : Z) :
  slice_from l lo <> OutOfFuel.
Proof.
  unfold slice_from. destruct ((lo <? 0) || (len l <? lo)); discriminate.
Qed.

Lemma newState_terminates (d off : Z) : newState d off <> OutOfFuel.
Proof.
  unfold newState. apply bind_not_OutOfFuel; [apply make_terminates |].
  discriminate.
Qed.

Lemma transition_cell_terminates (n : nfa) (s : state) (jump : list Z)
      (j : Z) :
  transition_cell n s jump j <> OutOfFuel.
Proof.
  unfold transition_cell.
  apply bind_not_OutOfFuel; [apply index_terminates | intros sj _].
  apply bind_not_OutOfFuel; [apply index_terminates | intros jv _].
  apply bind_not_OutOfFuel.
  { destruct (j <? len (arr s) - 1); [| discriminate].
    apply bind_not_OutOfFuel; [apply index_terminates | discriminate]. }
  intros v1 _.
  apply bind_not_OutOfFuel; [| discriminate].
  destruct (j <? len (arr s) - 2); [| discriminate].
  apply bind_not_OutOfFuel; [apply index_terminates | discriminate].
Qed.

Lemma transition_loop_terminates (n : nfa) (s : state) (jump : list Z)
      (todo : nat) (j min : Z) (done : list Z) :
  transition_loop n s jump todo j min done <> OutOfFuel.
Proof.
  revert j min done. induction todo as [| todo IH]; intros j min done; simpl.
  - discriminate.
  - apply bind_not_OutOfFuel; [apply transition_cell_terminates |].
    intros val _. apply IH.
Qed.

Lemma transition_terminates (n : nfa) (s : state) (r : rune) :
  transition n s r <> OutOfFuel.
Proof.
  unfold transition.
  apply bind_not_OutOfFuel; [apply newState_terminates | intros ns _].
  apply bind_not_OutOfFuel; [apply transition_loop_terminates |].
  intros [a m] _. discriminate.
Qed.

Lemma push_terminates (stacks : list (list frame)) (min : Z) (f : frame) :
  push stacks min f <> OutOfFuel.
Proof.
  unfold push. apply bind_not_OutOfFuel; [apply index_terminates |].
  intros st _. apply assign_terminates.
Qed.

Lemma register_terminates (n : nfa) (d : Z) (s : state)
      (cs : list (rune * node)) (stacks : list (list frame)) :
  register n d s cs stacks <> OutOfFuel.
Proof.
  revert stacks. induction cs as [| [r x] cs IH]; intros stacks; simpl.
  - discriminate.
  - apply bind_not_OutOfFuel; [apply transition_terminates |].
    intros [ns min] _. destruct (min <? int8 (d + 1)); [| apply IH].
    apply bind_not_OutOfFuel; [apply push_terminates |].
    intros stacks' _. apply IH.
Qed.

(** ** Sizes *)

Lemma size_unfold (n : node) : size n = S (sizes (map snd (child n))).
Proof.
  destruct n as [dt cs]. simpl. f_equal.
  induction cs as [| [r x] cs IH]; simpl; [reflexivity |].
  rewrite IH. reflexivity.
Qed.

Lemma sizes_app (l1 l2 : list node) :
  sizes (l1 ++ l2) = (sizes l1 + sizes l2)%nat.
Proof.
  unfold sizes. induction l1 as [| x l1 IH]; simpl; [reflexivity |].
  rewrite IH. lia.
Qed.

Lemma sizes_push_children (cs : list (rune * node)) (stack : list node) :
  sizes (push_children cs stack) = (sizes (map snd cs) + sizes stack)%nat.
Proof.
  unfold push_children. revert stack.
  induction cs as [| e cs IH]; intros stack; simpl; [reflexivity |].
  rewrite IH. simpl. lia.
Qed.

Lemma expand_loop_terminates (fuel : nat) (stack : list node)
      (results : list KV) (limit : Z) :
  (sizes stack < fuel)%nat ->
  exists out, expand_loop fuel stack results limit = Ok out.
Proof.
  revert stack results.
  induction fuel as [| fuel IH]; intros stack results Hlt; [lia |].
  simpl. destruct stack as [| x stack]; [eexists; reflexivity |].
  assert (Hs : (sizes (push_children (child x) stack) < fuel)%nat).
  { rewrite sizes_push_children. simpl in Hlt. rewrite size_unfold in Hlt.
    lia. }
  destruct (data x) as [kv |].
  - destruct (len (results ++ [kv]) >=? limit); [eexists; reflexivity |].
    apply IH. exact Hs.
  - apply IH. exact Hs.
Qed.

Lemma expandSuffixes_returns (n : node) (limit : Z) :
  exists rs, expandSuffixes n limit = Ok (rs, true).
Proof.
  unfold expandSuffixes.
  destruct (expand_loop_terminates (S (size n)) [n] [] limit) as [out E].
  - simpl. lia.
  - rewrite E. simpl. eexists. reflexivity.
Qed.

Lemma doNotExpandSuffixes_returns (n : node) (limit : Z) :
  exists rs, doNotExpandSuffixes n limit = Ok (rs, false).
Proof.
  unfold doNotExpandSuffixes. destruct (data n); eexists; reflexivity.
Qed.

Lemma frames_size_set_nth (stacks : list (list frame)) (i : nat)
      (st st' : list frame) :
  nth_error stacks i = Some st ->
  (frames_size (set_nth stacks i st') + sizes (map f_n st) =
   frames_size stacks + sizes (map f_n st'))%nat.
Proof.
  revert i. induction stacks as [| a stacks IH]; intros i E.
  - destruct i; discriminate.
  - destruct i as [| i]; simpl in *.
    + injection E as ->. lia.
    + specialize (IH i E). lia.
Qed.

Lemma frames_size_push (stacks stacks' : list (list frame)) (min : Z)
      (f : frame) :
  push stacks min f = Ok stacks' ->
  frames_size stacks' = (frames_size stacks + size (f_n f))%nat /\
  List.length stacks' = List.length stacks.
Proof.
  unfold push. intros H.
  apply bind_Ok in H. destruct H as [st [Hi Ha]].
  apply index_Ok in Hi. destruct Hi as [_ Hnth].
  apply assign_Ok in Ha. destruct Ha as [_ ->].
  split; [| apply length_set_nth].
  pose proof (frames_size_set_nth stacks _ st (f :: st) Hnth) as E.
  simpl in E. lia.
Qed.

Lemma frames_size_register (n : nfa) (d : Z) (s : state)
      (cs : list (rune * node)) (stacks stacks' : list (list frame)) :
  register n d s cs stacks = Ok stacks' ->
  (frames_size stacks' <= frames_size stacks + sizes (map snd cs))%nat /\
  List.length stacks' = List.length stacks.
Proof.
  revert stacks. induction cs as [| [r x] cs IH]; intros stacks H; simpl in H.
  - injection H as <-. split; lia.
  - apply bind_Ok in H. destruct H as [[ns min] [_ H]].
    destruct (min <? int8 (d + 1)).
    + apply bind_Ok in H. destruct H as [stacks1 [P H]].
      apply frames_size_push in P. simpl in P. destruct P as [P1 P2].
      destruct (IH _ H) as [I1 I2]. simpl. split; lia.
    + destruct (IH _ H) as [I1 I2]. simpl. split; lia.
Qed.

Lemma suggest_loop_terminates (process : processAcceptingNode)
      (n : nfa) (d limit : Z) :
  (forall x lim, process x lim <> OutOfFuel) ->
  forall (fuel i : nat) (stacks : list (list frame)) (results : list KV),
    (frames_size stacks + (List.length stacks - i) < fuel)%nat ->
    suggest_loop fuel process n d limit i stacks results <> OutOfFuel.
Proof.
  intros Hproc. induction fuel as [| fuel IH]; intros i stacks results Hlt;
    [lia |].
  simpl. destruct (nth_error stacks i) as [[| f rest] |] eqn:Ei.
  - assert (i < List.length stacks)%nat
      by (apply nth_error_Some; congruence).
    apply IH. lia.
  - assert (Hi : (i < List.length stacks)%nat)
      by (apply nth_error_Some; congruence).
    pose proof (frames_size_set_nth stacks i (f :: rest) rest Ei) as Hsz.
    simpl in Hsz. rewrite size_unfold in Hsz.
    assert (Hstep : forall stacks2,
               register n d (f_s f) (child (f_n f)) (set_nth stacks i rest)
               = Ok stacks2 ->
               (frames_size stacks2 + (List.length stacks2 - i) < fuel)%nat).
    { intros stacks2 Hr. apply frames_size_register in Hr.
      destruct Hr as [H1 H2]. rewrite length_set_nth in H2. lia. }
    assert (Hreg : forall results',
               (stacks2 <- register n d (f_s f) (child (f_n f))
                                    (set_nth stacks i rest) ;;
                suggest_loop fuel process n d limit i stacks2 results')
               <> OutOfFuel).
    { intros results'.
      apply bind_not_OutOfFuel; [apply register_terminates |].
      intros stacks2 Hr. apply IH. exact (Hstep _ Hr). }
    destruct (accepts n (f_s f)); [| apply Hreg].
    apply bind_not_OutOfFuel; [apply Hproc |].
    intros [rs halt] _.
    destruct (len (results ++ rs) >=? limit); [apply slice_to_terminates |].
    destruct halt; [| apply Hreg].
    apply IH. rewrite length_set_nth. lia.
  - discriminate.
Qed.

Lemma frames_size_repeat_nil (k : nat) : frames_size (repeat [] k) = O.
Proof. induction k as [| k IH]; simpl; [reflexivity | exact IH]. Qed.

Lemma suggest_terminates (process : processAcceptingNode) (x : node)
      (q : list rune) (d limit : Z) :
  (forall y lim, process y lim <> OutOfFuel) ->
  suggest process x q d limit <> OutOfFuel.
Proof.
  intros Hproc. unfold suggest.
  apply bind_not_OutOfFuel.
  { unfold newNfa. apply bind_not_OutOfFuel; [apply make_terminates |].
    discriminate. }
  intros n0 _. apply bind_not_OutOfFuel.
  { unfold start. apply bind_not_OutOfFuel; [apply newState_terminates |].
    intros s _. apply bind_not_OutOfFuel; [apply assign_terminates |].
    discriminate. }
  intros s0 _. apply bind_not_OutOfFuel; [apply make_terminates |].
  intros stacks0 Hm. apply bind_not_OutOfFuel; [apply assign_terminates |].
  intros stacks Ha. apply (suggest_loop_terminates process n0 d limit Hproc).
  apply assign_Ok in Ha. destruct Ha as [_ ->].
  unfold make in Hm. destruct (int8 (d + 1) <? 0); [discriminate |].
  injection Hm as <-. rewrite length_set_nth.
  assert (E : (frames_size (set_nth (repeat [] (Z.to_nat (int8 (d + 1))))
                                    (Z.to_nat 0) [mkFrame x s0])
               <= size x)%nat).
  { destruct (Z.to_nat (int8 (d + 1))) as [| k]; simpl; [lia |].
    rewrite frames_size_repeat_nil. lia. }
  lia.
Qed.

Lemma after_exact_prefix_terminates (process : processAcceptingNode)
      (cap : nat -> nat) (t : Trie) (key : string) (p d n : Z) :
  (forall y lim, process y lim <> OutOfFuel) ->
  after_exact_prefix cap process t key p d n <> OutOfFuel.
Proof.
  intros Hproc. unfold after_exact_prefix.
  apply bind_not_OutOfFuel; [apply slice_to_terminates |].
  intros prefix _.
  destruct (exact_prefix (root t) prefix); [| discriminate].
  apply bind_not_OutOfFuel; [apply slice_from_terminates |].
  intros rest _. apply suggest_terminates. exact Hproc.
Qed.

Lemma doNotExpandSuffixes_terminates (x : node) (lim : Z) :
  doNotExpandSuffixes x lim <> OutOfFuel.
Proof.
  destruct (doNotExpandSuffixes_returns x lim) as [rs E]. congruence.
Qed.

Lemma expandSuffixes_terminates (x : node) (lim : Z) :
  expandSuffixes x lim <> OutOfFuel.
Proof.
  destruct (expandSuffixes_returns x lim) as [rs E]. congruence.
Qed.

(** X13. The searches terminate. The fuel given to the loops is never
    used up: on every trie, query, bound and limit each of the four
    searches ends, by returning or by panicking. *)
Theorem searches_terminate (cap : nat -> nat) (t : Trie) (key : string)
        (p d n : Z) :
  Suggest t key d n <> OutOfFuel /\
  SuggestSuffixes t key d n <> OutOfFuel /\
  SuggestAfterExactPrefix cap t key p d n <> OutOfFuel /\
  SuggestSuffixesAfterExactPrefix cap t key p d n <> OutOfFuel.
Proof.
  repeat split.
  - apply suggest_terminates. exact doNotExpandSuffixes_terminates.
  - apply suggest_terminates. exact expandSuffixes_terminates.
  - apply after_exact_prefix_terminates. exact doNotExpandSuffixes_terminates.
  - apply after_exact_prefix_terminates. exact expandSuffixes_terminates.
Qed.

(* ================================================================== *)
(** * The NFA for bounds up to 31 *)

Lemma index_cell (l : list Z) (i : Z) :
  0 <= i < len l -> index l i = Ok (cell l i).
Proof.
  intros H. unfold index, cell, len in *.
  destruct (i <? 0) eqn:E; [apply Z.ltb_lt in E; lia |].
  destruct (nth_error l (Z.to_nat i)) as [x |] eqn:N.
  - f_equal. symmetry. apply nth_error_nth. exact N.
  - apply nth_error_None in N. lia.
Qed.

Lemma cell_In (l : list Z) (i : Z) :
  0 <= i < len l -> In (cell l i) l.
Proof.
  intros H. unfold cell, len in *. apply nth_In. lia.
Qed.

(** ** The jump table *)

Lemma fill_jump_spec (rs : list rune) (r : rune) (off : Z) (i : nat) :
  forall (next : Z) (acc : list Z),
    0 <= next -> next + Z.of_nat i <= 127 ->
    List.length (fill_jump rs r off i next acc) = (i + List.length acc)%nat /\
    (forall k, (k < i)%nat ->
               0 <= nth k (fill_jump rs r off i next acc) 0 /\
               nth k (fill_jump rs r off i next acc) 0 + Z.of_nat k
               <= next + Z.of_nat i - 1) /\
    (forall k, nth (i + k) (fill_jump rs r off i next acc) 0 = nth k acc 0).
Proof.
  induction i as [| i IH]; intros next acc Hnext Hfit.
  - simpl. split; [reflexivity |]. split; [intros k Hk; lia | reflexivity].
  - cbn [fill_jump].
    set (x := off + Z.of_nat i).
    set (next' := if (x <? len rs) && (x >=? 0) &&
                     match nth_error rs (Z.to_nat x) with
                     | Some c => c =? r
                     | None => false
                     end then 0 else next).
    assert (Hn' : 0 <= next' <= next)
      by (unfold next'; destruct (_ && _); lia).
    rewrite (int8_small (next' + 1)) by lia.
    destruct (IH (next' + 1) (next' :: acc)) as [L [B T]]; [lia | lia |].
    split; [rewrite L; simpl; lia |]. split.
    + intros k Hk. destruct (Nat.eq_dec k i) as [-> | Hne].
      * specialize (T O). rewrite Nat.add_0_r in T. rewrite T. simpl. lia.
      * destruct (B k) as [B1 B2]; [lia |]. split; [exact B1 | lia].
    + intros k. specialize (T (S k)).
      replace (S i + k)%nat with (i + S k)%nat by lia. rewrite T.
      reflexivity.
Qed.

Lemma jump_table_bounds (n : nfa) (s : state) (r : rune) (d : Z) :
  0 <= d <= 31 -> nfa_for n d ->
  len (jump_table n s r) = 3 * d + 2 /\
  forall k, 0 <= k < 3 * d + 2 ->
            0 <= cell (jump_table n s r) k /\
            cell (jump_table n s r) k + k <= 4 * d + 2.
Proof.
  intros Hd [Hnd Hlen]. unfold jump_table. rewrite Hnd.
  rewrite (int8_small (d + 1)) by lia.
  destruct (fill_jump_spec (nfa_rs n) r (offset s)
              (List.length (nfa_jump n)) (d + 1) []) as [L [B _]];
    [lia | unfold len in Hlen; lia |].
  split.
  - unfold len in *. rewrite L. simpl List.length. lia.
  - intros k Hk. unfold cell.
    destruct (B (Z.to_nat k)) as [B1 B2]; [unfold len in Hlen; lia |].
    rewrite Z2Nat.id in B2 by lia. unfold len in Hlen. split; [exact B1 | lia].
Qed.

(** ** One cell *)

Lemma ltb_min (a b : Z) : (if a <? b then a else b) = Z.min b a.
Proof.
  destruct (a <? b) eqn:E; [apply Z.ltb_lt in E | apply Z.ltb_ge in E]; lia.
Qed.

Lemma state_inv_cell (d : Z) (s : state) (j : Z) :
  state_inv d s -> 0 <= j <= 2 * d -> 0 <= cell (arr s) j <= d + 1.
Proof.
  intros [L F] Hj. rewrite Forall_forall in F. apply F. apply cell_In. lia.
Qed.

Section Cell.
Variables (n : nfa) (s : state) (jump : list Z) (d : Z).
Hypothesis Hd : 0 <= d <= 31.
Hypothesis Hnd : nfa_d n = d.
Hypothesis Hs : state_inv d s.
Hypothesis Hlen : len jump = 3 * d + 2.
Hypothesis Hjump : forall k, 0 <= k < 3 * d + 2 ->
                             0 <= cell jump k /\ cell jump k + k <= 4 * d + 2.

Lemma transition_cell_value (j : Z) :
  0 <= j <= 2 * d ->
  transition_cell n s jump j = Ok (cell_value d (arr s) jump j).
Proof.
  intros Hj. unfold transition_cell, cell_value. rewrite Hnd.
  pose proof (state_inv_cell d s j Hs Hj) as Hsj.
  destruct Hs as [La _].
  rewrite (index_cell (arr s) j) by lia. cbn [bind].
  destruct (Hjump (j + cell (arr s) j)) as [J1 J2]; [lia |].
  rewrite (index_cell jump) by lia. cbn [bind].
  rewrite (int8_small (d + 1)) by lia.
  rewrite (int8_small (cell (arr s) j + _)) by lia.
  rewrite ltb_min.
  destruct (j <? len (arr s) - 1) eqn:E1.
  - apply Z.ltb_lt in E1.
    pose proof (state_inv_cell d s (j + 1) Hs ltac:(lia)) as Hs1.
    rewrite (index_cell (arr s) (j + 1)) by lia. cbn [bind].
    rewrite (int8_small (cell (arr s) (j + 1) + 1)) by lia.
    rewrite ltb_min.
    destruct (j <? len (arr s) - 2) eqn:E2.
    + apply Z.ltb_lt in E2.
      pose proof (state_inv_cell d s (j + 2) Hs ltac:(lia)) as Hs2.
      rewrite (index_cell (arr s) (j + 2)) by lia. cbn [bind].
      rewrite (int8_small (cell (arr s) (j + 2) + 1)) by lia.
      rewrite ltb_min. reflexivity.
    + reflexivity.
  - cbn [bind]. destruct (j <? len (arr s) - 2) eqn:E2.
    + apply Z.ltb_lt in E2. apply Z.ltb_ge in E1. lia.
    + reflexivity.
Qed.

Lemma cell_value_bounds (j b : Z) :
  0 <= j <= 2 * d ->
  b <= d + 1 -> Forall (fun x => b <= x) (arr s) ->
  0 <= cell_value d (arr s) jump j <= d + 1 /\
  b <= cell_value d (arr s) jump j.
Proof.
  intros Hj Hb Hlow. unfold cell_value.
  pose proof (state_inv_cell d s j Hs Hj) as Hsj.
  destruct Hs as [La _].
  destruct (Hjump (j + cell (arr s) j)) as [J1 J2]; [lia |].
  rewrite Forall_forall in Hlow.
  pose proof (Hlow _ (cell_In (arr s) j ltac:(lia))) as Hbj.
  destruct (j <? len (arr s) - 1) eqn:E1.
  - apply Z.ltb_lt in E1.
    pose proof (state_inv_cell d s (j + 1) Hs ltac:(lia)) as Hs1.
    pose proof (Hlow _ (cell_In (arr s) (j + 1) ltac:(lia))) as Hb1.
    destruct (j <? len (arr s) - 2) eqn:E2.
    + apply Z.ltb_lt in E2.
      pose proof (state_inv_cell d s (j + 2) Hs ltac:(lia)) as Hs2.
      pose proof (Hlow _ (cell_In (arr s) (j + 2) ltac:(lia))) as Hb2.
      lia.
    + lia.
  - apply Z.ltb_ge in E1. destruct (j <? len (arr s) - 2) eqn:E2.
    + apply Z.ltb_lt in E2. lia.
    + lia.
Qed.
End Cell.

(** ** The whole transition *)

Lemma newState_small (d off : Z) :
  0 <= d <= 63 ->
  newState d off = Ok (mkState off (repeat (d + 1) (Z.to_nat (2 * d + 1)))).
Proof.
  intros Hd. unfold newState, make.
  rewrite (int8_small (2 * d)) by lia.
  rewrite (int8_small (2 * d + 1)) by lia.
  rewrite (int8_small (d + 1)) by lia.
  rewrite (int8_small (d + 1)) by lia.
  destruct (2 * d + 1 <? 0) eqn:E; [apply Z.ltb_lt in E; lia |].
  reflexivity.
Qed.

Lemma length_diagonals (j : Z) (todo : nat) :
  List.length (diagonals j todo) = todo.
Proof.
  revert j. induction todo as [| todo IH]; intros j; simpl; auto.
Qed.

Lemma In_diagonals (j : Z) (todo : nat) (k : Z) :
  In k (diagonals j todo) -> j <= k < j + Z.of_nat todo.
Proof.
  revert j. induction todo as [| todo IH]; intros j; simpl; [tauto |].
  intros [<- | H]; [lia |]. specialize (IH _ H). lia.
Qed.

Lemma nth_diagonals (j : Z) (todo k : nat) :
  (k < todo)%nat -> nth k (diagonals j todo) 0 = j + Z.of_nat k.
Proof.
  revert j k. induction todo as [| todo IH]; intros j k Hk; [lia |].
  destruct k as [| k]; simpl diagonals; cbn [nth]; [lia |].
  rewrite IH by lia. lia.
Qed.

Section Transition.
Variables (n : nfa) (s : state) (r : rune) (d : Z).
Hypothesis Hd : 0 <= d <= 31.
Hypothesis Hn : nfa_for n d.
Hypothesis Hs : state_inv d s.

Lemma transition_loop_value (todo : nat) :
  forall (j min : Z) (done : list Z),
    0 <= j -> j + Z.of_nat todo <= 2 * d + 1 ->
    transition_loop n s (jump_table n s r) todo j min done =
    Ok (rev done ++ map (cell_value d (arr s) (jump_table n s r))
                        (diagonals j todo),
        fold_left Z.min
                  (map (cell_value d (arr s) (jump_table n s r))
                       (diagonals j todo)) min).
Proof.
  destruct Hn as [Hnd Hlen].
  destruct (jump_table_bounds n s r d Hd Hn) as [Lj Bj].
  induction todo as [| todo IH]; intros j min done Hj Hfit.
  - simpl. rewrite app_nil_r. reflexivity.
  - cbn [transition_loop].
    rewrite (transition_cell_value n s _ d Hd Hnd Hs Lj Bj j) by lia.
    cbn [bind].
    assert (V : 0 <= cell_value d (arr s) (jump_table n s r) j <= d + 1).
    { eapply (cell_value_bounds s (jump_table n s r) d) with (b := 0);
        try eassumption; try lia.
      destruct Hs as [_ F]. eapply Forall_impl; [| exact F].
      simpl. intros. lia. }
    rewrite Hnd. rewrite !(int8_small (d + 1)) by lia.
    rewrite ltb_min.
    assert (E : (if cell_value d (arr s) (jump_table n s r) j <? d + 1
                 then cell_value d (arr s) (jump_table n s r) j
                 else d + 1)
                = cell_value d (arr s) (jump_table n s r) j).
    { destruct (_ <? d + 1) eqn:E; [reflexivity |].
      apply Z.ltb_ge in E. lia. }
    rewrite E. rewrite IH by lia.
    simpl. rewrite <- app_assoc. reflexivity.
Qed.

Lemma transition_next_state : transition n s r = Ok (next_state n s r).
Proof.
  unfold transition, next_state. destruct Hn as [Hnd Hlen].
  rewrite Hnd. rewrite newState_small by lia. cbn [bind arr offset].
  rewrite repeat_length.
  fold (jump_table n s r).
  replace (fill_jump (nfa_rs n) r (offset s) (List.length (nfa_jump n))
                     (int8 (d + 1)) [])
    with (jump_table n s r) by (unfold jump_table; rewrite Hnd; reflexivity).
  rewrite transition_loop_value by lia.
  rewrite (int8_small (d + 1)) by lia. reflexivity.
Qed.
End Transition.

Lemma fold_left_min_spec (l : list Z) (m0 : Z) :
  fold_left Z.min l m0 <= m0 /\
  Forall (fun x => fold_left Z.min l m0 <= x) l /\
  (fold_left Z.min l m0 = m0 \/ In (fold_left Z.min l m0) l).
Proof.
  revert m0. induction l as [| a l IH]; intros m0; simpl.
  - split; [lia |]. split; [constructor | left; reflexivity].
  - destruct (IH (Z.min m0 a)) as [H1 [H2 H3]].
    split; [lia |]. split; [constructor; [lia | exact H2] |].
    destruct H3 as [H3 | H3]; [| right; right; exact H3].
    rewrite H3. destruct (Z.min_spec m0 a) as [[_ E] | [_ E]]; rewrite E;
      [left | right; left]; reflexivity.
Qed.

Lemma fold_left_min_lower (l : list Z) (m0 b : Z) :
  b <= m0 -> Forall (fun x => b <= x) l -> b <= fold_left Z.min l m0.
Proof.
  revert m0. induction l as [| a l IH]; intros m0 H0 F; simpl; [exact H0 |].
  inversion F; subst. apply IH; [lia | assumption].
Qed.

Section NextState.
Variables (n : nfa) (s : state) (r : rune) (d : Z).
Hypothesis Hd : 0 <= d <= 31.
Hypothesis Hn : nfa_for n d.
Hypothesis Hs : state_inv d s.

Lemma next_state_cells (b : Z) :
  b <= d + 1 -> Forall (fun x => b <= x) (arr s) ->
  Forall (fun x => 0 <= x <= d + 1 /\ b <= x) (arr (fst (next_state n s r))).
Proof.
  intros Hb Hlow. unfold next_state. destruct Hn as [Hnd Hlen].
  rewrite Hnd. cbn [fst arr].
  destruct (jump_table_bounds n s r d Hd Hn) as [Lj Bj].
  apply Forall_forall. intros x Hx. apply in_map_iff in Hx.
  destruct Hx as [j [<- Hj]]. apply In_diagonals in Hj.
  apply (cell_value_bounds s (jump_table n s r) d); try assumption.
  rewrite Z2Nat.id in Hj by lia. lia.
Qed.

Lemma next_state_inv : state_inv d (fst (next_state n s r)).
Proof.
  split.
  - unfold next_state. destruct Hn as [Hnd _]. rewrite Hnd. cbn [fst arr].
    unfold len. rewrite length_map, length_diagonals. lia.
  - eapply Forall_impl; [| apply (next_state_cells 0); [lia |]].
    + simpl. intros x [H _]. exact H.
    + destruct Hs as [_ F]. eapply Forall_impl; [| exact F].
      simpl. intros. lia.
Qed.

Lemma next_state_min :
  0 <= snd (next_state n s r) <= d + 1 /\
  Forall (fun x => snd (next_state n s r) <= x)
         (arr (fst (next_state n s r))) /\
  (snd (next_state n s r) = d + 1 \/
   In (snd (next_state n s r)) (arr (fst (next_state n s r)))).
Proof.
  pose proof next_state_inv as [_ F].
  revert F. unfold next_state. destruct Hn as [Hnd _]. rewrite Hnd.
  cbn [fst snd arr]. intros F.
  set (a := map _ _) in *.
  destruct (fold_left_min_spec a (d + 1)) as [H1 [H2 H3]].
  split; [| split; assumption].
  split; [| exact H1].
  apply fold_left_min_lower; [lia |].
  eapply Forall_impl; [| exact F]. simpl. intros. lia.
Qed.

Lemma next_state_monotone (b : Z) :
  b <= d + 1 -> Forall (fun x => b <= x) (arr s) ->
  b <= snd (next_state n s r).
Proof.
  intros Hb Hlow. pose proof (next_state_cells b Hb Hlow) as F.
  revert F. unfold next_state. destruct Hn as [Hnd _]. rewrite Hnd.
  cbn [fst snd arr]. intros F.
  apply fold_left_min_lower; [exact Hb |].
  eapply Forall_impl; [| exact F]. simpl. intros x [_ H]. exact H.
Qed.
End NextState.

(* ================================================================== *)
(** * The searches for bounds up to 31 *)

Lemma Forall_set_nth {A : Type} (P : A -> Prop) (l : list A) (i : nat)
      (x : A) :
  Forall P l -> P x -> Forall P (set_nth l i x).
Proof.
  intros F Hx. revert i. induction F as [| a l Ha F IH]; intros i.
  - destruct i; constructor.
  - destruct i; simpl; constructor; auto.
Qed.

Lemma newNfa_small (q : list rune) (d : Z) :
  0 <= d ->
  newNfa q d = Ok (mkNfa q d (repeat 0 (Z.to_nat (3 * d + 2)))) /\
  nfa_for (mkNfa q d (repeat 0 (Z.to_nat (3 * d + 2)))) d.
Proof.
  intros Hd. unfold newNfa, make.
  destruct (3 * d + 2 <? 0) eqn:E; [apply Z.ltb_lt in E; lia |].
  split; [reflexivity |]. split; [reflexivity |].
  cbn [nfa_jump]. unfold len. rewrite repeat_length. lia.
Qed.

Lemma start_small (n : nfa) (d : Z) :
  0 <= d <= 63 -> nfa_d n = d ->
  exists s0, start n = Ok s0 /\ state_inv d s0 /\ offset s0 = - 2 * d /\
             cell (arr s0) (2 * d) = 0.
Proof.
  intros Hd Hnd. unfold start. rewrite Hnd.
  rewrite newState_small by lia. cbn [bind arr offset].
  rewrite (int8_small (2 * d)) by lia.
  rewrite (int8_small (- 2 * d)) by lia.
  unfold assign.
  assert (L : len (repeat (d + 1) (Z.to_nat (2 * d + 1))) = 2 * d + 1)
    by (unfold len; rewrite repeat_length; lia).
  rewrite L.
  destruct ((2 * d <? 0) || (2 * d + 1 <=? 2 * d)) eqn:E.
  { apply orb_true_iff in E. destruct E as [E | E];
      [apply Z.ltb_lt in E | apply Z.leb_le in E]; lia. }
  cbn [bind]. eexists. split; [reflexivity |]. cbn [arr offset].
  split; [| split; [reflexivity |]].
  - unfold state_inv. cbn [arr]. split.
    + unfold len in *. rewrite length_set_nth. exact L.
    + apply Forall_set_nth; [| lia].
      apply Forall_forall. intros x Hx. apply repeat_spec in Hx. lia.
  - unfold cell.
    assert (G : forall (l : list Z) (i : nat) (x : Z),
               (i < List.length l)%nat -> nth i (set_nth l i x) 0 = x).
    { induction l as [| a l IH]; intros [| i] x Hi; simpl in *; try lia;
        try reflexivity. apply IH. lia. }
    apply G. rewrite repeat_length. lia.
Qed.

Section Total.
Variables (process : processAcceptingNode) (n : nfa) (d limit : Z).
Hypothesis Hd : 0 <= d <= 31.
Hypothesis Hn : nfa_for n d.
Hypothesis Hlimit : 0 <= limit.
Hypothesis Hprocess : forall x lim, exists rs halt,
      process x lim = Ok (rs, halt).

Lemma push_valid (stacks : list (list frame)) (min : Z) (f : frame) :
  stacks_valid d stacks -> 0 <= min < d + 1 -> state_inv d (f_s f) ->
  exists stacks', push stacks min f = Ok stacks' /\ stacks_valid d stacks'.
Proof.
  intros [L F] Hmin Hf. unfold push, index.
  destruct (min <? 0) eqn:E; [apply Z.ltb_lt in E; lia |].
  destruct (nth_error stacks (Z.to_nat min)) as [st |] eqn:N.
  2: { apply nth_error_None in N. unfold len in L. lia. }
  cbn [bind]. unfold assign.
  destruct ((min <? 0) || (len stacks <=? min)) eqn:E2.
  { apply orb_true_iff in E2. destruct E2 as [E2 | E2];
      [apply Z.ltb_lt in E2 | apply Z.leb_le in E2]; lia. }
  eexists. split; [reflexivity |]. split.
  - unfold len in *. rewrite length_set_nth. exact L.
  - apply Forall_set_nth; [exact F |]. constructor; [exact Hf |].
    rewrite Forall_forall in F. apply F. eapply nth_error_In. exact N.
Qed.

Lemma register_valid (s : state) (cs : list (rune * node)) :
  state_inv d s ->
  forall stacks, stacks_valid d stacks ->
  exists stacks', register n d s cs stacks = Ok stacks' /\
                  stacks_valid d stacks'.
Proof.
  intros Hs. induction cs as [| [r x] cs IH]; intros stacks Hv; simpl.
  - eexists. split; [reflexivity | exact Hv].
  - rewrite (transition_next_state n s r d Hd Hn Hs).
    destruct (next_state n s r) as [ns m] eqn:E. cbn [bind].
    pose proof (next_state_inv n s r d Hd Hn Hs) as Hns.
    pose proof (next_state_min n s r d Hd Hn Hs) as [Hm _].
    rewrite E in Hns, Hm. cbn [fst snd] in Hns, Hm.
    rewrite (int8_small (d + 1)) by lia.
    destruct (m <? d + 1) eqn:Em; [| apply IH; exact Hv].
    apply Z.ltb_lt in Em.
    destruct (push_valid stacks m (mkFrame x ns) Hv) as [stacks1 [P Hv1]];
      [lia | exact Hns |].
    rewrite P. cbn [bind]. apply IH. exact Hv1.
Qed.

Lemma suggest_loop_no_panic (fuel : nat) :
  forall (i : nat) (stacks : list (list frame)) (results : list KV)
         (p : panic),
    stacks_valid d stacks ->
    suggest_loop fuel process n d limit i stacks results <> Panic p.
Proof.
  induction fuel as [| fuel IH]; intros i stacks results p Hv; simpl;
    [discriminate |].
  destruct (nth_error stacks i) as [[| f rest] |] eqn:Ei.
  - apply IH. exact Hv.
  - assert (Hfr : Forall (fun f => state_inv d (f_s f)) (f :: rest)).
    { destruct Hv as [_ F]. rewrite Forall_forall in F. apply F.
      eapply nth_error_In. exact Ei. }
    inversion Hfr as [| ? ? Hf Hrest]; subst.
    assert (Hv1 : stacks_valid d (set_nth stacks i rest)).
    { destruct Hv as [L F]. split.
      - unfold len in *. rewrite length_set_nth. exact L.
      - apply Forall_set_nth; assumption. }
    assert (Hreg : forall results',
               (stacks2 <- register n d (f_s f) (child (f_n f))
                                    (set_nth stacks i rest) ;;
                suggest_loop fuel process n d limit i stacks2 results')
               <> Panic p).
    { intros results'.
      destruct (register_valid (f_s f) (child (f_n f)) Hf _ Hv1)
        as [stacks2 [R Hv2]].
      rewrite R. cbn [bind]. apply IH. exact Hv2. }
    destruct (accepts n (f_s f)); [| apply Hreg].
    destruct (Hprocess (f_n f) (limit - len results)) as [rs [halt Hp]].
    rewrite Hp. cbn [bind].
    destruct (len (results ++ rs) >=? limit) eqn:El.
    + unfold slice_to.
      destruct ((limit <? 0) || (len (results ++ rs) <? limit)) eqn:E.
      { apply orb_true_iff in E. apply Z.geb_le in El.
        destruct E as [E | E]; apply Z.ltb_lt in E; lia. }
      destruct (limit <=? len (results ++ rs)); discriminate.
    + destruct halt; [apply IH; exact Hv1 | apply Hreg].
  - discriminate.
Qed.
End Total.

Lemma suggest_returns (process : processAcceptingNode) (x : node)
      (q : list rune) (d limit : Z) :
  0 <= d <= 31 -> 0 <= limit ->
  (forall y lim, exists rs halt, process y lim = Ok (rs, halt)) ->
  exists out, suggest process x q d limit = Ok out.
Proof.
  intros Hd Hlimit Hproc.
  destruct (suggest process x q d limit) as [out | p |] eqn:E.
  - exists out. reflexivity.
  - exfalso. unfold suggest in E.
    destruct (newNfa_small q d) as [En Hn]; [lia |]. rewrite En in E.
    cbn [bind] in E.
    destruct (start_small _ d ltac:(lia) (proj1 Hn)) as [s0 [Es [Hs0 _]]].
    rewrite Es in E. cbn [bind] in E.
    rewrite (int8_small (d + 1)) in E by lia.
    unfold make in E.
    destruct (d + 1 <? 0) eqn:E1; [apply Z.ltb_lt in E1; lia |].
    cbn [bind] in E. unfold assign in E.
    assert (L : len (repeat ([] : list frame) (Z.to_nat (d + 1))) = d + 1)
      by (unfold len; rewrite repeat_length; lia).
    rewrite L in E.
    destruct ((0 <? 0) || (d + 1 <=? 0)) eqn:E2.
    { apply orb_true_iff in E2. destruct E2 as [E2 | E2];
        [discriminate | apply Z.leb_le in E2; lia]. }
    cbn [bind] in E.
    revert E. apply (suggest_loop_no_panic process _ d limit Hd Hn Hlimit Hproc).
    split.
    + unfold len in *. rewrite length_set_nth. exact L.
    + apply Forall_set_nth.
      * apply Forall_forall. intros st Hst. apply repeat_spec in Hst.
        subst st. constructor.
      * constructor; [exact Hs0 | constructor].
  - exfalso. revert E. apply suggest_terminates.
    intros y lim. destruct (Hproc y lim) as [rs [halt Hp]]. congruence.
Qed.

(** ** The limit *)

Lemma suggest_loop_limit (process : processAcceptingNode) (n : nfa)
      (d limit : Z) (fuel : nat) :
  0 <= limit ->
  forall (i : nat) (stacks : list (list frame)) (results out : list KV),
    len results < limit \/ results = [] ->
    suggest_loop fuel process n d limit i stacks results = Ok out ->
    len out <= limit.
Proof.
  intros Hlimit. induction fuel as [| fuel IH];
    intros i stacks results out Hr H; simpl in H; [discriminate |].
  destruct (nth_error stacks i) as [[| f rest] |].
  - exact (IH _ _ _ _ Hr H).
  - assert (Hreg : forall results',
               len results' < limit \/ results' = [] ->
               (stacks2 <- register n d (f_s f) (child (f_n f))
                                    (set_nth stacks i rest) ;;
                suggest_loop fuel process n d limit i stacks2 results')
               = Ok out -> len out <= limit).
    { intros results' Hr' H'. apply bind_Ok in H'.
      destruct H' as [stacks2 [_ H']]. exact (IH _ _ _ _ Hr' H'). }
    destruct (accepts n (f_s f)); [| exact (Hreg _ Hr H)].
    apply bind_Ok in H. destruct H as [[rs halt] [_ H]].
    destruct (len (results ++ rs) >=? limit) eqn:El.
    + apply slice_to_full_Ok in H. subst out.
      unfold len. rewrite length_firstn. lia.
    + assert (Hr' : len (results ++ rs) < limit \/ results ++ rs = []).
      { left. destruct (Z.geb_spec (len (results ++ rs)) limit);
          [discriminate | lia]. }
      destruct halt; [exact (IH _ _ _ _ Hr' H) | exact (Hreg _ Hr' H)].
  - injection H as <-. destruct Hr as [Hr | ->]; [lia | exact Hlimit].
Qed.

Lemma suggest_limit (process : processAcceptingNode) (x : node)
      (q : list rune) (d limit : Z) (out : list KV) :
  0 <= limit -> suggest process x q d limit = Ok out -> len out <= limit.
Proof.
  intros Hlimit H. unfold suggest in H.
  apply bind_Ok in H. destruct H as [n0 [_ H]].
  apply bind_Ok in H. destruct H as [s0 [_ H]].
  apply bind_Ok in H. destruct H as [stacks0 [_ H]].
  apply bind_Ok in H. destruct H as [stacks [_ H]].
  apply (suggest_loop_limit _ _ _ _ _ Hlimit _ _ _ _ (or_intror eq_refl) H).
Qed.

Lemma after_exact_prefix_limit (process : processAcceptingNode)
      (cap : nat -> nat) (t : Trie) (key : string) (p d n : Z)
      (out : list KV) :
  0 <= n -> after_exact_prefix cap process t key p d n = Ok out ->
  len out <= n.
Proof.
  intros Hn H. unfold after_exact_prefix in H.
  apply bind_Ok in H. destruct H as [prefix [_ H]].
  destruct (exact_prefix (root t) prefix).
  - apply bind_Ok in H. destruct H as [rest [_ H]].
    exact (suggest_limit _ _ _ _ _ _ Hn H).
  - injection H as <-. exact Hn.
Qed.

(* ================================================================== *)
(** * Delete *)

(** ** Updates along a path *)

Lemma descend_app (n : node) (p q : list rune) :
  descend n (p ++ q) =
  match descend n p with
  | Some x => descend x q
  | None => None
  end.
Proof.
  revert n. induction p as [| r p IH]; intros n; simpl; [reflexivity |].
  destruct (runemap.lookup r (child n)); [apply IH | reflexivity].
Qed.

Lemma data_at_app (n x : node) (p q : list rune) :
  descend n p = Some x -> data_at n (p ++ q) = data_at x q.
Proof.
  intros H. unfold data_at. rewrite descend_app, H. reflexivity.
Qed.

(** An update at [path] is seen at [path ++ q] through the new node. *)
Lemma data_at_update_below (n x : node) (path q : list rune)
      (f : node -> node) :
  descend n path = Some x ->
  data_at (update n path f) (path ++ q) = data_at (f x) q.
Proof.
  revert n. induction path as [| r path IH]; intros n H; simpl in *.
  - injection H as ->. reflexivity.
  - destruct (runemap.lookup r (child n)) as [y |] eqn:L; [| discriminate].
    rewrite data_at_cons. simpl. rewrite lookup_store_same.
    apply IH. exact H.
Qed.

(** An update at [path] is not seen at [q] unless [path] is a prefix of
    [q]; when [q] is a proper prefix of [path] this needs [f] to keep the
    data of a node. *)
Lemma data_at_update_other (n : node) (path q : list rune)
      (f : node -> node) :
  ~ is_prefix path q ->
  data_at (update n path f) q = data_at n q.
Proof.
  revert n q. induction path as [| r path IH]; intros n q Hnp.
  - exfalso. apply Hnp. exists q. reflexivity.
  - simpl. destruct (runemap.lookup r (child n)) as [y |] eqn:L;
      [| reflexivity].
    destruct q as [| r0 q]; [reflexivity |].
    rewrite !data_at_cons. simpl.
    destruct (Z.eq_dec r r0) as [-> | Hr].
    + rewrite lookup_store_same, L. apply IH.
      intros [rest E]. apply Hnp. exists rest. simpl. congruence.
    + rewrite (lookup_store_other _ _ _ _ Hr). reflexivity.
Qed.

Lemma is_prefix_dec (p l : list rune) : {is_prefix p l} + {~ is_prefix p l}.
Proof.
  revert l. induction p as [| a p IH]; intros l.
  - left. exists l. reflexivity.
  - destruct l as [| b l].
    + right. intros [rest E]. discriminate.
    + destruct (Z.eq_dec a b) as [-> | Hne].
      * destruct (IH l) as [H | H].
        -- left. destruct H as [rest ->]. exists rest. reflexivity.
        -- right. intros [rest E]. apply H. exists rest.
           simpl in E. congruence.
      * right. intros [rest E]. simpl in E. congruence.
Defined.

(** ** The walk *)

Lemma Delete_walk_descend (rs : list rune) :
  forall (n : node) (here : list rune) (cut : option (list rune * rune)),
    match Delete_walk n here rs cut with
    | Some (x, _) => descend n rs = Some x
    | None => descend n rs = None
    end.
Proof.
  induction rs as [| r rs IH]; intros n here cut; simpl; [reflexivity |].
  destruct (runemap.lookup r (child n)) as [y |]; [apply IH | reflexivity].
Qed.

(** Where the cut point stands at the end of a walk that started with a
    cut point [c]: either still at [c], and then the walk met only nodes
    with at most one child, or at a node [m] of the walk, left by the rune
    [r], from whose child [y] on the walk met only such nodes. *)
Lemma Delete_walk_cut (rs : list rune) :
  forall (n : node) (here : list rune) (c : list rune * rune) (x : node)
         (cut' : option (list rune * rune)),
    Delete_walk n here rs (Some c) = Some (x, cut') ->
    (cut' = Some c /\ single_chain n rs) \/
    (exists rs1 r rs2 m y,
        rs = rs1 ++ r :: rs2 /\ cut' = Some (here ++ rs1, r) /\
        descend n rs1 = Some m /\ runemap.lookup r (child m) = Some y /\
        descend y rs2 = Some x /\ single_chain y rs2).
Proof.
  induction rs as [| r rs IH]; intros n here c x cut' H; simpl in H.
  - injection H as <- <-. left. split; [reflexivity | exact I].
  - destruct (runemap.lookup r (child n)) as [y |] eqn:L; [| discriminate].
    destruct (1 <? len (child n)) eqn:E; simpl in H.
    + (* the cut point moves to [n] *)
      destruct (IH _ _ _ _ _ H) as [[-> Hc] | Hx].
      * right. exists [], r, rs, n, y. rewrite app_nil_r.
        pose proof (Delete_walk_descend rs y (here ++ [r]) (Some (here, r)))
          as D. rewrite H in D.
        repeat split; auto.
      * destruct Hx as [rs1 [r' [rs2 [m [y' [-> [-> [D1 [L' [D2 C]]]]]]]]]].
        right. exists (r :: rs1), r', rs2, m, y'.
        rewrite <- app_assoc. simpl. rewrite L.
        repeat split; auto.
    + apply Z.ltb_ge in E.
      destruct (IH _ _ _ _ _ H) as [[-> Hc] | Hx].
      * left. split; [reflexivity |]. simpl. split; [exact E |].
        exists y. split; [exact L | exact Hc].
      * destruct Hx as [rs1 [r' [rs2 [m [y' [-> [-> [D1 [L' [D2 C]]]]]]]]]].
        right. exists (r :: rs1), r', rs2, m, y'.
        rewrite <- app_assoc. simpl. rewrite L.
        repeat split; auto.
Qed.

(** After at least one round the cut point is set. *)
Lemma Delete_walk_cut_top (r : rune) (rs : list rune) (n x : node)
      (cut' : option (list rune * rune)) :
  Delete_walk n [] (r :: rs) None = Some (x, cut') ->
  exists rs1 r' rs2 m y,
    r :: rs = rs1 ++ r' :: rs2 /\ cut' = Some (rs1, r') /\
    descend n rs1 = Some m /\ runemap.lookup r' (child m) = Some y /\
    descend y rs2 = Some x /\ single_chain y rs2.
Proof.
  simpl. rewrite orb_true_r.
  destruct (runemap.lookup r (child n)) as [y |] eqn:L; [| discriminate].
  intros H. destruct (Delete_walk_cut _ _ _ _ _ _ H) as [[-> Hc] | Hx].
  - exists [], r, rs, n, y.
    pose proof (Delete_walk_descend rs y [r] (Some ([], r))) as D.
    rewrite H in D. repeat split; auto.
  - destruct Hx as [rs1 [r' [rs2 [m [y' [-> [-> [D1 [L' [D2 C]]]]]]]]]].
    exists (r :: rs1), r', rs2, m, y'. simpl. rewrite L.
    repeat split; auto.
Qed.

Lemma single_child (n y z : node) (r r0 : rune) :
  len (child n) <= 1 ->
  runemap.lookup r (child n) = Some y ->
  runemap.lookup r0 (child n) = Some z ->
  r0 = r /\ z = y.
Proof.
  unfold len. destruct (child n) as [| [r1 y1] [| e cs]]; simpl.
  - discriminate.
  - intros _.
    destruct (r =? r1) eqn:E1; [| discriminate].
    destruct (r0 =? r1) eqn:E0; [| discriminate].
    apply Z.eqb_eq in E1. apply Z.eqb_eq in E0.
    intros [= <-] [= <-]. split; congruence.
  - intros H. lia.
Qed.

(** A chain that ends in a leaf has no node off the chain. *)
Lemma single_chain_only (rs : list rune) :
  forall (y x : node),
    single_chain y rs -> descend y rs = Some x -> child x = [] ->
    forall q z, descend y q = Some z -> is_prefix q rs.
Proof.
  induction rs as [| r rs IH]; intros y x Hc D Hleaf q z Dq.
  - simpl in D. injection D as ->.
    destruct q as [| r0 q]; [exists []; reflexivity |].
    simpl in Dq. rewrite Hleaf in Dq. discriminate.
  - destruct q as [| r0 q]; [exists (r :: rs); reflexivity |].
    simpl in Hc. destruct Hc as [H1 [y1 [L Hc]]].
    simpl in D. rewrite L in D. simpl in Dq.
    destruct (runemap.lookup r0 (child y)) as [z1 |] eqn:L0; [| discriminate].
    destruct (single_child _ _ _ _ _ H1 L L0) as [-> ->].
    destruct (IH _ _ Hc D Hleaf _ _ Dq) as [rest ->].
    exists rest. reflexivity.
Qed.

Lemma descend_update_prefix (n m : node) (p rest : list rune)
      (f : node -> node) :
  descend n p = Some m ->
  descend (update n (p ++ rest) f) p = Some (update m rest f).
Proof.
  revert n. induction p as [| r p IH]; intros n H; simpl in *.
  - injection H as ->. reflexivity.
  - destruct (runemap.lookup r (child n)) as [y |] eqn:L; [| discriminate].
    simpl. rewrite lookup_store_same. apply IH. exact H.
Qed.

Lemma is_prefix_refl (l : list rune) : is_prefix l l.
Proof. exists []. rewrite app_nil_r. reflexivity. Qed.

Lemma is_prefix_app (p rest : list rune) : is_prefix p (p ++ rest).
Proof. exists rest. reflexivity. Qed.

(** Clearing the entry at [rs] changes the entry found at [rs] only. *)
Lemma data_at_cleared (n x : node) (rs q : list rune) :
  descend n rs = Some x ->
  data_at (update n rs (fun y => Node None (child y))) q =
  if list_eq_dec Z.eq_dec q rs then None else data_at n q.
Proof.
  intros D. destruct (list_eq_dec Z.eq_dec q rs) as [-> | Hne].
  - rewrite <- (app_nil_r rs) at 2.
    rewrite (data_at_update_below _ _ _ _ _ D). reflexivity.
  - destruct (is_prefix_dec rs q) as [[rest ->] | Hnp].
    + rewrite (data_at_update_below _ _ _ _ _ D), (data_at_app _ _ _ _ D).
      destruct rest as [| r rest]; [rewrite app_nil_r in Hne; congruence |].
      rewrite !data_at_cons. reflexivity.
    + apply data_at_update_other. exact Hnp.
Qed.

(** Pruning the edge [r] below the node at [p] loses what lies beyond that
    edge and nothing else. *)
Lemma data_at_pruned (n m : node) (p q : list rune) (r : rune) :
  descend n p = Some m ->
  data_at (update n p (fun x => Node (data x) (runemap.remove r (child x))))
          q =
  if is_prefix_dec (p ++ [r]) q then None else data_at n q.
Proof.
  intros D. destruct (is_prefix_dec p q) as [[rest ->] | Hnp].
  - rewrite (data_at_update_below _ _ _ _ _ D), (data_at_app _ _ _ _ D).
    destruct rest as [| r0 rest].
    + destruct (is_prefix_dec (p ++ [r]) (p ++ [])) as [[x E] | _];
        [| reflexivity].
      rewrite <- app_assoc in E. apply app_inv_head in E. discriminate.
    + rewrite !data_at_cons. simpl.
      destruct (Z.eq_dec r r0) as [-> | Hr].
      * rewrite lookup_remove_same.
        destruct (is_prefix_dec (p ++ [r0]) (p ++ r0 :: rest)) as [_ | N];
          [reflexivity |].
        exfalso. apply N. exists rest. rewrite <- app_assoc. reflexivity.
      * rewrite (lookup_remove_other _ _ _ Hr).
        destruct (is_prefix_dec (p ++ [r]) (p ++ r0 :: rest)) as [[x E] | _];
          [| reflexivity].
        rewrite <- app_assoc in E. apply app_inv_head in E.
        simpl in E. congruence.
  - rewrite (data_at_update_other _ _ _ _ Hnp).
    destruct (is_prefix_dec (p ++ [r]) q) as [[x E] | _]; [| reflexivity].
    exfalso. apply Hnp. exists ([r] ++ x). rewrite E, <- app_assoc.
    reflexivity.
Qed.

(** What [Delete] does to the entry found at any path [q]. *)
Lemma Delete_data_at (t t' : Trie) (key : string) (q : list rune) :
  Delete t key = Ok t' ->
  (q = extractRunes key -> data_at (root t') q = None) /\
  (~ is_prefix q (extractRunes key) ->
   data_at (root t') q = data_at (root t) q) /\
  (data_at (root t') q = data_at (root t) q \/ data_at (root t') q = None).
Proof.
  unfold Delete. set (rs := extractRunes key).
  pose proof (Delete_walk_descend rs (root t) [] None) as D.
  destruct (Delete_walk (root t) [] rs None) as [[x cut] |] eqn:W.
  2: { intros [= <-]. split; [| split; [reflexivity | left; reflexivity]].
       intros ->. unfold data_at. rewrite D. reflexivity. }
  pose proof (data_at_cleared (root t) x rs q D) as C.
  destruct (len (child x) =? 0) eqn:E0.
  2: { intros [= <-]. simpl root. rewrite C.
       destruct (list_eq_dec Z.eq_dec q rs) as [-> | Hne].
       - split; [reflexivity |]. split; [| right; reflexivity].
         intros N. exfalso. apply N. apply is_prefix_refl.
       - split; [congruence |]. split; [reflexivity | left; reflexivity]. }
  destruct cut as [[cnode crune] |]; [| discriminate].
  intros [= <-]. simpl root.
  assert (Hleaf : child x = []).
  { apply Z.eqb_eq in E0. unfold len in E0.
    destruct (child x); [reflexivity | simpl in E0; lia]. }
  destruct rs as [| r0 rs0] eqn:Ers; [simpl in W; discriminate |].
  destruct (Delete_walk_cut_top _ _ _ _ _ W)
    as [rs1 [r' [rs2 [m [y [Hrs [Hcut [D1 [L [D2 Hc]]]]]]]]]].
  injection Hcut as -> ->.
  assert (D1' : descend
                  (update (root t) (r0 :: rs0) (fun y => Node None (child y)))
                  rs1
                = Some (update m (r' :: rs2) (fun y => Node None (child y)))).
  { rewrite Hrs. apply descend_update_prefix. exact D1. }
  rewrite (data_at_pruned _ _ _ q r' D1'). rewrite C.
  destruct (is_prefix_dec (rs1 ++ [r']) q) as [[rest Eq] | Hnp].
  - split; [reflexivity |]. split; [| right; reflexivity].
    intros N. symmetry.
    assert (Dy : descend (root t) (rs1 ++ [r']) = Some y).
    { rewrite descend_app, D1. simpl. rewrite L. reflexivity. }
    rewrite Eq, (data_at_app _ _ _ _ Dy). unfold data_at.
    destruct (descend y rest) as [z |] eqn:Dz; [| reflexivity].
    exfalso. apply N.
    destruct (single_chain_only _ _ _ Hc D2 Hleaf _ _ Dz) as [tl ->].
    exists tl. rewrite Eq, Hrs, <- !app_assoc. reflexivity.
  - destruct (list_eq_dec Z.eq_dec q (r0 :: rs0)) as [-> | Hne].
    + exfalso. apply Hnp. exists rs2. rewrite Hrs, <- app_assoc. reflexivity.
    + split; [congruence |]. split; [reflexivity | left; reflexivity].
Qed.

Lemma Delete_nonempty_returns (t : Trie) (c : ascii) (key : string) :
  exists t', Delete t (String c key) = Ok t'.
Proof.
  unfold Delete.
  destruct (extractRunes (String c key)) as [| r rs] eqn:E;
    [exfalso; exact (extractRunes_nonempty c key E) |].
  destruct (Delete_walk (root t) [] (r :: rs) None) as [[x cut] |] eqn:W;
    [| eexists; reflexivity].
  destruct (Delete_walk_cut_top _ _ _ _ _ W) as [rs1 [r' [_ [_ [_ [_ [-> _]]]]]]].
  destruct (len (child x) =? 0); eexists; reflexivity.
Qed.

(** ** Entries stay filed under the keys that spell their paths *)

Lemma Forall_store {A : Type} (P : rune * A -> Prop) (r : rune) (x : A)
      (m : list (rune * A)) :
  Forall P m -> P (r, x) -> Forall P (runemap.store r x m).
Proof.
  intros F Hx. induction F as [| [r' y] m Hy F IH]; simpl.
  - constructor; [exact Hx | constructor].
  - destruct (r =? r'); constructor; assumption.
Qed.

Lemma Forall_remove {A : Type} (P : rune * A -> Prop) (r : rune)
      (m : list (rune * A)) :
  Forall P m -> Forall P (runemap.remove r m).
Proof.
  intros F. induction F as [| [r' y] m Hy F IH]; simpl; [constructor |].
  destruct (r =? r'); [exact IH | constructor; assumption].
Qed.

Lemma keyed_at_leaf (path : list rune) : keyed_at path (Node None []).
Proof. simpl. split; exact I. Qed.

Lemma Set_walk_keyed (rs : list rune) :
  forall (n : node) (path : list rune) (kv : KV),
    keyed_at path n -> extractRunes (Key kv) = path ++ rs ->
    keyed_at path (Set_walk n rs kv).
Proof.
  induction rs as [| r rs IH]; intros n path kv K E; cbn [Set_walk].
  - apply keyed_at_unfold. simpl. rewrite app_nil_r in E.
    split; [exact E | exact (keyed_at_children _ _ K)].
  - assert (G : forall x, keyed_at (path ++ [r]) x ->
                          keyed_at path
                            (Node (data n)
                               (runemap.store r (Set_walk x rs kv) (child n)))).
    { intros x Kx. apply keyed_at_unfold. simpl. split.
      - apply keyed_at_unfold in K. apply K.
      - apply Forall_store; [exact (keyed_at_children _ _ K) |].
        simpl. apply IH; [exact Kx |]. rewrite <- app_assoc. exact E. }
    destruct (runemap.lookup r (child n)) as [x |] eqn:L.
    + apply G. exact (keyed_at_lookup _ _ _ _ K L).
    + apply G. apply keyed_at_leaf.
Qed.

Lemma update_keyed (path : list rune) (f : node -> node) :
  (forall p x, keyed_at p x -> keyed_at p (f x)) ->
  forall (n : node) (base : list rune),
    keyed_at base n -> keyed_at base (update n path f).
Proof.
  intros Hf. induction path as [| r path IH]; intros n base K; cbn [update].
  - apply Hf. exact K.
  - destruct (runemap.lookup r (child n)) as [x |] eqn:L; [| exact K].
    apply keyed_at_unfold. simpl. split.
    + apply keyed_at_unfold in K. apply K.
    + apply Forall_store; [exact (keyed_at_children _ _ K) |].
      simpl. apply IH. exact (keyed_at_lookup _ _ _ _ K L).
Qed.

Lemma Set_keyed (t : Trie) (key val : string) :
  keyed t -> keyed (Set_ t key val).
Proof.
  intros K. unfold keyed, Set_. simpl root.
  apply Set_walk_keyed; [exact K | reflexivity].
Qed.

Lemma Delete_keyed (t t' : Trie) (key : string) :
  keyed t -> Delete t key = Ok t' -> keyed t'.
Proof.
  intros K. unfold Delete.
  assert (Kc : keyed_at [] (update (root t) (extractRunes key)
                                   (fun x => Node None (child x)))).
  { apply update_keyed; [| exact K]. intros p x Kx.
    apply keyed_at_unfold. simpl. split; [exact I |].
    exact (keyed_at_children _ _ Kx). }
  destruct (Delete_walk (root t) [] (extractRunes key) None) as [[x cut] |];
    [| intros [= <-]; exact K].
  destruct (len (child x) =? 0); [| intros [= <-]; exact Kc].
  destruct cut as [[cnode crune] |]; [| discriminate].
  intros [= <-]. unfold keyed. simpl root.
  apply update_keyed; [| exact Kc]. intros p y Ky.
  apply keyed_at_unfold. simpl. split.
  - apply keyed_at_unfold in Ky. apply Ky.
  - apply Forall_remove. exact (keyed_at_children _ _ Ky).
Qed.

Lemma call_keyed (cap : nat -> nat) (t t' : Trie) (o : op) (a : answer) :
  keyed t -> call cap t o = Ok (t', a) -> keyed t'.
Proof.
  intros K H. destruct o; simpl in H.
  - destruct (Get t key). injection H as <- _. exact K.
  - injection H as <- _. apply Set_keyed. exact K.
  - apply bind_Ok in H. destruct H as [t1 [Hd H]]. injection H as <- _.
    exact (Delete_keyed _ _ _ K Hd).
  - apply bind_Ok in H. destruct H as [x [_ H]]. injection H as <- _. exact K.
  - apply bind_Ok in H. destruct H as [x [_ H]]. injection H as <- _. exact K.
  - apply bind_Ok in H. destruct H as [x [_ H]]. injection H as <- _. exact K.
  - apply bind_Ok in H. destruct H as [x [_ H]]. injection H as <- _. exact K.
Qed.

Lemma run_keyed (cap : nat -> nat) (ops : list op) :
  forall t t', keyed t -> run cap t ops = Ok t' -> keyed t'.
Proof.
  induction ops as [| o ops IH]; intros t t' K H; simpl in H.
  - injection H as <-. exact K.
  - apply bind_Ok in H. destruct H as [[t1 a] [Hc H]].
    exact (IH _ _ (call_keyed _ _ _ _ _ K Hc) H).
Qed.

Lemma keyed_New : keyed New.
Proof. exact (keyed_at_leaf []). Qed.

(* ================================================================== *)
(** * Further properties of the point operations *)

(** X1. [Get] after [Set]: on any trie, after [Set(k, v)] a [Get(k')]
    answers [(v, true)] when [k'] decodes to the scalars of [k], and what
    it answered before otherwise. *)
Theorem Get_after_Set (t : Trie) (k v k' : string) :
  Get (Set_ t k v) k' =
  if list_eq_dec Z.eq_dec (extractRunes k') (extractRunes k)
  then (v, true) else Get t k'.
Proof.
  destruct (list_eq_dec Z.eq_dec (extractRunes k') (extractRunes k))
    as [E | N].
  - rewrite Get_data_at. unfold Set_. simpl root. rewrite E.
    rewrite data_at_Set_walk_same. reflexivity.
  - apply Get_Set_other. exact N.
Qed.

(** X2. [Get] after [Delete]: whenever [Delete(k)] returns, [Get(k)]
    answers [("", false)]. *)
Theorem Get_after_Delete (t t' : Trie) (k : string) :
  Delete t k = Ok t' -> Get t' k = (EmptyString, false).
Proof.
  intros H. rewrite Get_data_at.
  destruct (Delete_data_at t t' k (extractRunes k) H) as [E _].
  rewrite (E eq_refl). reflexivity.
Qed.

Lemma Get_after_Delete_witness :
  Get (mkTrie (Node None [])) "ab" = (EmptyString, false).
Proof.
  apply (Get_after_Delete trie_a_ab (mkTrie (Node None [])) "ab").
  vm_compute. reflexivity.
Defined.

(** X3. The keys that [Delete] leaves alone: whenever [Delete(k)] returns,
    every key [k'] whose scalars are not a prefix of the scalars of [k] is
    looked up with the same result as before. (A stored key that is a
    proper prefix of [k] can be lost, see C2.) *)
Theorem Delete_keeps_other_keys (t t' : Trie) (k k' : string) :
  Delete t k = Ok t' ->
  ~ is_prefix (extractRunes k') (extractRunes k) ->
  Get t' k' = Get t k'.
Proof.
  intros H N. rewrite !Get_data_at.
  destruct (Delete_data_at t t' k (extractRunes k') H) as [_ [E _]].
  rewrite (E N). reflexivity.
Qed.

Lemma not_prefix_beta_alphabet :
  ~ is_prefix (extractRunes "beta") (extractRunes "alphabet").
Proof. intros [rest E]. vm_compute in E. discriminate. Qed.

Lemma Delete_keeps_other_keys_witness :
  exists t', Delete trie_alpha "alphabet" = Ok t' /\
             Get t' "beta" = Get trie_alpha "beta".
Proof.
  eexists. split; [vm_compute; reflexivity |].
  apply (Delete_keeps_other_keys trie_alpha _ "alphabet" "beta");
    [vm_compute; reflexivity | exact not_prefix_beta_alphabet].
Defined.

(** X4. [Delete] never adds or changes an entry: whenever [Delete(k)]
    returns, every [Get] answers either what it answered before or
    [("", false)]. *)
Theorem Delete_only_removes (t t' : Trie) (k k' : string) :
  Delete t k = Ok t' ->
  Get t' k' = Get t k' \/ Get t' k' = (EmptyString, false).
Proof.
  intros H. rewrite !Get_data_at.
  destruct (Delete_data_at t t' k (extractRunes k') H) as [_ [_ [E | E]]];
    rewrite E; [left | right]; reflexivity.
Qed.

Lemma Delete_only_removes_witness :
  Get (mkTrie (Node None [])) "a" = Get trie_a_ab "a" \/
  Get (mkTrie (Node None [])) "a" = (EmptyString, false).
Proof.
  apply (Delete_only_removes trie_a_ab (mkTrie (Node None [])) "ab" "a").
  vm_compute. reflexivity.
Defined.

(** X5. [Delete] and the empty key. With a key that is not empty [Delete]
    always returns. With the empty key it dereferences the cut point,
    which is still nil: it panics when the root has no child (a new trie,
    or one that holds the empty key only), and otherwise clears the root's
    entry and keeps the children. *)
Theorem Delete_empty_key (t : Trie) :
  (forall c key, exists t', Delete t (String c key) = Ok t') /\
  (child (root t) = [] -> Delete t "" = Panic NilDereference) /\
  (child (root t) <> [] ->
   Delete t "" = Ok (mkTrie (Node None (child (root t))))).
Proof.
  split; [intros c key; apply Delete_nonempty_returns |].
  unfold Delete. simpl. split.
  - intros ->. reflexivity.
  - intros N. destruct (child (root t)) as [| e cs]; [congruence |].
    unfold len. simpl List.length.
    destruct (Z.of_nat (S (List.length cs)) =? 0) eqn:E;
      [apply Z.eqb_eq in E; lia | reflexivity].
Qed.

Lemma Delete_empty_key_witness :
  Delete New "" = Panic NilDereference /\
  Delete trie_a "" = Ok (mkTrie (Node None (child (root trie_a)))).
Proof.
  split.
  - apply (Delete_empty_key New). reflexivity.
  - apply (Delete_empty_key trie_a). discriminate.
Defined.

(** X6. A missing edge makes [Delete] a no-op: when the path of the key
    does not exist in the trie, [Delete] returns the trie as it was. *)
Theorem Delete_missing_path (t : Trie) (k : string) :
  descend (root t) (extractRunes k) = None -> Delete t k = Ok t.
Proof.
  intros D. unfold Delete.
  pose proof (Delete_walk_descend (extractRunes k) (root t) [] None) as W.
  destruct (Delete_walk (root t) [] (extractRunes k) None) as [[x cut] |];
    [congruence | reflexivity].
Qed.

Lemma Delete_missing_path_witness : Delete trie_a_ab "abc" = Ok trie_a_ab.
Proof.
  apply (Delete_missing_path trie_a_ab "abc"). reflexivity.
Defined.

(** X7. Every entry is filed under the key that spells its path: this
    holds of a new trie and is kept by every call that returns, so it
    holds after any program. In particular an entry found by descending a
    path has that path as the scalars of its key. *)
Theorem entries_spell_their_paths (cap : nat -> nat) (ops : list op)
        (t : Trie) (path : list rune) (x : node) (kv : KV) :
  run cap New ops = Ok t ->
  keyed t /\
  (descend (root t) path = Some x -> data x = Some kv ->
   extractRunes (Key kv) = path).
Proof.
  intros H. pose proof (run_keyed cap ops New t keyed_New H) as K.
  split; [exact K |]. intros D E.
  apply (keyed_at_data path x kv); [| exact E].
  exact (keyed_at_exact_prefix path [] (root t) x K D).
Qed.

Lemma entries_spell_their_paths_witness : keyed trie_a_ab.
Proof.
  apply (entries_spell_their_paths id_cap [OpSet "a" "1"; OpSet "ab" "2"]
           trie_a_ab [] (root trie_a_ab) (mkKV "" "")).
  reflexivity.
Defined.

(* ================================================================== *)
(** * Further properties of the NFA and of the searches *)

(** X8. The transition for bounds up to 31. For [0 <= d <= 31], an NFA
    built for [d] and a state in its representation ([2d+1] cells in
    [[0, d+1]]), [transition] returns: the successor has offset one more,
    is again in the representation, and the reported minimum lies in
    [[0, d+1]], is at most every cell of the successor, and is [d+1] or
    one of its cells. *)
Theorem transition_keeps_representation (n : nfa) (s : state) (r : rune)
        (d : Z) :
  0 <= d <= 31 -> nfa_for n d -> state_inv d s ->
  exists ns m,
    transition n s r = Ok (ns, m) /\
    offset ns = offset s + 1 /\
    state_inv d ns /\
    0 <= m <= d + 1 /\
    Forall (fun x => m <= x) (arr ns) /\
    (m = d + 1 \/ In m (arr ns)).
Proof.
  intros Hd Hn Hs.
  exists (fst (next_state n s r)), (snd (next_state n s r)).
  rewrite <- surjective_pairing.
  split; [exact (transition_next_state n s r d Hd Hn Hs) |].
  split; [reflexivity |].
  split; [exact (next_state_inv n s r d Hd Hn Hs) |].
  exact (next_state_min n s r d Hd Hn Hs).
Qed.

Lemma nfa_for_ab_1 : nfa_for (mkNfa [97; 98] 1 (repeat 0 5)) 1.
Proof. split; reflexivity. Qed.

Lemma state_inv_start_ab_1 : state_inv 1 (mkState (-2) [2; 2; 0]).
Proof.
  split; [reflexivity |]. repeat constructor; simpl; lia.
Qed.

Lemma transition_keeps_representation_witness :
  exists ns m,
    transition (mkNfa [97; 98] 1 (repeat 0 5)) (mkState (-2) [2; 2; 0]) 97
    = Ok (ns, m) /\
    offset ns = offset (mkState (-2) [2; 2; 0]) + 1 /\
    state_inv 1 ns /\
    0 <= m <= 1 + 1 /\
    Forall (fun x => m <= x) (arr ns) /\
    (m = 1 + 1 \/ In m (arr ns)).
Proof.
  apply (transition_keeps_representation
           (mkNfa [97; 98] 1 (repeat 0 5)) (mkState (-2) [2; 2; 0]) 97 1).
  - lia.
  - exact nfa_for_ab_1.
  - exact state_inv_start_ab_1.
Defined.

(** X9. The minimum cannot decrease (the comment of [suggest]: "the
    minimum edit distance of a set of NFA states can't decrease after a
    transition"). For [0 <= d <= 31] and a state in the representation,
    every lower bound [b <= d+1] of the cells of the state is a lower
    bound of the minimum that [transition] reports and of the cells of the
    successor. *)
Theorem transition_minimum_monotone (n : nfa) (s ns : state) (r : rune)
        (d b m : Z) :
  0 <= d <= 31 -> nfa_for n d -> state_inv d s ->
  b <= d + 1 -> Forall (fun x => b <= x) (arr s) ->
  transition n s r = Ok (ns, m) ->
  b <= m /\ Forall (fun x => b <= x) (arr ns).
Proof.
  intros Hd Hn Hs Hb Hlow H.
  rewrite (transition_next_state n s r d Hd Hn Hs) in H.
  assert (E : next_state n s r = (ns, m)) by congruence.
  pose proof (next_state_monotone n s r d Hd Hn Hs b Hb Hlow) as M.
  pose proof (next_state_cells n s r d Hd Hn Hs b Hb Hlow) as C.
  rewrite E in M, C. cbn [fst snd] in M, C. split; [exact M |].
  eapply Forall_impl; [| exact C]. simpl. intros x [_ Hx]. exact Hx.
Qed.

Lemma transition_minimum_monotone_witness :
  0 <= 1 /\ Forall (fun x => 0 <= x) (arr (mkState (-1) [1; 1; 2])).
Proof.
  apply (transition_minimum_monotone
           (mkNfa [97; 98] 1 (repeat 0 5)) (mkState (-2) [2; 2; 0])
           (mkState (-1) [1; 1; 2]) 120 1 0 1).
  - lia.
  - exact nfa_for_ab_1.
  - exact state_inv_start_ab_1.
  - lia.
  - repeat constructor; lia.
  - vm_compute. reflexivity.
Defined.

Lemma after_exact_prefix_returns (process : processAcceptingNode)
      (cap : nat -> nat) (t : Trie) (key : string) (p d n : Z) :
  0 <= d <= 31 -> 0 <= n ->
  (forall k, (k <= cap k)%nat) ->
  0 <= p <= len (extractRunes key) ->
  (forall y lim, exists rs halt, process y lim = Ok (rs, halt)) ->
  exists out, after_exact_prefix cap process t key p d n = Ok out.
Proof.
  intros Hd Hn Hcap Hp Hproc. unfold after_exact_prefix, slice_to.
  cbv zeta.
  pose proof (Hcap (List.length (extractRunes key))) as Hc.
  unfold rune in *.
  match goal with
  | |- context [if ?c then Panic _ else _] => destruct c eqn:E
  end.
  { apply orb_true_iff in E. unfold len in Hp.
    destruct E as [E | E]; apply Z.ltb_lt in E; lia. }
  match goal with
  | |- context [if ?c then Ok (firstn _ _) else _] => destruct c eqn:E2
  end; [| apply Z.leb_gt in E2; unfold len in *; lia].
  cbn [bind].
  match goal with
  | |- context [exact_prefix ?a ?b] => destruct (exact_prefix a b) as [curr |]
  end; [| eexists; reflexivity].
  unfold slice_from.
  match goal with
  | |- context [if ?c then Panic _ else Ok (skipn _ _)] => destruct c eqn:E3
  end.
  { apply orb_true_iff in E3. unfold len in *.
    destruct E3 as [E3 | E3]; apply Z.ltb_lt in E3; lia. }
  cbn [bind]. apply suggest_returns; assumption.
Qed.

(** X10. The searches for bounds up to 31. For [0 <= d <= 31] and a limit
    [n >= 0], on any trie and for any query, [Suggest] and
    [SuggestSuffixes] return (they do not panic); so do the two
    exact-prefix searches when [p] is between 0 and the number of scalars
    of the query. *)
Theorem searches_return_up_to_31 (cap : nat -> nat) (t : Trie)
        (key : string) (p d n : Z) :
  0 <= d <= 31 -> 0 <= n ->
  (forall k, (k <= cap k)%nat) ->
  (exists out, Suggest t key d n = Ok out) /\
  (exists out, SuggestSuffixes t key d n = Ok out) /\
  (0 <= p <= len (extractRunes key) ->
   (exists out, SuggestAfterExactPrefix cap t key p d n = Ok out) /\
   (exists out, SuggestSuffixesAfterExactPrefix cap t key p d n = Ok out)).
Proof.
  intros Hd Hn Hcap.
  split.
  { apply suggest_returns; auto. intros y lim.
    destruct (doNotExpandSuffixes_returns y lim) as [rs E].
    exists rs, false. exact E. }
  split.
  { apply suggest_returns; auto. intros y lim.
    destruct (expandSuffixes_returns y lim) as [rs E].
    exists rs, true. exact E. }
  intros Hp. split.
  - apply after_exact_prefix_returns; auto. intros y lim.
    destruct (doNotExpandSuffixes_returns y lim) as [rs E].
    exists rs, false. exact E.
  - apply after_exact_prefix_returns; auto. intros y lim.
    destruct (expandSuffixes_returns y lim) as [rs E].
    exists rs, true. exact E.
Qed.

Lemma searches_return_up_to_31_witness :
  (exists out, Suggest trie_b "a" 31 5 = Ok out) /\
  (exists out, SuggestSuffixes trie_b "a" 31 5 = Ok out) /\
  (0 <= 1 <= len (extractRunes "a") ->
   (exists out, SuggestAfterExactPrefix id_cap trie_b "a" 1 31 5 = Ok out) /\
   (exists out,
       SuggestSuffixesAfterExactPrefix id_cap trie_b "a" 1 31 5 = Ok out)).
Proof.
  apply (searches_return_up_to_31 id_cap trie_b "a" 1 31 5).
  - lia.
  - lia.
  - intros k. unfold id_cap. lia.
Defined.

(** X11. The limit. For a limit [n >= 0], whenever one of the four
    searches returns, it returns at most [n] entries. *)
Theorem searches_respect_limit (cap : nat -> nat) (t : Trie) (key : string)
        (p d n : Z) (out : list KV) :
  0 <= n ->
  (Suggest t key d n = Ok out -> len out <= n) /\
  (SuggestSuffixes t key d n = Ok out -> len out <= n) /\
  (SuggestAfterExactPrefix cap t key p d n = Ok out -> len out <= n) /\
  (SuggestSuffixesAfterExactPrefix cap t key p d n = Ok out -> len out <= n).
Proof.
  intros Hn. repeat split.
  - apply suggest_limit. exact Hn.
  - apply suggest_limit. exact Hn.
  - apply after_exact_prefix_limit. exact Hn.
  - apply after_exact_prefix_limit. exact Hn.
Qed.

Lemma searches_respect_limit_witness : len [mkKV "a" "1"] <= 1.
Proof.
  apply (searches_respect_limit id_cap trie_a_ab "ab" 0 1 1 [mkKV "a" "1"]).
  - lia.
  - vm_compute. reflexivity.
Defined.

Lemma Forall2_Forall_l {A B : Type} (R : A -> B -> Prop) (P : A -> Prop)
      (l1 : list A) (l2 : list B) :
  (forall a b, R a b -> P a) -> Forall2 R l1 l2 -> Forall P l1.
Proof.
  intros H F. induction F; constructor; eauto.
Qed.

(** X12. The exact prefix. On a trie whose entries are filed under the
    keys that spell their paths, every entry that
    [SuggestAfterExactPrefix] or [SuggestSuffixesAfterExactPrefix] returns
    has a key whose scalars start with the first [p] scalars of the
    query. *)
Theorem exact_prefix_is_shared (cap : nat -> nat) (t : Trie) (key : string)
        (p d n : Z) (out : list KV) :
  keyed t ->
  SuggestAfterExactPrefix cap t key p d n = Ok out \/
  SuggestSuffixesAfterExactPrefix cap t key p d n = Ok out ->
  Forall (fun kv => is_prefix (firstn (Z.to_nat p) (extractRunes key))
                              (extractRunes (Key kv))) out.
Proof.
  intros K H.
  assert (G : exists exact,
             ordered_by_stratum exact
               (firstn (Z.to_nat p) (extractRunes key))
               (skipn (Z.to_nat p) (extractRunes key)) d out).
  { destruct H as [H | H]; [exists true | exists false];
      (eapply after_exact_prefix_ordered; [| exact K | exact H]);
      [exact doNotExpandSuffixes_ok | exact expandSuffixes_ok]. }
  destruct G as [exact [levels [F _]]].
  eapply Forall2_Forall_l; [| exact F].
  intros kv l [path [rest [n0 [s [E _]]]]]. exists (path ++ rest). exact E.
Qed.

Lemma exact_prefix_is_shared_witness :
  Forall (fun kv => is_prefix (firstn (Z.to_nat 1) (extractRunes "ab"))
                              (extractRunes (Key kv)))
         [mkKV "a" "1"; mkKV "ab" "2"].
Proof.
  apply (exact_prefix_is_shared id_cap trie_a_ab "ab" 1 1 3
           [mkKV "a" "1"; mkKV "ab" "2"] keyed_trie_a_ab).
  left. vm_compute. reflexivity.
Defined.

(* ================================================================== *)
(** * The typeahead example *)

Lemma seen_has_In (x : string) (seen : list string) :
  seen_has x seen = true <-> In x seen.
Proof.
  induction seen as [| y seen IH]; simpl.
  - split; [discriminate | tauto].
  - destruct (String.eqb_spec x y) as [-> | N].
    + split; [left; reflexivity | reflexivity].
    + rewrite IH. split; [right; assumption |].
      intros [E | H]; [congruence | exact H].
Qed.

Lemma uniq_loop_spec (n : Z) (xs : list string) :
  forall seen kept,
    (forall x, In x seen <-> In x kept) -> NoDup kept ->
    NoDup (uniq_loop xs seen kept n) /\
    (forall x, In x (uniq_loop xs seen kept n) -> In x kept \/ In x xs) /\
    (1 <= n -> len kept < n -> len (uniq_loop xs seen kept n) <= n) /\
    (len (uniq_loop xs seen kept n) < n ->
     forall x, In x kept \/ In x xs -> In x (uniq_loop xs seen kept n)).
Proof.
  induction xs as [| a xs IH]; intros seen kept Hseen Hnd;
    cbn [uniq_loop].
  - split; [apply NoDup_rev; exact Hnd |].
    split; [intros x Hx; left; apply in_rev; exact Hx |].
    split; [unfold len; rewrite length_rev; unfold len; lia |].
    intros _ x [Hx | []]. apply in_rev in Hx. exact Hx.
  - destruct (seen_has a seen) eqn:Ea.
    + apply seen_has_In in Ea.
      destruct (IH seen kept Hseen Hnd) as [I1 [I2 [I3 I4]]].
      split; [exact I1 |].
      split; [intros x Hx; destruct (I2 x Hx); [left | right; right]; auto |].
      split; [exact I3 |].
      intros Hlt x [Hx | [<- | Hx]]; apply (I4 Hlt); auto.
      left. apply Hseen. exact Ea.
    + assert (Hn : ~ In a kept).
      { intros Hin. apply Hseen in Hin. apply seen_has_In in Hin. congruence. }
      assert (Hnd' : NoDup (a :: kept)) by (constructor; assumption).
      destruct (len (a :: kept) >=? n) eqn:El.
      * split; [apply NoDup_rev; exact Hnd' |].
        split.
        { intros x Hx. apply in_rev in Hx.
          destruct Hx as [<- | Hx]; [right; left | left]; auto. }
        split.
        { intros H1 Hlt. unfold len in *. rewrite length_rev.
          simpl List.length in *. lia. }
        intros Hlt. exfalso. unfold len in *. rewrite length_rev in Hlt.
        destruct (Z.geb_spec (Z.of_nat (List.length (a :: kept))) n); [lia |].
        discriminate.
      * assert (Hseen' : forall x, In x (a :: seen) <-> In x (a :: kept)).
        { intros x. simpl. rewrite Hseen. reflexivity. }
        destruct (IH (a :: seen) (a :: kept) Hseen' Hnd') as [I1 [I2 [I3 I4]]].
        split; [exact I1 |].
        split.
        { intros x Hx. destruct (I2 x Hx) as [[<- | H] | H];
            [right; left | left | right; right]; auto. }
        split.
        { intros H1 Hlt. apply I3; [exact H1 |].
          destruct (Z.geb_spec (len (a :: kept)) n); [discriminate | lia]. }
        intros Hlt x [Hx | [<- | Hx]]; apply (I4 Hlt); simpl; auto.
Qed.

(** X14. [uniq] of the typeahead example. The strings it returns are
    pairwise different and all come from its argument; for [n >= 1] it
    returns at most [n] of them; and when it returns fewer than [n], every
    string of its argument is among them. *)
Theorem uniq_distinct_and_bounded (xs : list string) (n : Z) :
  NoDup (uniq xs n) /\
  (forall x, In x (uniq xs n) -> In x xs) /\
  (1 <= n -> len (uniq xs n) <= n) /\
  (len (uniq xs n) < n -> forall x, In x xs -> In x (uniq xs n)).
Proof.
  destruct (uniq_loop_spec n xs [] []) as [H1 [H2 [H3 H4]]].
  - intros x. reflexivity.
  - constructor.
  - split; [exact H1 |].
    split; [intros x Hx; destruct (H2 x Hx) as [[] | H]; exact H |].
    split; [intros Hn; apply H3; [exact Hn | unfold len; simpl; lia] |].
    intros Hlt x Hx. apply (H4 Hlt). right. exact Hx.
Qed.

(** X15. [uniq] with a limit below 1. The limit is tested only after a
    string has been kept, so for [n <= 0] and a non-empty argument [uniq]
    returns exactly the first string: one more than "up to n". *)
Theorem uniq_returns_one_below_limit_1 (x : string) (xs : list string)
        (n : Z) :
  n <= 1 -> uniq (x :: xs) n = [x].
Proof.
  intros Hn. unfold uniq. simpl.
  destruct (len [x] >=? n) eqn:E; [reflexivity |].
  destruct (Z.geb_spec (len [x]) n); [discriminate |].
  unfold len in *. simpl in *. lia.
Qed.

Lemma uniq_returns_one_below_limit_1_witness :
  uniq ["a"%string; "b"%string] 0 = ["a"%string].
Proof.
  apply (uniq_returns_one_below_limit_1 "a" ["b"%string] 0). lia.
Defined.

(* ================================================================== *)
(** * What the searches return is stored *)

(** ** Distinct edges *)

Lemma distinct_edges_unfold (n : node) :
  distinct_edges n <->
  NoDup (map fst (child n)) /\
  Forall (fun e => distinct_edges (snd e)) (child n).
Proof.
  destruct n as [dt cs]. simpl.
  assert (H : (fix all (cs : list (rune * node)) : Prop :=
                 match cs with
                 | [] => True
                 | (_, x) :: cs' => distinct_edges x /\ all cs'
                 end) cs <->
              Forall (fun e => distinct_edges (snd e)) cs).
  { induction cs as [| [r x] cs IH].
    - split; [constructor | trivial].
    - split.
      + intros [H1 H2]. constructor; [exact H1 | apply IH; exact H2].
      + intros H. inversion H; subst. split; [assumption | apply IH; assumption]. }
  rewrite H. reflexivity.
Qed.

Lemma In_keys_store {A : Type} (r k : rune) (x : A) (m : list (rune * A)) :
  In k (map fst (runemap.store r x m)) <-> k = r \/ In k (map fst m).
Proof.
  induction m as [| [r' y] m IH]; simpl.
  - split; intros [H | []]; left; congruence.
  - destruct (r =? r') eqn:E; simpl.
    + apply Z.eqb_eq in E. subst r'.
      split; intros H; intuition (subst; auto).
    + rewrite IH. split; intros H; intuition (subst; auto).
Qed.

Lemma NoDup_keys_store {A : Type} (r : rune) (x : A) (m : list (rune * A)) :
  NoDup (map fst m) -> NoDup (map fst (runemap.store r x m)).
Proof.
  induction m as [| [r' y] m IH]; simpl; intros H.
  - constructor; [intros [] | constructor].
  - inversion H as [| ? ? Hn Hm]; subst.
    destruct (r =? r') eqn:E; simpl.
    + apply Z.eqb_eq in E. subst r'. constructor; assumption.
    + constructor; [| apply IH; exact Hm].
      rewrite In_keys_store. intros [-> | Hin]; [| contradiction].
      rewrite Z.eqb_refl in E. discriminate.
Qed.

Lemma In_keys_remove {A : Type} (r k : rune) (m : list (rune * A)) :
  In k (map fst (runemap.remove r m)) -> In k (map fst m).
Proof.
  induction m as [| [r' y] m IH]; simpl; [tauto |].
  destruct (r =? r'); simpl; [right; auto |].
  intros [<- | H]; auto.
Qed.

Lemma NoDup_keys_remove {A : Type} (r : rune) (m : list (rune * A)) :
  NoDup (map fst m) -> NoDup (map fst (runemap.remove r m)).
Proof.
  induction m as [| [r' y] m IH]; simpl; intros H; [constructor |].
  inversion H as [| ? ? Hn Hm]; subst.
  destruct (r =? r'); simpl; [apply IH; exact Hm |].
  constructor; [| apply IH; exact Hm].
  intros Hin. apply Hn. exact (In_keys_remove _ _ _ Hin).
Qed.

Lemma distinct_lookup (n x : node) (r : rune) :
  distinct_edges n -> runemap.lookup r (child n) = Some x -> distinct_edges x.
Proof.
  intros H L. apply distinct_edges_unfold in H. destruct H as [_ F].
  rewrite Forall_forall in F. exact (F _ (lookup_In _ _ _ L)).
Qed.

Lemma In_lookup {A : Type} (r : rune) (x : A) (m : list (rune * A)) :
  NoDup (map fst m) -> In (r, x) m -> runemap.lookup r m = Some x.
Proof.
  induction m as [| [r' y] m IH]; simpl; intros Hnd Hin; [contradiction |].
  inversion Hnd as [| ? ? Hn Hm]; subst.
  destruct Hin as [E | Hin].
  - injection E as -> ->. rewrite Z.eqb_refl. reflexivity.
  - destruct (r =? r') eqn:E; [| exact (IH Hm Hin)].
    apply Z.eqb_eq in E. subst r'. exfalso. apply Hn.
    apply in_map_iff. exists (r, x). split; [reflexivity | exact Hin].
Qed.

Lemma Set_walk_distinct (rs : list rune) :
  forall (n : node) (kv : KV),
    distinct_edges n -> distinct_edges (Set_walk n rs kv).
Proof.
  induction rs as [| r rs IH]; intros n kv H; cbn [Set_walk].
  - apply distinct_edges_unfold. apply distinct_edges_unfold in H. exact H.
  - assert (G : forall x, distinct_edges x ->
                          distinct_edges
                            (Node (data n)
                               (runemap.store r (Set_walk x rs kv) (child n)))).
    { intros x Hx. apply distinct_edges_unfold. simpl.
      apply distinct_edges_unfold in H. destruct H as [H1 H2]. split.
      - apply NoDup_keys_store. exact H1.
      - apply Forall_store; [exact H2 |]. simpl. apply IH. exact Hx. }
    destruct (runemap.lookup r (child n)) as [x |] eqn:L.
    + apply G. exact (distinct_lookup _ _ _ H L).
    + apply G. simpl. split; [constructor | exact I].
Qed.

Lemma update_distinct (path : list rune) (f : node -> node) :
  (forall x, distinct_edges x -> distinct_edges (f x)) ->
  forall n, distinct_edges n -> distinct_edges (update n path f).
Proof.
  intros Hf. induction path as [| r path IH]; intros n H; cbn [update].
  - apply Hf. exact H.
  - destruct (runemap.lookup r (child n)) as [x |] eqn:L; [| exact H].
    apply distinct_edges_unfold. simpl.
    pose proof (distinct_lookup _ _ _ H L) as Hx.
    apply distinct_edges_unfold in H. destruct H as [H1 H2]. split.
    + apply NoDup_keys_store. exact H1.
    + apply Forall_store; [exact H2 |]. simpl. apply IH. exact Hx.
Qed.

Lemma Delete_distinct (t t' : Trie) (key : string) :
  distinct_edges (root t) -> Delete t key = Ok t' -> distinct_edges (root t').
Proof.
  intros K. unfold Delete.
  assert (Kc : distinct_edges (update (root t) (extractRunes key)
                                      (fun x => Node None (child x)))).
  { apply update_distinct; [| exact K]. intros x Kx.
    apply distinct_edges_unfold. apply distinct_edges_unfold in Kx.
    exact Kx. }
  destruct (Delete_walk (root t) [] (extractRunes key) None) as [[x cut] |];
    [| intros [= <-]; exact K].
  destruct (len (child x) =? 0); [| intros [= <-]; exact Kc].
  destruct cut as [[cnode crune] |]; [| discriminate].
  intros [= <-]. simpl root.
  apply update_distinct; [| exact Kc]. intros y Ky.
  apply distinct_edges_unfold. simpl.
  apply distinct_edges_unfold in Ky. destruct Ky as [H1 H2]. split.
  - apply NoDup_keys_remove. exact H1.
  - apply Forall_remove. exact H2.
Qed.

Lemma run_distinct (cap : nat -> nat) (ops : list op) :
  forall t t', distinct_edges (root t) -> run cap t ops = Ok t' ->
               distinct_edges (root t').
Proof.
  induction ops as [| o ops IH]; intros t t' K H; simpl in H.
  - injection H as <-. exact K.
  - apply bind_Ok in H. destruct H as [[t1 a] [Hc H]].
    apply (IH t1 t'); [| exact H].
    destruct o; simpl in Hc.
    + destruct (Get t key). injection Hc as <- _. exact K.
    + injection Hc as <- _. apply Set_walk_distinct. exact K.
    + apply bind_Ok in Hc. destruct Hc as [t2 [Hd Hc]]. injection Hc as <- _.
      exact (Delete_distinct _ _ _ K Hd).
    + apply bind_Ok in Hc. destruct Hc as [x [_ Hc]]. injection Hc as <- _.
      exact K.
    + apply bind_Ok in Hc. destruct Hc as [x [_ Hc]]. injection Hc as <- _.
      exact K.
    + apply bind_Ok in Hc. destruct Hc as [x [_ Hc]]. injection Hc as <- _.
      exact K.
    + apply bind_Ok in Hc. destruct Hc as [x [_ Hc]]. injection Hc as <- _.
      exact K.
Qed.

(** ** Subtrees and the traversal *)

Lemma inside_trans (x y z : node) : inside x y -> inside y z -> inside x z.
Proof.
  intros Hxy Hyz. induction Hyz as [n | n r y' w Hin Hw IH].
  - exact Hxy.
  - exact (inside_child n r y' x Hin (IH Hxy)).
Qed.

Lemma inside_child_of (x0 x y : node) (r : rune) :
  inside x x0 -> In (r, y) (child x) -> inside y x0.
Proof.
  intros Hx Hin. apply (inside_trans y x x0); [| exact Hx].
  exact (inside_child x r y y Hin (inside_here y)).
Qed.

Lemma stored_inside (kv : KV) (y z : node) :
  stored kv y -> inside y z -> stored kv z.
Proof.
  intros [x [Hx Hd]] Hyz. exists x. split; [| exact Hd].
  exact (inside_trans _ _ _ Hx Hyz).
Qed.

Lemma push_children_inside (x0 : node) (cs : list (rune * node))
      (stack : list node) :
  Forall (fun e => inside (snd e) x0) cs ->
  Forall (fun y => inside y x0) stack ->
  Forall (fun y => inside y x0) (push_children cs stack).
Proof.
  unfold push_children. revert stack.
  induction cs as [| e cs IH]; intros stack Hc Hs; simpl; [exact Hs |].
  inversion Hc; subst. apply IH; [assumption |]. constructor; assumption.
Qed.

Lemma children_inside (x0 x : node) :
  inside x x0 -> Forall (fun e => inside (snd e) x0) (child x).
Proof.
  intros Hx. apply Forall_forall. intros [r y] Hin.
  exact (inside_child_of x0 x y r Hx Hin).
Qed.

Lemma expand_loop_stored (x0 : node) (fuel : nat) :
  forall (stack : list node) (results out : list KV) (limit : Z),
    Forall (fun y => inside y x0) stack ->
    Forall (fun kv => stored kv x0) results ->
    expand_loop fuel stack results limit = Ok out ->
    Forall (fun kv => stored kv x0) out.
Proof.
  induction fuel as [| fuel IH]; intros stack results out limit Hs Hr H;
    simpl in H; [discriminate |].
  destruct stack as [| x stack]; [injection H as <-; exact Hr |].
  inversion Hs as [| ? ? Hx Hs']; subst.
  assert (Hpush := push_children_inside x0 (child x) stack
                     (children_inside x0 x Hx) Hs').
  destruct (data x) as [kv |] eqn:E.
  - assert (Hr' : Forall (fun kv => stored kv x0) (results ++ [kv])).
    { apply Forall_app. split; [exact Hr |].
      constructor; [| constructor]. exists x. split; assumption. }
    destruct (len (results ++ [kv]) >=? limit).
    + injection H as <-. exact Hr'.
    + exact (IH _ _ _ _ Hpush Hr' H).
  - exact (IH _ _ _ _ Hpush Hr H).
Qed.

Lemma process_stored (process : processAcceptingNode) (x : node) (lim : Z)
      (rs : list KV) (halt : bool) :
  process = doNotExpandSuffixes \/ process = expandSuffixes ->
  process x lim = Ok (rs, halt) ->
  Forall (fun kv => stored kv x) rs.
Proof.
  intros [-> | ->] H.
  - unfold doNotExpandSuffixes in H.
    destruct (data x) as [kv |] eqn:E; injection H as <- _; constructor;
      [| constructor].
    exists x. split; [apply inside_here | exact E].
  - unfold expandSuffixes in H. apply bind_Ok in H.
    destruct H as [out [H E]]. injection E as <- _.
    apply (expand_loop_stored x (S (size x)) [x] [] out lim);
      [| constructor | exact H].
    constructor; [apply inside_here | constructor].
Qed.

Lemma register_inside (x0 : node) (n : nfa) (d : Z) (s : state)
      (cs : list (rune * node)) :
  Forall (fun e => inside (snd e) x0) cs ->
  forall stacks stacks',
    Forall (Forall (fun f => inside (f_n f) x0)) stacks ->
    register n d s cs stacks = Ok stacks' ->
    Forall (Forall (fun f => inside (f_n f) x0)) stacks'.
Proof.
  induction cs as [| [r x] cs IH]; intros Hc stacks stacks' Hs H; simpl in H.
  - injection H as <-. exact Hs.
  - inversion Hc as [| ? ? Hx Hc']; subst. simpl in Hx.
    apply bind_Ok in H. destruct H as [[ns min] [_ H]].
    destruct (min <? int8 (d + 1)); [| exact (IH Hc' _ _ Hs H)].
    apply bind_Ok in H. destruct H as [stacks1 [P H]].
    apply (IH Hc' stacks1 stacks'); [| exact H].
    unfold push in P. apply bind_Ok in P. destruct P as [st [Hi Ha]].
    apply index_Ok in Hi. destruct Hi as [_ Hnth].
    apply assign_Ok in Ha. destruct Ha as [_ ->].
    apply Forall_set_nth; [exact Hs |].
    constructor; [exact Hx |].
    rewrite Forall_forall in Hs. apply Hs. eapply nth_error_In. exact Hnth.
Qed.

Lemma suggest_loop_stored (x0 : node) (process : processAcceptingNode)
      (n : nfa) (d limit : Z) (fuel : nat) :
  process = doNotExpandSuffixes \/ process = expandSuffixes ->
  forall (i : nat) (stacks : list (list frame)) (results out : list KV),
    Forall (Forall (fun f => inside (f_n f) x0)) stacks ->
    Forall (fun kv => stored kv x0) results ->
    suggest_loop fuel process n d limit i stacks results = Ok out ->
    Forall (fun kv => stored kv x0) out.
Proof.
  intros Hproc. induction fuel as [| fuel IH];
    intros i stacks results out Hs Hr H; simpl in H; [discriminate |].
  destruct (nth_error stacks i) as [[| f rest] |] eqn:Ei.
  - exact (IH _ _ _ _ Hs Hr H).
  - assert (Hfr : Forall (fun f => inside (f_n f) x0) (f :: rest)).
    { rewrite Forall_forall in Hs. apply Hs. eapply nth_error_In. exact Ei. }
    inversion Hfr as [| ? ? Hf Hrest]; subst.
    assert (Hs1 : Forall (Forall (fun f => inside (f_n f) x0))
                         (set_nth stacks i rest))
      by (apply Forall_set_nth; assumption).
    assert (Hreg : forall results',
               Forall (fun kv => stored kv x0) results' ->
               (stacks2 <- register n d (f_s f) (child (f_n f))
                                    (set_nth stacks i rest) ;;
                suggest_loop fuel process n d limit i stacks2 results')
               = Ok out -> Forall (fun kv => stored kv x0) out).
    { intros results' Hr' H'. apply bind_Ok in H'.
      destruct H' as [stacks2 [R H']].
      apply (IH i stacks2 results' out); [| exact Hr' | exact H'].
      exact (register_inside x0 n d (f_s f) _ (children_inside _ _ Hf)
               _ _ Hs1 R). }
    destruct (accepts n (f_s f)); [| exact (Hreg _ Hr H)].
    apply bind_Ok in H. destruct H as [[rs halt] [Hp H]].
    assert (Hr' : Forall (fun kv => stored kv x0) (results ++ rs)).
    { apply Forall_app. split; [exact Hr |].
      eapply Forall_impl; [| exact (process_stored _ _ _ _ _ Hproc Hp)].
      intros kv Hkv. exact (stored_inside _ _ _ Hkv Hf). }
    destruct (len (results ++ rs) >=? limit).
    + apply slice_to_full_Ok in H. subst out.
      apply Forall_forall. intros kv Hin. rewrite Forall_forall in Hr'.
      apply Hr'. rewrite <- (firstn_skipn (Z.to_nat limit) (results ++ rs)).
      apply in_or_app. left. exact Hin.
    + destruct halt; [exact (IH _ _ _ _ Hs1 Hr' H) | exact (Hreg _ Hr' H)].
  - injection H as <-. exact Hr.
Qed.

Lemma suggest_stored (process : processAcceptingNode) (x0 : node)
      (q : list rune) (d limit : Z) (out : list KV) :
  process = doNotExpandSuffixes \/ process = expandSuffixes ->
  suggest process x0 q d limit = Ok out ->
  Forall (fun kv => stored kv x0) out.
Proof.
  intros Hproc H. unfold suggest in H.
  apply bind_Ok in H. destruct H as [n0 [_ H]].
  apply bind_Ok in H. destruct H as [s0 [_ H]].
  apply bind_Ok in H. destruct H as [stacks0 [Hm H]].
  apply bind_Ok in H. destruct H as [stacks [Ha H]].
  apply (suggest_loop_stored x0 process n0 d limit _ Hproc _ _ _ _)
    with (3 := H); [| constructor].
  apply assign_Ok in Ha. destruct Ha as [_ ->].
  unfold make in Hm. destruct (int8 (d + 1) <? 0); [discriminate |].
  injection Hm as <-. apply Forall_set_nth.
  - apply Forall_forall. intros st Hst. apply repeat_spec in Hst. subst st.
    constructor.
  - constructor; [apply inside_here | constructor].
Qed.

Lemma exact_prefix_inside (prefix : list rune) :
  forall n x, exact_prefix n prefix = Some x -> inside x n.
Proof.
  induction prefix as [| r prefix IH]; intros n x H; simpl in H.
  - injection H as <-. apply inside_here.
  - destruct (runemap.lookup r (child n)) as [y |] eqn:L; [| discriminate].
    exact (inside_child n r y x (lookup_In _ _ _ L) (IH _ _ H)).
Qed.

Lemma after_exact_prefix_stored (process : processAcceptingNode)
      (cap : nat -> nat) (t : Trie) (key : string) (p d n : Z)
      (out : list KV) :
  process = doNotExpandSuffixes \/ process = expandSuffixes ->
  after_exact_prefix cap process t key p d n = Ok out ->
  Forall (fun kv => stored kv (root t)) out.
Proof.
  intros Hproc H. unfold after_exact_prefix in H.
  apply bind_Ok in H. destruct H as [prefix [_ H]].
  destruct (exact_prefix (root t) prefix) as [curr |] eqn:E.
  - apply bind_Ok in H. destruct H as [rest [_ H]].
    eapply Forall_impl; [| exact (suggest_stored _ _ _ _ _ _ Hproc H)].
    intros kv Hkv. exact (stored_inside _ _ _ Hkv (exact_prefix_inside _ _ _ E)).
  - injection H as <-. constructor.
Qed.

Lemma inside_descend (n x : node) :
  inside x n -> distinct_edges n -> exists path, descend n path = Some x.
Proof.
  intros H. induction H as [n | n r y x Hin Hx IH]; intros Hd.
  - exists []. reflexivity.
  - apply distinct_edges_unfold in Hd. destruct Hd as [Hnd F].
    rewrite Forall_forall in F. specialize (F _ Hin). simpl in F.
    destruct (IH F) as [path D]. exists (r :: path). simpl.
    rewrite (In_lookup r y (child n) Hnd Hin). exact D.
Qed.

Lemma stored_Get (t : Trie) (kv : KV) :
  keyed t -> distinct_edges (root t) -> stored kv (root t) ->
  Get t (Key kv) = (Value kv, true).
Proof.
  intros K Hd [x [Hx E]].
  destruct (inside_descend _ _ Hx Hd) as [path D].
  pose proof (keyed_at_exact_prefix path [] (root t) x K D) as Kx.
  simpl in Kx. pose proof (keyed_at_data _ _ _ Kx E) as Hk.
  unfold Get. rewrite Hk, D, E. reflexivity.
Qed.

Lemma distinct_New : distinct_edges (root New).
Proof. simpl. split; [constructor | exact I]. Qed.

(** X16. What the searches return is stored. On a trie built by any
    program of public operations, every entry [(k, v)] that one of the four
    searches returns is an entry of the trie: [Get(k)] answers
    [(v, true)]. *)
Theorem searches_return_stored_entries (cap : nat -> nat) (ops : list op)
        (t : Trie) (key : string) (p d n : Z) (out : list KV) :
  run cap New ops = Ok t ->
  Suggest t key d n = Ok out \/
  SuggestSuffixes t key d n = Ok out \/
  SuggestAfterExactPrefix cap t key p d n = Ok out \/
  SuggestSuffixesAfterExactPrefix cap t key p d n = Ok out ->
  Forall (fun kv => Get t (Key kv) = (Value kv, true)) out.
Proof.
  intros Hrun H.
  pose proof (run_keyed cap ops New t keyed_New Hrun) as K.
  pose proof (run_distinct cap ops New t distinct_New Hrun) as Hd.
  assert (S : Forall (fun kv => stored kv (root t)) out).
  { destruct H as [H | [H | [H | H]]].
    - exact (suggest_stored _ _ _ _ _ _ (or_introl eq_refl) H).
    - exact (suggest_stored _ _ _ _ _ _ (or_intror eq_refl) H).
    - exact (after_exact_prefix_stored _ _ _ _ _ _ _ _ (or_introl eq_refl) H).
    - exact (after_exact_prefix_stored _ _ _ _ _ _ _ _ (or_intror eq_refl) H). }
  eapply Forall_impl; [| exact S].
  intros kv Hkv. exact (stored_Get t kv K Hd Hkv).
Qed.

Lemma searches_return_stored_entries_witness :
  Forall (fun kv => Get trie_a_ab (Key kv) = (Value kv, true))
         [mkKV "a" "1"; mkKV "ab" "2"].
Proof.
  apply (searches_return_stored_entries id_cap
           [OpSet "a" "1"; OpSet "ab" "2"] trie_a_ab "ab" 0 1 3
           [mkKV "a" "1"; mkKV "ab" "2"]).
  - reflexivity.
  - left. vm_compute. reflexivity.
Defined.

(* ================================================================== *)
(** * The transition and the wording of the specification *)

(** ** The next position holding a scalar *)

Lemma next_position_before (Q : list rune) (r : rune) :
  forall at_ pos, pos <= at_ ->
                  next_position Q r at_ pos = next_position Q r at_ at_.
Proof.
  induction Q as [| c Q IH]; intros at_ pos H; simpl; [reflexivity |].
  rewrite Z.leb_refl.
  destruct (pos <=? at_) eqn:E; [| apply Z.leb_gt in E; lia].
  simpl. destruct (c =? r); [reflexivity |].
  rewrite (IH (at_ + 1) pos) by lia.
  rewrite (IH (at_ + 1) at_) by lia. reflexivity.
Qed.

Lemma next_position_step (Q : list rune) (r : rune) :
  forall at_ pos,
    next_position Q r at_ pos =
    if (at_ <=? pos) &&
       match nth_error Q (Z.to_nat (pos - at_)) with
       | Some c => c =? r
       | None => false
       end
    then Some pos
    else next_position Q r at_ (pos + 1).
Proof.
  induction Q as [| c Q IH]; intros at_ pos.
  - simpl. destruct (at_ <=? pos); simpl;
      destruct (Z.to_nat (pos - at_)); reflexivity.
  - cbn [next_position].
    destruct (Z.lt_trichotomy pos at_) as [Hlt | [-> | Hgt]].
    + destruct (at_ <=? pos) eqn:E; [apply Z.leb_le in E; lia |].
      cbn [andb].
      destruct (pos <=? at_) eqn:E1; [| apply Z.leb_gt in E1; lia].
      destruct (pos + 1 <=? at_) eqn:E2; [| apply Z.leb_gt in E2; lia].
      cbn [andb]. destruct (c =? r); [reflexivity |].
      rewrite (next_position_before Q r (at_ + 1) pos) by lia.
      rewrite (next_position_before Q r (at_ + 1) (pos + 1)) by lia.
      reflexivity.
    + rewrite Z.leb_refl, Z.sub_diag. cbn [andb Z.to_nat nth_error].
      destruct (c =? r); [reflexivity |].
      destruct (at_ + 1 <=? at_) eqn:E; [apply Z.leb_le in E; lia |].
      cbn [andb].
      rewrite (next_position_before Q r (at_ + 1) at_) by lia. reflexivity.
    + destruct (pos <=? at_) eqn:E1; [apply Z.leb_le in E1; lia |].
      destruct (pos + 1 <=? at_) eqn:E2; [apply Z.leb_le in E2; lia |].
      cbn [andb]. rewrite (IH (at_ + 1) pos).
      destruct (at_ <=? pos) eqn:E3; [| apply Z.leb_gt in E3; lia].
      destruct (at_ + 1 <=? pos) eqn:E4; [| apply Z.leb_gt in E4; lia].
      cbn [andb].
      replace (Z.to_nat (pos - at_)) with (S (Z.to_nat (pos - (at_ + 1))))
        by lia.
      reflexivity.
Qed.

Lemma next_position_ge (Q : list rune) (r : rune) :
  forall at_ pos x, next_position Q r at_ pos = Some x -> pos <= x.
Proof.
  induction Q as [| c Q IH]; intros at_ pos x H; simpl in H; [discriminate |].
  destruct ((pos <=? at_) && (c =? r)) eqn:E.
  - injection H as <-. apply andb_true_iff in E. destruct E as [E _].
    apply Z.leb_le in E. exact E.
  - exact (IH _ _ _ H).
Qed.

Lemma holds_at_step (Q : list rune) (r : rune) (pos : Z) :
  next_position Q r 0 pos =
  if holds_at Q r pos then Some pos else next_position Q r 0 (pos + 1).
Proof.
  rewrite next_position_step. unfold holds_at. rewrite Z.sub_0_r.
  destruct (0 <=? pos) eqn:E0.
  - apply Z.leb_le in E0.
    destruct (pos >=? 0) eqn:E1;
      [| destruct (Z.geb_spec pos 0); [discriminate | lia]].
    destruct (nth_error Q (Z.to_nat pos)) as [c |] eqn:N.
    + assert (pos < len Q).
      { unfold len. assert (Z.to_nat pos < List.length Q)%nat; [| lia].
        apply nth_error_Some. congruence. }
      destruct (pos <? len Q) eqn:E2; [| apply Z.ltb_ge in E2; lia].
      reflexivity.
    + rewrite !andb_false_r. reflexivity.
  - apply Z.leb_gt in E0.
    destruct (pos >=? 0) eqn:E1;
      [destruct (Z.geb_spec pos 0); [lia | discriminate] |].
    rewrite andb_false_r. reflexivity.
Qed.

(** ** The jump table and the distance to the next position *)

Lemma fill_jump_rec (rs : list rune) (r : rune) (off : Z) (i : nat) :
  forall (next : Z) (acc : list Z),
    0 <= next -> next + Z.of_nat i <= 127 ->
    forall k, (k < i)%nat ->
      nth k (fill_jump rs r off i next acc) 0 =
      if holds_at rs r (off + Z.of_nat k) then 0
      else if Nat.eqb (S k) i then next
           else nth (S k) (fill_jump rs r off i next acc) 0 + 1.
Proof.
  induction i as [| i IH]; intros next acc Hnext Hfit k Hk; [lia |].
  cbn [fill_jump]. fold (holds_at rs r (off + Z.of_nat i)).
  set (next' := if holds_at rs r (off + Z.of_nat i) then 0 else next).
  assert (Hn' : 0 <= next' <= next)
    by (unfold next'; destruct (holds_at _ _ _); lia).
  rewrite (int8_small (next' + 1)) by lia.
  destruct (fill_jump_spec rs r off i (next' + 1) (next' :: acc))
    as [_ [_ T]]; [lia | lia |].
  pose proof (T O) as T0. rewrite Nat.add_0_r in T0. simpl in T0.
  destruct (Nat.eq_dec k i) as [-> | Hne].
  - rewrite T0, Nat.eqb_refl. unfold next'.
    destruct (holds_at rs r (off + Z.of_nat i)); reflexivity.
  - rewrite (IH (next' + 1) (next' :: acc)) by lia.
    destruct (holds_at rs r (off + Z.of_nat k)); [reflexivity |].
    destruct (Nat.eqb (S k) (S i)) eqn:E1;
      [apply Nat.eqb_eq in E1; lia |].
    destruct (Nat.eqb (S k) i) eqn:E2; [| reflexivity].
    apply Nat.eqb_eq in E2. rewrite E2, T0. reflexivity.
Qed.

Section Jump.
Variables (n : nfa) (s : state) (r : rune) (d : Z).
Hypothesis Hd : 0 <= d <= 31.
Hypothesis Hn : nfa_for n d.

Lemma jump_table_rec (k : Z) :
  0 <= k < 3 * d + 2 ->
  cell (jump_table n s r) k =
  if holds_at (nfa_rs n) r (offset s + k) then 0
  else if k =? 3 * d + 1 then d + 1
       else cell (jump_table n s r) (k + 1) + 1.
Proof.
  intros Hk. destruct Hn as [Hnd Hlen]. unfold cell, jump_table.
  rewrite Hnd. rewrite (int8_small (d + 1)) by lia. unfold len in Hlen.
  rewrite (fill_jump_rec (nfa_rs n) r (offset s) _ (d + 1) [])
    with (k := Z.to_nat k); try lia.
  rewrite Z2Nat.id by lia.
  destruct (holds_at (nfa_rs n) r (offset s + k)); [reflexivity |].
  destruct (k =? 3 * d + 1) eqn:E.
  - apply Z.eqb_eq in E.
    destruct (Nat.eqb (S (Z.to_nat k)) (List.length (nfa_jump n))) eqn:E1;
      [reflexivity | apply Nat.eqb_neq in E1; lia].
  - apply Z.eqb_neq in E.
    destruct (Nat.eqb (S (Z.to_nat k)) (List.length (nfa_jump n))) eqn:E1;
      [apply Nat.eqb_eq in E1; lia |].
    replace (Z.to_nat (k + 1)) with (S (Z.to_nat k)) by lia. reflexivity.
Qed.

(** The cell [k] of the jump table holds the distance from position
    [offset + k] to the next position holding [r] when that position lies
    in the window of the table, and [d + 1] plus the number of cells up to
    the end of the table otherwise. *)
Lemma jump_table_distance (m : nat) :
  forall k, 0 <= k -> k + Z.of_nat m = 3 * d + 1 ->
    match next_position (nfa_rs n) r 0 (offset s + k) with
    | Some x =>
      (x - (offset s + k) <= Z.of_nat m ->
       cell (jump_table n s r) k = x - (offset s + k)) /\
      (Z.of_nat m < x - (offset s + k) ->
       cell (jump_table n s r) k = d + 1 + Z.of_nat m)
    | None => cell (jump_table n s r) k = d + 1 + Z.of_nat m
    end.
Proof.
  induction m as [| m IH]; intros k Hk Hm.
  - rewrite jump_table_rec by lia. rewrite holds_at_step.
    destruct (holds_at (nfa_rs n) r (offset s + k)).
    + split; intros; lia.
    + destruct (k =? 3 * d + 1) eqn:E; [| apply Z.eqb_neq in E; lia].
      destruct (next_position (nfa_rs n) r 0 (offset s + k + 1)) as [x |]
        eqn:N; [| simpl; lia].
      apply next_position_ge in N. split; intros; simpl in *; lia.
  - rewrite jump_table_rec by lia. rewrite holds_at_step.
    destruct (holds_at (nfa_rs n) r (offset s + k)).
    + split; intros; lia.
    + destruct (k =? 3 * d + 1) eqn:E; [apply Z.eqb_eq in E; lia |].
      specialize (IH (k + 1) ltac:(lia) ltac:(lia)).
      replace (offset s + (k + 1)) with (offset s + k + 1) in IH by lia.
      destruct (next_position (nfa_rs n) r 0 (offset s + k + 1)) as [x |].
      * destruct IH as [I1 I2]. split; intros H.
        -- rewrite I1 by lia. lia.
        -- rewrite I2 by lia. lia.
      * rewrite IH. lia.
Qed.

Lemma horizontal_capped (j a : Z) :
  0 <= j <= 2 * d -> 0 <= a <= d + 1 ->
  Z.min (d + 1) (a + cell (jump_table n s r) (j + a)) =
  Z.min (d + 1)
        (a + capped_distance (nfa_rs n) d r (offset s + (j + a))).
Proof.
  intros Hj Ha.
  pose proof (jump_table_distance (Z.to_nat (3 * d + 1 - (j + a))) (j + a)
                ltac:(lia) ltac:(lia)) as H.
  rewrite Z2Nat.id in H by lia. unfold capped_distance.
  destruct (next_position (nfa_rs n) r 0 (offset s + (j + a))) as [x |] eqn:N.
  - apply next_position_ge in N. destruct H as [H1 H2].
    destruct (Z_le_gt_dec (x - (offset s + (j + a))) (3 * d + 1 - (j + a)))
      as [Hle | Hgt].
    + rewrite (H1 Hle). lia.
    + rewrite H2 by lia. lia.
  - rewrite H. lia.
Qed.
End Jump.

(** ** Cell by cell *)

Lemma cell_value_spec_cell (n : nfa) (s : state) (r : rune) (d j : Z) :
  0 <= d <= 31 -> nfa_for n d -> state_inv d s -> 0 <= j <= 2 * d ->
  cell_value d (arr s) (jump_table n s r) j = spec_cell (nfa_rs n) d s r j.
Proof.
  intros Hd Hn Hs Hj. unfold cell_value, spec_cell.
  pose proof (state_inv_cell d s j Hs Hj) as Ha.
  pose proof (horizontal_capped n s r d Hd Hn j (cell (arr s) j) Hj Ha) as Hh.
  replace (offset s + (j + cell (arr s) j))
    with (offset s + j + cell (arr s) j) in Hh by lia.
  destruct Hs as [La _]. rewrite La.
  replace (2 * d + 1 - 1) with (2 * d) by lia.
  replace (2 * d + 1 - 2) with (2 * d - 1) by lia.
  set (h' := cell (arr s) j + cell (jump_table n s r) (j + cell (arr s) j))
    in *.
  set (h := cell (arr s) j +
            capped_distance (nfa_rs n) d r (offset s + j + cell (arr s) j))
    in *.
  destruct (j <? 2 * d); destruct (j <? 2 * d - 1);
    match goal with
    | |- _ = (if ?m >=? ?b then _ else _) => destruct (Z.geb_spec m b)
    end; lia.
Qed.

Lemma diagonals_seq (k : nat) :
  forall j, diagonals j k = map (fun i => j + Z.of_nat i) (seq 0 k).
Proof.
  induction k as [| k IH]; intros j; [reflexivity |].
  cbn [diagonals seq map]. rewrite Z.add_0_r. f_equal.
  rewrite IH, <- seq_shift, map_map. apply map_ext. intros i. lia.
Qed.

Lemma fold_right_min_absorb (l : list Z) (m a : Z) :
  fold_right Z.min (Z.min m a) l = Z.min a (fold_right Z.min m l).
Proof.
  induction l as [| b l IH]; simpl; [lia |]. rewrite IH. lia.
Qed.

Lemma fold_left_right_min (l : list Z) :
  forall m, fold_left Z.min l m = fold_right Z.min m l.
Proof.
  induction l as [| a l IH]; intros m; simpl; [reflexivity |].
  rewrite IH. apply fold_right_min_absorb.
Qed.

Lemma next_state_spec_transition (n : nfa) (s : state) (r : rune) (d : Z) :
  0 <= d <= 31 -> nfa_for n d -> state_inv d s ->
  next_state n s r = spec_transition (nfa_rs n) d s r.
Proof.
  intros Hd Hn Hs. unfold next_state, spec_transition.
  destruct Hn as [Hnd Hlen]. rewrite Hnd.
  assert (E : map (cell_value d (arr s) (jump_table n s r))
                  (diagonals 0 (Z.to_nat (2 * d + 1))) =
              map (fun j => spec_cell (nfa_rs n) d s r (Z.of_nat j))
                  (seq 0 (Z.to_nat (2 * d + 1)))).
  { rewrite diagonals_seq, map_map. apply map_ext_in. intros i Hi.
    apply in_seq in Hi. simpl.
    apply cell_value_spec_cell; try assumption; [split; assumption | lia]. }
  rewrite E, fold_left_right_min. reflexivity.
Qed.

(** X17. The transition as the specification words it, for bounds up to
    31. For [0 <= d <= 31], an NFA built for [(Q, d)] and a state in the
    representation, [transition] returns the successor with offset one
    more whose cell [j] is the least of the horizontal contribution
    ([arr[j]] plus the distance, capped at [d+1], to the next position
    [>= offset + j + arr[j]] of [Q] holding the scalar), the diagonal one
    ([arr[j+1] + 1], for [j < 2d]) and the vertical one ([arr[j+2] + 1],
    for [j < 2d-1]), or [d+1] when that is not below [d+1]; the reported
    minimum is the least cell, or [d+1]. *)
Theorem transition_meets_specification (n : nfa) (s : state) (r : rune)
        (d : Z) :
  0 <= d <= 31 -> nfa_for n d -> state_inv d s ->
  transition n s r = Ok (spec_transition (nfa_rs n) d s r).
Proof.
  intros Hd Hn Hs.
  rewrite (transition_next_state n s r d Hd Hn Hs).
  rewrite (next_state_spec_transition n s r d Hd Hn Hs). reflexivity.
Qed.

Lemma transition_meets_specification_witness :
  transition (mkNfa [97; 98] 1 (repeat 0 5)) (mkState (-2) [2; 2; 0]) 97
  = Ok (spec_transition [97; 98] 1 (mkState (-2) [2; 2; 0]) 97).
Proof.
  apply (transition_meets_specification
           (mkNfa [97; 98] 1 (repeat 0 5)) (mkState (-2) [2; 2; 0]) 97 1).
  - lia.
  - exact nfa_for_ab_1.
  - exact state_inv_start_ab_1.
Defined.

(* ================================================================== *)
(** * Decoding *)

Lemma DecodeRuneInString_width (c : ascii) (s : string) :
  (1 <= snd (utf8.DecodeRuneInString (String c s)) <= 4)%nat /\
  (snd (utf8.DecodeRuneInString (String c s)) <= String.length (String c s))%nat.
Proof.
  unfold utf8.DecodeRuneInString.
  destruct (utf8.first (utf8.byte_val c)) as [| | sz lo hi] eqn:F;
    [simpl; lia | simpl; lia |].
  assert (Hsz : (2 <= sz <= 4)%nat).
  { unfold utf8.first in F.
    repeat match type of F with
           | (if ?b then _ else _) = _ => destruct b
           end; inversion F; lia. }
  destruct (String.length (String c s) <? sz)%nat eqn:E1; [simpl; lia |].
  apply Nat.ltb_ge in E1.
  destruct s as [| c1 s1]; [simpl; lia |].
  destruct (_ || _); [simpl; lia |].
  destruct (sz <=? 2)%nat; [simpl; lia |].
  destruct s1 as [| c2 s2]; [simpl; lia |].
  destruct (negb _); [simpl; lia |].
  destruct (sz <=? 3)%nat eqn:E3; [simpl; lia |].
  destruct s2 as [| c3 s3]; [simpl; lia |].
  destruct (negb _); simpl; lia.
Qed.

Lemma length_drop (w : nat) (s : string) :
  (w <= String.length s)%nat ->
  String.length (drop w s) = (String.length s - w)%nat.
Proof.
  revert s. induction w as [| w IH]; intros s H; simpl; [lia |].
  destruct s as [| c s]; simpl in *; [lia |]. apply IH. lia.
Qed.

Lemma decode_loop_length (fuel : nat) :
  forall s, (String.length s <= fuel)%nat ->
            (List.length (decode_loop fuel s) <= String.length s)%nat /\
            (String.length s <= 4 * List.length (decode_loop fuel s))%nat.
Proof.
  induction fuel as [| fuel IH]; intros s H.
  - destruct s; simpl in *; lia.
  - destruct s as [| c s]; [simpl; lia |]. cbn [decode_loop].
    destruct (DecodeRuneInString_width c s) as [W1 W2].
    destruct (utf8.DecodeRuneInString (String c s)) as [r w].
    cbn [snd] in W1, W2. cbn [List.length].
    pose proof (length_drop w (String c s) W2) as L.
    destruct (IH (drop w (String c s))) as [I1 I2]; [lia |]. lia.
Qed.

Lemma extractRunes_ascii_cons (c : ascii) (s : string) :
  utf8.byte_val c < 128 ->
  extractRunes (String c s) = utf8.byte_val c :: extractRunes s.
Proof.
  intros H. unfold extractRunes. cbn [String.length decode_loop].
  unfold utf8.DecodeRuneInString, utf8.first.
  destruct (utf8.byte_val c <? 128) eqn:E; [| apply Z.ltb_ge in E; lia].
  reflexivity.
Qed.

(** X18. [extractRunes] decodes the whole string. Its result is empty
    exactly for the empty string; it has at most as many scalars as the
    string has bytes, and at least a quarter as many; and a string of
    bytes below 128 decodes byte by byte. *)
Theorem extractRunes_consumes_string (s : string) :
  (extractRunes s = [] <-> s = EmptyString) /\
  (List.length (extractRunes s) <= String.length s)%nat /\
  (String.length s <= 4 * List.length (extractRunes s))%nat /\
  (Forall (fun c => utf8.byte_val c < 128) (list_ascii_of_string s) ->
   extractRunes s = map utf8.byte_val (list_ascii_of_string s)).
Proof.
  split; [apply extractRunes_nil_iff |].
  destruct (decode_loop_length (String.length s) s (le_n _)) as [H1 H2].
  split; [exact H1 |]. split; [exact H2 |].
  induction s as [| c s IH]; intros F; [reflexivity |].
  simpl in F. inversion F as [| ? ? Hc Hs]; subst.
  rewrite (extractRunes_ascii_cons c s Hc). simpl. f_equal.
  apply IH; [| | exact Hs];
    destruct (decode_loop_length (String.length s) s (le_n _)); assumption.
Qed.

(* ================================================================== *)
(** * The bounds for which an NFA can be built *)

Lemma int8_wrap_high (z : Z) : 128 <= z <= 383 -> int8 z = z - 256.
Proof.
  intros H. unfold int8.
  replace (z + 128) with ((z - 128) + 1 * 256) by lia.
  rewrite Z_mod_plus_full. rewrite Z.mod_small; lia.
Qed.

Lemma set_nth_repeat_last {A : Type} (x y : A) (k : nat) :
  set_nth (repeat x (S k)) k y = repeat x k ++ [y].
Proof.
  induction k as [| k IH]; [reflexivity |].
  change (repeat x (S (S k))) with (x :: repeat x (S k)).
  cbn [set_nth]. rewrite IH. reflexivity.
Qed.

(** X19. The bounds for which the NFA can be built. For a bound [d] of
    type int8: when [d] is negative [newNfa] panics ([3d+2 < 0]); from
    [d = 64] on [start] panics, because [2*d+1] wraps to a negative length;
    for [0 <= d <= 63] both return, and the start state has offset [-2d]
    and [2d+1] cells, all [d+1] but the last, which is 0. *)
Theorem nfa_start_domain (q : list rune) (d : Z) :
  -128 <= d <= 127 ->
  (d < 0 -> newNfa q d = Panic MakeSliceLenOutOfRange) /\
  (0 <= d <= 63 ->
   exists n, newNfa q d = Ok n /\
             start n = Ok (mkState (- 2 * d)
                                   (repeat (d + 1) (Z.to_nat (2 * d)) ++ [0]))) /\
  (64 <= d ->
   exists n, newNfa q d = Ok n /\ start n = Panic MakeSliceLenOutOfRange).
Proof.
  intros Hd. split; [| split].
  - intros Hneg. unfold newNfa, make.
    destruct (3 * d + 2 <? 0) eqn:E; [reflexivity | apply Z.ltb_ge in E; lia].
  - intros Hr. destruct (newNfa_small q d) as [En _]; [lia |].
    eexists. split; [exact En |].
    unfold start. cbn [nfa_d]. rewrite newState_small by lia.
    cbn [bind arr offset]. rewrite (int8_small (2 * d)) by lia.
    rewrite (int8_small (- 2 * d)) by lia. unfold assign.
    assert (L : len (repeat (d + 1) (Z.to_nat (2 * d + 1))) = 2 * d + 1)
      by (unfold len; rewrite repeat_length; lia).
    rewrite L.
    destruct ((2 * d <? 0) || (2 * d + 1 <=? 2 * d)) eqn:E.
    { apply orb_true_iff in E. destruct E as [E | E];
        [apply Z.ltb_lt in E | apply Z.leb_le in E]; lia. }
    cbn [bind]. f_equal. f_equal.
    replace (Z.to_nat (2 * d + 1)) with (S (Z.to_nat (2 * d))) by lia.
    apply set_nth_repeat_last.
  - intros Hr. destruct (newNfa_small q d) as [En _]; [lia |].
    eexists. split; [exact En |].
    unfold start, newState, make. cbn [nfa_d].
    rewrite (int8_wrap_high (2 * d)) by lia.
    rewrite (int8_small (2 * d - 256 + 1)) by lia.
    destruct (2 * d - 256 + 1 <? 0) eqn:E; [reflexivity |].
    apply Z.ltb_ge in E. lia.
Qed.

Lemma nfa_start_domain_witness :
  (2 < 0 -> newNfa [97] 2 = Panic MakeSliceLenOutOfRange) /\
  (0 <= 2 <= 63 ->
   exists n, newNfa [97] 2 = Ok n /\
             start n = Ok (mkState (- 2 * 2)
                                   (repeat (2 + 1) (Z.to_nat (2 * 2)) ++ [0]))) /\
  (64 <= 2 ->
   exists n, newNfa [97] 2 = Ok n /\ start n = Panic MakeSliceLenOutOfRange).
Proof.
  apply (nfa_start_domain [97] 2). lia.
Defined.

(* ================================================================== *)
(** * Levenshtein distance and edit scripts *)

Lemma levenshtein_nil_l (t : list rune) : levenshtein [] t = List.length t.
Proof. reflexivity. Qed.

Lemma levenshtein_nil_r (s : list rune) : levenshtein s [] = List.length s.
Proof. destruct s; reflexivity. Qed.

Lemma levenshtein_cons (a b : rune) (s t : list rune) :
  levenshtein (a :: s) (b :: t) =
  Nat.min (Nat.min (S (levenshtein s (b :: t))) (S (levenshtein (a :: s) t)))
          ((if Z.eqb a b then 0 else 1) + levenshtein s t)%nat.
Proof. reflexivity. Qed.

Lemma edits_nil_l (t : list rune) : edits [] t (List.length t).
Proof. induction t; simpl; constructor; assumption. Qed.

Lemma edits_nil_r (s : list rune) : edits s [] (List.length s).
Proof. induction s; simpl; constructor; assumption. Qed.

(** The distance is the cost of some script ... *)
Lemma levenshtein_edits (s : list rune) :
  forall t, edits s t (levenshtein s t).
Proof.
  induction s as [| a s IHs]; intros t.
  - rewrite levenshtein_nil_l. apply edits_nil_l.
  - induction t as [| b t IHt].
    + rewrite levenshtein_nil_r. apply edits_nil_r.
    + rewrite levenshtein_cons.
      set (x := S (levenshtein s (b :: t))).
      set (y := S (levenshtein (a :: s) t)).
      set (z := ((if Z.eqb a b then 0 else 1) + levenshtein s t)%nat).
      assert (Hx : edits (a :: s) (b :: t) x) by (apply edits_ins, IHs).
      assert (Hy : edits (a :: s) (b :: t) y) by (apply edits_del, IHt).
      assert (Hz : edits (a :: s) (b :: t) z).
      { unfold z. destruct (a =? b) eqn:E.
        - apply Z.eqb_eq in E. subst b. apply edits_match, IHs.
        - apply edits_sub, IHs. }
      destruct (Nat.min_spec x y) as [[_ E1] | [_ E1]]; rewrite E1;
        match goal with
        | |- edits _ _ (Nat.min ?u z) =>
          destruct (Nat.min_spec u z) as [[_ E2] | [_ E2]]; rewrite E2
        end; assumption.
Qed.

(** ... and no script is cheaper. *)
Lemma edits_levenshtein (s t : list rune) (k : nat) :
  edits s t k -> (levenshtein s t <= k)%nat.
Proof.
  intros H. induction H as [| a s t k H IH | b s t k H IH
                            | a b s t k H IH | a s t k H IH].
  - simpl. lia.
  - destruct t as [| b t].
    + rewrite levenshtein_nil_r in *. simpl. lia.
    + rewrite levenshtein_cons. lia.
  - destruct s as [| a s].
    + rewrite levenshtein_nil_l in *. simpl. lia.
    + rewrite levenshtein_cons. lia.
  - rewrite levenshtein_cons. destruct (a =? b); lia.
  - rewrite levenshtein_cons. rewrite Z.eqb_refl. lia.
Qed.

Lemma edits_app (s t s' t' : list rune) (k k' : nat) :
  edits s t k -> edits s' t' k' -> edits (s ++ s') (t ++ t') (k + k').
Proof.
  intros H H'. induction H; simpl; try (constructor; assumption).
  exact H'.
Qed.

Lemma edits_rev (s t : list rune) (k : nat) :
  edits s t k -> edits (rev s) (rev t) k.
Proof.
  intros H. induction H as [| a s t k H IH | b s t k H IH
                            | a b s t k H IH | a s t k H IH]; simpl.
  - constructor.
  - replace (rev t) with (rev t ++ []) by apply app_nil_r.
    replace (S k) with (k + 1)%nat by lia.
    apply edits_app; [exact IH |]. apply (edits_ins a [] [] 0), edits_nil.
  - replace (rev s) with (rev s ++ []) by apply app_nil_r.
    replace (S k) with (k + 1)%nat by lia.
    apply edits_app; [exact IH |]. apply (edits_del b [] [] 0), edits_nil.
  - replace (S k) with (k + 1)%nat by lia.
    apply edits_app; [exact IH |]. apply (edits_sub a b [] [] 0), edits_nil.
  - replace k with (k + 0)%nat by lia.
    apply edits_app; [exact IH |]. apply (edits_match a [] [] 0), edits_nil.
Qed.

Lemma edits_lengths (s t : list rune) (k : nat) :
  edits s t k ->
  (List.length s <= List.length t + k)%nat /\
  (List.length t <= List.length s + k)%nat.
Proof.
  intros H. induction H; simpl; lia.
Qed.

(** The last step of a script that ends in a scalar on both sides. *)
Lemma edits_snoc_inv (s t : list rune) (a b : rune) (k : nat) :
  edits (s ++ [a]) (t ++ [b]) k ->
  (exists k', k = S k' /\ edits s (t ++ [b]) k') \/
  (exists k', k = S k' /\ edits (s ++ [a]) t k') \/
  (exists k', k = S k' /\ edits s t k') \/
  (a = b /\ edits s t k).
Proof.
  intros H. apply edits_rev in H. rewrite !rev_app_distr in H. simpl in H.
  inversion H as [| a0 s0 t0 k0 H0 | b0 s0 t0 k0 H0
                  | a0 b0 s0 t0 k0 H0 | a0 s0 t0 k0 H0]; subst.
  - left. exists k0. split; [reflexivity |].
    apply edits_rev in H0. rewrite rev_involutive in H0. simpl in H0.
    rewrite rev_involutive in H0. exact H0.
  - right. left. exists k0. split; [reflexivity |].
    apply edits_rev in H0. simpl in H0. rewrite !rev_involutive in H0.
    exact H0.
  - right. right. left. exists k0. split; [reflexivity |].
    apply edits_rev in H0. rewrite !rev_involutive in H0. exact H0.
  - right. right. right. split; [reflexivity |].
    apply edits_rev in H0. rewrite !rev_involutive in H0. exact H0.
Qed.

(** The last step of a script onto the empty sequence. *)
Lemma edits_snoc_nil_inv (s : list rune) (a : rune) (k : nat) :
  edits (s ++ [a]) [] k -> exists k', k = S k' /\ edits s [] k'.
Proof.
  intros H. apply edits_rev in H. rewrite rev_app_distr in H. simpl in H.
  inversion H as [| a0 s0 t0 k0 H0 | | |]; subst.
  exists k0. split; [reflexivity |].
  apply edits_rev in H0. rewrite rev_involutive in H0. exact H0.
Qed.

Lemma edits_snoc_ins (s t : list rune) (a : rune) (k : nat) :
  edits s t k -> edits (s ++ [a]) t (S k).
Proof.
  intros H. replace t with (t ++ []) by apply app_nil_r.
  replace (S k) with (k + 1)%nat by lia.
  apply edits_app; [exact H |]. apply (edits_ins a [] [] 0), edits_nil.
Qed.

Lemma edits_snoc_del (s t : list rune) (b : rune) (k : nat) :
  edits s t k -> edits s (t ++ [b]) (S k).
Proof.
  intros H. replace s with (s ++ []) by apply app_nil_r.
  replace (S k) with (k + 1)%nat by lia.
  apply edits_app; [exact H |]. apply (edits_del b [] [] 0), edits_nil.
Qed.

Lemma edits_snoc_sub (s t : list rune) (a b : rune) (k : nat) :
  edits s t k -> edits (s ++ [a]) (t ++ [b]) (S k).
Proof.
  intros H. replace (S k) with (k + 1)%nat by lia.
  apply edits_app; [exact H |]. apply (edits_sub a b [] [] 0), edits_nil.
Qed.

Lemma edits_snoc_match (s t : list rune) (a : rune) (k : nat) :
  edits s t k -> edits (s ++ [a]) (t ++ [a]) k.
Proof.
  intros H. replace k with (k + 0)%nat by lia.
  apply edits_app; [exact H |]. apply (edits_match a [] [] 0), edits_nil.
Qed.

(* ================================================================== *)
(** * The states of the NFA and edit scripts *)

Lemma edits_nil_l_inv (t : list rune) (k : nat) :
  edits [] t k -> k = List.length t.
Proof.
  revert k. induction t as [| b t IH]; intros k H; inversion H; subst.
  - reflexivity.
  - simpl. f_equal. apply IH. assumption.
Qed.

Lemma firstn_snoc (Q : list rune) (r : rune) :
  forall i, nth_error Q i = Some r -> firstn (S i) Q = firstn i Q ++ [r].
Proof.
  induction Q as [| c Q IH]; intros [| i] H; simpl in *; try discriminate.
  - injection H as ->. reflexivity.
  - f_equal. apply IH. exact H.
Qed.

Lemma nth_error_below (Q : list rune) (i : Z) :
  0 <= i < len Q -> exists c, nth_error Q (Z.to_nat i) = Some c.
Proof.
  intros H. destruct (nth_error Q (Z.to_nat i)) as [c |] eqn:N.
  - exists c. reflexivity.
  - apply nth_error_None in N. unfold len in H. lia.
Qed.

(** ** Moves *)

Lemma reaches_del (Q w : list rune) (i e : Z) :
  0 <= i < len Q -> 0 <= e ->
  reaches Q w i e -> reaches Q w (i + 1) (e + 1).
Proof.
  intros Hi He H. unfold reaches in *.
  destruct (nth_error_below Q i Hi) as [c N].
  replace (Z.to_nat (i + 1)) with (S (Z.to_nat i)) by lia.
  replace (Z.to_nat (e + 1)) with (S (Z.to_nat e)) by lia.
  rewrite (firstn_snoc Q c _ N). apply edits_snoc_del. exact H.
Qed.

Lemma reaches_dels (Q w : list rune) (i e : Z) (k : nat) :
  0 <= i -> i + Z.of_nat k <= len Q -> 0 <= e ->
  reaches Q w i e -> reaches Q w (i + Z.of_nat k) (e + Z.of_nat k).
Proof.
  intros Hi Hk He H. induction k as [| k IH].
  - rewrite !Z.add_0_r. exact H.
  - replace (i + Z.of_nat (S k)) with (i + Z.of_nat k + 1) by lia.
    replace (e + Z.of_nat (S k)) with (e + Z.of_nat k + 1) by lia.
    apply reaches_del; [lia | lia |]. apply IH. lia.
Qed.

Lemma reaches_ins (Q w : list rune) (r : rune) (i e : Z) :
  0 <= e -> reaches Q w i e -> reaches Q (w ++ [r]) i (e + 1).
Proof.
  intros He H. unfold reaches in *.
  replace (Z.to_nat (e + 1)) with (S (Z.to_nat e)) by lia.
  apply edits_snoc_ins. exact H.
Qed.

Lemma reaches_sub (Q w : list rune) (r : rune) (i e : Z) :
  0 <= i < len Q -> 0 <= e ->
  reaches Q w i e -> reaches Q (w ++ [r]) (i + 1) (e + 1).
Proof.
  intros Hi He H. unfold reaches in *.
  destruct (nth_error_below Q i Hi) as [c N].
  replace (Z.to_nat (i + 1)) with (S (Z.to_nat i)) by lia.
  replace (Z.to_nat (e + 1)) with (S (Z.to_nat e)) by lia.
  rewrite (firstn_snoc Q c _ N). apply edits_snoc_sub. exact H.
Qed.

Lemma reaches_match (Q w : list rune) (r : rune) (i e : Z) :
  0 <= i -> nth_error Q (Z.to_nat i) = Some r ->
  reaches Q w i e -> reaches Q (w ++ [r]) (i + 1) e.
Proof.
  intros Hi N H. unfold reaches in *.
  replace (Z.to_nat (i + 1)) with (S (Z.to_nat i)) by lia.
  rewrite (firstn_snoc Q r _ N). apply edits_snoc_match. exact H.
Qed.

(** The last move of a script for a word that ends in [r]. *)
Lemma reaches_inv (Q w : list rune) (r : rune) (i e : Z) :
  0 <= i <= len Q -> 0 <= e ->
  reaches Q (w ++ [r]) i e ->
  (1 <= e /\ reaches Q w i (e - 1)) \/
  (1 <= e /\ 1 <= i /\ reaches Q (w ++ [r]) (i - 1) (e - 1)) \/
  (1 <= e /\ 1 <= i /\ reaches Q w (i - 1) (e - 1)) \/
  (1 <= i /\ nth_error Q (Z.to_nat (i - 1)) = Some r /\
   reaches Q w (i - 1) e).
Proof.
  intros Hi He H. unfold reaches in *.
  destruct (Z.eq_dec i 0) as [-> | Hne].
  - simpl in H. apply edits_snoc_nil_inv in H. destruct H as [k [Ek H]].
    left. split; [lia |]. simpl.
    replace (Z.to_nat (e - 1)) with k by lia. exact H.
  - destruct (nth_error_below Q (i - 1) ltac:(lia)) as [c N].
    replace (Z.to_nat i) with (S (Z.to_nat (i - 1))) in H by lia.
    rewrite (firstn_snoc Q c _ N) in H.
    apply edits_snoc_inv in H.
    destruct H as [[k [Ek H]] | [[k [Ek H]] | [[k [Ek H]] | [Ec H]]]].
    + left. split; [lia |].
      replace (Z.to_nat i) with (S (Z.to_nat (i - 1))) by lia.
      rewrite (firstn_snoc Q c _ N).
      replace (Z.to_nat (e - 1)) with k by lia. exact H.
    + right. left. split; [lia |]. split; [lia |].
      replace (Z.to_nat (e - 1)) with k by lia. exact H.
    + right. right. left. split; [lia |]. split; [lia |].
      replace (Z.to_nat (e - 1)) with k by lia. exact H.
    + right. right. right. split; [lia |]. subst c. split; assumption.
Qed.

Lemma reaches_lengths (Q w : list rune) (i e : Z) :
  0 <= i <= len Q -> 0 <= e ->
  reaches Q w i e -> i <= len w + e /\ len w <= i + e.
Proof.
  intros Hi He H. unfold reaches in H. apply edits_lengths in H.
  rewrite length_firstn in H. unfold len in *. lia.
Qed.

Lemma reaches_nil (Q : list rune) (i e : Z) :
  0 <= i <= len Q -> 0 <= e -> (reaches Q [] i e <-> i = e).
Proof.
  intros Hi He. unfold reaches. split.
  - intros H. apply edits_nil_l_inv in H. rewrite length_firstn in H.
    unfold len in *. lia.
  - intros <-.
    replace (Z.to_nat i) with (List.length (firstn (Z.to_nat i) Q)) at 2
      by (rewrite length_firstn; unfold len in *; lia).
    apply edits_nil_l.
Qed.

(** ** The next position holding a scalar *)

Lemma next_position_holds (Q : list rune) (r : rune) :
  forall at_ pos x,
    next_position Q r at_ pos = Some x ->
    at_ <= x /\ pos <= x /\ nth_error Q (Z.to_nat (x - at_)) = Some r.
Proof.
  induction Q as [| c Q IH]; intros at_ pos x H; simpl in H; [discriminate |].
  destruct ((pos <=? at_) && (c =? r)) eqn:E.
  - injection H as <-. apply andb_true_iff in E. destruct E as [E1 E2].
    apply Z.leb_le in E1. apply Z.eqb_eq in E2. subst c.
    rewrite Z.sub_diag. simpl. repeat split; try lia.
  - destruct (IH _ _ _ H) as [H1 [H2 H3]]. split; [lia |]. split; [lia |].
    replace (Z.to_nat (x - at_)) with (S (Z.to_nat (x - (at_ + 1)))) by lia.
    exact H3.
Qed.

Lemma next_position_least (Q : list rune) (r : rune) :
  forall at_ pos y,
    at_ <= y -> pos <= y -> nth_error Q (Z.to_nat (y - at_)) = Some r ->
    exists x, next_position Q r at_ pos = Some x /\ x <= y.
Proof.
  induction Q as [| c Q IH]; intros at_ pos y Ha Hp N.
  - destruct (Z.to_nat (y - at_)); discriminate.
  - simpl. destruct ((pos <=? at_) && (c =? r)) eqn:E.
    + exists at_. split; [reflexivity | exact Ha].
    + destruct (Z.eq_dec y at_) as [-> | Hne].
      * rewrite Z.sub_diag in N. simpl in N. injection N as ->.
        rewrite Z.eqb_refl, andb_true_r in E. apply Z.leb_gt in E. lia.
      * apply (IH (at_ + 1) pos y); [lia | lia |].
        replace (Z.to_nat (y - at_)) with (S (Z.to_nat (y - (at_ + 1))))
          in N by lia.
        exact N.
Qed.

Lemma capped_distance_bounds (Q : list rune) (d : Z) (r : rune) (pos : Z) :
  0 <= d -> 0 <= capped_distance Q d r pos <= d + 1.
Proof.
  intros Hd. unfold capped_distance.
  destruct (next_position Q r 0 pos) as [x |] eqn:N; [| lia].
  apply next_position_ge in N. lia.
Qed.

(** ** The cells of a successor *)

Lemma spec_cell_bounds (Q : list rune) (d : Z) (s : state) (r : rune)
      (j : Z) :
  0 <= d -> state_inv d s -> 0 <= j <= 2 * d ->
  0 <= spec_cell Q d s r j <= d + 1.
Proof.
  intros Hd Hs Hj. unfold spec_cell.
  pose proof (state_inv_cell d s j Hs Hj) as Ha.
  pose proof (capped_distance_bounds Q d r
                (offset s + j + cell (arr s) j) Hd) as Hc.
  set (h := cell (arr s) j + capped_distance Q d r _) in *.
  destruct (j <? 2 * d) eqn:E1; destruct (j <? 2 * d - 1) eqn:E2;
    try (apply Z.ltb_lt in E1); try (apply Z.ltb_lt in E2);
    try (pose proof (state_inv_cell d s (j + 1) Hs ltac:(lia)));
    try (pose proof (state_inv_cell d s (j + 2) Hs ltac:(lia)));
    match goal with
    | |- _ <= (if ?m >=? ?b then _ else _) <= _ => destruct (Z.geb_spec m b)
    end; lia.
Qed.

(** A cell of the successor is at most [e <= d] exactly when one of its
    three contributions is. *)
Lemma spec_cell_le (Q : list rune) (d : Z) (s : state) (r : rune)
      (j e : Z) :
  e <= d ->
  (spec_cell Q d s r j <= e <->
   cell (arr s) j +
   capped_distance Q d r (offset s + j + cell (arr s) j) <= e \/
   (j < 2 * d /\ cell (arr s) (j + 1) + 1 <= e) \/
   (j < 2 * d - 1 /\ cell (arr s) (j + 2) + 1 <= e)).
Proof.
  intros He. unfold spec_cell.
  set (h := cell (arr s) j + capped_distance Q d r _).
  destruct (j <? 2 * d) eqn:E1; destruct (j <? 2 * d - 1) eqn:E2;
    try (apply Z.ltb_lt in E1); try (apply Z.ltb_lt in E2);
    try (apply Z.ltb_ge in E1); try (apply Z.ltb_ge in E2);
    match goal with
    | |- (if ?m >=? ?b then _ else _) <= _ <-> _ => destruct (Z.geb_spec m b)
    end; lia.
Qed.

Lemma cell_spec_transition (Q : list rune) (d : Z) (s : state) (r : rune)
      (j : Z) :
  0 <= j <= 2 * d ->
  cell (arr (fst (spec_transition Q d s r))) j = spec_cell Q d s r j.
Proof.
  intros Hj. unfold spec_transition, cell. cbn [fst arr].
  rewrite (nth_indep _ 0 (spec_cell Q d s r (Z.of_nat 0)))
    by (rewrite length_map, length_seq; lia).
  rewrite (map_nth (fun j => spec_cell Q d s r (Z.of_nat j))).
  rewrite seq_nth by lia. rewrite Nat.add_0_l, Z2Nat.id by lia. reflexivity.
Qed.

Lemma spec_transition_inv (Q : list rune) (d : Z) (s : state) (r : rune) :
  0 <= d -> state_inv d s -> state_inv d (fst (spec_transition Q d s r)).
Proof.
  intros Hd Hs. split.
  - unfold spec_transition, len. cbn [fst arr].
    rewrite length_map, length_seq. lia.
  - unfold spec_transition. cbn [fst arr]. apply Forall_forall.
    intros x Hx. apply in_map_iff in Hx. destruct Hx as [k [<- Hk]].
    apply in_seq in Hk. apply spec_cell_bounds; [exact Hd | exact Hs | lia].
Qed.

(** The horizontal contribution is at most [e <= d] exactly when the next
    position holding the scalar is close enough. *)
Lemma horizontal_le (Q : list rune) (d : Z) (r : rune) (a pos e : Z) :
  0 <= a -> e <= d ->
  (a + capped_distance Q d r pos <= e <->
   exists x, next_position Q r 0 pos = Some x /\ a + (x - pos) <= e).
Proof.
  intros Ha He. unfold capped_distance.
  destruct (next_position Q r 0 pos) as [x |] eqn:N.
  - pose proof (next_position_ge _ _ _ _ _ N). split.
    + intros H1. exists x. split; [reflexivity | lia].
    + intros [y [Ey H1]]. injection Ey as <-. lia.
  - split; [lia |]. intros [y [Ey _]]. discriminate.
Qed.

(** ** One transition *)

Section Step.
Variables (Q : list rune) (d : Z) (w : list rune) (s : state) (r : rune).
Hypothesis Hd : 0 <= d.
Hypothesis Ht : tracks Q d w s.

Lemma tracks_step_sound (j e : Z) :
  0 <= j <= 2 * d -> 0 <= e <= d ->
  0 <= offset s + 1 + j + e <= len Q ->
  spec_cell Q d s r j <= e ->
  reaches Q (w ++ [r]) (offset s + 1 + j + e) e.
Proof.
  intros Hj He Hi H. destruct Ht as [Hoff [Hs [Hin Hiff]]].
  apply spec_cell_le in H; [| lia].
  pose proof (state_inv_cell d s j Hs Hj) as Ha.
  destruct H as [H | [[Hj1 H] | [Hj2 H]]].
  - (* horizontal: deletions up to the next position, then a match *)
    apply horizontal_le in H; [| lia | lia].
    destruct H as [x [N H]].
    apply next_position_holds in N. destruct N as [_ [Hx N]].
    destruct (Hin j Hj ltac:(lia)) as [Hpos _].
    rewrite Z.sub_0_r in N.
    assert (Hlt : x < len Q).
    { assert (Z.to_nat x < List.length Q)%nat
        by (apply nth_error_Some; congruence).
      unfold len. lia. }
    set (e0 := cell (arr s) j + (x - (offset s + j + cell (arr s) j))).
    assert (R : reaches Q w x e0).
    { replace x with (offset s + j + e0) by (unfold e0; lia).
      apply Hiff; unfold e0; lia. }
    apply (reaches_match Q w r x e0 ltac:(lia) N) in R.
    replace (offset s + 1 + j + e) with (x + 1 + Z.of_nat (Z.to_nat (e - e0)))
      by (unfold e0; lia).
    replace e with (e0 + Z.of_nat (Z.to_nat (e - e0))) at 2
      by (unfold e0 in *; lia).
    apply reaches_dels; [lia | unfold e0 in *; lia | unfold e0; lia | exact R].
  - (* diagonal: a substitution *)
    pose proof (state_inv_cell d s (j + 1) Hs ltac:(lia)) as Ha1.
    destruct (Hin (j + 1) ltac:(lia) ltac:(lia)) as [Hpos _].
    replace (offset s + 1 + j + e) with (offset s + (j + 1) + (e - 1) + 1)
      by lia.
    replace e with (e - 1 + 1) at 2 by lia.
    apply reaches_sub; [lia | lia |].
    apply Hiff; lia.
  - (* vertical: an insertion *)
    pose proof (state_inv_cell d s (j + 2) Hs ltac:(lia)) as Ha2.
    replace (offset s + 1 + j + e) with (offset s + (j + 2) + (e - 1)) by lia.
    replace e with (e - 1 + 1) at 2 by lia.
    apply reaches_ins; [lia |].
    apply Hiff; lia.
Qed.

Lemma tracks_step_complete (j : Z) :
  0 <= j <= 2 * d ->
  forall e, 0 <= e ->
    e <= d ->
    0 <= offset s + 1 + j + e <= len Q ->
    reaches Q (w ++ [r]) (offset s + 1 + j + e) e ->
    spec_cell Q d s r j <= e.
Proof.
  intros Hj. destruct Ht as [Hoff [Hs [Hin Hiff]]].
  apply (natlike_ind (fun e =>
           e <= d -> 0 <= offset s + 1 + j + e <= len Q ->
           reaches Q (w ++ [r]) (offset s + 1 + j + e) e ->
           spec_cell Q d s r j <= e)).
  - (* no error: the last move is a match *)
    intros He Hi R. apply reaches_inv in R; [| lia | lia].
    destruct R as [[H _] | [[H _] | [[H _] | [Hi1 [N R]]]]]; try lia.
    apply spec_cell_le; [lia |]. left.
    replace (offset s + 1 + j + 0 - 1) with (offset s + j + 0) in N, R by lia.
    apply Hiff in R; [| lia | lia | lia].
    pose proof (state_inv_cell d s j Hs Hj) as Ha.
    destruct (Hin j Hj ltac:(lia)) as [Hpos _].
    apply horizontal_le; [lia | lia |].
    destruct (next_position_least Q r 0 (offset s + j + cell (arr s) j)
                (offset s + j + 0)) as [x [Nx Hx]];
      [lia | lia | rewrite Z.sub_0_r; exact N |].
    exists x. split; [exact Nx | lia].
  - intros e He IH Hed Hi R. apply reaches_inv in R; [| lia | lia].
    apply spec_cell_le; [lia |].
    destruct R as [[_ R] | [[_ [Hi1 R]] | [[_ [Hi1 R]] | [Hi1 [N R]]]]].
    + (* insertion: from the cell two diagonals up *)
      replace (Z.succ e - 1) with e in R by lia.
      pose proof (reaches_lengths Q w (offset s + 1 + j + Z.succ e) e
                    ltac:(lia) He R) as [L _].
      right. right. split; [lia |].
      replace (offset s + 1 + j + Z.succ e) with (offset s + (j + 2) + e)
        in R by lia.
      apply Hiff in R; lia.
    + (* deletion: the same cell with one error less *)
      replace (Z.succ e - 1) with e in R by lia.
      replace (offset s + 1 + j + Z.succ e - 1) with (offset s + 1 + j + e)
        in R by lia.
      specialize (IH ltac:(lia) ltac:(lia) R).
      apply spec_cell_le in IH; [| lia].
      destruct IH as [IH | [[? IH] | [? IH]]]; [left | right; left
                                                | right; right]; lia.
    + (* substitution: from the cell one diagonal up *)
      replace (Z.succ e - 1) with e in R by lia.
      pose proof (reaches_lengths Q w (offset s + 1 + j + Z.succ e - 1) e
                    ltac:(lia) He R) as [L _].
      right. left. split; [lia |].
      replace (offset s + 1 + j + Z.succ e - 1) with (offset s + (j + 1) + e)
        in R by lia.
      apply Hiff in R; lia.
    + (* match: the horizontal contribution *)
      left.
      replace (offset s + 1 + j + Z.succ e - 1)
        with (offset s + j + Z.succ e) in N, R by lia.
      apply Hiff in R; [| lia | lia | lia].
      pose proof (state_inv_cell d s j Hs Hj) as Ha.
      destruct (Hin j Hj ltac:(lia)) as [Hpos _].
      apply horizontal_le; [lia | lia |].
      destruct (next_position_least Q r 0 (offset s + j + cell (arr s) j)
                  (offset s + j + Z.succ e)) as [x [Nx Hx]];
        [lia | lia | rewrite Z.sub_0_r; exact N |].
      exists x. split; [exact Nx | lia].
Qed.

Lemma tracks_step_inside (j : Z) :
  0 <= j <= 2 * d -> spec_cell Q d s r j <= d ->
  0 <= offset s + 1 + j + spec_cell Q d s r j /\ offset s + 1 + j <= len Q.
Proof.
  intros Hj H. destruct Ht as [Hoff [Hs [Hin Hiff]]].
  pose proof (state_inv_cell d s j Hs Hj) as Ha.
  assert (G : forall e, e <= d -> spec_cell Q d s r j <= e ->
                        0 <= offset s + 1 + j + e /\
                        offset s + 1 + j <= len Q).
  { intros e He H1. apply spec_cell_le in H1; [| lia].
    destruct H1 as [H1 | [[Hj1 H1] | [Hj2 H1]]].
    - apply horizontal_le in H1; [| lia | lia].
      destruct H1 as [x [N H1]].
      apply next_position_holds in N. destruct N as [_ [Hx N]].
      destruct (Hin j Hj ltac:(lia)) as [Hpos _].
      rewrite Z.sub_0_r in N.
      assert (Z.to_nat x < List.length Q)%nat
        by (apply nth_error_Some; congruence).
      unfold len. lia.
    - pose proof (state_inv_cell d s (j + 1) Hs ltac:(lia)) as Ha1.
      destruct (Hin (j + 1) ltac:(lia) ltac:(lia)). lia.
    - pose proof (state_inv_cell d s (j + 2) Hs ltac:(lia)) as Ha2.
      destruct (Hin (j + 2) ltac:(lia) ltac:(lia)). lia. }
  apply (G (spec_cell Q d s r j)); lia.
Qed.

Lemma tracks_step : tracks Q d (w ++ [r]) (fst (spec_transition Q d s r)).
Proof.
  pose proof Ht as [Hoff [Hs _]].
  split; [| split; [| split]].
  - unfold spec_transition. cbn [fst offset]. rewrite len_app.
    unfold len in *. simpl List.length. lia.
  - apply spec_transition_inv; assumption.
  - intros j Hj. rewrite cell_spec_transition by exact Hj.
    unfold spec_transition at 1 2. cbn [fst offset].
    apply tracks_step_inside. exact Hj.
  - intros j e Hj He. rewrite cell_spec_transition by exact Hj.
    unfold spec_transition at 1 2. cbn [fst offset]. intros Hi. split.
    + apply tracks_step_sound; assumption.
    + apply tracks_step_complete; try assumption; lia.
Qed.
End Step.

(** ** The start state and runs *)

Lemma start_state (n : nfa) (d : Z) :
  0 <= d <= 63 -> nfa_d n = d ->
  start n = Ok (mkState (- 2 * d) (repeat (d + 1) (Z.to_nat (2 * d)) ++ [0])).
Proof.
  intros Hd Hnd. unfold start. rewrite Hnd. rewrite newState_small by lia.
  cbn [bind arr offset]. rewrite (int8_small (2 * d)) by lia.
  rewrite (int8_small (- 2 * d)) by lia. unfold assign.
  assert (L : len (repeat (d + 1) (Z.to_nat (2 * d + 1))) = 2 * d + 1)
    by (unfold len; rewrite repeat_length; lia).
  rewrite L.
  destruct ((2 * d <? 0) || (2 * d + 1 <=? 2 * d)) eqn:E.
  { apply orb_true_iff in E. destruct E as [E | E];
      [apply Z.ltb_lt in E | apply Z.leb_le in E]; lia. }
  cbn [bind]. f_equal. f_equal.
  replace (Z.to_nat (2 * d + 1)) with (S (Z.to_nat (2 * d))) by lia.
  apply set_nth_repeat_last.
Qed.

Lemma cell_start (d j : Z) :
  0 <= d -> 0 <= j <= 2 * d ->
  cell (repeat (d + 1) (Z.to_nat (2 * d)) ++ [0]) j =
  if j =? 2 * d then 0 else d + 1.
Proof.
  intros Hd Hj. unfold cell. destruct (j =? 2 * d) eqn:E.
  - apply Z.eqb_eq in E. subst j.
    rewrite app_nth2 by (rewrite repeat_length; lia).
    rewrite repeat_length, Nat.sub_diag. reflexivity.
  - apply Z.eqb_neq in E.
    rewrite app_nth1 by (rewrite repeat_length; lia).
    apply nth_repeat_lt. lia.
Qed.

Lemma tracks_start (Q : list rune) (d : Z) :
  0 <= d ->
  tracks Q d [] (mkState (- 2 * d) (repeat (d + 1) (Z.to_nat (2 * d)) ++ [0])).
Proof.
  intros Hd. unfold tracks. cbn [offset arr].
  split; [unfold len; simpl List.length; lia |]. split; [| split].
  - unfold state_inv. cbn [arr]. split.
    + unfold len. rewrite length_app, repeat_length. simpl List.length. lia.
    + apply Forall_app. split.
      * apply Forall_forall. intros x Hx. apply repeat_spec in Hx. lia.
      * constructor; [lia | constructor].
  - intros j Hj. rewrite cell_start by assumption.
    pose proof (len_nonneg Q).
    destruct (j =? 2 * d) eqn:E; [apply Z.eqb_eq in E | ]; lia.
  - intros j e Hj He Hi. rewrite cell_start by assumption.
    rewrite reaches_nil by lia.
    destruct (j =? 2 * d) eqn:E;
      [apply Z.eqb_eq in E | apply Z.eqb_neq in E]; lia.
Qed.

Lemma fold_right_min_le (a : list Z) (b x : Z) :
  In x a -> fold_right Z.min b a <= x.
Proof.
  induction a as [| y a IH]; simpl; [tauto |].
  intros [-> | H]; [lia |]. specialize (IH H). lia.
Qed.

(** The minimum that a transition reports is at most every cell of the
    successor. *)
Lemma spec_transition_min (Q : list rune) (d : Z) (s : state) (r : rune)
      (j : Z) :
  0 <= j <= 2 * d ->
  snd (spec_transition Q d s r) <= spec_cell Q d s r j.
Proof.
  intros Hj. unfold spec_transition. cbn [snd].
  apply fold_right_min_le. apply in_map_iff. exists (Z.to_nat j).
  split; [rewrite Z2Nat.id by lia; reflexivity |].
  apply in_seq. lia.
Qed.

Lemma transition_spec (n : nfa) (s : state) (r : rune) (d : Z) :
  0 <= d <= 31 -> nfa_for n d -> state_inv d s ->
  transition n s r = Ok (spec_transition (nfa_rs n) d s r).
Proof.
  intros Hd Hn Hs.
  rewrite (transition_next_state n s r d Hd Hn Hs).
  rewrite (next_state_spec_transition n s r d Hd Hn Hs). reflexivity.
Qed.

Lemma tracks_run (n : nfa) (d : Z) :
  0 <= d <= 31 -> nfa_for n d ->
  forall (path w : list rune) (s : state) (lvl : Z),
    tracks (nfa_rs n) d w s ->
    exists s' lvl',
      nfa_run n s lvl path = Ok (s', lvl') /\
      tracks (nfa_rs n) d (w ++ path) s'.
Proof.
  intros Hd Hn. induction path as [| r path IH]; intros w s lvl Ht.
  - exists s, lvl. rewrite app_nil_r. split; [reflexivity | exact Ht].
  - cbn [nfa_run].
    rewrite (transition_spec n s r d Hd Hn (proj1 (proj2 Ht))).
    pose proof (tracks_step (nfa_rs n) d w s r ltac:(lia) Ht) as Ht'.
    destruct (spec_transition (nfa_rs n) d s r) as [ns m]. cbn [bind].
    cbn [fst] in Ht'.
    destruct (IH (w ++ [r]) ns m Ht') as [s' [lvl' [R T]]].
    exists s', lvl'. split; [exact R |].
    rewrite <- app_assoc in T. exact T.
Qed.

Lemma reach_tracks (q path : list rune) (d : Z) (n : nfa) (s : state)
      (level : Z) :
  0 <= d <= 31 -> reach q d path = Ok (n, s, level) ->
  nfa_rs n = q /\ nfa_for n d /\ tracks q d path s.
Proof.
  intros Hd H. unfold reach in H.
  destruct (newNfa_small q d) as [En Hn]; [lia |].
  rewrite En in H. cbn [bind] in H.
  rewrite (start_state _ d ltac:(lia) (proj1 Hn)) in H. cbn [bind] in H.
  destruct (tracks_run _ d Hd Hn path [] _ 0 (tracks_start q d ltac:(lia)))
    as [s' [lvl' [R T]]].
  cbn [nfa_rs] in R, T. rewrite R in H. cbn [bind] in H.
  injection H as <- <- <-. split; [reflexivity |]. split; [exact Hn |].
  exact T.
Qed.

(** ** Acceptance *)

Lemma accepts_from_spec (n : nfa) (off : Z) (a : list Z) :
  forall i,
    accepts_from n off i a = true <->
    exists k, (k < List.length a)%nat /\
              int8 (len (nfa_rs n) - off - (i + Z.of_nat k)) <= nfa_d n /\
              nth k a 0 <= int8 (len (nfa_rs n) - off - (i + Z.of_nat k)).
Proof.
  induction a as [| x a IH]; intros i; cbn [accepts_from].
  - split; [discriminate |]. intros [k [Hk _]]. simpl in Hk. lia.
  - destruct ((int8 (len (nfa_rs n) - off - i) <=? nfa_d n) &&
              (int8 (len (nfa_rs n) - off - i) >=? x)) eqn:E.
    + split; [| reflexivity]. intros _. exists O.
      apply andb_true_iff in E. destruct E as [E1 E2].
      apply Z.leb_le in E1. apply Z.geb_le in E2.
      rewrite Z.add_0_r. simpl. repeat split; [lia | exact E1 | exact E2].
    + rewrite IH. split.
      * intros [k [Hk [H1 H2]]]. exists (S k).
        replace (i + Z.of_nat (S k)) with (i + 1 + Z.of_nat k) by lia.
        simpl. repeat split; [lia | exact H1 | exact H2].
      * intros [[| k] [Hk [H1 H2]]].
        -- exfalso. rewrite Z.add_0_r in H1, H2. simpl in H2.
           apply Z.leb_le in H1. apply Z.geb_le in H2.
           rewrite H1, H2 in E. discriminate.
        -- exists k.
           replace (i + Z.of_nat (S k)) with (i + 1 + Z.of_nat k) in H1, H2
             by lia.
           simpl in Hk, H2. repeat split; [lia | exact H1 | exact H2].
Qed.

(** For a query of at most [255 - 2d] scalars, a state that stands for the
    word [w] is accepting exactly when [w] is within distance [d] of the
    query. *)
Lemma accepts_distance (n : nfa) (d : Z) (w : list rune) (s : state) :
  0 <= d <= 31 -> nfa_d n = d -> len (nfa_rs n) + 2 * d <= 255 ->
  tracks (nfa_rs n) d w s ->
  (accepts n s = true <-> (levenshtein w (nfa_rs n) <= Z.to_nat d)%nat).
Proof.
  intros Hd Hnd Hq [Hoff [Hs [Hin Hiff]]]. unfold accepts.
  rewrite accepts_from_spec. rewrite Hnd.
  pose proof (len_nonneg w) as Hw. pose proof (len_nonneg (nfa_rs n)) as HQ.
  destruct Hs as [La Fa]. split.
  - intros [k [Hk [H1 H2]]]. rewrite Z.add_0_l in H1, H2.
    replace (nth k (arr s) 0) with (cell (arr s) (Z.of_nat k)) in H2
      by (unfold cell; rewrite Nat2Z.id; reflexivity).
    set (j := Z.of_nat k) in *.
    assert (Hj : 0 <= j <= 2 * d) by (unfold len in La; lia).
    pose proof (state_inv_cell d s j (conj La Fa) Hj) as Hc.
    destruct (Hin j Hj ltac:(lia)) as [_ Hle].
    set (e := len (nfa_rs n) - offset s - j) in *.
    assert (He : 0 <= e <= d).
    { destruct (Z_le_gt_dec e 127) as [Hs127 | Hb].
      - rewrite (int8_small e) in H1, H2 by lia. lia.
      - rewrite (int8_wrap_high e) in H2 by lia. lia. }
    rewrite (int8_small e) in H2 by lia.
    assert (R : reaches (nfa_rs n) w (offset s + j + e) e)
      by (apply Hiff; unfold e; lia).
    unfold reaches in R.
    replace (offset s + j + e) with (len (nfa_rs n)) in R by (unfold e; lia).
    unfold len in R at 1. rewrite Nat2Z.id, firstn_all in R.
    apply edits_levenshtein in R. lia.
  - intros H.
    pose proof (levenshtein_edits w (nfa_rs n)) as R.
    set (e0 := levenshtein w (nfa_rs n)) in *.
    pose proof (edits_lengths _ _ _ R) as [L1 L2].
    set (e := Z.of_nat e0).
    set (j := len (nfa_rs n) - offset s - e).
    assert (Hj : 0 <= j <= 2 * d) by (unfold j, e, len in *; lia).
    assert (C : cell (arr s) j <= e).
    { apply Hiff; [exact Hj | unfold e; lia | unfold j; lia |].
      unfold reaches.
      replace (offset s + j + e) with (len (nfa_rs n)) by (unfold j; lia).
      unfold len at 1. rewrite Nat2Z.id, firstn_all.
      unfold e. rewrite Nat2Z.id. exact R. }
    exists (Z.to_nat j). rewrite Z.add_0_l, Z2Nat.id by lia.
    fold (cell (arr s) j).
    replace (len (nfa_rs n) - offset s - j) with e by (unfold j; lia).
    rewrite (int8_small e) by (unfold e; lia).
    split; [unfold len in La; lia |]. split; [unfold e; lia | exact C].
Qed.

(** ** The searches return entries within the bound *)

Lemma emitted_within (exact : bool) (pre q : list rune) (d : Z) (kv : KV)
      (level : Z) :
  0 <= d <= 31 -> len q + 2 * d <= 255 ->
  emitted_at exact pre q d kv level ->
  exists path rest,
    extractRunes (Key kv) = pre ++ path ++ rest /\
    (levenshtein path q <= Z.to_nat d)%nat /\
    (exact = true -> rest = []).
Proof.
  intros Hd Hq [path [rest [n [s [Hk [Hr [Ha Hx]]]]]]].
  destruct (reach_tracks q path d n s level Hd Hr) as [Hrs [Hn Ht]].
  exists path, rest. split; [exact Hk |]. split; [| exact Hx].
  subst q. apply (accepts_distance n d path s Hd (proj1 Hn) Hq Ht). exact Ha.
Qed.

Lemma ordered_within (exact : bool) (pre q : list rune) (d : Z)
      (out : list KV) :
  0 <= d <= 31 -> len q + 2 * d <= 255 ->
  ordered_by_stratum exact pre q d out ->
  Forall (fun kv => exists path rest,
              extractRunes (Key kv) = pre ++ path ++ rest /\
              (levenshtein path q <= Z.to_nat d)%nat /\
              (exact = true -> rest = [])) out.
Proof.
  intros Hd Hq [levels [F _]].
  induction F as [| kv l out levels H F IH]; constructor; [| exact IH].
  exact (emitted_within exact pre q d kv l Hd Hq H).
Qed.

Lemma len_skipn_le {A : Type} (k : nat) (l : list A) : len (skipn k l) <= len l.
Proof. unfold len. rewrite length_skipn. lia. Qed.

(** X20. The searches return only entries within the bound. For
    [0 <= d <= 31] and a query of at most [255 - 2d] scalars, on a trie
    whose entries are filed under the keys that spell their paths: every
    entry that [Suggest] returns has a key within Levenshtein distance [d]
    of the query; every entry that [SuggestSuffixes] returns has a key with
    a prefix within distance [d] of the query; for the two exact-prefix
    searches the key is the first [p] scalars of the query followed by a
    word that is (respectively, has a prefix) within distance [d] of the
    rest of the query. *)
Theorem searches_within_distance (cap : nat -> nat) (t : Trie)
        (key : string) (p d n : Z) (out : list KV) :
  keyed t -> 0 <= d <= 31 -> len (extractRunes key) + 2 * d <= 255 ->
  (Suggest t key d n = Ok out ->
   Forall (fun kv => (editDistance (Key kv) key <= Z.to_nat d)%nat) out) /\
  (SuggestSuffixes t key d n = Ok out ->
   Forall (fun kv => exists path rest,
               extractRunes (Key kv) = path ++ rest /\
               (levenshtein path (extractRunes key) <= Z.to_nat d)%nat) out) /\
  (SuggestAfterExactPrefix cap t key p d n = Ok out ->
   Forall (fun kv => exists path,
               extractRunes (Key kv) =
               firstn (Z.to_nat p) (extractRunes key) ++ path /\
               (levenshtein path (skipn (Z.to_nat p) (extractRunes key))
                <= Z.to_nat d)%nat) out) /\
  (SuggestSuffixesAfterExactPrefix cap t key p d n = Ok out ->
   Forall (fun kv => exists path rest,
               extractRunes (Key kv) =
               firstn (Z.to_nat p) (extractRunes key) ++ path ++ rest /\
               (levenshtein path (skipn (Z.to_nat p) (extractRunes key))
                <= Z.to_nat d)%nat) out).
Proof.
  intros K Hd Hq.
  pose proof (len_skipn_le (Z.to_nat p) (extractRunes key)) as Hsk.
  repeat split; intros H.
  - apply (suggest_ordered true) with (pre := []) in H;
      [| exact doNotExpandSuffixes_ok | exact K].
    apply ordered_within in H; [| exact Hd | exact Hq].
    eapply Forall_impl; [| exact H].
    intros kv [path [rest [Hk [Hl Hx]]]]. rewrite (Hx eq_refl) in Hk.
    rewrite app_nil_r in Hk. simpl in Hk.
    unfold editDistance. rewrite Hk. exact Hl.
  - apply (suggest_ordered false) with (pre := []) in H;
      [| exact expandSuffixes_ok | exact K].
    apply ordered_within in H; [| exact Hd | exact Hq].
    eapply Forall_impl; [| exact H].
    intros kv [path [rest [Hk [Hl _]]]]. exists path, rest.
    split; [exact Hk | exact Hl].
  - apply (after_exact_prefix_ordered true) in H;
      [| exact doNotExpandSuffixes_ok | exact K].
    apply ordered_within in H; [| exact Hd | lia].
    eapply Forall_impl; [| exact H].
    intros kv [path [rest [Hk [Hl Hx]]]]. rewrite (Hx eq_refl) in Hk.
    rewrite app_nil_r in Hk. exists path. split; [exact Hk | exact Hl].
  - apply (after_exact_prefix_ordered false) in H;
      [| exact expandSuffixes_ok | exact K].
    apply ordered_within in H; [| exact Hd | lia].
    eapply Forall_impl; [| exact H].
    intros kv [path [rest [Hk [Hl _]]]]. exists path, rest.
    split; [exact Hk | exact Hl].
Qed.

Lemma searches_within_distance_witness :
  Forall (fun kv => (editDistance (Key kv) "ab" <= Z.to_nat 1)%nat)
         [mkKV "a" "1"; mkKV "ab" "2"] /\
  Forall (fun kv => exists path rest,
              extractRunes (Key kv) = path ++ rest /\
              (levenshtein path (extractRunes "a") <= Z.to_nat 0)%nat)
         [mkKV "a" "1"; mkKV "ab" "2"].
Proof.
  split.
  - apply (searches_within_distance id_cap trie_a_ab "ab" 0 1 3
             [mkKV "a" "1"; mkKV "ab" "2"] keyed_trie_a_ab);
      [lia | vm_compute; discriminate | vm_compute; reflexivity].
  - apply (searches_within_distance id_cap trie_a_ab "a" 0 0 3
             [mkKV "a" "1"; mkKV "ab" "2"] keyed_trie_a_ab);
      [lia | vm_compute; discriminate | vm_compute; reflexivity].
Defined.

(* ================================================================== *)
(** * The search finds every entry within the bound *)

Lemma nth_error_set_nth_same {A : Type} (l : list A) (i : nat) (x : A) :
  (i < List.length l)%nat -> nth_error (set_nth l i x) i = Some x.
Proof.
  revert i. induction l as [| a l IH]; intros [| i] H; simpl in *; try lia.
  - reflexivity.
  - apply IH. lia.
Qed.

Lemma nth_error_set_nth_other {A : Type} (l : list A) (i j : nat) (x : A) :
  j <> i -> nth_error (set_nth l i x) j = nth_error l j.
Proof.
  revert i j. induction l as [| a l IH]; intros [| i] [| j] H; simpl;
    try reflexivity; try congruence.
  apply IH. congruence.
Qed.

(** ** What the work list keeps *)

Lemma push_keeps (stacks stacks' : list (list frame)) (min : Z) (f0 : frame) :
  push stacks min f0 = Ok stacks' ->
  (forall j st f, nth_error stacks j = Some st -> In f st ->
                  exists st', nth_error stacks' j = Some st' /\ In f st') /\
  (exists st', nth_error stacks' (Z.to_nat min) = Some st' /\ In f0 st').
Proof.
  intros H. unfold push in H. apply bind_Ok in H. destruct H as [st0 [Hi Ha]].
  apply index_Ok in Hi. destruct Hi as [Hmin Hnth].
  apply assign_Ok in Ha. destruct Ha as [Hr ->].
  assert (Hlt : (Z.to_nat min < List.length stacks)%nat)
    by (unfold len in Hr; lia).
  split.
  - intros j st f Hj Hf. destruct (Nat.eq_dec j (Z.to_nat min)) as [-> | Hne].
    + exists (f0 :: st0). rewrite nth_error_set_nth_same by exact Hlt.
      split; [reflexivity |]. right. congruence.
    + exists st. rewrite nth_error_set_nth_other by exact Hne.
      split; assumption.
  - exists (f0 :: st0). rewrite nth_error_set_nth_same by exact Hlt.
    split; [reflexivity | left; reflexivity].
Qed.

Lemma register_keeps (n : nfa) (d : Z) (s : state) (cs : list (rune * node)) :
  forall stacks stacks',
    register n d s cs stacks = Ok stacks' ->
    forall j st f, nth_error stacks j = Some st -> In f st ->
                   exists st', nth_error stacks' j = Some st' /\ In f st'.
Proof.
  induction cs as [| [r y] cs IH]; intros stacks stacks' H j st f Hj Hf;
    simpl in H.
  - injection H as <-. exists st. split; assumption.
  - apply bind_Ok in H. destruct H as [[ns m] [_ H]].
    destruct (m <? int8 (d + 1)).
    + apply bind_Ok in H. destruct H as [stacks1 [P H]].
      destruct (proj1 (push_keeps _ _ _ _ P) j st f Hj Hf) as [st1 [Hj1 Hf1]].
      exact (IH _ _ H j st1 f Hj1 Hf1).
    + exact (IH _ _ H j st f Hj Hf).
Qed.

Lemma register_adds (n : nfa) (d : Z) (s : state) (cs : list (rune * node))
      (r : rune) (y : node) (ns : state) (m : Z) :
  In (r, y) cs -> transition n s r = Ok (ns, m) -> m < int8 (d + 1) ->
  forall stacks stacks',
    register n d s cs stacks = Ok stacks' ->
    exists st', nth_error stacks' (Z.to_nat m) = Some st' /\
                In (mkFrame y ns) st'.
Proof.
  intros Hin T Hm. induction cs as [| [r' y'] cs IH]; intros stacks stacks' H;
    [destruct Hin |].
  simpl in H. apply bind_Ok in H. destruct H as [[ns' m'] [T' H]].
  destruct Hin as [E | Hin].
  - injection E as -> ->. rewrite T in T'. injection T' as <- <-.
    destruct (m <? int8 (d + 1)) eqn:Em; [| apply Z.ltb_ge in Em; lia].
    apply bind_Ok in H. destruct H as [stacks1 [P H]].
    destruct (proj2 (push_keeps _ _ _ _ P)) as [st1 [Hj1 Hf1]].
    exact (register_keeps _ _ _ _ _ _ H _ _ _ Hj1 Hf1).
  - destruct (m' <? int8 (d + 1)).
    + apply bind_Ok in H. destruct H as [stacks1 [_ H]].
      exact (IH Hin _ _ H).
    + exact (IH Hin _ _ H).
Qed.

(** ** Prefixes of a word within the bound *)

Lemma edits_prefix (s t : list rune) (k : nat) :
  edits s t k ->
  forall w1 w2, s = w1 ++ w2 ->
    exists i k1, (i <= List.length t)%nat /\ (k1 <= k)%nat /\
                 edits w1 (firstn i t) k1.
Proof.
  intros H. induction H as [| a s t k H IH | b s t k H IH
                            | a b s t k H IH | a s t k H IH];
    intros w1 w2 E.
  - exists O, O. symmetry in E. apply app_eq_nil in E. destruct E as [-> _].
    simpl. repeat split; try lia. constructor.
  - destruct w1 as [| a' w1].
    + exists O, O. simpl. repeat split; try lia. apply edits_nil.
    + injection E as <- E. destruct (IH _ _ E) as [i [k1 [Hi [Hk R]]]].
      exists i, (S k1). repeat split; try lia. apply edits_ins. exact R.
  - destruct (IH _ _ E) as [i [k1 [Hi [Hk R]]]].
    exists (S i), (S k1). simpl. repeat split; try lia.
    apply edits_del. exact R.
  - destruct w1 as [| a' w1].
    + exists O, O. simpl. repeat split; try lia. apply edits_nil.
    + injection E as <- E. destruct (IH _ _ E) as [i [k1 [Hi [Hk R]]]].
      exists (S i), (S k1). simpl. repeat split; try lia.
      apply edits_sub. exact R.
  - destruct w1 as [| a' w1].
    + exists O, O. simpl. repeat split; try lia. apply edits_nil.
    + injection E as <- E. destruct (IH _ _ E) as [i [k1 [Hi [Hk R]]]].
      exists (S i), k1. simpl. repeat split; try lia.
      apply edits_match. exact R.
Qed.

(** The state of a prefix of a word within the bound has a cell that is
    not blank. *)
Lemma tracks_alive (Q : list rune) (d : Z) (w1 w2 : list rune) (s : state) :
  0 <= d -> tracks Q d w1 s ->
  (levenshtein (w1 ++ w2) Q <= Z.to_nat d)%nat ->
  exists j, 0 <= j <= 2 * d /\ cell (arr s) j <= d.
Proof.
  intros Hd [Hoff [Hs [Hin Hiff]]] Hl.
  destruct (edits_prefix _ _ _ (levenshtein_edits (w1 ++ w2) Q) w1 w2 eq_refl)
    as [i [k1 [Hi [Hk R]]]].
  pose proof (edits_lengths _ _ _ R) as [L1 L2].
  rewrite length_firstn in L1, L2.
  set (e := Z.of_nat k1). set (j := Z.of_nat i - e - offset s).
  assert (Hj : 0 <= j <= 2 * d) by (unfold j, e, len in *; lia).
  exists j. split; [exact Hj |].
  assert (C : cell (arr s) j <= e).
  { apply Hiff; [exact Hj | unfold e; lia | unfold j, len; lia |].
    unfold reaches.
    replace (offset s + j + e) with (Z.of_nat i) by (unfold j; lia).
    unfold e. rewrite !Nat2Z.id. exact R. }
  unfold e in C. lia.
Qed.

(** ** The traversal does not lose an entry within the bound *)

(** *** The policies *)

Lemma doNotExpandSuffixes_finds : process_finds true doNotExpandSuffixes.
Proof.
  intros x lim rs halt H. unfold doNotExpandSuffixes in H.
  destruct (data x) as [kv0 |]; injection H as <- <-.
  - split; [reflexivity |]. intros kv [= ->]. left. reflexivity.
  - split; [reflexivity |]. intros kv E. discriminate.
Qed.

Lemma In_push_children (cs : list (rune * node)) :
  forall (stack : list node) (y : node),
    In y stack \/ (exists r, In (r, y) cs) -> In y (push_children cs stack).
Proof.
  unfold push_children.
  induction cs as [| [r0 y0] cs IH]; intros stack y H; simpl.
  - destruct H as [H | [r []]]. exact H.
  - apply IH. destruct H as [H | [r [E | H]]].
    + left. right. exact H.
    + injection E as _ ->. left. left. reflexivity.
    + right. exists r. exact H.
Qed.

Lemma expand_loop_finds (kv : KV) (limit : Z) (fuel : nat) :
  forall (stack : list node) (results out : list KV),
    expand_loop fuel stack results limit = Ok out ->
    len out < limit ->
    In kv results \/
    (exists y path x, In y stack /\ descend y path = Some x /\
                      data x = Some kv) ->
    In kv out.
Proof.
  induction fuel as [| fuel IH]; intros stack results out H Hout Hinv;
    simpl in H; [discriminate |].
  destruct stack as [| x0 stack].
  - injection H as <-. destruct Hinv as [Hin | [y [path [x [[] _]]]]].
    exact Hin.
  - assert (Hnext : forall results',
               (In kv results -> In kv results') ->
               (data x0 = Some kv -> In kv results') ->
               In kv results' \/
               (exists y path x,
                   In y (push_children (child x0) stack) /\
                   descend y path = Some x /\ data x = Some kv)).
    { intros results' Hmono Hown.
      destruct Hinv as [Hin | [y [path [x [Hy [Hx Hkv]]]]]];
        [left; exact (Hmono Hin) |].
      destruct Hy as [<- | Hy].
      - destruct path as [| r path].
        + simpl in Hx. injection Hx as <-. left. exact (Hown Hkv).
        + simpl in Hx.
          destruct (runemap.lookup r (child x0)) as [y |] eqn:L;
            [| discriminate].
          right. exists y, path, x. split; [| split; assumption].
          apply In_push_children. right. exists r.
          exact (lookup_In _ _ _ L).
      - right. exists y, path, x. split; [| split; assumption].
        apply In_push_children. left. exact Hy. }
    destruct (data x0) as [kv0 |] eqn:E.
    + destruct (len (results ++ [kv0]) >=? limit) eqn:El.
      * injection H as <-. exfalso.
        destruct (Z.geb_spec (len (results ++ [kv0])) limit);
          [lia | discriminate].
      * apply (IH _ _ _ H Hout). apply Hnext.
        -- intros Hin. apply in_or_app. left. exact Hin.
        -- intros [= ->]. apply in_or_app. right. left. reflexivity.
    + apply (IH _ _ _ H Hout). apply Hnext; [tauto | discriminate].
Qed.

Lemma expandSuffixes_finds : process_finds false expandSuffixes.
Proof.
  intros x lim rs halt H. unfold expandSuffixes in H.
  apply bind_Ok in H. destruct H as [out [H E]]. injection E as <- <-.
  split; [reflexivity |]. intros Hlen path y kv Hy Hkv.
  apply (expand_loop_finds kv lim _ _ _ _ H Hlen).
  right. exists x, path, y. split; [left; reflexivity | split; assumption].
Qed.

(** *** The work list *)

Section Complete.
Variables (n0 : nfa) (d limit : Z) (u v : list rune) (kv : KV).
Hypothesis Hd : 0 <= d <= 31.
Hypothesis Hn : nfa_for n0 d.
Hypothesis Hq : len (nfa_rs n0) + 2 * d <= 255.
Hypothesis Hu : (levenshtein u (nfa_rs n0) <= Z.to_nat d)%nat.

Lemma awaits_next (i : nat) (stacks : list (list frame)) :
  nth_error stacks i = Some [] ->
  awaits n0 d u v kv i stacks -> awaits n0 d u v kv (S i) stacks.
Proof.
  intros Ei [j [st [f [Hj [Ej [Hf H]]]]]].
  exists j, st, f. split; [| split; [exact Ej | split; assumption]].
  destruct (Nat.eq_dec j i) as [-> | Hne]; [| lia].
  rewrite Ei in Ej. injection Ej as <-. destruct Hf.
Qed.

(** After a pop the entry is still awaited, unless the frame popped is the
    one on the way. *)
Lemma awaits_pop (i : nat) (stacks : list (list frame)) (f : frame)
      (rest : list frame) :
  nth_error stacks i = Some (f :: rest) ->
  awaits n0 d u v kv i stacks ->
  awaits n0 d u v kv i (set_nth stacks i rest) \/
  on_the_way n0 d u v kv i f.
Proof.
  intros Ei [j [st [f' [Hj [Ej [Hf H]]]]]].
  assert (Hlen : (i < List.length stacks)%nat)
    by (apply nth_error_Some; congruence).
  destruct (Nat.eq_dec j i) as [-> | Hne].
  - rewrite Ei in Ej. injection Ej as <-.
    destruct Hf as [<- | Hf]; [right; exact H |].
    left. exists i, rest, f'. split; [lia |].
    split; [apply nth_error_set_nth_same; exact Hlen |].
    split; assumption.
  - left. exists j, st, f'. split; [exact Hj |].
    split; [rewrite nth_error_set_nth_other by exact Hne; exact Ej |].
    split; assumption.
Qed.

Lemma awaits_register (i : nat) (s : state) (cs : list (rune * node))
      (stacks stacks2 : list (list frame)) :
  register n0 d s cs stacks = Ok stacks2 ->
  awaits n0 d u v kv i stacks -> awaits n0 d u v kv i stacks2.
Proof.
  intros Hreg [j [st [f [Hj [Ej [Hf H]]]]]].
  destruct (register_keeps _ _ _ _ _ _ Hreg _ _ _ Ej Hf) as [st2 [E2 I2]].
  exists j, st2, f. split; [exact Hj | split; [exact E2 | split; assumption]].
Qed.

(** The frame on the way is at the end of [u], and then accepting, or the
    registration of its children puts the next frame on the way on a
    stack that is still to come. *)
Lemma on_the_way_cases (i : nat) (f : frame) :
  on_the_way n0 d u v kv i f ->
  (accepts n0 (f_s f) = true /\
   exists x, descend (f_n f) v = Some x /\ data x = Some kv) \/
  (forall stacks stacks2,
      register n0 d (f_s f) (child (f_n f)) stacks = Ok stacks2 ->
      awaits n0 d u v kv i stacks2).
Proof.
  intros [w1 [u2 [x [Eu [Ht [Hlow [Hx Hkv]]]]]]].
  destruct u2 as [| r u2].
  - left. rewrite app_nil_r in Eu. subst w1. split.
    + apply (accepts_distance n0 d u (f_s f) Hd (proj1 Hn) Hq Ht). exact Hu.
    + exists x. split; assumption.
  - right. intros stacks stacks2 Hreg. simpl in Hx.
    destruct (runemap.lookup r (child (f_n f))) as [y |] eqn:L;
      [| discriminate].
    pose proof (proj1 (proj2 Ht)) as Hs.
    pose proof (transition_spec n0 (f_s f) r d Hd Hn Hs) as T.
    pose proof (tracks_step (nfa_rs n0) d w1 (f_s f) r ltac:(lia) Ht) as Ht'.
    pose proof (next_state_monotone n0 (f_s f) r d Hd Hn Hs (Z.of_nat i))
      as Hmono.
    pose proof (next_state_min n0 (f_s f) r d Hd Hn Hs) as [Hm [Hcells _]].
    rewrite (next_state_spec_transition n0 (f_s f) r d Hd Hn Hs)
      in Hmono, Hm, Hcells.
    assert (Hu' : (levenshtein ((w1 ++ [r]) ++ u2) (nfa_rs n0)
                   <= Z.to_nat d)%nat)
      by (rewrite <- app_assoc; simpl; rewrite <- Eu; exact Hu).
    destruct (tracks_alive _ d _ u2 _ ltac:(lia) Ht' Hu') as [c [Hc Hcd]].
    rewrite cell_spec_transition in Hcd by exact Hc.
    pose proof (spec_transition_min (nfa_rs n0) d (f_s f) r c Hc) as Hmin.
    destruct (spec_transition (nfa_rs n0) d (f_s f) r) as [ns m] eqn:Es.
    cbn [fst snd] in *.
    assert (Hi : Z.of_nat i <= d + 1).
    { pose proof (state_inv_cell d (f_s f) 0 Hs ltac:(lia)) as H0.
      rewrite Forall_forall in Hlow.
      pose proof (Hlow _ (cell_In (arr (f_s f)) 0
                            ltac:(destruct Hs as [La _]; lia))).
      lia. }
    specialize (Hmono Hi Hlow).
    destruct (register_adds n0 d (f_s f) (child (f_n f)) r y ns m
                (lookup_In _ _ _ L) T
                ltac:(rewrite (int8_small (d + 1)) by lia; lia)
                _ _ Hreg) as [st2 [E2 I2]].
    exists (Z.to_nat m), st2, (mkFrame y ns).
    split; [lia |]. split; [exact E2 |]. split; [exact I2 |].
    exists (w1 ++ [r]), u2, x. cbn [f_n f_s].
    split; [rewrite <- app_assoc; exact Eu |]. split; [exact Ht' |].
    split; [rewrite Z2Nat.id by lia; exact Hcells |].
    split; assumption.
Qed.

Lemma on_the_way_below (i : nat) (f : frame) :
  on_the_way n0 d u v kv i f ->
  exists path x, descend (f_n f) path = Some x /\ data x = Some kv.
Proof.
  intros [w1 [u2 [x [_ [_ [_ [Hx Hkv]]]]]]]. exists (u2 ++ v), x.
  split; assumption.
Qed.

Lemma slice_to_length {A : Type} (z : A) (l out : list A) (hi : Z) :
  len l >= hi -> slice_to z (len l) l hi = Ok out -> len out = hi.
Proof.
  intros Hge H. pose proof H as H'. apply slice_to_full_Ok in H. subst out.
  unfold slice_to in H'.
  destruct ((hi <? 0) || (len l <? hi)) eqn:E; [discriminate |].
  apply orb_false_iff in E. destruct E as [E1 _]. apply Z.ltb_ge in E1.
  unfold len in *. rewrite length_firstn. lia.
Qed.

Section Loop.
Variables (exact : bool) (process : processAcceptingNode).
Hypothesis Hprocess : process_finds exact process.
Hypothesis Hexact : exact = true -> v = [].

Lemma suggest_loop_finds (fuel : nat) :
  forall (i : nat) (stacks : list (list frame)) (results out : list KV),
    suggest_loop fuel process n0 d limit i stacks results = Ok out ->
    len out < limit ->
    In kv results \/ awaits n0 d u v kv i stacks ->
    In kv out.
Proof.
  induction fuel as [| fuel IH]; intros i stacks results out H Hout Hinv;
    simpl in H; [discriminate |].
  destruct (nth_error stacks i) as [[| f rest] |] eqn:Ei.
  - apply (IH (S i) stacks results out H Hout).
    destruct Hinv as [Hin | Haw]; [left; exact Hin |].
    right. apply awaits_next; assumption.
  - (* what the registration of the children keeps *)
    assert (Hreg : forall results' stacks2,
               register n0 d (f_s f) (child (f_n f)) (set_nth stacks i rest)
               = Ok stacks2 ->
               (In kv results -> In kv results') ->
               (accepts n0 (f_s f) = true ->
                (exists x, descend (f_n f) v = Some x /\ data x = Some kv) ->
                In kv results') ->
               In kv results' \/ awaits n0 d u v kv i stacks2).
    { intros results' stacks2 Hr Hmono Hown.
      destruct Hinv as [Hin | Haw]; [left; exact (Hmono Hin) |].
      destruct (awaits_pop i stacks f rest Ei Haw) as [Haw' | Hway].
      - right. exact (awaits_register _ _ _ _ _ Hr Haw').
      - destruct (on_the_way_cases i f Hway) as [[Ha Hx] | Hnext].
        + left. exact (Hown Ha Hx).
        + right. exact (Hnext _ _ Hr). }
    destruct (accepts n0 (f_s f)) eqn:Hacc.
    + apply bind_Ok in H. destruct H as [[rs halt] [Hp H]].
      pose proof (Hprocess _ _ _ _ Hp) as Hfinds.
      destruct (len (results ++ rs) >=? limit) eqn:El.
      * exfalso. apply slice_to_length in H;
          [lia | destruct (Z.geb_spec (len (results ++ rs)) limit);
                 [lia | discriminate]].
      * assert (Hlim : len rs < limit - len results).
        { destruct (Z.geb_spec (len (results ++ rs)) limit);
            [discriminate |]. rewrite len_app in *. lia. }
        destruct exact.
        -- destruct Hfinds as [-> Hown].
           apply bind_Ok in H. destruct H as [stacks2 [Hr Hloop]].
           apply (IH i stacks2 (results ++ rs) out Hloop Hout).
           apply (Hreg _ _ Hr).
           ++ intros Hin. apply in_or_app. left. exact Hin.
           ++ intros _ [x [Hx Hkv]]. rewrite (Hexact eq_refl) in Hx.
              simpl in Hx. injection Hx as <-.
              apply in_or_app. right. exact (Hown _ Hkv).
        -- destruct Hfinds as [-> Hown].
           apply (IH i _ (results ++ rs) out H Hout).
           destruct Hinv as [Hin | Haw];
             [left; apply in_or_app; left; exact Hin |].
           destruct (awaits_pop i stacks f rest Ei Haw) as [Haw' | Hway];
             [right; exact Haw' |].
           left. apply in_or_app. right.
           destruct (on_the_way_below i f Hway) as [path [x [Hx Hkv]]].
           exact (Hown Hlim path x kv Hx Hkv).
    + apply bind_Ok in H. destruct H as [stacks2 [Hr Hloop]].
      apply (IH i stacks2 results out Hloop Hout).
      apply (Hreg _ _ Hr); [tauto | discriminate].
  - injection H as <-. destruct Hinv as [Hin | Haw]; [exact Hin |].
    exfalso. destruct Haw as [j [st [f [Hj [Ej _]]]]].
    apply nth_error_None in Ei.
    assert (j < List.length stacks)%nat by (apply nth_error_Some; congruence).
    lia.
Qed.
End Loop.
End Complete.

Lemma suggest_finds (exact : bool) (process : processAcceptingNode)
      (x0 x : node) (q u v : list rune) (d limit : Z)
      (out : list KV) (kv : KV) :
  process_finds exact process -> (exact = true -> v = []) ->
  0 <= d <= 31 -> len q + 2 * d <= 255 ->
  suggest process x0 q d limit = Ok out ->
  len out < limit ->
  descend x0 (u ++ v) = Some x -> data x = Some kv ->
  (levenshtein u q <= Z.to_nat d)%nat ->
  In kv out.
Proof.
  intros Hp Hexact Hd Hq H Hout Hx Hkv Hu. unfold suggest in H.
  destruct (newNfa_small q d) as [En Hn]; [lia |].
  rewrite En in H. cbn [bind] in H.
  rewrite (start_state _ d ltac:(lia) (proj1 Hn)) in H. cbn [bind] in H.
  apply bind_Ok in H. destruct H as [stacks0 [Hm H]].
  apply bind_Ok in H. destruct H as [stacks [Ha H]].
  unfold make in Hm. rewrite (int8_small (d + 1)) in Hm by lia.
  destruct (d + 1 <? 0); [discriminate |]. injection Hm as <-.
  apply assign_Ok in Ha. destruct Ha as [_ ->].
  set (s0 := mkState (- 2 * d) (repeat (d + 1) (Z.to_nat (2 * d)) ++ [0]))
    in *.
  apply (suggest_loop_finds _ d limit u v kv Hd Hn Hq Hu exact process Hp
                            Hexact _ _ _ _ _ H Hout).
  right. exists O, [mkFrame x0 s0], (mkFrame x0 s0).
  split; [lia |].
  split; [apply nth_error_set_nth_same; rewrite repeat_length; lia |].
  split; [left; reflexivity |].
  exists [], u, x. cbn [f_n f_s nfa_rs].
  split; [reflexivity |]. split; [apply (tracks_start q d); lia |].
  split; [| split; assumption].
  unfold s0. cbn [arr]. apply Forall_app. split.
  - apply Forall_forall. intros c Hc. apply repeat_spec in Hc.
    simpl Z.of_nat. lia.
  - constructor; [simpl Z.of_nat; lia | constructor].
Qed.

Lemma exact_prefix_descend (prefix : list rune) :
  forall n, exact_prefix n prefix = descend n prefix.
Proof.
  induction prefix as [| r prefix IH]; intros n; simpl; [reflexivity |].
  destruct (runemap.lookup r (child n)); [apply IH | reflexivity].
Qed.

Lemma after_exact_prefix_finds (exact : bool) (process : processAcceptingNode)
      (cap : nat -> nat) (t : Trie) (key : string) (p d n : Z)
      (out : list KV) (x : node) (u v : list rune) (kv : KV) :
  process_finds exact process -> (exact = true -> v = []) ->
  0 <= d <= 31 -> len (extractRunes key) + 2 * d <= 255 ->
  0 <= p <= len (extractRunes key) ->
  after_exact_prefix cap process t key p d n = Ok out ->
  len out < n ->
  descend (root t) (firstn (Z.to_nat p) (extractRunes key) ++ u ++ v)
  = Some x ->
  data x = Some kv ->
  (levenshtein u (skipn (Z.to_nat p) (extractRunes key)) <= Z.to_nat d)%nat ->
  In kv out.
Proof.
  intros Hp Hexact Hd Hq Hrange H Hout Hx Hkv Hu.
  unfold after_exact_prefix in H.
  apply bind_Ok in H. destruct H as [prefix [Hpre H]].
  apply (slice_to_within _ _ _ _ _ (proj2 Hrange)) in Hpre. subst prefix.
  rewrite exact_prefix_descend in H. rewrite descend_app in Hx.
  destruct (descend (root t) (firstn (Z.to_nat p) (extractRunes key)))
    as [curr |]; [| discriminate].
  apply bind_Ok in H. destruct H as [rest [Hrest H]].
  apply slice_from_Ok in Hrest. destruct Hrest as [_ ->].
  pose proof (len_skipn_le (Z.to_nat p) (extractRunes key)) as Hsk.
  assert (Hq' : len (skipn (Z.to_nat p) (extractRunes key)) + 2 * d <= 255)
    by lia.
  exact (suggest_finds exact process curr x _ u v d n out kv Hp Hexact Hd
                       Hq' H Hout Hx Hkv Hu).
Qed.

Lemma keyed_at_descend (path base : list rune) (n x : node) :
  keyed_at base n -> descend n path = Some x -> keyed_at (base ++ path) x.
Proof.
  intros K H. rewrite <- exact_prefix_descend in H.
  exact (keyed_at_exact_prefix path base n x K H).
Qed.

Lemma Get_entry (t : Trie) (k val : string) :
  keyed t -> Get t k = (val, true) ->
  exists x kv, descend (root t) (extractRunes k) = Some x /\
               data x = Some kv /\ Value kv = val /\
               extractRunes (Key kv) = extractRunes k.
Proof.
  intros K H. rewrite Get_data_at in H. unfold data_at, answer_of in H.
  destruct (descend (root t) (extractRunes k)) as [x |] eqn:E;
    [| discriminate].
  destruct (data x) as [kv |] eqn:Ex; [| discriminate].
  injection H as <-. exists x, kv. repeat split; try reflexivity; try assumption.
  exact (keyed_at_data _ _ _ (keyed_at_descend _ [] _ _ K E) Ex).
Qed.

(** X21. The searches miss no entry while the limit is not reached. For
    [0 <= d <= 31], a query of at most [255 - 2d] scalars and
    [0 <= p <= len(query)], on a trie whose entries are filed under the
    keys that spell their paths: when a search returns fewer than [n]
    entries, every key [k] that [Get] finds and that meets the criterion
    of the search is among them, with the value that [Get] returns. The
    criterion is: within distance [d] of the query ([Suggest]); some
    prefix [u] of the key within distance [d] of the query
    ([SuggestSuffixes]); the first [p] scalars of the query followed by a
    word [u] within distance [d] of the rest of the query
    ([SuggestAfterExactPrefix]), or followed by a word with such a prefix
    [u] ([SuggestSuffixesAfterExactPrefix]). *)
Theorem searches_find_all (cap : nat -> nat) (t : Trie) (key : string)
        (p d n : Z) (out : list KV) (k val : string) (u v : list rune) :
  keyed t -> 0 <= d <= 31 -> len (extractRunes key) + 2 * d <= 255 ->
  0 <= p <= len (extractRunes key) ->
  Get t k = (val, true) ->
  len out < n ->
  (Suggest t key d n = Ok out ->
   (editDistance k key <= Z.to_nat d)%nat ->
   exists kv, In kv out /\ Value kv = val /\
              extractRunes (Key kv) = extractRunes k) /\
  (SuggestSuffixes t key d n = Ok out ->
   extractRunes k = u ++ v ->
   (levenshtein u (extractRunes key) <= Z.to_nat d)%nat ->
   exists kv, In kv out /\ Value kv = val /\
              extractRunes (Key kv) = extractRunes k) /\
  (SuggestAfterExactPrefix cap t key p d n = Ok out ->
   extractRunes k = firstn (Z.to_nat p) (extractRunes key) ++ u ->
   (levenshtein u (skipn (Z.to_nat p) (extractRunes key)) <= Z.to_nat d)%nat ->
   exists kv, In kv out /\ Value kv = val /\
              extractRunes (Key kv) = extractRunes k) /\
  (SuggestSuffixesAfterExactPrefix cap t key p d n = Ok out ->
   extractRunes k = firstn (Z.to_nat p) (extractRunes key) ++ u ++ v ->
   (levenshtein u (skipn (Z.to_nat p) (extractRunes key)) <= Z.to_nat d)%nat ->
   exists kv, In kv out /\ Value kv = val /\
              extractRunes (Key kv) = extractRunes k).
Proof.
  intros K Hd Hq Hp HG Hout.
  destruct (Get_entry t k val K HG) as [x [kv [Hx [Hkv [Hv Hk]]]]].
  repeat split; intros H.
  - intros Hu. exists kv. split; [| split; assumption].
    apply (suggest_finds true doNotExpandSuffixes (root t) x _
                         (extractRunes k) [] d n out kv
                         doNotExpandSuffixes_finds (fun _ => eq_refl) Hd Hq H
                         Hout); [rewrite app_nil_r; exact Hx | exact Hkv |].
    exact Hu.
  - intros E Hu. exists kv. split; [| split; assumption].
    rewrite E in Hx.
    apply (suggest_finds false expandSuffixes (root t) x _ u v d n out kv
                         expandSuffixes_finds ltac:(discriminate) Hd Hq H
                         Hout Hx Hkv Hu).
  - intros E Hu. exists kv. split; [| split; assumption].
    rewrite E in Hx.
    apply (after_exact_prefix_finds true doNotExpandSuffixes cap t key p d n
             out x u [] kv doNotExpandSuffixes_finds (fun _ => eq_refl)
             Hd Hq Hp H Hout); [rewrite app_nil_r; exact Hx | exact Hkv |].
    exact Hu.
  - intros E Hu. exists kv. split; [| split; assumption].
    rewrite E in Hx.
    apply (after_exact_prefix_finds false expandSuffixes cap t key p d n
             out x u v kv expandSuffixes_finds ltac:(discriminate)
             Hd Hq Hp H Hout Hx Hkv Hu).
Qed.

Lemma searches_find_all_witness :
  (exists kv, In kv [mkKV "a" "1"; mkKV "ab" "2"] /\ Value kv = "1"%string /\
              extractRunes (Key kv) = extractRunes "a") /\
  (exists kv, In kv [mkKV "a" "1"; mkKV "ab" "2"] /\ Value kv = "2"%string /\
              extractRunes (Key kv) = extractRunes "ab").
Proof.
  split.
  - refine (proj1 (searches_find_all id_cap trie_a_ab "ab" 0 1 3
                     [mkKV "a" "1"; mkKV "ab" "2"] "a" "1" [] []
                     keyed_trie_a_ab _ _ _ _ _) _ _);
      [lia | vm_compute; discriminate
       | split; [lia | vm_compute; discriminate]
       | vm_compute; reflexivity | vm_compute; reflexivity
       | vm_compute; reflexivity | vm_compute; lia].
  - refine (proj1 (proj2 (searches_find_all id_cap trie_a_ab "a" 0 0 3
                            [mkKV "a" "1"; mkKV "ab" "2"] "ab" "2" [97] [98]
                            keyed_trie_a_ab _ _ _ _ _)) _ _ _);
      [lia | vm_compute; discriminate
       | split; [lia | vm_compute; discriminate]
       | vm_compute; reflexivity | vm_compute; reflexivity
       | vm_compute; reflexivity | vm_compute; reflexivity
       | vm_compute; lia].
Defined.

(* ================================================================== *)
(** * The stratum of a path *)

Lemma grounded_start (Q : list rune) (d : Z) :
  0 <= d ->
  grounded Q d []
           (mkState (- 2 * d) (repeat (d + 1) (Z.to_nat (2 * d)) ++ [0])).
Proof.
  intros Hd j Hj. cbn [arr]. rewrite cell_start by assumption.
  pose proof (len_nonneg Q).
  destruct (j =? 2 * d); [| lia]. intros _. exists 0, 0.
  split; [lia |]. split; [lia |]. apply reaches_nil; lia.
Qed.

Lemma grounded_step (Q : list rune) (d : Z) (w : list rune) (s : state)
      (r : rune) :
  0 <= d -> tracks Q d w s -> grounded Q d w s ->
  grounded Q d (w ++ [r]) (fst (spec_transition Q d s r)).
Proof.
  intros Hd Ht Hg j Hj. rewrite cell_spec_transition by exact Hj.
  intros Hc. pose proof Ht as [Hoff [Hs [Hin Hiff]]].
  pose proof (spec_cell_bounds Q d s r j Hd Hs Hj) as Hb.
  pose proof (proj1 (spec_cell_le Q d s r j (spec_cell Q d s r j) Hc)
                    (Z.le_refl _)) as H.
  destruct H as [H | [[Hj1 H] | [Hj2 H]]].
  - (* horizontal: the cell itself is reached *)
    destruct (tracks_step_inside Q d w s r Ht j Hj Hc) as [Hpos Hle].
    exists (offset s + 1 + j + spec_cell Q d s r j), (spec_cell Q d s r j).
    pose proof (state_inv_cell d s j Hs Hj) as Ha.
    apply horizontal_le in H; [| lia | lia].
    destruct H as [x [N H]].
    pose proof N as N'. apply next_position_holds in N'.
    destruct N' as [_ [Hx N']]. rewrite Z.sub_0_r in N'.
    destruct (Hin j Hj ltac:(lia)) as [Hpos0 _].
    assert (Hlt : x < len Q).
    { assert (Z.to_nat x < List.length Q)%nat
        by (apply nth_error_Some; congruence).
      unfold len. lia. }
    assert (Hi : 0 <= offset s + 1 + j + spec_cell Q d s r j <= len Q).
    { split; [exact Hpos |].
      (* the cell is at most the horizontal contribution *)
      assert (spec_cell Q d s r j <=
              cell (arr s) j + (x - (offset s + j + cell (arr s) j))).
      { apply spec_cell_le; [lia |]. left. apply horizontal_le; [lia | lia |].
        exists x. split; [exact N | lia]. }
      lia. }
    split; [exact Hi |]. split; [lia |].
    apply (tracks_step_sound Q d w s r Ht j _ Hj); [lia | exact Hi | lia].
  - pose proof (state_inv_cell d s (j + 1) Hs ltac:(lia)) as Ha1.
    destruct (Hg (j + 1) ltac:(lia) ltac:(lia)) as [i [e [Hi [He R]]]].
    exists i, (e + 1). split; [exact Hi |]. split; [lia |].
    apply reaches_ins; [lia | exact R].
  - pose proof (state_inv_cell d s (j + 2) Hs ltac:(lia)) as Ha2.
    destruct (Hg (j + 2) ltac:(lia) ltac:(lia)) as [i [e [Hi [He R]]]].
    exists i, (e + 1). split; [exact Hi |]. split; [lia |].
    apply reaches_ins; [lia | exact R].
Qed.

Lemma fold_right_min_In (a : list Z) (b : Z) :
  fold_right Z.min b a = b \/ In (fold_right Z.min b a) a.
Proof.
  induction a as [| x a IH]; simpl; [left; reflexivity |].
  destruct (Z.min_spec x (fold_right Z.min b a)) as [[_ E] | [_ E]];
    rewrite E; [right; left; reflexivity |].
  destruct IH as [IH | IH]; [left; exact IH | right; right; exact IH].
Qed.

Lemma fold_right_min_bound (a : list Z) (b : Z) : fold_right Z.min b a <= b.
Proof. induction a as [| x a IH]; simpl; lia. Qed.

(** The minimum that a transition reports is a cell of the successor, or
    [d + 1]. *)
Lemma spec_transition_min_cell (Q : list rune) (d : Z) (s : state) (r : rune) :
  0 <= d ->
  snd (spec_transition Q d s r) <= d + 1 /\
  (snd (spec_transition Q d s r) = d + 1 \/
   exists j, 0 <= j <= 2 * d /\
             snd (spec_transition Q d s r) = spec_cell Q d s r j).
Proof.
  intros Hd. unfold spec_transition. cbn [snd].
  split; [apply fold_right_min_bound |].
  destruct (fold_right_min_In
              (map (fun j => spec_cell Q d s r (Z.of_nat j))
                   (seq 0 (Z.to_nat (2 * d + 1)))) (d + 1)) as [E | E];
    [left; exact E | right].
  apply in_map_iff in E. destruct E as [k [E Hk]]. apply in_seq in Hk.
  exists (Z.of_nat k). split; [lia | symmetry; exact E].
Qed.

(** The distance from the word to a prefix of [Q] bounds the least cell. *)
Lemma tracks_prefix_cell (Q : list rune) (d : Z) (w : list rune) (s : state)
      (i : nat) :
  0 <= d -> tracks Q d w s -> (i <= List.length Q)%nat ->
  (levenshtein w (firstn i Q) <= Z.to_nat d)%nat ->
  exists j, 0 <= j <= 2 * d /\
            cell (arr s) j <= Z.of_nat (levenshtein w (firstn i Q)).
Proof.
  intros Hd [Hoff [Hs [Hin Hiff]]] Hi Hl.
  pose proof (levenshtein_edits w (firstn i Q)) as R.
  set (k := levenshtein w (firstn i Q)) in *.
  pose proof (edits_lengths _ _ _ R) as [L1 L2].
  rewrite length_firstn in L1, L2.
  set (e := Z.of_nat k). set (j := Z.of_nat i - e - offset s).
  assert (Hj : 0 <= j <= 2 * d) by (unfold j, e, len in *; lia).
  exists j. split; [exact Hj |].
  apply Hiff; [exact Hj | unfold e; lia | unfold j, len; lia |].
  unfold reaches.
  replace (offset s + j + e) with (Z.of_nat i) by (unfold j; lia).
  unfold e. rewrite !Nat2Z.id. exact R.
Qed.

Lemma stratum_run (n : nfa) (d : Z) :
  0 <= d <= 31 -> nfa_for n d ->
  forall (path w : list rune) (s s' : state) (lvl lvl' : Z),
    tracks (nfa_rs n) d w s -> grounded (nfa_rs n) d w s ->
    nfa_run n s lvl path = Ok (s', lvl') ->
    tracks (nfa_rs n) d (w ++ path) s' /\
    grounded (nfa_rs n) d (w ++ path) s' /\
    (path <> [] ->
     lvl' <= d + 1 /\
     (forall j, 0 <= j <= 2 * d -> lvl' <= cell (arr s') j) /\
     (lvl' = d + 1 \/
      exists j, 0 <= j <= 2 * d /\ lvl' = cell (arr s') j)).
Proof.
  intros Hd Hn. induction path as [| r path IH];
    intros w s s' lvl lvl' Ht Hg H.
  - simpl in H. injection H as <- <-. rewrite app_nil_r.
    split; [exact Ht |]. split; [exact Hg |]. intros C. congruence.
  - cbn [nfa_run] in H.
    rewrite (transition_spec n s r d Hd Hn (proj1 (proj2 Ht))) in H.
    pose proof (tracks_step (nfa_rs n) d w s r ltac:(lia) Ht) as Ht'.
    pose proof (grounded_step (nfa_rs n) d w s r ltac:(lia) Ht Hg) as Hg'.
    pose proof (spec_transition_min_cell (nfa_rs n) d s r ltac:(lia))
      as [Hm1 Hm2].
    pose proof (spec_transition_min (nfa_rs n) d s r) as Hm3.
    assert (Hcells : forall j, 0 <= j <= 2 * d ->
                cell (arr (fst (spec_transition (nfa_rs n) d s r))) j =
                spec_cell (nfa_rs n) d s r j)
      by (intros j Hj; apply cell_spec_transition; exact Hj).
    destruct (spec_transition (nfa_rs n) d s r) as [ns m].
    cbn [bind fst snd] in *.
    destruct (IH (w ++ [r]) ns s' m lvl' Ht' Hg' H) as [T [G L]].
    rewrite <- app_assoc in T, G. simpl in T, G.
    split; [exact T |]. split; [exact G |]. intros _.
    destruct path as [| r' path]; [| apply L; discriminate].
    simpl in H. injection H as <- <-.
    split; [exact Hm1 |]. split.
    + intros j Hj. rewrite Hcells by exact Hj. apply Hm3. exact Hj.
    + destruct Hm2 as [E | [j [Hj E]]]; [left; exact E | right].
      exists j. split; [exact Hj |]. rewrite Hcells by exact Hj. exact E.
Qed.

(** X22. The stratum of a path. For [0 <= d <= 31] the run of the NFA for
    [(q, d)] along [path] returns, and the level it reports (the minimum
    of the last transition, 0 for the empty path: the index of the stack
    that [suggest] pushes the node on) lies in [0, d+1], is at most the
    Levenshtein distance from [path] to every prefix of [q], and, when it
    is at most [d], is the distance from [path] to some prefix of [q]:
    the level is the least distance from the path to a prefix of the
    query, capped at [d+1]. *)
Theorem stratum_is_prefix_distance (q path : list rune) (d : Z) :
  0 <= d <= 31 ->
  exists n s level,
    reach q d path = Ok (n, s, level) /\
    0 <= level <= d + 1 /\
    (forall i, (i <= List.length q)%nat ->
               level <= Z.of_nat (levenshtein path (firstn i q))) /\
    (level <= d ->
     exists i, (i <= List.length q)%nat /\
               Z.of_nat (levenshtein path (firstn i q)) = level).
Proof.
  intros Hd. unfold reach.
  destruct (newNfa_small q d) as [En Hn]; [lia |].
  rewrite En. cbn [bind].
  rewrite (start_state _ d ltac:(lia) (proj1 Hn)). cbn [bind].
  set (n := mkNfa q d (repeat 0 (Z.to_nat (3 * d + 2)))) in *.
  set (s0 := mkState (- 2 * d) (repeat (d + 1) (Z.to_nat (2 * d)) ++ [0])).
  pose proof (tracks_start q d ltac:(lia)) as Ht0.
  pose proof (grounded_start q d ltac:(lia)) as Hg0.
  fold s0 in Ht0, Hg0.
  destruct (tracks_run n d Hd Hn path [] s0 0 Ht0) as [s [level [R _]]].
  rewrite R. cbn [bind]. exists n, s, level. split; [reflexivity |].
  destruct (stratum_run n d Hd Hn path [] s0 s 0 level Ht0 Hg0 R)
    as [T [G L]].
  subst n. cbn [nfa_rs app] in T, G.
  destruct path as [| r path].
  - (* the start node: stratum 0, the distance to the empty prefix *)
    simpl in R. injection R as <- <-.
    split; [lia |]. split.
    + intros i Hi. lia.
    + intros _. exists O. split; [lia | reflexivity].
  - destruct (L ltac:(discriminate)) as [L1 [L2 L3]].
    assert (Hlow : forall i, (i <= List.length q)%nat ->
                level <= Z.of_nat (levenshtein (r :: path) (firstn i q))).
    { intros i Hi.
      destruct (le_gt_dec (levenshtein (r :: path) (firstn i q))
                          (Z.to_nat d)) as [Hle | Hgt]; [| lia].
      destruct (tracks_prefix_cell q d (r :: path) s i ltac:(lia) T Hi Hle)
        as [j [Hj Hc]].
      specialize (L2 j Hj). lia. }
    assert (H0 : 0 <= level).
    { destruct L3 as [-> | [j [Hj ->]]]; [lia |].
      apply (state_inv_cell d s j (proj1 (proj2 T)) Hj). }
    split; [lia |]. split; [exact Hlow |].
    intros Hle. destruct L3 as [E | [j [Hj E]]]; [lia |].
    destruct (G j Hj ltac:(lia)) as [i [e [Hi [He Re]]]].
    assert (Hi' : (Z.to_nat i <= List.length q)%nat)
      by (unfold len in Hi; lia).
    exists (Z.to_nat i). split; [exact Hi' |].
    unfold reaches in Re. apply edits_levenshtein in Re.
    specialize (Hlow (Z.to_nat i) Hi'). lia.
Qed.


Lemma stratum_is_prefix_distance_witness :
  exists n s level,
    reach runes_ab 1 runes_ac = Ok (n, s, level) /\
    0 <= level <= 1 + 1 /\
    (forall i, (i <= List.length runes_ab)%nat ->
               level <= Z.of_nat (levenshtein runes_ac (firstn i runes_ab))) /\
    (level <= 1 ->
     exists i, (i <= List.length runes_ab)%nat /\
               Z.of_nat (levenshtein runes_ac (firstn i runes_ab)) = level).
Proof.
  apply (stratum_is_prefix_distance runes_ab runes_ac 1). lia.
Defined.

(** X23. The NFA accepts the words within the bound. For [0 <= d <= 31]
    and a query [q] of at most [255 - 2d] scalars, the run of the NFA for
    [(q, d)] along [path] returns a state that [accepts] holds for exactly
    when the Levenshtein distance between [path] and [q] is at most
    [d]. *)
Theorem nfa_accepts_within_distance (q path : list rune) (d : Z) :
  0 <= d <= 31 -> len q + 2 * d <= 255 ->
  exists n s level,
    reach q d path = Ok (n, s, level) /\
    (accepts n s = true <-> (levenshtein path q <= Z.to_nat d)%nat).
Proof.
  intros Hd Hq.
  destruct (newNfa_small q d) as [En Hn]; [lia |].
  destruct (tracks_run _ d Hd Hn path [] _ 0 (tracks_start q d ltac:(lia)))
    as [s [level [R T]]].
  cbn [nfa_rs app] in R, T.
  eexists _, s, level. split.
  - unfold reach. rewrite En. cbn [bind].
    rewrite (start_state _ d ltac:(lia) (proj1 Hn)). cbn [bind].
    rewrite R. reflexivity.
  - apply (accepts_distance _ d path s Hd (proj1 Hn) Hq T).
Qed.

Lemma nfa_accepts_within_distance_witness :
  exists n s level,
    reach runes_ab 1 runes_ac = Ok (n, s, level) /\
    (accepts n s = true <->
     (levenshtein runes_ac runes_ab <= Z.to_nat 1)%nat).
Proof.
  apply (nfa_accepts_within_distance runes_ab runes_ac 1);
    [lia | vm_compute; discriminate].
Defined.

(* ================================================================== *)
(** * The oracle of the tests *)

Lemma edits_sym (s t : list rune) (k : nat) : edits s t k -> edits t s k.
Proof.
  intros H. induction H as [| a s t k H IH | b s t k H IH
                            | a b s t k H IH | a s t k H IH].
  - apply edits_nil.
  - apply edits_del. exact IH.
  - apply edits_ins. exact IH.
  - apply edits_sub. exact IH.
  - apply edits_match. exact IH.
Qed.

Lemma levenshtein_sym (s t : list rune) : levenshtein s t = levenshtein t s.
Proof.
  apply Nat.le_antisymm; apply edits_levenshtein, edits_sym,
    levenshtein_edits.
Qed.

Lemma levenshtein_rev (s t : list rune) :
  levenshtein (rev s) (rev t) = levenshtein s t.
Proof.
  apply Nat.le_antisymm.
  - apply edits_levenshtein, edits_rev, levenshtein_edits.
  - rewrite <- (rev_involutive s), <- (rev_involutive t) at 1.
    apply edits_levenshtein, edits_rev, levenshtein_edits.
Qed.

(** Dropping the first scalar of the target costs at most one edit. *)
Lemma edits_uncons_r (s T : list rune) (k : nat) :
  edits s T k ->
  forall b t, T = b :: t -> exists k', (k' <= S k)%nat /\ edits s t k'.
Proof.
  intros H. induction H as [| a s t0 k H IH | b0 s t0 k H IH
                            | a b0 s t0 k H IH | a s t0 k H IH];
    intros b t E.
  - discriminate.
  - destruct (IH b t E) as [k' [Hk R]]. exists (S k').
    split; [lia | apply edits_ins; exact R].
  - injection E as -> ->. exists k. split; [lia | exact H].
  - injection E as -> ->. exists (S k).
    split; [lia | apply edits_ins; exact H].
  - injection E as -> ->. exists (S k).
    split; [lia | apply edits_ins; exact H].
Qed.

Lemma levenshtein_uncons_r (s t : list rune) (b : rune) :
  (levenshtein s t <= S (levenshtein s (b :: t)))%nat.
Proof.
  destruct (edits_uncons_r _ _ _ (levenshtein_edits s (b :: t)) b t eq_refl)
    as [k' [Hk R]].
  apply edits_levenshtein in R. lia.
Qed.

Lemma levenshtein_uncons_l (s t : list rune) (a : rune) :
  (levenshtein s t <= S (levenshtein (a :: s) t))%nat.
Proof.
  rewrite (levenshtein_sym s t), (levenshtein_sym (a :: s) t).
  apply levenshtein_uncons_r.
Qed.

Lemma levenshtein_cons_match (a : rune) (s t : list rune) :
  levenshtein (a :: s) (a :: t) = levenshtein s t.
Proof.
  rewrite levenshtein_cons, Z.eqb_refl.
  pose proof (levenshtein_uncons_r s t a).
  pose proof (levenshtein_uncons_l s t a). lia.
Qed.

Lemma levenshtein_cons_diff (a b : rune) (s t : list rune) :
  a <> b ->
  levenshtein (a :: s) (b :: t) =
  S (Nat.min (Nat.min (levenshtein (a :: s) t) (levenshtein s (b :: t)))
             (levenshtein s t)).
Proof.
  intros Hne. rewrite levenshtein_cons.
  destruct (a =? b) eqn:E; [apply Z.eqb_eq in E; contradiction |]. lia.
Qed.

Lemma levenshtein_snoc_match (a : rune) (s t : list rune) :
  levenshtein (s ++ [a]) (t ++ [a]) = levenshtein s t.
Proof.
  rewrite <- (levenshtein_rev (s ++ [a]) (t ++ [a])), !rev_app_distr.
  cbn [rev app]. rewrite levenshtein_cons_match. apply levenshtein_rev.
Qed.

Lemma levenshtein_snoc_diff (a b : rune) (s t : list rune) :
  a <> b ->
  levenshtein (s ++ [a]) (t ++ [b]) =
  S (Nat.min (Nat.min (levenshtein (s ++ [a]) t) (levenshtein s (t ++ [b])))
             (levenshtein s t)).
Proof.
  intros Hne.
  rewrite <- (levenshtein_rev (s ++ [a]) (t ++ [b])).
  rewrite <- (levenshtein_rev (s ++ [a]) t).
  rewrite <- (levenshtein_rev s (t ++ [b])).
  rewrite <- (levenshtein_rev s t).
  rewrite !rev_app_distr. cbn [rev app].
  apply levenshtein_cons_diff. exact Hne.
Qed.

Lemma levenshtein_max (s : list rune) :
  forall t, (levenshtein s t <= Nat.max (List.length s) (List.length t))%nat.
Proof.
  induction s as [| a s IHs]; intros t.
  - rewrite levenshtein_nil_l. lia.
  - destruct t as [| b t].
    + rewrite levenshtein_nil_r. lia.
    + rewrite levenshtein_cons. specialize (IHs t). simpl List.length.
      destruct (a =? b); lia.
Qed.

Lemma snoc_last (l : list rune) :
  l <> [] -> l = removelast l ++ [last l 0].
Proof. intros H. apply app_removelast_last. exact H. Qed.

Lemma length_removelast (l : list rune) :
  l <> [] -> S (List.length (removelast l)) = List.length l.
Proof.
  intros H. rewrite (snoc_last l H) at 2. rewrite length_app. simpl. lia.
Qed.

Lemma editDistanceHelper_levenshtein (fuel : nat) :
  forall s t,
    (List.length s + List.length t < fuel)%nat ->
    len s <= 127 -> len t <= 127 ->
    levtrie_test.editDistanceHelper fuel s t = Ok (Z.of_nat (levenshtein s t)).
Proof.
  induction fuel as [| fuel IH]; intros s t Hf Hs Ht; [lia |].
  cbn [levtrie_test.editDistanceHelper].
  destruct (len s =? 0) eqn:Es.
  { apply Z.eqb_eq in Es. destruct s; [| discriminate].
    rewrite levenshtein_nil_l. rewrite int8_small by (unfold len in *; lia).
    reflexivity. }
  destruct (len t =? 0) eqn:Et.
  { apply Z.eqb_eq in Et. destruct t; [| discriminate].
    rewrite levenshtein_nil_r. rewrite int8_small by (unfold len in *; lia).
    reflexivity. }
  assert (Hs0 : s <> []) by (intros ->; discriminate).
  assert (Ht0 : t <> []) by (intros ->; discriminate).
  pose proof (length_removelast s Hs0) as Ls.
  pose proof (length_removelast t Ht0) as Lt.
  pose proof (snoc_last s Hs0) as Ss. pose proof (snoc_last t Ht0) as St.
  set (s' := removelast s) in *. set (t' := removelast t) in *.
  set (a := last s 0) in *. set (b := last t 0) in *.
  unfold len in Hs, Ht.
  destruct (a =? b) eqn:E.
  - apply Z.eqb_eq in E. rewrite IH by (unfold len; lia).
    rewrite Ss, St at 1. rewrite E. rewrite levenshtein_snoc_match.
    reflexivity.
  - apply Z.eqb_neq in E.
    rewrite (IH s t') by (unfold len; lia). cbn [bind].
    rewrite (IH s' t) by (unfold len; lia). cbn [bind].
    rewrite (IH s' t') by (unfold len; lia). cbn [bind].
    pose proof (levenshtein_max s t) as M.
    assert (D : levenshtein s t =
                S (Nat.min (Nat.min (levenshtein s t') (levenshtein s' t))
                           (levenshtein s' t'))).
    { rewrite Ss, St at 1. rewrite (levenshtein_snoc_diff a b s' t' E).
      rewrite <- Ss, <- St. reflexivity. }
    f_equal.
    set (x := levenshtein s t') in *. set (y := levenshtein s' t) in *.
    set (z := levenshtein s' t') in *.
    rewrite !ltb_min. rewrite int8_small by lia. lia.
Qed.

(** X24. The oracle of the tests. For two strings of at most 127 scalars
    each, [editDistance] of the test file (the recursion
    [editDistanceHelper] on the last scalars, which takes the diagonal
    alone when they are equal, in int8 arithmetic) returns the Levenshtein
    distance between their scalar sequences. *)
Theorem test_oracle_is_levenshtein (s t : string) :
  len (extractRunes s) <= 127 -> len (extractRunes t) <= 127 ->
  levtrie_test.editDistance s t = Ok (Z.of_nat (editDistance s t)).
Proof.
  intros Hs Ht. unfold levtrie_test.editDistance, editDistance.
  apply editDistanceHelper_levenshtein; [lia | exact Hs | exact Ht].
Qed.

Lemma test_oracle_is_levenshtein_witness :
  levtrie_test.editDistance "kitten" "sitting" = Ok 3.
Proof.
  apply (test_oracle_is_levenshtein "kitten" "sitting");
    vm_compute; discriminate.
Defined.

(* ================================================================== *)
(** * No entry is returned twice *)

Lemma entries_unfold (n : node) :
  entries n =
  match data n with
  | Some kv => [kv]
  | None => []
  end ++ flat_map (fun e => entries (snd e)) (child n).
Proof.
  destruct n as [dt cs]. simpl. f_equal.
  induction cs as [| [r x] cs IH]; simpl; [reflexivity |].
  rewrite IH. reflexivity.
Qed.

Lemma occurrences_app (kv : KV) (l1 l2 : list KV) :
  occurrences kv (l1 ++ l2) = (occurrences kv l1 + occurrences kv l2)%nat.
Proof. unfold occurrences. apply count_occ_app. Qed.

Lemma occurrences_firstn (kv : KV) (k : nat) (l : list KV) :
  (occurrences kv (firstn k l) <= occurrences kv l)%nat.
Proof.
  rewrite <- (firstn_skipn k l) at 2. rewrite occurrences_app. lia.
Qed.

Lemma occurrences_children (kv : KV) (n : node) :
  (occurrences kv (flat_map (fun e => entries (snd e)) (child n))
   <= occurrences kv (entries n))%nat.
Proof. rewrite (entries_unfold n), occurrences_app. lia. Qed.

(** ** The work list *)

Lemma held_all_set_nth (kv : KV) (stacks : list (list frame)) (i : nat)
      (st st' : list frame) :
  nth_error stacks i = Some st ->
  (occurrences kv (held_all (set_nth stacks i st')) + occurrences kv (held st)
   = occurrences kv (held_all stacks) + occurrences kv (held st'))%nat.
Proof.
  revert i. induction stacks as [| a stacks IH]; intros i E.
  - destruct i; discriminate.
  - destruct i as [| i]; simpl in *.
    + injection E as ->. unfold held_all. simpl. rewrite !occurrences_app.
      lia.
    + specialize (IH i E). unfold held_all in *. simpl.
      rewrite !occurrences_app. lia.
Qed.

Lemma held_all_push (kv : KV) (stacks stacks' : list (list frame)) (min : Z)
      (f : frame) :
  push stacks min f = Ok stacks' ->
  occurrences kv (held_all stacks') =
  (occurrences kv (held_all stacks) + occurrences kv (entries (f_n f)))%nat.
Proof.
  unfold push. intros H.
  apply bind_Ok in H. destruct H as [st [Hi Ha]].
  apply index_Ok in Hi. destruct Hi as [_ Hnth].
  apply assign_Ok in Ha. destruct Ha as [_ ->].
  pose proof (held_all_set_nth kv stacks _ st (f :: st) Hnth) as E.
  unfold held in E at 2. simpl in E. fold (held st) in E.
  rewrite occurrences_app in E. lia.
Qed.

Lemma held_all_register (kv : KV) (n : nfa) (d : Z) (s : state)
      (cs : list (rune * node)) (stacks stacks' : list (list frame)) :
  register n d s cs stacks = Ok stacks' ->
  (occurrences kv (held_all stacks') <=
   occurrences kv (held_all stacks) +
   occurrences kv (flat_map (fun e => entries (snd e)) cs))%nat.
Proof.
  revert stacks. induction cs as [| [r x] cs IH]; intros stacks H; simpl in H.
  - injection H as <-. lia.
  - apply bind_Ok in H. destruct H as [[ns min] [_ H]].
    simpl flat_map. rewrite occurrences_app.
    destruct (min <? int8 (d + 1)).
    + apply bind_Ok in H. destruct H as [stacks1 [P H]].
      apply (held_all_push kv) in P. simpl in P.
      specialize (IH _ H). lia.
    + specialize (IH _ H). lia.
Qed.

(** ** The policies *)

Lemma occurrences_push_children (kv : KV) (cs : list (rune * node))
      (stack : list node) :
  occurrences kv (flat_map entries (push_children cs stack)) =
  (occurrences kv (flat_map (fun e => entries (snd e)) cs) +
   occurrences kv (flat_map entries stack))%nat.
Proof.
  unfold push_children. revert stack.
  induction cs as [| e cs IH]; intros stack; simpl; [reflexivity |].
  rewrite IH. simpl. rewrite !occurrences_app. lia.
Qed.

Lemma expand_loop_occurrences (kv : KV) (limit : Z) (fuel : nat) :
  forall (stack : list node) (results out : list KV),
    expand_loop fuel stack results limit = Ok out ->
    (occurrences kv out <=
     occurrences kv results + occurrences kv (flat_map entries stack))%nat.
Proof.
  induction fuel as [| fuel IH]; intros stack results out H; simpl in H;
    [discriminate |].
  destruct stack as [| x stack]; [injection H as <-; lia |].
  simpl flat_map. rewrite occurrences_app, (entries_unfold x), occurrences_app.
  destruct (data x) as [kv0 |].
  - destruct (len (results ++ [kv0]) >=? limit).
    + injection H as <-. rewrite occurrences_app. lia.
    + apply IH in H. rewrite occurrences_push_children, occurrences_app in H.
      lia.
  - apply IH in H. rewrite occurrences_push_children in H.
    change (occurrences kv []) with O. lia.
Qed.

(** What a policy emits at a node, and what is left to the children when
    it does not halt, are entries of the node's subtree, each once. *)
Lemma doNotExpandSuffixes_occurrences (x : node) (lim : Z) (rs : list KV)
      (halt : bool) (kv : KV) :
  doNotExpandSuffixes x lim = Ok (rs, halt) ->
  (occurrences kv rs +
   (if halt then O
    else occurrences kv (flat_map (fun e => entries (snd e)) (child x)))
   <= occurrences kv (entries x))%nat.
Proof.
  intros H. unfold doNotExpandSuffixes in H.
  rewrite (entries_unfold x), occurrences_app.
  destruct (data x); injection H as <- <-; lia.
Qed.

Lemma expandSuffixes_occurrences (x : node) (lim : Z) (rs : list KV)
      (halt : bool) (kv : KV) :
  expandSuffixes x lim = Ok (rs, halt) ->
  (occurrences kv rs +
   (if halt then O
    else occurrences kv (flat_map (fun e => entries (snd e)) (child x)))
   <= occurrences kv (entries x))%nat.
Proof.
  intros H. unfold expandSuffixes in H.
  apply bind_Ok in H. destruct H as [out [H E]]. injection E as <- <-.
  apply (expand_loop_occurrences kv) in H. simpl in H.
  rewrite app_nil_r in H. change (occurrences kv []) with O in H. lia.
Qed.

(** ** The traversal *)

Section Once.
Variables (process : processAcceptingNode) (d limit : Z) (kv : KV).
Hypothesis Hprocess : forall x lim rs halt,
    process x lim = Ok (rs, halt) ->
    (occurrences kv rs +
     (if halt then O
      else occurrences kv (flat_map (fun e => entries (snd e)) (child x)))
     <= occurrences kv (entries x))%nat.

Lemma suggest_loop_occurrences (n : nfa) (fuel : nat) :
  forall (i : nat) (stacks : list (list frame)) (results out : list KV),
    suggest_loop fuel process n d limit i stacks results = Ok out ->
    (occurrences kv out <=
     occurrences kv results + occurrences kv (held_all stacks))%nat.
Proof.
  induction fuel as [| fuel IH]; intros i stacks results out H; simpl in H;
    [discriminate |].
  destruct (nth_error stacks i) as [[| f rest] |] eqn:Ei.
  - exact (IH _ _ _ _ H).
  - pose proof (held_all_set_nth kv stacks i (f :: rest) rest Ei) as Hpop.
    unfold held in Hpop at 1. simpl in Hpop. fold (held rest) in Hpop.
    rewrite occurrences_app in Hpop.
    pose proof (occurrences_children kv (f_n f)) as Hch.
    assert (Hreg : forall results' stacks2,
               register n d (f_s f) (child (f_n f)) (set_nth stacks i rest)
               = Ok stacks2 ->
               suggest_loop fuel process n d limit i stacks2 results' = Ok out ->
               (occurrences kv out <=
                occurrences kv results' +
                occurrences kv (held_all (set_nth stacks i rest)) +
                occurrences kv (flat_map (fun e => entries (snd e))
                                         (child (f_n f))))%nat).
    { intros results' stacks2 Hr Hloop.
      apply (held_all_register kv) in Hr. apply IH in Hloop. lia. }
    destruct (accepts n (f_s f)).
    + apply bind_Ok in H. destruct H as [[rs halt] [Hp H]].
      apply Hprocess in Hp.
      destruct (len (results ++ rs) >=? limit).
      * apply slice_to_full_Ok in H. subst out.
        pose proof (occurrences_firstn kv (Z.to_nat limit) (results ++ rs)).
        rewrite occurrences_app in *. destruct halt; lia.
      * destruct halt.
        -- apply IH in H. rewrite occurrences_app in H. lia.
        -- apply bind_Ok in H. destruct H as [stacks2 [Hr Hloop]].
           pose proof (Hreg _ _ Hr Hloop) as G.
           rewrite occurrences_app in G. lia.
    + apply bind_Ok in H. destruct H as [stacks2 [Hr Hloop]].
      pose proof (Hreg _ _ Hr Hloop) as G. lia.
  - injection H as <-. lia.
Qed.

Lemma held_all_repeat_nil (k : nat) :
  occurrences kv (held_all (repeat [] k)) = O.
Proof. induction k as [| k IH]; simpl; [reflexivity | exact IH]. Qed.

Lemma suggest_occurrences (x : node) (q : list rune) (out : list KV) :
  suggest process x q d limit = Ok out ->
  (occurrences kv out <= occurrences kv (entries x))%nat.
Proof.
  intros H. unfold suggest in H.
  apply bind_Ok in H. destruct H as [n0 [_ H]].
  apply bind_Ok in H. destruct H as [s0 [_ H]].
  apply bind_Ok in H. destruct H as [stacks0 [Hm H]].
  apply bind_Ok in H. destruct H as [stacks [Ha H]].
  unfold make in Hm. destruct (int8 (d + 1) <? 0); [discriminate |].
  injection Hm as <-.
  apply assign_Ok in Ha. destruct Ha as [Hr ->].
  apply suggest_loop_occurrences in H.
  assert (E : nth_error (repeat ([] : list frame) (Z.to_nat (int8 (d + 1))))
                        (Z.to_nat 0) = Some []).
  { destruct (nth_error _ _) as [st |] eqn:N.
    - apply nth_error_repeat_nil in N. subst st. reflexivity.
    - apply nth_error_None in N. unfold len in Hr. lia. }
  pose proof (held_all_set_nth kv _ _ [] [mkFrame x s0] E) as G.
  rewrite held_all_repeat_nil in G. unfold held in G. simpl in G.
  rewrite app_nil_r in G. change (occurrences kv []) with O in *.
  change (Z.to_nat 0) with O in H. lia.
Qed.
End Once.

Lemma occurrences_member (kv : KV) (cs : list (rune * node)) (r : rune)
      (y : node) :
  In (r, y) cs ->
  (occurrences kv (entries y) <=
   occurrences kv (flat_map (fun e => entries (snd e)) cs))%nat.
Proof.
  induction cs as [| e cs IH]; intros H; [destruct H |].
  simpl flat_map. rewrite occurrences_app. destruct H as [-> | H].
  - simpl. lia.
  - specialize (IH H). lia.
Qed.

Lemma occurrences_descend (kv : KV) (path : list rune) :
  forall n x, descend n path = Some x ->
              (occurrences kv (entries x) <= occurrences kv (entries n))%nat.
Proof.
  induction path as [| r path IH]; intros n x H; simpl in H.
  - injection H as <-. lia.
  - destruct (runemap.lookup r (child n)) as [y |] eqn:L; [| discriminate].
    specialize (IH _ _ H).
    pose proof (occurrences_member kv _ _ _ (lookup_In _ _ _ L)).
    pose proof (occurrences_children kv n). lia.
Qed.

Lemma after_exact_prefix_occurrences (process : processAcceptingNode)
      (cap : nat -> nat) (t : Trie) (key : string) (p d n : Z)
      (out : list KV) (kv : KV) :
  (forall x lim rs halt,
      process x lim = Ok (rs, halt) ->
      (occurrences kv rs +
       (if halt then O
        else occurrences kv (flat_map (fun e => entries (snd e)) (child x)))
       <= occurrences kv (entries x))%nat) ->
  after_exact_prefix cap process t key p d n = Ok out ->
  (occurrences kv out <= occurrences kv (entries (root t)))%nat.
Proof.
  intros Hp H. unfold after_exact_prefix in H.
  apply bind_Ok in H. destruct H as [prefix [_ H]].
  destruct (exact_prefix (root t) prefix) as [curr |] eqn:E.
  - apply bind_Ok in H. destruct H as [rest [_ H]].
    apply (suggest_occurrences process d n kv Hp) in H.
    rewrite exact_prefix_descend in E.
    pose proof (occurrences_descend kv _ _ _ E). lia.
  - injection H as <-. simpl. lia.
Qed.

(** ** The entries of a trie *)

Lemma node_size_ind (P : node -> Prop) :
  (forall n, (forall e, In e (child n) -> P (snd e)) -> P n) ->
  forall n, P n.
Proof.
  intros Hstep.
  assert (G : forall k n, (size n <= k)%nat -> P n).
  { induction k as [| k IH]; intros n Hk.
    - rewrite size_unfold in Hk. lia.
    - apply Hstep. intros e He. apply IH.
      rewrite size_unfold in Hk.
      assert (size (snd e) <= sizes (map snd (child n)))%nat; [| lia].
      clear - He. induction (child n) as [| a l IHl]; [destruct He |].
      simpl. destruct He as [-> | He]; [lia |]. specialize (IHl He). lia. }
  intros n. exact (G (size n) n (le_n _)).
Qed.

(** The keys of the entries of a subtree at [path] spell paths through
    [path], and no two of them spell the same. *)
Lemma entries_keys (n : node) :
  forall path,
    keyed_at path n -> distinct_edges n ->
    Forall (fun kv => exists rest, extractRunes (Key kv) = path ++ rest)
           (entries n) /\
    NoDup (map (fun kv => extractRunes (Key kv)) (entries n)).
Proof.
  induction n as [n IH] using node_size_ind. intros path K Hd.
  apply keyed_at_unfold in K. destruct K as [Kown Kc].
  apply distinct_edges_unfold in Hd. destruct Hd as [Hnd Hdc].
  rewrite entries_unfold.
  assert (G : Forall (fun kv => exists r rest,
                          In r (map fst (child n)) /\
                          extractRunes (Key kv) = path ++ r :: rest)
                     (flat_map (fun e => entries (snd e)) (child n)) /\
              NoDup (map (fun kv => extractRunes (Key kv))
                         (flat_map (fun e => entries (snd e)) (child n)))).
  { revert IH Kc Hdc Hnd. generalize (child n) as cs.
    induction cs as [| [r y] cs IHcs]; intros IH Kc Hdc Hnd.
    - simpl. split; constructor.
    - inversion Kc as [| ? ? Ky Kc']; subst.
      inversion Hdc as [| ? ? Dy Hdc']; subst.
      simpl in Hnd. inversion Hnd as [| ? ? Hr Hnd']; subst.
      simpl in Ky, Dy.
      destruct (IH (r, y) (or_introl eq_refl) _ Ky Dy) as [Fy Ny].
      destruct (IHcs (fun e He => IH e (or_intror He)) Kc' Hdc' Hnd')
        as [Fcs Ncs].
      simpl flat_map. split.
      + apply Forall_app. split.
        * eapply Forall_impl; [| exact Fy]. intros kv [rest Hk].
          exists r, rest. split; [left; reflexivity |].
          rewrite Hk, <- app_assoc. reflexivity.
        * eapply Forall_impl; [| exact Fcs]. intros kv [r' [rest [Hin Hk]]].
          exists r', rest. split; [right; exact Hin | exact Hk].
      + rewrite map_app. apply NoDup_app; [exact Ny | exact Ncs |].
        intros k Hk1 Hk2.
        apply in_map_iff in Hk1. destruct Hk1 as [kv1 [E1 H1]].
        apply in_map_iff in Hk2. destruct Hk2 as [kv2 [E2 H2]].
        rewrite Forall_forall in Fy, Fcs.
        destruct (Fy _ H1) as [rest1 Hk1].
        destruct (Fcs _ H2) as [r' [rest2 [Hin Hk2]]].
        simpl in E1, E2.
        assert (Eq : (path ++ [r]) ++ rest1 = path ++ r' :: rest2)
          by congruence.
        rewrite <- app_assoc in Eq. apply app_inv_head in Eq.
        simpl in Eq. injection Eq as <- _. contradiction. }
  destruct G as [Fc Nc]. split.
  - apply Forall_app. split.
    + destruct (data n) as [kv |]; constructor; [| constructor].
      exists []. rewrite app_nil_r. exact Kown.
    + eapply Forall_impl; [| exact Fc]. intros kv [r [rest [_ Hk]]].
      exists (r :: rest). exact Hk.
  - rewrite map_app. apply NoDup_app; [| exact Nc |].
    + destruct (data n); simpl; constructor; [intros [] | constructor].
    + intros k Hk1 Hk2. destruct (data n) as [kv |]; [| destruct Hk1].
      destruct Hk1 as [<- | []].
      apply in_map_iff in Hk2. destruct Hk2 as [kv2 [E2 H2]].
      rewrite Forall_forall in Fc. destruct (Fc _ H2) as [r [rest [_ Hk]]].
      simpl in E2.
      assert (Eq : path ++ r :: rest = path ++ []) by
        (rewrite app_nil_r; congruence).
      apply app_inv_head in Eq. discriminate.
Qed.

Lemma NoDup_map_inv' {A B : Type} (f : A -> B) (l : list A) :
  NoDup (map f l) -> NoDup l.
Proof.
  induction l as [| a l IH]; simpl; intros H; [constructor |].
  inversion H as [| ? ? Hn Hl]; subst. constructor; [| exact (IH Hl)].
  intros Hin. apply Hn. apply in_map. exact Hin.
Qed.

Lemma NoDup_map_injective {A B : Type} (f : A -> B) (l l0 : list A) :
  NoDup (map f l0) -> incl l l0 -> NoDup l -> NoDup (map f l).
Proof.
  intros H0 Hincl. induction l as [| a l IH]; intros Hl; [constructor |].
  inversion Hl as [| ? ? Hn Hl']; subst. simpl. constructor.
  - intros Hin. apply in_map_iff in Hin. destruct Hin as [b [E Hb]].
    assert (Ha : In a l0) by (apply Hincl; left; reflexivity).
    assert (Hb0 : In b l0) by (apply Hincl; right; exact Hb).
    assert (b = a); [| subst b; contradiction].
    clear - H0 E Ha Hb0. induction l0 as [| c l0 IH]; [destruct Ha |].
    simpl in H0. inversion H0 as [| ? ? Hc H0']; subst.
    destruct Ha as [-> | Ha], Hb0 as [-> | Hb0].
    + reflexivity.
    + exfalso. apply Hc. rewrite <- E. apply in_map. exact Hb0.
    + exfalso. apply Hc. rewrite E. apply in_map. exact Ha.
    + exact (IH H0' Ha Hb0).
  - apply IH; [| exact Hl']. intros x Hx. apply Hincl. right. exact Hx.
Qed.

Lemma occurrences_NoDup (l l0 : list KV) :
  (forall kv, (occurrences kv l <= occurrences kv l0)%nat) ->
  NoDup l0 -> NoDup l /\ incl l l0.
Proof.
  intros H H0. split.
  - apply (NoDup_count_occ KV_eq_dec). intros kv.
    pose proof (proj1 (NoDup_count_occ KV_eq_dec l0) H0 kv).
    specialize (H kv). unfold occurrences in H. lia.
  - intros kv Hin. apply (count_occ_In KV_eq_dec) in Hin.
    apply (count_occ_In KV_eq_dec). specialize (H kv).
    unfold occurrences in H. lia.
Qed.

(** X25. No key is returned twice. On a trie built by any program of
    public operations, the keys of the entries that any of the four
    searches returns are pairwise different. (Each entry of the work list
    stands for a subtree; a pop hands the entries of the subtree to the
    result and to the children, so no entry is ever counted twice.) *)
Theorem searches_return_no_key_twice (cap : nat -> nat) (ops : list op)
        (t : Trie) (key : string) (p d n : Z) (out : list KV) :
  run cap New ops = Ok t ->
  Suggest t key d n = Ok out \/
  SuggestSuffixes t key d n = Ok out \/
  SuggestAfterExactPrefix cap t key p d n = Ok out \/
  SuggestSuffixesAfterExactPrefix cap t key p d n = Ok out ->
  NoDup (map Key out).
Proof.
  intros Hrun H.
  pose proof (run_keyed cap ops New t keyed_New Hrun) as K.
  pose proof (run_distinct cap ops New t distinct_New Hrun) as Hd.
  destruct (entries_keys (root t) [] K Hd) as [_ N].
  assert (C : forall kv,
             (occurrences kv out <= occurrences kv (entries (root t)))%nat).
  { intros kv. destruct H as [H | [H | [H | H]]].
    - exact (suggest_occurrences _ d n kv
               (fun x lim rs halt => doNotExpandSuffixes_occurrences
                                       x lim rs halt kv) _ _ _ H).
    - exact (suggest_occurrences _ d n kv
               (fun x lim rs halt => expandSuffixes_occurrences
                                       x lim rs halt kv) _ _ _ H).
    - exact (after_exact_prefix_occurrences _ cap t key p d n out kv
               (fun x lim rs halt => doNotExpandSuffixes_occurrences
                                       x lim rs halt kv) H).
    - exact (after_exact_prefix_occurrences _ cap t key p d n out kv
               (fun x lim rs halt => expandSuffixes_occurrences
                                       x lim rs halt kv) H). }
  destruct (occurrences_NoDup out (entries (root t)) C
              (NoDup_map_inv' _ _ N)) as [Nout Hincl].
  assert (NK : NoDup (map Key (entries (root t)))).
  { apply (NoDup_map_inv' (fun k => extractRunes k)).
    rewrite map_map. exact N. }
  exact (NoDup_map_injective Key out (entries (root t)) NK Hincl Nout).
Qed.

Lemma searches_return_no_key_twice_witness :
  NoDup (map Key [mkKV "a" "1"; mkKV "ab" "2"]).
Proof.
  apply (searches_return_no_key_twice id_cap
           [OpSet "a" "1"; OpSet "ab" "2"] trie_a_ab "a" 0 0 3
           [mkKV "a" "1"; mkKV "ab" "2"]).
  - reflexivity.
  - right. left. vm_compute. reflexivity.
Defined.

(* ================================================================== *)
(** * The searches on the store *)

Lemma same_trie_refl (h : heap.store) : same_trie h h.
Proof. repeat split. Qed.

Lemma same_trie_trans (h1 h2 h3 : heap.store) :
  same_trie h1 h2 -> same_trie h2 h3 -> same_trie h1 h3.
Proof.
  intros [A1 [A2 A3]] [B1 [B2 B3]]. repeat split; congruence.
Qed.

(** ** Computations that keep the trie *)

Lemma keeps_ret {A : Type} (a : A) : keeps (heap.ret a).
Proof. intros h. apply same_trie_refl. Qed.

Lemma keeps_lift {A : Type} (r : result A) : keeps (heap.lift r).
Proof. intros h. apply same_trie_refl. Qed.

Lemma keeps_mbind {A B : Type} (m : heap.M A) (k : A -> heap.M B) :
  keeps m -> (forall a, keeps (k a)) -> keeps (heap.mbind m k).
Proof.
  intros Hm Hk h. unfold heap.mbind. specialize (Hm h).
  destruct (m h) as [h1 [a | p |]]; simpl in *; try exact Hm.
  exact (same_trie_trans _ _ _ Hm (Hk a h1)).
Qed.

Lemma keeps_foldM {A B : Type} (body : B -> A -> heap.M B) (l : list A) :
  (forall acc a, keeps (body acc a)) ->
  forall acc, keeps (heap.foldM body l acc).
Proof.
  intros Hb. induction l as [| a l IH]; intros acc; simpl.
  - apply keeps_ret.
  - apply keeps_mbind; [apply Hb | exact IH].
Qed.

Lemma keeps_deref_node (p : heap.ptr) : keeps (heap.deref_node p).
Proof.
  intros h. unfold heap.deref_node. destruct p as [l |];
    [destruct (nth_error (heap.nodes h) l) |]; apply same_trie_refl.
Qed.

Lemma keeps_entries (m : heap.ptr) : keeps (heap.entries m).
Proof.
  intros h. unfold heap.entries. destruct m as [l |];
    [destruct (nth_error (heap.maps h) l) |]; apply same_trie_refl.
Qed.

Lemma keeps_deref_kv (p : heap.ptr) : keeps (heap.deref_kv p).
Proof.
  intros h. unfold heap.deref_kv. destruct p as [l |];
    [destruct (nth_error (heap.kvs h) l) |]; apply same_trie_refl.
Qed.

Lemma keeps_cells (a : nat) : keeps (heap.cells a).
Proof. intros h. apply same_trie_refl. Qed.

(** Allocating an array and writing to one change the arrays alone. *)
Lemma keeps_make_int8 (k : Z) : keeps (heap.make_int8 k).
Proof.
  intros h. unfold heap.make_int8. destruct (k <? 0); repeat split.
Qed.

Lemma keeps_get (a : nat) (i : Z) : keeps (heap.get a i).
Proof.
  unfold heap.get. apply keeps_mbind; [apply keeps_cells |].
  intros c. apply keeps_lift.
Qed.

Lemma keeps_set (a : nat) (i x : Z) : keeps (heap.set a i x).
Proof.
  intros h. unfold heap.set.
  destruct (assign (nth a (heap.arrays h) []) i x); repeat split.
Qed.

Create HintDb keeps.
#[local] Hint Resolve keeps_ret keeps_lift keeps_deref_node keeps_entries
  keeps_deref_kv keeps_cells keeps_make_int8 keeps_get keeps_set : keeps.

(** [keeps] through the shape of a computation. *)
Ltac keeps_step :=
  match goal with
  | |- keeps (heap.mbind _ _) => apply keeps_mbind; [| intros ?]
  | |- keeps (heap.foldM _ _ _) => apply keeps_foldM; intros ? ?
  | |- keeps (if ?c then _ else _) => destruct c
  | |- keeps (match ?x with (_, _) => _ end) => destruct x
  | |- keeps (match ?x with Some _ => _ | None => _ end) => destruct x
  | |- keeps _ => solve [auto with keeps]
  end.

(** ** The NFA *)

Lemma keeps_newState (d off : Z) : keeps (heap.newState d off).
Proof. unfold heap.newState. repeat keeps_step. Qed.

Lemma keeps_newNfa (rs : list rune) (d : Z) : keeps (heap.newNfa rs d).
Proof. unfold heap.newNfa. repeat keeps_step. Qed.

Lemma keeps_start (n : heap.nfa) : keeps (heap.start n).
Proof.
  unfold heap.start. apply keeps_mbind; [apply keeps_newState |].
  intros s. repeat keeps_step.
Qed.

Lemma keeps_accepts (n : heap.nfa) (s : heap.state) :
  keeps (heap.accepts n s).
Proof. unfold heap.accepts. repeat keeps_step. Qed.

Lemma keeps_transition_jump (n : heap.nfa) (s : heap.state) (r : rune)
      (next i : Z) : keeps (heap.transition_jump n s r next i).
Proof. unfold heap.transition_jump. repeat keeps_step. Qed.

Lemma keeps_transition_cell (n : heap.nfa) (s ns : heap.state) (min j : Z) :
  keeps (heap.transition_cell n s ns min j).
Proof. unfold heap.transition_cell. repeat keeps_step. Qed.

Lemma keeps_transition (n : heap.nfa) (s : heap.state) (r : rune) :
  keeps (heap.transition n s r).
Proof.
  unfold heap.transition. apply keeps_mbind; [apply keeps_newState |].
  intros ns. apply keeps_mbind; [apply keeps_cells |]. intros jc.
  apply keeps_mbind.
  { apply keeps_foldM. intros next i. apply keeps_transition_jump. }
  intros _. apply keeps_mbind; [apply keeps_cells |]. intros nc.
  apply keeps_mbind.
  { apply keeps_foldM. intros min j. apply keeps_transition_cell. }
  intros min. apply keeps_ret.
Qed.

(** ** The policies *)

Lemma keeps_doNotExpandSuffixes (x : heap.node) (limit : Z) :
  keeps (heap.doNotExpandSuffixes x limit).
Proof. unfold heap.doNotExpandSuffixes. repeat keeps_step. Qed.

Lemma keeps_push_children (x : heap.node) (stack : list heap.node) :
  keeps (heap.push_children x stack).
Proof. unfold heap.push_children. repeat keeps_step. Qed.

Lemma keeps_expand_loop (fuel : nat) :
  forall (stack : list heap.node) (results : list KV) (limit : Z),
    keeps (heap.expand_loop fuel stack results limit).
Proof.
  induction fuel as [| fuel IH]; intros stack results limit; simpl.
  - apply keeps_lift.
  - destruct stack as [| x stack]; [apply keeps_ret |].
    destruct (heap.data x).
    + apply keeps_mbind; [apply keeps_deref_kv |]. intros kv.
      destruct (len (results ++ [kv]) >=? limit); [apply keeps_ret |].
      apply keeps_mbind; [apply keeps_push_children |]. intros st. apply IH.
    + apply keeps_mbind; [apply keeps_push_children |]. intros st. apply IH.
Qed.

Lemma keeps_expandSuffixes (fuel : nat) (x : heap.node) (limit : Z) :
  keeps (heap.expandSuffixes fuel x limit).
Proof.
  unfold heap.expandSuffixes.
  apply keeps_mbind; [apply keeps_expand_loop |]. intros rs. apply keeps_ret.
Qed.

(** ** The traversal *)

Lemma keeps_register_child (n : heap.nfa) (d : Z) (s : heap.state)
      (stacks : list (list heap.frame)) (e : rune * heap.ptr) :
  keeps (heap.register_child n d s stacks e).
Proof.
  unfold heap.register_child.
  apply keeps_mbind; [apply keeps_transition |]. intros [ns min].
  repeat keeps_step.
Qed.

Lemma keeps_register (n : heap.nfa) (d : Z) (s : heap.state) (x : heap.node)
      (stacks : list (list heap.frame)) :
  keeps (heap.register n d s x stacks).
Proof.
  unfold heap.register. apply keeps_mbind; [apply keeps_entries |].
  intros es. apply keeps_foldM. intros st e. apply keeps_register_child.
Qed.

Lemma keeps_suggest_loop (process : heap.processAcceptingNode)
      (n : heap.nfa) (d limit : Z) :
  (forall x lim, keeps (process x lim)) ->
  forall (fuel i : nat) (stacks : list (list heap.frame)) (results : list KV),
    keeps (heap.suggest_loop fuel process n d limit i stacks results).
Proof.
  intros Hp. induction fuel as [| fuel IH]; intros i stacks results; simpl.
  - apply keeps_lift.
  - destruct (nth_error stacks i) as [[| f rest] |].
    + apply IH.
    + apply keeps_mbind; [apply keeps_accepts |]. intros a.
      assert (Hreg : forall results',
                 keeps (heap.mbind
                          (heap.register n d (heap.f_s f) (heap.f_n f)
                                         (set_nth stacks i rest))
                          (fun st => heap.suggest_loop fuel process n d limit
                                                       i st results'))).
      { intros results'. apply keeps_mbind; [apply keeps_register |].
        intros st. apply IH. }
      destruct a; [| apply Hreg].
      apply keeps_mbind; [apply Hp |]. intros [rs halt].
      destruct (len (results ++ rs) >=? limit); [apply keeps_lift |].
      destruct halt; [apply IH | apply Hreg].
    + apply keeps_ret.
Qed.

Lemma keeps_suggest (fuel : nat) (process : heap.processAcceptingNode)
      (x : heap.node) (runes : list rune) (d limit : Z) :
  (forall y lim, keeps (process y lim)) ->
  keeps (heap.suggest fuel process x runes d limit).
Proof.
  intros Hp. unfold heap.suggest.
  apply keeps_mbind; [apply keeps_newNfa |]. intros n.
  apply keeps_mbind; [apply keeps_start |]. intros s0.
  apply keeps_mbind; [apply keeps_lift |]. intros st0.
  apply keeps_mbind; [apply keeps_lift |]. intros st.
  apply keeps_suggest_loop. exact Hp.
Qed.

Lemma keeps_walk (rs : list rune) :
  forall n, keeps (heap.walk n rs).
Proof.
  induction rs as [| r rs IH]; intros n; simpl; [apply keeps_ret |].
  apply keeps_mbind; [apply keeps_deref_node |]. intros x.
  apply keeps_mbind; [apply keeps_entries |]. intros es.
  destruct (runemap.lookup r es); [apply IH | apply keeps_ret].
Qed.

Lemma keeps_after_exact_prefix (cap : nat -> nat) (fuel : nat)
      (process : heap.processAcceptingNode) (t : heap.Trie) (key : string)
      (p d n : Z) :
  (forall y lim, keeps (process y lim)) ->
  keeps (heap.after_exact_prefix cap fuel process t key p d n).
Proof.
  intros Hp. unfold heap.after_exact_prefix.
  apply keeps_mbind; [apply keeps_lift |]. intros prefix.
  apply keeps_mbind; [apply keeps_walk |]. intros [curr |];
    [| apply keeps_ret].
  apply keeps_mbind; [apply keeps_deref_node |]. intros x.
  apply keeps_mbind; [apply keeps_lift |]. intros rest.
  apply keeps_suggest. exact Hp.
Qed.

(** Each of the four searches leaves the nodes, the maps and the KVs of
    the store as they are, whether it returns, panics or is cut short. *)
Lemma keeps_searches (cap : nat -> nat) (fuel : nat) (t : heap.Trie)
      (key : string) (p d n : Z) :
  keeps (heap.Suggest fuel t key d n) /\
  keeps (heap.SuggestSuffixes fuel t key d n) /\
  keeps (heap.SuggestAfterExactPrefix cap fuel t key p d n) /\
  keeps (heap.SuggestSuffixesAfterExactPrefix cap fuel t key p d n).
Proof.
  split; [| split; [| split]].
  - unfold heap.Suggest. apply keeps_mbind; [apply keeps_deref_node |].
    intros x. apply keeps_suggest. apply keeps_doNotExpandSuffixes.
  - unfold heap.SuggestSuffixes.
    apply keeps_mbind; [apply keeps_deref_node |].
    intros x. apply keeps_suggest. apply keeps_expandSuffixes.
  - apply keeps_after_exact_prefix. apply keeps_doNotExpandSuffixes.
  - apply keeps_after_exact_prefix. apply keeps_expandSuffixes.
Qed.

(** ** Get reads the trie alone *)

Lemma reads_ret {A : Type} (a : A) : reads (heap.ret a).
Proof. split; reflexivity. Qed.

Lemma reads_mbind {A B : Type} (m : heap.M A) (k : A -> heap.M B) :
  reads m -> (forall a, reads (k a)) -> reads (heap.mbind m k).
Proof.
  intros [M1 M2] Hk. split.
  - intros h. unfold heap.mbind. specialize (M1 h).
    destruct (m h) as [h1 [a | p |]]; simpl in *; try exact M1.
    subst h1. apply (Hk a).
  - intros h h' S. unfold heap.mbind.
    pose proof (M1 h) as E. pose proof (M1 h') as E'.
    specialize (M2 h h' S).
    destruct (m h) as [h1 r1], (m h') as [h1' r1']; simpl in *.
    subst h1 h1' r1'. destruct r1 as [a | p |]; try reflexivity.
    apply (Hk a). exact S.
Qed.

Lemma reads_deref_node (p : heap.ptr) : reads (heap.deref_node p).
Proof.
  split.
  - intros h. unfold heap.deref_node. destruct p as [l |];
      [destruct (nth_error (heap.nodes h) l) |]; reflexivity.
  - intros h h' [S _]. unfold heap.deref_node. rewrite S.
    destruct p as [l |]; [destruct (nth_error (heap.nodes h) l) |];
      reflexivity.
Qed.

Lemma reads_entries (m : heap.ptr) : reads (heap.entries m).
Proof.
  split.
  - intros h. unfold heap.entries. destruct m as [l |];
      [destruct (nth_error (heap.maps h) l) |]; reflexivity.
  - intros h h' [_ [S _]]. unfold heap.entries. rewrite S.
    destruct m as [l |]; [destruct (nth_error (heap.maps h) l) |];
      reflexivity.
Qed.

Lemma reads_deref_kv (p : heap.ptr) : reads (heap.deref_kv p).
Proof.
  split.
  - intros h. unfold heap.deref_kv. destruct p as [l |];
      [destruct (nth_error (heap.kvs h) l) |]; reflexivity.
  - intros h h' [_ [_ S]]. unfold heap.deref_kv. rewrite S.
    destruct p as [l |]; [destruct (nth_error (heap.kvs h) l) |];
      reflexivity.
Qed.

Lemma reads_walk (rs : list rune) : forall n, reads (heap.walk n rs).
Proof.
  induction rs as [| r rs IH]; intros n; simpl; [apply reads_ret |].
  apply reads_mbind; [apply reads_deref_node |]. intros x.
  apply reads_mbind; [apply reads_entries |]. intros es.
  destruct (runemap.lookup r es); [apply IH | apply reads_ret].
Qed.

Lemma reads_Get (t : heap.Trie) (key : string) : reads (heap.Get t key).
Proof.
  unfold heap.Get. apply reads_mbind; [apply reads_walk |].
  intros [n |]; [| apply reads_ret].
  apply reads_mbind; [apply reads_deref_node |]. intros x.
  destruct (heap.data x); [| apply reads_ret].
  apply reads_mbind; [apply reads_deref_kv |]. intros kv. apply reads_ret.
Qed.

(** C10. None of the four searches changes the trie. On every store, for
    every trie, query, [p], [d], limit and amount of fuel, whatever the
    outcome of the search (a result, a panic, or the fuel running out in
    the middle), a [Get] of any key in the store that the search leaves
    behind answers what it answers in the store before the search. The
    searches allocate and write int8 arrays (the tables of the NFA); they
    read nodes, maps and KVs and never write one. *)
Theorem searches_leave_Get_unchanged (cap : nat -> nat) (fuel : nat)
        (h : heap.store) (t : heap.Trie) (key : string) (p d n : Z)
        (k : string) :
  snd (heap.Get t k (fst (heap.Suggest fuel t key d n h)))
  = snd (heap.Get t k h) /\
  snd (heap.Get t k (fst (heap.SuggestSuffixes fuel t key d n h)))
  = snd (heap.Get t k h) /\
  snd (heap.Get t k
         (fst (heap.SuggestAfterExactPrefix cap fuel t key p d n h)))
  = snd (heap.Get t k h) /\
  snd (heap.Get t k
         (fst (heap.SuggestSuffixesAfterExactPrefix cap fuel t key p d n h)))
  = snd (heap.Get t k h).
Proof.
  destruct (keeps_searches cap fuel t key p d n) as [K1 [K2 [K3 K4]]].
  destruct (reads_Get t k) as [_ R].
  split; [| split; [| split]]; apply R;
    [apply K1 | apply K2 | apply K3 | apply K4].
Qed.

(** The store after [New(); Set("a","1"); Set("ab","2")]: the search for
    "ab" with [d = 1] returns both entries and allocates its arrays, and
    [Get("ab")] answers ("2", true) afterwards, as before. *)
Lemma searches_leave_Get_unchanged_witness :
  snd (heap.Suggest 8 store_t "ab" 1 3 store_a_ab)
  = Ok [mkKV "a" "1"; mkKV "ab" "2"] /\
  heap.arrays (fst (heap.Suggest 8 store_t "ab" 1 3 store_a_ab)) <> [] /\
  snd (heap.Get store_t "ab"
         (fst (heap.Suggest 8 store_t "ab" 1 3 store_a_ab)))
  = Ok ("2"%string, true).
Proof.
  split; [vm_compute; reflexivity |].
  split; [vm_compute; discriminate |].
  rewrite (proj1 (searches_leave_Get_unchanged id_cap 8 store_a_ab store_t
                    "ab" 0 1 3 "ab")).
  vm_compute. reflexivity.
Defined.

(** In the same store [Set] and [Delete] do change what [Get] answers:
    the store is the one that the point operations write to. *)
Example store_point_operations_write :
  snd (heap.Get store_t "b" store_a_ab) = Ok (EmptyString, false) /\
  snd (heap.Get store_t "b" (fst (heap.Set_ store_t "b" "3" store_a_ab)))
  = Ok ("3"%string, true) /\
  snd (heap.Get store_t "ab" (fst (heap.Delete store_t "ab" store_a_ab)))
  = Ok (EmptyString, false).
Proof. repeat split; vm_compute; reflexivity. Qed.

(* ================================================================== *)
(** * The store and the path-addressed model agree *)

Lemma rep_unfold (h : heap.store) (xh : heap.node) (x : node) :
  rep h xh x <->
  match heap.data xh with
  | None => data x = None
  | Some l => data x <> None /\ nth_error (heap.kvs h) l = data x
  end /\
  Forall2 (fun e c => fst e = fst c /\ rep_ptr h (snd e) (snd c))
          (entries_of h (heap.child xh)) (child x).
Proof.
  destruct x as [dt cs]. cbn [rep data child].
  generalize (entries_of h (heap.child xh)) as es.
  intros es.
  assert (G : (fix all (es : list (rune * heap.ptr))
                   (cs : list (rune * node)) {struct cs} : Prop :=
                 match cs, es with
                 | [], [] => True
                 | (r', y) :: cs', (r, p) :: es' =>
                   r = r' /\
                   (exists l c, p = Some l /\
                                nth_error (heap.nodes h) l = Some c /\
                                rep h c y) /\
                   all es' cs'
                 | _, _ => False
                 end) es cs <->
              Forall2 (fun e c => fst e = fst c /\ rep_ptr h (snd e) (snd c))
                      es cs).
  { revert es. induction cs as [| [r' y] cs IH]; intros es.
    - destruct es as [| [r p] es]; split; intros H;
        try constructor; try inversion H; try contradiction.
    - destruct es as [| [r p] es]; split; intros H;
        try contradiction; try (inversion H; fail).
      + destruct H as [E [R A]]. constructor; [split; assumption |].
        apply IH. exact A.
      + inversion H as [| ? ? ? ? [E R] A]; subst. simpl in E, R.
        split; [exact E |]. split; [exact R |]. apply IH. exact A. }
  rewrite G. reflexivity.
Qed.

Lemma size_child (x : node) (e : rune * node) :
  In e (child x) -> (size (snd e) < size x)%nat.
Proof.
  intros He. rewrite (size_unfold x).
  assert (size (snd e) <= sizes (map snd (child x)))%nat; [| lia].
  induction (child x) as [| a l IHl]; [destruct He |].
  simpl. destruct He as [-> | He]; [lia |]. specialize (IHl He). lia.
Qed.

Lemma rep_same_trie (h h' : heap.store) :
  same_trie h h' ->
  forall x xh, rep h xh x -> rep h' xh x.
Proof.
  intros [S1 [S2 S3]]. induction x as [x IH] using node_size_ind.
  intros xh R. apply rep_unfold in R. apply rep_unfold.
  destruct R as [D F]. split.
  - rewrite S3. exact D.
  - unfold entries_of in *. rewrite S2.
    revert IH F. generalize (child x) as cs.
    generalize (match heap.child xh with
                | Some l => nth l (heap.maps h) []
                | None => []
                end) as es.
    intros es cs IH F. induction F as [| e c es cs [E [l [c' [P [N R]]]]] F IHF];
      constructor.
    + split; [exact E |]. exists l, c'. split; [exact P |].
      split; [rewrite S1; exact N |].
      exact (IH c (or_introl eq_refl) c' R).
    + apply IHF. intros e0 He0. apply IH. right. exact He0.
Qed.

(** ** Arrays *)

Lemma set_nth_set_nth {A : Type} (l : list A) (i : nat) (x y : A) :
  set_nth (set_nth l i x) i y = set_nth l i y.
Proof.
  revert i. induction l as [| a l IH]; intros [| i]; simpl; try reflexivity.
  rewrite IH. reflexivity.
Qed.

Lemma set_nth_same {A : Type} (l : list A) (i : nat) (x : A) :
  nth_error l i = Some x -> set_nth l i x = l.
Proof.
  revert i. induction l as [| a l IH]; intros [| i] H; simpl in *;
    try discriminate.
  - injection H as ->. reflexivity.
  - rewrite (IH i H). reflexivity.
Qed.

Lemma set_nth_app_length {A : Type} (l1 l2 : list A) (x y : A) :
  set_nth (l1 ++ x :: l2) (List.length l1) y = l1 ++ y :: l2.
Proof.
  induction l1 as [| a l1 IH]; simpl; [reflexivity |].
  rewrite IH. reflexivity.
Qed.

Lemma set_nth_app_new {A : Type} (l : list A) (x y : A) :
  set_nth (l ++ [x]) (List.length l) y = l ++ [y].
Proof. apply set_nth_app_length. Qed.

Lemma arr_at_nth (h : heap.store) (a : nat) (c : list Z) :
  arr_at h a c -> nth a (heap.arrays h) [] = c.
Proof. intros H. apply nth_error_nth. exact H. Qed.

Lemma arr_at_length (h : heap.store) (a : nat) (c : list Z) :
  arr_at h a c -> (a < List.length (heap.arrays h))%nat.
Proof. intros H. apply nth_error_Some. unfold arr_at in H. congruence. Qed.

Lemma with_array_same (h : heap.store) (a : nat) (c : list Z) :
  arr_at h a c -> with_array h a c = h.
Proof.
  intros H. destruct h as [ns ms ks ars]. unfold with_array. simpl in *.
  unfold arr_at in H. simpl in H. rewrite (set_nth_same _ _ _ H).
  reflexivity.
Qed.

Lemma with_array_with_array (h : heap.store) (a : nat) (c c' : list Z) :
  with_array (with_array h a c) a c' = with_array h a c'.
Proof.
  unfold with_array. simpl. rewrite set_nth_set_nth. reflexivity.
Qed.

Lemma with_array_new (h : heap.store) (c c' : list Z) :
  with_array (with_new_array h c) (List.length (heap.arrays h)) c'
  = with_new_array h c'.
Proof.
  unfold with_array, with_new_array. simpl. rewrite set_nth_app_new.
  reflexivity.
Qed.

Lemma arr_at_with_array (h : heap.store) (a : nat) (c : list Z) :
  (a < List.length (heap.arrays h))%nat -> arr_at (with_array h a c) a c.
Proof.
  intros H. unfold arr_at, with_array. simpl.
  apply nth_error_set_nth_same. exact H.
Qed.

Lemma arr_at_with_array_other (h : heap.store) (a a' : nat) (c c' : list Z) :
  a' <> a -> arr_at h a' c' -> arr_at (with_array h a c) a' c'.
Proof.
  intros Hne H. unfold arr_at, with_array in *. simpl.
  rewrite nth_error_set_nth_other by exact Hne. exact H.
Qed.

Lemma arr_at_new (h : heap.store) (c : list Z) :
  arr_at (with_new_array h c) (List.length (heap.arrays h)) c.
Proof.
  unfold arr_at, with_new_array. simpl.
  rewrite nth_error_app2 by lia. rewrite Nat.sub_diag. reflexivity.
Qed.

Lemma arr_at_new_other (h : heap.store) (a : nat) (c c' : list Z) :
  arr_at h a c' -> arr_at (with_new_array h c) a c'.
Proof.
  intros H. unfold arr_at, with_new_array in *. simpl.
  rewrite nth_error_app1; [exact H |]. apply nth_error_Some. congruence.
Qed.

(** ** The operations on arrays *)

Lemma run_get (h : heap.store) (a : nat) (c : list Z) (i : Z) :
  arr_at h a c -> heap.get a i h = (h, index c i).
Proof.
  intros H. unfold heap.get, heap.mbind, heap.cells, heap.lift.
  rewrite (arr_at_nth _ _ _ H). destruct (index c i); reflexivity.
Qed.

Lemma run_cells (h : heap.store) (a : nat) (c : list Z) :
  arr_at h a c -> heap.cells a h = (h, Ok c).
Proof.
  intros H. unfold heap.cells. rewrite (arr_at_nth _ _ _ H). reflexivity.
Qed.

Lemma run_set (h : heap.store) (a : nat) (c : list Z) (i x : Z) :
  arr_at h a c ->
  heap.set a i x h =
  match assign c i x with
  | Ok c' => (with_array h a c', Ok tt)
  | Panic p => (h, Panic p)
  | OutOfFuel => (h, OutOfFuel)
  end.
Proof.
  intros H. unfold heap.set. rewrite (arr_at_nth _ _ _ H). reflexivity.
Qed.

Lemma assign_in_range {A : Type} (l : list A) (i : Z) (x : A) :
  0 <= i < len l -> assign l i x = Ok (set_nth l (Z.to_nat i) x).
Proof.
  intros H. unfold assign.
  destruct ((i <? 0) || (len l <=? i)) eqn:E; [| reflexivity].
  apply orb_true_iff in E. destruct E as [E | E];
    [apply Z.ltb_lt in E | apply Z.leb_le in E]; lia.
Qed.

(** ** [newState] *)

Lemma run_fill (a : nat) (v : Z) (m : nat) :
  forall (i0 : nat) (h : heap.store),
    arr_at h a (repeat v i0 ++ repeat 0 m) ->
    heap.foldM (fun _ i => heap.set a i v) (map Z.of_nat (seq i0 m)) tt h
    = (with_array h a (repeat v (i0 + m)), Ok tt).
Proof.
  induction m as [| m IH]; intros i0 h H.
  - simpl. rewrite app_nil_r in H. rewrite Nat.add_0_r.
    rewrite (with_array_same _ _ _ H). reflexivity.
  - cbn [seq map heap.foldM]. unfold heap.mbind.
    rewrite (run_set _ _ _ _ _ H).
    rewrite assign_in_range
      by (unfold len; rewrite length_app, !repeat_length; simpl; lia).
    rewrite Nat2Z.id. cbn [repeat].
    replace (set_nth (repeat v i0 ++ 0 :: repeat 0 m) i0 v)
      with (repeat v i0 ++ v :: repeat 0 m)
      by (pose proof (set_nth_app_length (repeat v i0) (repeat 0 m) 0 v) as E;
          rewrite repeat_length in E; symmetry; exact E).
    assert (H' : arr_at (with_array h a (repeat v i0 ++ v :: repeat 0 m)) a
                        (repeat v (S i0) ++ repeat 0 m)).
    { replace (repeat v (S i0) ++ repeat 0 m)
        with (repeat v i0 ++ v :: repeat 0 m).
      - apply arr_at_with_array. exact (arr_at_length _ _ _ H).
      - change (repeat v (S i0)) with (v :: repeat v i0).
        rewrite repeat_cons, <- app_assoc. reflexivity. }
    rewrite (IH (S i0) _ H'). rewrite with_array_with_array.
    replace (S i0 + m)%nat with (i0 + S m)%nat by lia. reflexivity.
Qed.

Lemma run_make_int8 (h : heap.store) (k : Z) :
  heap.make_int8 k h =
  if k <? 0 then (h, Panic MakeSliceLenOutOfRange)
  else (with_new_array h (repeat 0 (Z.to_nat k)),
        Ok (List.length (heap.arrays h))).
Proof. reflexivity. Qed.

Lemma run_newState (h : heap.store) (d off : Z) :
  heap.newState d off h =
  match newState d off with
  | Ok s => (with_new_array h (arr s),
             Ok (heap.mkState off (List.length (heap.arrays h))))
  | Panic p => (h, Panic p)
  | OutOfFuel => (h, OutOfFuel)
  end.
Proof.
  unfold heap.newState, newState, make, heap.mbind.
  rewrite run_make_int8.
  set (k := int8 (int8 (2 * d) + 1)). set (v := int8 (int8 (d + 1))).
  destruct (k <? 0); [reflexivity |]. cbn [bind arr].
  rewrite (run_cells _ _ _ (arr_at_new h _)).
  unfold heap.indices, len. rewrite repeat_length, Nat2Z.id.
  rewrite (run_fill _ v (Z.to_nat k) O).
  - rewrite with_array_new. reflexivity.
  - simpl. apply arr_at_new.
Qed.

(** ** Steps of a computation on the store *)

Lemma mbind_ret {A B : Type} (a : A) (k : A -> heap.M B) (h : heap.store) :
  heap.mbind (heap.ret a) k h = k a h.
Proof. reflexivity. Qed.

Lemma mbind_ret_run {A : Type} (a : A) (h : heap.store) :
  heap.ret a h = (h, Ok a).
Proof. reflexivity. Qed.

Lemma mbind_assoc {A B C : Type} (m : heap.M A) (f : A -> heap.M B)
      (k : B -> heap.M C) (h : heap.store) :
  heap.mbind (heap.mbind m f) k h
  = heap.mbind m (fun a => heap.mbind (f a) k) h.
Proof.
  unfold heap.mbind. destruct (m h) as [h' [a | p |]]; reflexivity.
Qed.

Lemma mbind_lift {A B : Type} (r : result A) (k : A -> heap.M B)
      (h : heap.store) :
  heap.mbind (heap.lift r) k h =
  match r with
  | Ok a => k a h
  | Panic p => (h, Panic p)
  | OutOfFuel => (h, OutOfFuel)
  end.
Proof. unfold heap.mbind, heap.lift. destruct r; reflexivity. Qed.

Lemma mbind_get {B : Type} (h : heap.store) (a : nat) (c : list Z) (i : Z)
      (k : Z -> heap.M B) :
  arr_at h a c ->
  heap.mbind (heap.get a i) k h =
  match index c i with
  | Ok x => k x h
  | Panic p => (h, Panic p)
  | OutOfFuel => (h, OutOfFuel)
  end.
Proof.
  intros H. unfold heap.mbind at 1. rewrite (run_get _ _ _ _ H).
  destruct (index c i); reflexivity.
Qed.

Lemma mbind_cells {B : Type} (h : heap.store) (a : nat) (c : list Z)
      (k : list Z -> heap.M B) :
  arr_at h a c -> heap.mbind (heap.cells a) k h = k c h.
Proof.
  intros H. unfold heap.mbind at 1. rewrite (run_cells _ _ _ H). reflexivity.
Qed.

Lemma mbind_set {B : Type} (h : heap.store) (a : nat) (c : list Z) (i x : Z)
      (k : unit -> heap.M B) :
  arr_at h a c -> 0 <= i < len c ->
  heap.mbind (heap.set a i x) k h
  = k tt (with_array h a (set_nth c (Z.to_nat i) x)).
Proof.
  intros H Hi. unfold heap.mbind at 1. rewrite (run_set _ _ _ _ _ H).
  rewrite (assign_in_range _ _ _ Hi). reflexivity.
Qed.

(** ** [transition]: the first loop *)

Lemma last_split {A : Type} (l : list A) (k : nat) :
  List.length l = S k ->
  exists l' x, l = l' ++ [x] /\ List.length l' = k.
Proof.
  intros H. destruct (exists_last (l := l)) as [l' [x E]].
  - intros ->. discriminate.
  - exists l', x. split; [exact E |]. subst l.
    rewrite length_app in H. simpl in H. lia.
Qed.

Lemma run_jump_loop (nh : heap.nfa) (sh : heap.state) (r : rune) :
  forall (i : nat) (next : Z) (acc pre : list Z) (h : heap.store),
    arr_at h (heap.nfa_jump nh) (pre ++ acc) -> List.length pre = i ->
    exists nf,
      heap.foldM (heap.transition_jump nh sh r)
                 (rev (map Z.of_nat (seq 0 i))) next h
      = (with_array h (heap.nfa_jump nh)
                    (fill_jump (heap.nfa_rs nh) r (heap.offset sh) i next acc),
         Ok nf).
Proof.
  induction i as [| i IH]; intros next acc pre h H Hl.
  - destruct pre; [| discriminate]. simpl in H. simpl.
    rewrite (with_array_same _ _ _ H). exists next. reflexivity.
  - destruct (last_split pre i Hl) as [pre' [x [-> Hl']]].
    rewrite <- app_assoc in H. simpl in H.
    rewrite seq_S, map_app, rev_app_distr. cbn [map rev app Nat.add].
    cbn [heap.foldM fill_jump].
    set (next' := if (heap.offset sh + Z.of_nat i <? len (heap.nfa_rs nh)) &&
                     (heap.offset sh + Z.of_nat i >=? 0) &&
                     match nth_error (heap.nfa_rs nh)
                                     (Z.to_nat (heap.offset sh + Z.of_nat i))
                     with
                     | Some c => c =? r
                     | None => false
                     end
                  then 0 else next).
    change (heap.transition_jump nh sh r next (Z.of_nat i))
      with (heap.mbind (heap.set (heap.nfa_jump nh) (Z.of_nat i) next')
                       (fun _ => heap.ret (int8 (next' + 1)))).
    rewrite mbind_assoc. rewrite (mbind_set _ _ _ _ _ _ H)
      by (unfold len; rewrite length_app; simpl; lia).
    rewrite mbind_ret. rewrite Nat2Z.id.
    replace (set_nth (pre' ++ x :: acc) i next') with (pre' ++ next' :: acc)
      by (rewrite <- Hl'; symmetry; apply set_nth_app_length).
    assert (H1 : arr_at (with_array h (heap.nfa_jump nh)
                                    (pre' ++ next' :: acc))
                        (heap.nfa_jump nh) (pre' ++ next' :: acc))
      by (apply arr_at_with_array; exact (arr_at_length _ _ _ H)).
    destruct (IH (int8 (next' + 1)) (next' :: acc) pre' _ H1 Hl') as [nf E].
    rewrite E. rewrite with_array_with_array. exists nf. reflexivity.
Qed.

(** ** [transition]: the second loop *)

Lemma run_transition_cell (nh : heap.nfa) (sh nsh : heap.state) (n : nfa)
      (s : state) (jump : list Z) (min j : Z) (h : heap.store) :
  heap.nfa_d nh = nfa_d n ->
  arr_at h (heap.arr sh) (arr s) ->
  arr_at h (heap.nfa_jump nh) jump ->
  heap.transition_cell nh sh nsh min j h =
  match transition_cell n s jump j with
  | Ok val =>
    heap.mbind (if val <? int8 (nfa_d n + 1)
                then heap.set (heap.arr nsh) j val else heap.ret tt)
               (fun _ => heap.ret (if val <? min then val else min)) h
  | Panic p => (h, Panic p)
  | OutOfFuel => (h, OutOfFuel)
  end.
Proof.
  intros Hd HS HJ. unfold heap.transition_cell, transition_cell.
  rewrite Hd. rewrite (mbind_get _ _ _ _ _ HS).
  destruct (index (arr s) j) as [sj | p |]; cbn [bind]; try reflexivity.
  rewrite (mbind_get _ _ _ _ _ HJ).
  destruct (index jump (j + sj)) as [jv | p |]; cbn [bind]; try reflexivity.
  rewrite (mbind_cells _ _ _ _ HS).
  destruct (j <? len (arr s) - 1).
  - rewrite mbind_assoc, (mbind_get _ _ _ _ _ HS).
    destruct (index (arr s) (j + 1)) as [s1 | p |]; cbn [bind];
      try reflexivity.
    rewrite mbind_ret.
    destruct (j <? len (arr s) - 2).
    + rewrite mbind_assoc, (mbind_get _ _ _ _ _ HS).
      destruct (index (arr s) (j + 2)) as [s2 | p |]; cbn [bind];
        try reflexivity.
    + rewrite mbind_ret. reflexivity.
  - rewrite mbind_ret.
    destruct (j <? len (arr s) - 2).
    + rewrite mbind_assoc, (mbind_get _ _ _ _ _ HS).
      destruct (index (arr s) (j + 2)) as [s2 | p |]; cbn [bind];
        try reflexivity.
    + rewrite mbind_ret. reflexivity.
Qed.

Lemma runs_as_step {A B C : Type} (m : heap.M C) (k : C -> heap.M A)
      (h h1 : heap.store) (c : C) (r : result B)
      (ok : B -> heap.store * result A) :
  m h = (h1, Ok c) -> runs_as (k c) h1 r ok -> runs_as (heap.mbind m k) h r ok.
Proof.
  intros E H. unfold runs_as, heap.mbind in *. rewrite E. exact H.
Qed.

Lemma runs_as_ext {A B : Type} (m : heap.M A) (h : heap.store)
      (r : result B) (ok ok' : B -> heap.store * result A) :
  (forall b, ok b = ok' b) -> runs_as m h r ok -> runs_as m h r ok'.
Proof.
  intros E H. destruct r as [b | p |]; simpl in *; [| exact H | exact H].
  rewrite <- E. exact H.
Qed.

Lemma run_cell_loop (nh : heap.nfa) (sh nsh : heap.state) (n : nfa)
      (s : state) (jump : list Z) :
  heap.nfa_d nh = nfa_d n ->
  heap.arr nsh <> heap.arr sh -> heap.arr nsh <> heap.nfa_jump nh ->
  forall (todo j0 : nat) (min : Z) (done : list Z) (h : heap.store),
    arr_at h (heap.arr sh) (arr s) ->
    arr_at h (heap.nfa_jump nh) jump ->
    arr_at h (heap.arr nsh)
           (rev done ++ repeat (int8 (int8 (nfa_d n + 1))) todo) ->
    List.length done = j0 ->
    runs_as (heap.foldM (heap.transition_cell nh sh nsh)
                        (map Z.of_nat (seq j0 todo)) min) h
            (transition_loop n s jump todo (Z.of_nat j0) min done)
            (fun am => (with_array h (heap.arr nsh) (fst am), Ok (snd am))).
Proof.
  intros Hd Hns HnJ.
  induction todo as [| todo IH]; intros j0 min done h HS HJ HN Hl.
  - simpl. rewrite app_nil_r in HN. rewrite (with_array_same _ _ _ HN).
    reflexivity.
  - cbn [seq map heap.foldM transition_loop].
    pose proof (run_transition_cell nh sh nsh n s jump min (Z.of_nat j0) h
                                    Hd HS HJ) as Hc.
    destruct (transition_cell n s jump (Z.of_nat j0)) as [val | p |];
      cbn [bind runs_as];
      try (unfold heap.mbind; rewrite Hc; reflexivity).
    set (v := int8 (int8 (nfa_d n + 1))) in *.
    set (cell := if val <? int8 (nfa_d n + 1) then val else v).
    set (min' := if val <? min then val else min).
    assert (Hset : set_nth (rev done ++ v :: repeat v todo) j0 cell
                   = rev (cell :: done) ++ repeat v todo).
    { rewrite <- Hl, <- length_rev. rewrite set_nth_app_length.
      simpl. rewrite <- app_assoc. reflexivity. }
    assert (Hv : rev done ++ v :: repeat v todo
                 = rev (v :: done) ++ repeat v todo)
      by (simpl; rewrite <- app_assoc; reflexivity).
    assert (Hstep :
              heap.transition_cell nh sh nsh min (Z.of_nat j0) h
              = (with_array h (heap.arr nsh)
                            (rev (cell :: done) ++ repeat v todo), Ok min')).
    { rewrite Hc. unfold cell in *.
      destruct (val <? int8 (nfa_d n + 1)).
      - rewrite (mbind_set _ _ _ _ _ _ HN)
          by (unfold len; rewrite length_app, length_rev; simpl; lia).
        rewrite Nat2Z.id. cbn [repeat]. rewrite Hset. reflexivity.
      - rewrite mbind_ret. cbn [repeat] in HN. rewrite Hv in HN.
        rewrite (with_array_same _ _ _ HN). reflexivity. }
    apply (runs_as_step _ _ _ _ _ _ _ Hstep).
    replace (Z.of_nat j0 + 1) with (Z.of_nat (S j0)) by lia.
    pose proof (arr_at_length _ _ _ HN) as HNl.
    eapply runs_as_ext; [| apply IH].
    + intros am. cbn beta. rewrite with_array_with_array. reflexivity.
    + apply arr_at_with_array_other; [congruence | exact HS].
    + apply arr_at_with_array_other; [congruence | exact HJ].
    + apply arr_at_with_array. exact HNl.
    + simpl. rewrite Hl. reflexivity.
Qed.

(** ** Stores that come after one another *)

Lemma evolves_refl (J : nat) (h : heap.store) : evolves J h h.
Proof.
  split; [apply same_trie_refl |]. split; [lia |].
  split; [intros a c _ H; exact H |].
  intros c H. exists c. split; [exact H | reflexivity].
Qed.

Lemma evolves_trans (J : nat) (h1 h2 h3 : heap.store) :
  evolves J h1 h2 -> evolves J h2 h3 -> evolves J h1 h3.
Proof.
  intros [A1 [A2 [A3 A4]]] [B1 [B2 [B3 B4]]].
  split; [exact (same_trie_trans _ _ _ A1 B1) |]. split; [lia |].
  split.
  - intros a c Ha H. apply B3; [exact Ha |]. apply A3; assumption.
  - intros c H. destruct (A4 c H) as [c' [H' L']].
    destruct (B4 c' H') as [c'' [H'' L'']].
    exists c''. split; [exact H'' | congruence].
Qed.

Lemma sim_bind {A B A' B' : Type} (J : nat)
      (R : heap.store -> A -> B -> Prop)
      (R' : heap.store -> A' -> B' -> Prop)
      (m : heap.M A) (k : A -> heap.M A') (h : heap.store)
      (r : result B) (k' : B -> result B') :
  sim J R m h r ->
  (forall h' a b, evolves J h h' -> R h' a b -> sim J R' (k a) h' (k' b)) ->
  sim J R' (heap.mbind m k) h (bind r k').
Proof.
  intros Hm Hk. destruct r as [b | p |]; simpl in *.
  - destruct Hm as [h' [a [E [Ev Ra]]]].
    specialize (Hk h' a b Ev Ra).
    assert (Hmb : heap.mbind m k h = k a h')
      by (unfold heap.mbind; rewrite E; reflexivity).
    destruct (k' b) as [b' | p |]; simpl in *; rewrite Hmb;
      [| exact Hk | exact Hk].
    destruct Hk as [h'' [a' [E' [Ev' Ra']]]].
    exists h'', a'. split; [exact E' |].
    split; [exact (evolves_trans _ _ _ _ Ev Ev') | exact Ra'].
  - unfold heap.mbind. destruct (m h) as [h' r]. simpl in Hm. subst r.
    reflexivity.
  - unfold heap.mbind. destruct (m h) as [h' r]. simpl in Hm. subst r.
    reflexivity.
Qed.

Lemma sim_ret {A B : Type} (J : nat) (R : heap.store -> A -> B -> Prop)
      (a : A) (b : B) (h : heap.store) :
  R h a b -> sim J R (heap.ret a) h (Ok b).
Proof.
  intros H. exists h, a. split; [reflexivity |].
  split; [apply evolves_refl | exact H].
Qed.

Lemma sim_weaken {A B : Type} (J : nat)
      (R R' : heap.store -> A -> B -> Prop)
      (m : heap.M A) (h : heap.store) (r : result B) :
  (forall h' a b, evolves J h h' -> R h' a b -> R' h' a b) ->
  sim J R m h r -> sim J R' m h r.
Proof.
  intros HR H. destruct r as [b | p |]; simpl in *; [| exact H | exact H].
  destruct H as [h' [a [E [Ev Ra]]]]. exists h', a.
  split; [exact E |]. split; [exact Ev | exact (HR _ _ _ Ev Ra)].
Qed.

Lemma same_trie_with_array (h : heap.store) (a : nat) (c : list Z) :
  same_trie h (with_array h a c).
Proof. repeat split. Qed.

Lemma same_trie_with_new_array (h : heap.store) (c : list Z) :
  same_trie h (with_new_array h c).
Proof. repeat split. Qed.

Lemma arr_at_fun (h : heap.store) (a : nat) (c c' : list Z) :
  arr_at h a c -> arr_at h a c' -> c = c'.
Proof. unfold arr_at. congruence. Qed.

Lemma arr_at_with_array_inv (h : heap.store) (a : nat) (c : list Z) :
  (a < List.length (heap.arrays h))%nat ->
  forall c', arr_at (with_array h a c) a c' -> c' = c.
Proof.
  intros H c' H'. exact (arr_at_fun _ _ _ _ H' (arr_at_with_array h a c H)).
Qed.

Lemma evolves_with_new_array (J : nat) (h : heap.store) (c : list Z) :
  evolves J h (with_new_array h c).
Proof.
  split; [apply same_trie_with_new_array |].
  split; [simpl; rewrite length_app; lia |].
  split; [intros a c' _ H; apply arr_at_new_other; exact H |].
  intros c' H. exists c'. split; [apply arr_at_new_other; exact H |].
  reflexivity.
Qed.

Lemma evolves_with_array_J (J : nat) (h : heap.store) (c c' : list Z) :
  arr_at h J c -> List.length c' = List.length c ->
  evolves J h (with_array h J c').
Proof.
  intros H L. split; [apply same_trie_with_array |].
  split; [simpl; rewrite length_set_nth; lia |].
  split.
  - intros a c0 Ha H0. apply arr_at_with_array_other; assumption.
  - intros c0 H0. rewrite (arr_at_fun _ _ _ _ H0 H). exists c'.
    split; [| exact L]. apply arr_at_with_array.
    exact (arr_at_length _ _ _ H).
Qed.

Lemma fill_jump_length (rs : list rune) (r : rune) (off : Z) (i : nat) :
  forall (next : Z) (acc : list Z),
    List.length (fill_jump rs r off i next acc) = (i + List.length acc)%nat.
Proof.
  induction i as [| i IH]; intros next acc; [reflexivity |].
  cbn [fill_jump]. rewrite IH. simpl. lia.
Qed.

Lemma newState_Ok (d off : Z) (s : state) :
  newState d off = Ok s ->
  s = mkState off (repeat (int8 (int8 (d + 1)))
                          (Z.to_nat (int8 (int8 (2 * d) + 1)))).
Proof.
  unfold newState, make.
  destruct (int8 (int8 (2 * d) + 1) <? 0); [discriminate |].
  simpl. intros [= <-]. reflexivity.
Qed.

(** ** [transition] *)

Lemma sim_transition (nh : heap.nfa) (sh : heap.state) (n : nfa) (s : state)
      (r : rune) (h : heap.store) :
  nfa_rel h nh n -> state_rel (heap.nfa_jump nh) h sh s ->
  sim (heap.nfa_jump nh)
      (fun h' shm sm =>
         state_rel (heap.nfa_jump nh) h' (fst shm) (fst sm) /\
         snd shm = snd sm)
      (heap.transition nh sh r) h (transition n s r).
Proof.
  intros [Hrs [Hd [jc [HJ HL]]]] [Hoff [HS HneJ]].
  set (J := heap.nfa_jump nh) in *.
  pose proof (arr_at_length _ _ _ HJ) as HJl.
  pose proof (arr_at_length _ _ _ HS) as HSl.
  assert (Hnew : heap.newState (heap.nfa_d nh) (heap.offset sh + 1) h =
                 match newState (nfa_d n) (offset s + 1) with
                 | Ok s0 => (with_new_array h (arr s0),
                             Ok (heap.mkState (offset s + 1)
                                              (List.length (heap.arrays h))))
                 | Panic p => (h, Panic p)
                 | OutOfFuel => (h, OutOfFuel)
                 end)
    by (rewrite run_newState, Hd, Hoff; reflexivity).
  unfold transition. rewrite <- HL.
  destruct (newState (nfa_d n) (offset s + 1)) as [ns | p |] eqn:EN;
    cbn [bind sim];
    try (unfold heap.transition; unfold heap.mbind at 1; rewrite Hnew;
         reflexivity).
  apply newState_Ok in EN. subst ns. cbn [arr offset] in *.
  set (v := int8 (int8 (nfa_d n + 1))) in *.
  set (K := Z.to_nat (int8 (int8 (2 * nfa_d n) + 1))) in *.
  set (NS := List.length (heap.arrays h)) in *.
  set (nsh := heap.mkState (offset s + 1) NS) in *.
  set (h1 := with_new_array h (repeat v K)) in *.
  set (jump := fill_jump (nfa_rs n) r (offset s) (List.length jc)
                         (int8 (nfa_d n + 1)) []).
  assert (HJ1 : arr_at h1 J jc) by (apply arr_at_new_other; exact HJ).
  assert (HS1 : arr_at h1 (heap.arr sh) (arr s))
    by (apply arr_at_new_other; exact HS).
  assert (HN1 : arr_at h1 NS (repeat v K)) by apply arr_at_new.
  assert (HJ1' : arr_at h1 J (jc ++ [])) by (rewrite app_nil_r; exact HJ1).
  destruct (run_jump_loop nh sh r (List.length jc) (int8 (nfa_d n + 1)) []
                          jc h1 HJ1' eq_refl) as [nf EJ].
  rewrite Hrs, Hoff in EJ. fold J jump in EJ.
  set (h2 := with_array h1 J jump) in *.
  assert (HJ1l : (J < List.length (heap.arrays h1))%nat)
    by exact (arr_at_length _ _ _ HJ1).
  assert (HJ2 : arr_at h2 J jump) by (apply arr_at_with_array; exact HJ1l).
  assert (HS2 : arr_at h2 (heap.arr sh) (arr s))
    by (apply arr_at_with_array_other; [exact HneJ | exact HS1]).
  assert (HNJ : NS <> J) by (unfold NS; lia).
  assert (HNS : NS <> heap.arr sh) by (unfold NS; lia).
  assert (HN2 : arr_at h2 NS (repeat v K))
    by (apply arr_at_with_array_other; [exact HNJ | exact HN1]).
  pose proof (run_cell_loop nh sh nsh n s jump Hd HNS HNJ K O
                            (int8 (nfa_d n + 1)) [] h2 HS2 HJ2 HN2 eq_refl)
    as HC.
  assert (Hrun : heap.transition nh sh r h =
                 heap.mbind (heap.foldM (heap.transition_cell nh sh nsh)
                                        (map Z.of_nat (seq 0 K))
                                        (int8 (nfa_d n + 1)))
                            (fun min => heap.ret (nsh, min)) h2).
  { unfold heap.transition. unfold heap.mbind at 1. rewrite Hnew.
    fold h1 nsh. rewrite (mbind_cells _ _ _ _ HJ1).
    unfold heap.mbind at 1. unfold heap.indices, len. rewrite Nat2Z.id.
    rewrite Hd, EJ. fold h2.
    rewrite (mbind_cells _ _ _ _ HN2). unfold len.
    rewrite repeat_length, Nat2Z.id. reflexivity. }
  rewrite repeat_length. change (Z.of_nat 0) with 0 in HC.
  destruct (transition_loop n s jump K 0 (int8 (nfa_d n + 1)) [])
    as [[a min'] | p |]; cbn [bind sim runs_as fst snd] in *.
  - exists (with_array h2 NS a), (nsh, min').
    split; [rewrite Hrun; unfold heap.mbind; rewrite HC; reflexivity |].
    split.
    + split; [repeat split |].
      split; [simpl; rewrite !length_set_nth, length_app; lia |].
      split.
      * intros a0 c0 Ha0 H0.
        apply arr_at_with_array_other;
          [pose proof (arr_at_length _ _ _ H0); unfold NS; lia |].
        apply arr_at_with_array_other; [exact Ha0 |].
        apply arr_at_new_other. exact H0.
      * intros c0 H0. rewrite (arr_at_fun _ _ _ _ H0 HJ). exists jump.
        split.
        -- apply arr_at_with_array_other; [congruence | exact HJ2].
        -- unfold jump. rewrite fill_jump_length. simpl. lia.
    + split; [| reflexivity]. split; [reflexivity |]. split; [| exact HNJ].
      apply arr_at_with_array. exact (arr_at_length _ _ _ HN2).
  - rewrite Hrun. unfold heap.mbind.
    destruct (heap.foldM (heap.transition_cell nh sh nsh)
                         (map Z.of_nat (seq 0 K)) (int8 (nfa_d n + 1)) h2)
      as [h3 r3]. simpl in HC. subst r3. reflexivity.
  - rewrite Hrun. unfold heap.mbind.
    destruct (heap.foldM (heap.transition_cell nh sh nsh)
                         (map Z.of_nat (seq 0 K)) (int8 (nfa_d n + 1)) h2)
      as [h3 r3]. simpl in HC. subst r3. reflexivity.
Qed.

(** ** What a later store keeps *)

Lemma rep_ptr_same_trie (h h' : heap.store) (p : heap.ptr) (x : node) :
  same_trie h h' -> rep_ptr h p x -> rep_ptr h' p x.
Proof.
  intros S [l [c [P [N R]]]]. exists l, c. split; [exact P |].
  split; [| exact (rep_same_trie _ _ S _ _ R)].
  destruct S as [S1 _]. rewrite S1. exact N.
Qed.

Lemma nfa_rel_evolves (h h' : heap.store) (nh : heap.nfa) (n : nfa) :
  evolves (heap.nfa_jump nh) h h' -> nfa_rel h nh n -> nfa_rel h' nh n.
Proof.
  intros [_ [_ [_ E4]]] [Hrs [Hd [jc [HJ HL]]]].
  split; [exact Hrs |]. split; [exact Hd |].
  destruct (E4 jc HJ) as [jc' [HJ' HL']]. exists jc'.
  split; [exact HJ' | congruence].
Qed.

Lemma state_rel_evolves (J : nat) (h h' : heap.store) (sh : heap.state)
      (s : state) :
  evolves J h h' -> state_rel J h sh s -> state_rel J h' sh s.
Proof.
  intros [_ [_ [E3 _]]] [Hoff [HS Hne]].
  split; [exact Hoff |]. split; [| exact Hne]. apply E3; assumption.
Qed.

Lemma frame_rel_evolves (J B : nat) (h h' : heap.store) (fh : heap.frame)
      (f : frame) :
  evolves J h h' -> frame_rel J B h fh f -> frame_rel J B h' fh f.
Proof.
  intros E [R [S L]]. split; [| split; [| exact L]].
  - destruct E as [E1 _]. exact (rep_same_trie _ _ E1 _ _ R).
  - exact (state_rel_evolves _ _ _ _ _ E S).
Qed.

Lemma stacks_rel_evolves (J B : nat) (h h' : heap.store)
      (sth : list (list heap.frame)) (st : list (list frame)) :
  evolves J h h' -> stacks_rel J B h sth st -> stacks_rel J B h' sth st.
Proof.
  intros E H. unfold stacks_rel in *.
  induction H as [| a b la lb Hab H IH]; constructor; [| exact IH].
  induction Hab as [| fh f la' lb' Hf Hab IH']; constructor; [| exact IH'].
  exact (frame_rel_evolves _ _ _ _ _ _ E Hf).
Qed.

(** ** Operations on related lists *)

Lemma Forall2_nth_error {A B : Type} (R : A -> B -> Prop) (la : list A)
      (lb : list B) (i : nat) :
  Forall2 R la lb ->
  match nth_error lb i with
  | Some b => exists a, nth_error la i = Some a /\ R a b
  | None => nth_error la i = None
  end.
Proof.
  intros H. revert i. induction H as [| a b la lb Hab H IH]; intros i.
  - destruct i; reflexivity.
  - destruct i as [| i]; simpl.
    + exists a. split; [reflexivity | exact Hab].
    + apply IH.
Qed.

Lemma Forall2_set_nth {A B : Type} (R : A -> B -> Prop) (la : list A)
      (lb : list B) (i : nat) (a : A) (b : B) :
  Forall2 R la lb -> R a b -> Forall2 R (set_nth la i a) (set_nth lb i b).
Proof.
  intros H Hab. revert i. induction H as [| a0 b0 la lb H0 H IH]; intros i.
  - destruct i; constructor.
  - destruct i as [| i]; simpl; constructor; try assumption. apply IH.
Qed.

Lemma index_rel {A B : Type} (R : A -> B -> Prop) (la : list A)
      (lb : list B) (i : Z) :
  Forall2 R la lb -> res_rel R (index la i) (index lb i).
Proof.
  intros H. unfold index. destruct (i <? 0); [reflexivity |].
  pose proof (Forall2_nth_error R la lb (Z.to_nat i) H) as Hn.
  destruct (nth_error lb (Z.to_nat i)) as [b |].
  - destruct Hn as [a [-> Hab]]. exists a. split; [reflexivity | exact Hab].
  - rewrite Hn. reflexivity.
Qed.

Lemma assign_rel {A B : Type} (R : A -> B -> Prop) (la : list A)
      (lb : list B) (i : Z) (a : A) (b : B) :
  Forall2 R la lb -> R a b ->
  res_rel (Forall2 R) (assign la i a) (assign lb i b).
Proof.
  intros H Hab. unfold assign, len.
  rewrite (Forall2_length H).
  destruct ((i <? 0) || (Z.of_nat (List.length lb) <=? i)); [reflexivity |].
  eexists. split; [reflexivity |]. apply Forall2_set_nth; assumption.
Qed.

Lemma runemap_lookup_rel {A B : Type} (R : A -> B -> Prop) (r : rune)
      (es : list (rune * A)) (cs : list (rune * B)) :
  Forall2 (fun e c => fst e = fst c /\ R (snd e) (snd c)) es cs ->
  match runemap.lookup r cs with
  | Some y => exists p, runemap.lookup r es = Some p /\ R p y
  | None => runemap.lookup r es = None
  end.
Proof.
  intros H. induction H as [| [r1 p] [r2 y] es cs [E Hpy] H IH];
    [reflexivity |].
  simpl in E, Hpy. subst r2. simpl.
  destruct (r =? r1).
  - exists p. split; [reflexivity | exact Hpy].
  - exact IH.
Qed.

(** ** Reading the trie in the store *)

Lemma run_entries (h : heap.store) (m : heap.ptr) :
  heap.entries m h = (h, Ok (entries_of h m)).
Proof.
  unfold heap.entries, entries_of. destruct m as [l |]; [| reflexivity].
  destruct (nth_error (heap.maps h) l) as [es |] eqn:E.
  - rewrite (nth_error_nth _ _ _ E). reflexivity.
  - rewrite nth_overflow; [reflexivity |]. apply nth_error_None. exact E.
Qed.

Lemma run_deref_node (h : heap.store) (p : heap.ptr) (x : node) :
  rep_ptr h p x ->
  exists c, heap.deref_node p h = (h, Ok c) /\ rep h c x.
Proof.
  intros [l [c [-> [N R]]]]. exists c. split; [| exact R].
  unfold heap.deref_node. rewrite N. reflexivity.
Qed.

Lemma rep_children (h : heap.store) (xh : heap.node) (x : node) :
  rep h xh x ->
  Forall2 (fun e c => fst e = fst c /\ rep_ptr h (snd e) (snd c))
          (entries_of h (heap.child xh)) (child x).
Proof. intros R. apply rep_unfold in R. exact (proj2 R). Qed.

Lemma rep_data (h : heap.store) (xh : heap.node) (x : node) :
  rep h xh x ->
  match data x with
  | Some kv => exists l, heap.data xh = Some l /\
                         heap.deref_kv (heap.data xh) h = (h, Ok kv)
  | None => heap.data xh = None
  end.
Proof.
  intros R. apply rep_unfold in R. destruct R as [D _].
  destruct (heap.data xh) as [l |].
  - destruct D as [Hne E]. destruct (data x) as [kv |]; [| congruence].
    exists l. split; [reflexivity |]. unfold heap.deref_kv. rewrite E.
    reflexivity.
  - rewrite D. reflexivity.
Qed.

(** ** [accepts] *)

Lemma accepts_from_agree (nh : heap.nfa) (n : nfa) (off : Z) (a : list Z) :
  heap.nfa_rs nh = nfa_rs n -> heap.nfa_d nh = nfa_d n ->
  forall i, heap.accepts_from nh off i a = accepts_from n off i a.
Proof.
  intros Hrs Hd. induction a as [| x a IH]; intros i; [reflexivity |].
  simpl. rewrite Hrs, Hd, IH. reflexivity.
Qed.

Lemma mbind_accepts {B : Type} (nh : heap.nfa) (sh : heap.state) (n : nfa)
      (s : state) (h : heap.store) (k : bool -> heap.M B) :
  nfa_rel h nh n -> state_rel (heap.nfa_jump nh) h sh s ->
  heap.mbind (heap.accepts nh sh) k h = k (accepts n s) h.
Proof.
  intros [Hrs [Hd _]] [Hoff [HS _]]. unfold heap.accepts.
  rewrite mbind_assoc, (mbind_cells _ _ _ _ HS), mbind_ret.
  unfold accepts. rewrite (accepts_from_agree nh n _ _ Hrs Hd), Hoff.
  reflexivity.
Qed.

(** ** [register] *)

Lemma sim_eq {A B : Type} (J : nat) (R : heap.store -> A -> B -> Prop)
      (m m' : heap.M A) (h : heap.store) (r : result B) :
  m h = m' h -> sim J R m' h r -> sim J R m h r.
Proof. intros E H. unfold sim in *. rewrite E. exact H. Qed.

Lemma sim_snd {A : Type} (J : nat) (m : heap.M A) (h : heap.store)
      (r : result A) :
  sim J (fun _ a b => a = b) m h r -> snd (m h) = r.
Proof.
  destruct r as [b | p |]; simpl; intros H; [| exact H | exact H].
  destruct H as [h' [a [E [_ ->]]]]. rewrite E. reflexivity.
Qed.

Lemma sim_push (J B : nat) (h : heap.store)
      (stacks_h : list (list heap.frame)) (stacks : list (list frame))
      (min : Z) (p : heap.ptr) (x : node) (nsh : heap.state) (ns : state) :
  stacks_rel J B h stacks_h stacks -> rep_ptr h p x -> (size x <= B)%nat ->
  state_rel J h nsh ns ->
  sim J (stacks_rel J B)
      (heap.mbind (heap.lift (index stacks_h min))
         (fun st => heap.mbind (heap.deref_node p)
            (fun c => heap.lift (assign stacks_h min
                                        (heap.mkFrame c nsh :: st)))))
      h (push stacks min (mkFrame x ns)).
Proof.
  intros Hst Hp Hsz Hs. unfold push.
  pose proof (index_rel _ _ _ min Hst) as Hi.
  destruct (index stacks min) as [st | q |]; simpl in Hi; cbn [bind].
  - destruct Hi as [sth [Ei Hsth]].
    destruct (run_deref_node _ _ _ Hp) as [c [Ec Rc]].
    assert (Hf : Forall2 (frame_rel J B h) (heap.mkFrame c nsh :: sth)
                         (mkFrame x ns :: st)).
    { constructor; [| exact Hsth]. split; [exact Rc |].
      split; [exact Hs | exact Hsz]. }
    pose proof (assign_rel _ _ _ min _ _ Hst Hf) as Ha.
    assert (Erun : heap.mbind (heap.lift (index stacks_h min))
                     (fun st => heap.mbind (heap.deref_node p)
                        (fun c => heap.lift (assign stacks_h min
                                               (heap.mkFrame c nsh :: st))))
                     h
                   = (h, assign stacks_h min (heap.mkFrame c nsh :: sth))).
    { rewrite mbind_lift, Ei. unfold heap.mbind. rewrite Ec.
      unfold heap.lift.
      destruct (assign stacks_h min (heap.mkFrame c nsh :: sth));
        reflexivity. }
    destruct (assign stacks min (mkFrame x ns :: st)) as [st' | q |];
      simpl in Ha; unfold sim; rewrite Erun.
    + destruct Ha as [sth' [-> Hst']]. exists h, sth'.
      split; [reflexivity |]. split; [apply evolves_refl | exact Hst'].
    + rewrite Ha. reflexivity.
    + rewrite Ha. reflexivity.
  - unfold sim. rewrite mbind_lift, Hi. reflexivity.
  - unfold sim. rewrite mbind_lift, Hi. reflexivity.
Qed.

Lemma sim_register_fold (nh : heap.nfa) (n : nfa) (d : Z) (sh : heap.state)
      (s : state) (B : nat) :
  forall (cs : list (rune * node)) (es : list (rune * heap.ptr))
         (h : heap.store) (stacks_h : list (list heap.frame))
         (stacks : list (list frame)),
    Forall2 (fun e c => fst e = fst c /\ rep_ptr h (snd e) (snd c)) es cs ->
    Forall (fun c => (size (snd c) <= B)%nat) cs ->
    nfa_rel h nh n -> state_rel (heap.nfa_jump nh) h sh s ->
    stacks_rel (heap.nfa_jump nh) B h stacks_h stacks ->
    sim (heap.nfa_jump nh) (stacks_rel (heap.nfa_jump nh) B)
        (heap.foldM (heap.register_child nh d sh) es stacks_h) h
        (register n d s cs stacks).
Proof.
  set (J := heap.nfa_jump nh).
  induction cs as [| [r x] cs IH]; intros es h stacks_h stacks HF HB Hn Hs Hst.
  - inversion HF; subst. simpl. apply sim_ret. exact Hst.
  - inversion HF as [| e c es' cs' [Er Rp] HF' E1 E2]; subst.
    simpl in Er, Rp. inversion HB as [| c cs0 Hx HB']; subst.
    simpl in Hx. cbn [heap.foldM register].
    change (heap.register_child nh d sh stacks_h e)
      with (heap.mbind (heap.transition nh sh (fst e))
              (fun nm =>
                 let '(nsh, min) := nm in
                 if min <? int8 (d + 1) then
                   heap.mbind (heap.lift (index stacks_h min))
                     (fun st => heap.mbind (heap.deref_node (snd e))
                        (fun c => heap.lift
                                    (assign stacks_h min
                                            (heap.mkFrame c nsh :: st))))
                 else heap.ret stacks_h)).
    eapply sim_eq; [apply mbind_assoc |].
    eapply sim_bind; [apply (sim_transition nh sh n s (fst e) h Hn Hs) |].
    intros h' [nsh minh] [ns min] Ev [Hns Hmin]. simpl in Hns, Hmin.
    subst minh. cbn beta iota.
    assert (HF1 : forall h1, evolves J h h1 ->
                Forall2 (fun e c => fst e = fst c /\
                                    rep_ptr h1 (snd e) (snd c)) es' cs).
    { intros h1 [S1 _]. clear - HF' S1.
      induction HF' as [| e c es cs [E R] HF IHF]; constructor;
        [| exact IHF].
      split; [exact E | exact (rep_ptr_same_trie _ _ _ _ S1 R)]. }
    destruct (min <? int8 (d + 1)).
    + eapply sim_bind.
      * apply sim_push.
        -- exact (stacks_rel_evolves _ _ _ _ _ _ Ev Hst).
        -- destruct Ev as [S1 _]. exact (rep_ptr_same_trie _ _ _ _ S1 Rp).
        -- exact Hx.
        -- exact Hns.
      * intros h'' stacks_h' stacks' Ev' Hst'.
        pose proof (evolves_trans _ _ _ _ Ev Ev') as Ev2.
        apply IH.
        -- exact (HF1 _ Ev2).
        -- exact HB'.
        -- exact (nfa_rel_evolves _ _ _ _ Ev2 Hn).
        -- exact (state_rel_evolves _ _ _ _ _ Ev2 Hs).
        -- exact Hst'.
    + eapply sim_eq; [apply mbind_ret |]. apply IH.
      * exact (HF1 _ Ev).
      * exact HB'.
      * exact (nfa_rel_evolves _ _ _ _ Ev Hn).
      * exact (state_rel_evolves _ _ _ _ _ Ev Hs).
      * exact (stacks_rel_evolves _ _ _ _ _ _ Ev Hst).
Qed.

Lemma mbind_entries {B : Type} (h : heap.store) (m : heap.ptr)
      (k : list (rune * heap.ptr) -> heap.M B) :
  heap.mbind (heap.entries m) k h = k (entries_of h m) h.
Proof. unfold heap.mbind. rewrite run_entries. reflexivity. Qed.

Lemma sim_register (nh : heap.nfa) (n : nfa) (d : Z) (sh : heap.state)
      (s : state) (B : nat) (h : heap.store) (xh : heap.node) (x : node)
      (stacks_h : list (list heap.frame)) (stacks : list (list frame)) :
  rep h xh x -> (size x <= B)%nat ->
  nfa_rel h nh n -> state_rel (heap.nfa_jump nh) h sh s ->
  stacks_rel (heap.nfa_jump nh) B h stacks_h stacks ->
  sim (heap.nfa_jump nh) (stacks_rel (heap.nfa_jump nh) B)
      (heap.register nh d sh xh stacks_h) h
      (register n d s (child x) stacks).
Proof.
  intros R Hsz Hn Hs Hst. unfold heap.register.
  eapply sim_eq; [apply mbind_entries |].
  apply sim_register_fold; try assumption.
  - exact (rep_children _ _ _ R).
  - apply Forall_forall. intros c Hc.
    pose proof (size_child x c Hc). lia.
Qed.

(** ** The strategies *)

Lemma doNotExpandSuffixes_rel (B : nat) :
  process_rel B heap.doNotExpandSuffixes doNotExpandSuffixes.
Proof.
  intros h xh x lim R _. unfold heap.doNotExpandSuffixes, doNotExpandSuffixes.
  pose proof (rep_data _ _ _ R) as D.
  destruct (data x) as [kv |].
  - destruct D as [l [E1 E2]]. rewrite E1 in *.
    unfold heap.mbind. rewrite E2. reflexivity.
  - rewrite D. reflexivity.
Qed.

Lemma run_push_children_fold (h : heap.store) :
  forall (es : list (rune * heap.ptr)) (cs : list (rune * node))
         (stack_h : list heap.node) (stack : list node),
    Forall2 (fun e c => fst e = fst c /\ rep_ptr h (snd e) (snd c)) es cs ->
    Forall2 (rep h) stack_h stack ->
    exists stack_h',
      heap.foldM (fun st e => heap.mbind (heap.deref_node (snd e))
                                         (fun c => heap.ret (c :: st)))
                 es stack_h h = (h, Ok stack_h') /\
      Forall2 (rep h) stack_h' (push_children cs stack).
Proof.
  intros es cs stack_h stack HF. revert stack_h stack.
  induction HF as [| e c es cs [_ Rp] HF IH]; intros stack_h stack Hst.
  - exists stack_h. split; [reflexivity | exact Hst].
  - destruct (run_deref_node _ _ _ Rp) as [ch [Ec Rc]].
    destruct (IH (ch :: stack_h) (snd c :: stack)) as [stack_h' [E F]].
    { constructor; assumption. }
    exists stack_h'. split; [| exact F].
    cbn [heap.foldM]. rewrite mbind_assoc. unfold heap.mbind at 1.
    rewrite Ec. rewrite mbind_ret. exact E.
Qed.

Lemma run_push_children (h : heap.store) (xh : heap.node) (x : node)
      (stack_h : list heap.node) (stack : list node) :
  rep h xh x -> Forall2 (rep h) stack_h stack ->
  exists stack_h',
    heap.push_children xh stack_h h = (h, Ok stack_h') /\
    Forall2 (rep h) stack_h' (push_children (child x) stack).
Proof.
  intros R Hst. unfold heap.push_children. rewrite mbind_entries.
  apply run_push_children_fold; [exact (rep_children _ _ _ R) | exact Hst].
Qed.

Lemma run_expand_loop (h : heap.store) (lim : Z) :
  forall (fuel : nat) (stack_h : list heap.node) (stack : list node)
         (results : list KV),
    Forall2 (rep h) stack_h stack ->
    heap.expand_loop fuel stack_h results lim h
    = (h, expand_loop fuel stack results lim).
Proof.
  induction fuel as [| fuel IH]; intros stack_h stack results Hst;
    [reflexivity |].
  cbn [heap.expand_loop expand_loop].
  destruct Hst as [| xh x stack_h stack Rx Hst]; [reflexivity |].
  pose proof (rep_data _ _ _ Rx) as D.
  destruct (data x) as [kv |].
  - destruct D as [l [E1 E2]]. rewrite E1 in *.
    unfold heap.mbind at 1. rewrite E2.
    destruct (len (results ++ [kv]) >=? lim); [reflexivity |].
    destruct (run_push_children _ _ _ _ _ Rx Hst) as [st' [E F]].
    unfold heap.mbind. rewrite E. apply IH. exact F.
  - rewrite D.
    destruct (run_push_children _ _ _ _ _ Rx Hst) as [st' [E F]].
    unfold heap.mbind. rewrite E. apply IH. exact F.
Qed.

Lemma expand_loop_fuel (limit : Z) :
  forall (f f' : nat) (stack : list node) (results : list KV),
    (sizes stack < f)%nat -> (sizes stack < f')%nat ->
    expand_loop f stack results limit = expand_loop f' stack results limit.
Proof.
  induction f as [| f IH]; intros f' stack results H H'; [lia |].
  destruct f' as [| f']; [lia |].
  cbn [expand_loop]. destruct stack as [| x stack]; [reflexivity |].
  assert (Hs : (sizes (push_children (child x) stack) < f)%nat /\
               (sizes (push_children (child x) stack) < f')%nat).
  { rewrite sizes_push_children. simpl in H, H'.
    rewrite size_unfold in H, H'. lia. }
  destruct Hs as [Hs Hs'].
  destruct (data x) as [kv |].
  - destruct (len (results ++ [kv]) >=? limit); [reflexivity |].
    apply IH; assumption.
  - apply IH; assumption.
Qed.

Lemma expandSuffixes_rel (B fuel : nat) :
  (B < fuel)%nat -> process_rel B (heap.expandSuffixes fuel) expandSuffixes.
Proof.
  intros HB h xh x lim R Hsz. unfold heap.expandSuffixes, expandSuffixes.
  unfold heap.mbind.
  rewrite (run_expand_loop h lim fuel [xh] [x] [])
    by (constructor; [exact R | constructor]).
  rewrite (expand_loop_fuel lim fuel (S (size x)) [x] [])
    by (simpl; lia).
  destruct (expand_loop (S (size x)) [x] [] lim); reflexivity.
Qed.

(** ** The loops of [suggest] *)

Lemma sim_lift {A : Type} (J : nat) (r : result A) (h : heap.store) :
  sim J (fun _ a b => a = b) (heap.lift r) h r.
Proof.
  destruct r as [a | p |]; simpl; try reflexivity.
  exists h, a. split; [reflexivity |].
  split; [apply evolves_refl | reflexivity].
Qed.

Lemma sim_process {C : Type} (J B : nat)
      (R : heap.store -> C -> C -> Prop) (ph : heap.processAcceptingNode)
      (p : processAcceptingNode) (h : heap.store) (xh : heap.node)
      (x : node) (lim : Z) (k : list KV * bool -> heap.M C)
      (k' : list KV * bool -> result C) :
  process_rel B ph p -> rep h xh x -> (size x <= B)%nat ->
  (forall a, sim J R (k a) h (k' a)) ->
  sim J R (heap.mbind (ph xh lim) k) h (bind (p x lim) k').
Proof.
  intros Hp Rx Hsz Hk.
  assert (E : heap.mbind (ph xh lim) k h =
              match p x lim with
              | Ok a => k a h
              | Panic q => (h, Panic q)
              | OutOfFuel => (h, OutOfFuel)
              end).
  { unfold heap.mbind. rewrite (Hp h xh x lim Rx Hsz).
    destruct (p x lim); reflexivity. }
  destruct (p x lim) as [a | q |]; cbn [bind].
  - specialize (Hk a). unfold sim in *. rewrite E. exact Hk.
  - unfold sim. rewrite E. reflexivity.
  - unfold sim. rewrite E. reflexivity.
Qed.

Lemma sim_suggest_loop (ph : heap.processAcceptingNode)
      (p : processAcceptingNode) (nh : heap.nfa) (n : nfa) (d limit : Z)
      (B : nat) :
  process_rel B ph p ->
  forall (fuel i : nat) (stacks_h : list (list heap.frame))
         (stacks : list (list frame)) (results : list KV) (h : heap.store),
    nfa_rel h nh n ->
    stacks_rel (heap.nfa_jump nh) B h stacks_h stacks ->
    sim (heap.nfa_jump nh) (fun _ a b => a = b)
        (heap.suggest_loop fuel ph nh d limit i stacks_h results) h
        (suggest_loop fuel p n d limit i stacks results).
Proof.
  intros Hp. set (J := heap.nfa_jump nh).
  induction fuel as [| fuel IH]; intros i stacks_h stacks results h Hn Hst;
    [reflexivity |].
  cbn [heap.suggest_loop suggest_loop].
  pose proof (Forall2_nth_error _ _ _ i Hst) as Hi.
  destruct (nth_error stacks i) as [[| f rest] |].
  - destruct Hi as [a [-> Ha]]. inversion Ha; subst.
    apply IH; assumption.
  - destruct Hi as [a [-> Ha]].
    inversion Ha as [| fh f0 rest_h rest0 Hf Hrest]; subst.
    assert (Hst' : stacks_rel J B h (set_nth stacks_h i rest_h)
                              (set_nth stacks i rest))
      by (apply Forall2_set_nth; assumption).
    destruct Hf as [Rf [Sf Bf]].
    assert (Hreg : forall results',
               sim J (fun _ a b => a = b)
                   (heap.mbind
                      (heap.register nh d (heap.f_s fh) (heap.f_n fh)
                                     (set_nth stacks_h i rest_h))
                      (fun stacks0 =>
                         heap.suggest_loop fuel ph nh d limit i stacks0
                                           results')) h
                   (bind (register n d (f_s f) (child (f_n f))
                                   (set_nth stacks i rest))
                         (fun stacks0 =>
                            suggest_loop fuel p n d limit i stacks0
                                         results'))).
    { intros results'. eapply sim_bind.
      - apply sim_register; eassumption.
      - intros h' sth' st' Ev Hst2. apply IH; [| exact Hst2].
        exact (nfa_rel_evolves _ _ _ _ Ev Hn). }
    cbn zeta.
    eapply sim_eq; [apply (mbind_accepts nh _ n (f_s f) h _ Hn Sf) |].
    destruct (accepts n (f_s f)); [| apply Hreg].
    apply (sim_process J B _ ph p h _ _ _ _ _ Hp Rf Bf).
    intros [rs halt].
    destruct (len (results ++ rs) >=? limit); [apply sim_lift |].
    destruct halt; [| apply Hreg].
    apply IH; assumption.
  - rewrite Hi. apply sim_ret. reflexivity.
Qed.

Lemma suggest_loop_fuel (p : processAcceptingNode) (n : nfa) (d limit : Z) :
  forall (f f' i : nat) (stacks : list (list frame)) (results : list KV),
    (frames_size stacks + (List.length stacks - i) < f)%nat ->
    (frames_size stacks + (List.length stacks - i) < f')%nat ->
    suggest_loop f p n d limit i stacks results
    = suggest_loop f' p n d limit i stacks results.
Proof.
  induction f as [| f IH]; intros f' i stacks results H H'; [lia |].
  destruct f' as [| f']; [lia |].
  cbn [suggest_loop].
  destruct (nth_error stacks i) as [[| fr rest] |] eqn:Ei; [| | reflexivity].
  - assert (i < List.length stacks)%nat
      by (apply nth_error_Some; congruence).
    apply IH; lia.
  - assert (Hi : (i < List.length stacks)%nat)
      by (apply nth_error_Some; congruence).
    pose proof (frames_size_set_nth stacks i (fr :: rest) rest Ei) as Hsz.
    simpl in Hsz. rewrite size_unfold in Hsz.
    assert (Hreg : forall results',
               (stacks2 <- register n d (f_s fr) (child (f_n fr))
                                    (set_nth stacks i rest) ;;
                suggest_loop f p n d limit i stacks2 results')
               = (stacks2 <- register n d (f_s fr) (child (f_n fr))
                                      (set_nth stacks i rest) ;;
                  suggest_loop f' p n d limit i stacks2 results')).
    { intros results'.
      destruct (register n d (f_s fr) (child (f_n fr))
                         (set_nth stacks i rest)) as [stacks2 | q |] eqn:Er;
        cbn [bind]; try reflexivity.
      apply frames_size_register in Er. destruct Er as [H1 H2].
      rewrite length_set_nth in H2. apply IH; lia. }
    cbn zeta.
    destruct (accepts n (f_s fr)); [| apply Hreg].
    destruct (p (f_n fr) (limit - len results)) as [[rs halt] | q |];
      cbn [bind]; try reflexivity.
    destruct (len (results ++ rs) >=? limit); [reflexivity |].
    destruct halt; [| apply Hreg].
    apply IH; rewrite length_set_nth; lia.
Qed.

(** ** [suggest] *)

Lemma run_newNfa (h : heap.store) (rs : list rune) (d : Z) :
  heap.newNfa rs d h =
  match newNfa rs d with
  | Ok n => (with_new_array h (nfa_jump n),
             Ok (heap.mkNfa (nfa_rs n) (nfa_d n)
                            (List.length (heap.arrays h))))
  | Panic q => (h, Panic q)
  | OutOfFuel => (h, OutOfFuel)
  end.
Proof.
  unfold heap.newNfa, newNfa, make, heap.mbind. rewrite run_make_int8.
  destruct (3 * d + 2 <? 0); reflexivity.
Qed.

Lemma run_start (nh : heap.nfa) (n : nfa) (h : heap.store) :
  heap.nfa_d nh = nfa_d n ->
  runs_as (heap.start nh) h (start n)
          (fun s => (with_new_array h (arr s),
                     Ok (heap.mkState (offset s)
                                      (List.length (heap.arrays h))))).
Proof.
  intros Hd. unfold heap.start, start. rewrite Hd.
  assert (E : heap.mbind
                (heap.newState (nfa_d n) (int8 (-2 * nfa_d n)))
                (fun initial =>
                   heap.mbind (heap.set (heap.arr initial)
                                        (int8 (2 * nfa_d n)) 0)
                              (fun _ => heap.ret initial)) h =
              match newState (nfa_d n) (int8 (-2 * nfa_d n)) with
              | Ok s0 =>
                match assign (arr s0) (int8 (2 * nfa_d n)) 0 with
                | Ok a =>
                  (with_new_array h a,
                   Ok (heap.mkState (int8 (-2 * nfa_d n))
                                    (List.length (heap.arrays h))))
                | Panic q => (with_new_array h (arr s0), Panic q)
                | OutOfFuel => (with_new_array h (arr s0), OutOfFuel)
                end
              | Panic q => (h, Panic q)
              | OutOfFuel => (h, OutOfFuel)
              end).
  { unfold heap.mbind at 1. rewrite run_newState.
    destruct (newState (nfa_d n) (int8 (-2 * nfa_d n))) as [s0 | q |];
      try reflexivity.
    unfold heap.mbind. cbn [heap.arr].
    rewrite (run_set _ _ _ _ _ (arr_at_new h (arr s0))).
    destruct (assign (arr s0) (int8 (2 * nfa_d n)) 0); try reflexivity.
    rewrite with_array_new. reflexivity. }
  destruct (newState (nfa_d n) (int8 (-2 * nfa_d n))) as [s0 | q |] eqn:EN;
    cbn [bind]; try (unfold runs_as; rewrite E; reflexivity).
  pose proof (newState_Ok _ _ _ EN) as Es0.
  assert (Hoff : offset s0 = int8 (-2 * nfa_d n))
    by (rewrite Es0; reflexivity).
  destruct (assign (arr s0) (int8 (2 * nfa_d n)) 0) as [a | q |];
    cbn [bind]; unfold runs_as; rewrite E; try reflexivity.
  cbn [arr offset]. rewrite Hoff. reflexivity.
Qed.

Lemma Forall2_repeat_nil {A B : Type} (R : A -> B -> Prop) (k : nat) :
  Forall2 (Forall2 R) (repeat [] k) (repeat [] k).
Proof. induction k as [| k IH]; simpl; constructor; [constructor | exact IH]. Qed.

Lemma run_suggest (ph : heap.processAcceptingNode) (p : processAcceptingNode)
      (B fuel : nat) (xh : heap.node) (x : node) (runes : list rune)
      (d limit : Z) (h : heap.store) :
  process_rel B ph p -> rep h xh x -> (size x <= B)%nat ->
  (size x + 128 < fuel)%nat ->
  snd (heap.suggest fuel ph xh runes d limit h) = suggest p x runes d limit.
Proof.
  intros Hp Rx HB Hfuel. unfold heap.suggest, suggest.
  unfold heap.mbind at 1. rewrite run_newNfa.
  destruct (newNfa runes d) as [n |q |] eqn:En; cbn [bind]; try reflexivity.
  set (J := List.length (heap.arrays h)).
  set (nh := heap.mkNfa (nfa_rs n) (nfa_d n) J).
  set (h1 := with_new_array h (nfa_jump n)).
  assert (End : nfa_d n = d).
  { unfold newNfa, make in En. destruct (3 * d + 2 <? 0); [discriminate |].
    simpl in En. injection En as <-. reflexivity. }
  pose proof (run_start nh n h1 eq_refl) as HS.
  unfold heap.mbind at 1.
  destruct (start n) as [s0 | q |] eqn:Es; cbn [bind runs_as] in *;
    try (destruct (heap.start nh h1) as [h' r']; simpl in HS; subst r';
         reflexivity).
  rewrite HS.
  set (sh := heap.mkState (offset s0) (List.length (heap.arrays h1))).
  set (h2 := with_new_array h1 (arr s0)).
  rewrite mbind_lift. unfold make.
  destruct (int8 (d + 1) <? 0); [reflexivity |]. cbn [bind].
  rewrite mbind_lift.
  set (K := Z.to_nat (int8 (d + 1))).
  assert (HK : (K <= 127)%nat)
    by (unfold K; pose proof (int8_range (d + 1)); lia).
  assert (Rx2 : rep h2 xh x).
  { apply (rep_same_trie h); [| exact Rx]. repeat split. }
  assert (Hs : state_rel J h2 sh s0).
  { split; [reflexivity |]. split; [apply arr_at_new |].
    unfold sh, h1, J. simpl. rewrite length_app. simpl. lia. }
  assert (Hn : nfa_rel h2 nh n).
  { split; [reflexivity |]. split; [reflexivity |].
    exists (nfa_jump n). split; [| reflexivity].
    apply arr_at_new_other. apply arr_at_new. }
  assert (Hf : Forall2 (frame_rel J B h2) [heap.mkFrame xh sh]
                       [mkFrame x s0]).
  { constructor; [| constructor]. split; [exact Rx2 |].
    split; [exact Hs | exact HB]. }
  pose proof (assign_rel _ _ _ 0 _ _
                (Forall2_repeat_nil (frame_rel J B h2) K) Hf) as Ha.
  destruct (assign (repeat [] K) 0 [mkFrame x s0]) as [stacks | q |] eqn:Ea;
    simpl in Ha; cbn [bind].
  - destruct Ha as [stacks_h [-> Hst]].
    rewrite (sim_snd J _ _ _
               (sim_suggest_loop ph p nh n d limit B Hp fuel O stacks_h
                                 stacks [] h2 Hn Hst)).
    apply assign_Ok in Ea. destruct Ea as [_ ->].
    apply suggest_loop_fuel.
    + rewrite length_set_nth, repeat_length.
      assert (E : (frames_size (set_nth (repeat [] K) (Z.to_nat 0)
                                        [mkFrame x s0]) <= size x)%nat).
      { destruct K as [| k]; simpl; [lia |].
        rewrite frames_size_repeat_nil. lia. }
      lia.
    + rewrite length_set_nth, repeat_length.
      assert (E : (frames_size (set_nth (repeat [] K) (Z.to_nat 0)
                                        [mkFrame x s0]) <= size x)%nat).
      { destruct K as [| k]; simpl; [lia |].
        rewrite frames_size_repeat_nil. lia. }
      lia.
  - rewrite Ha. reflexivity.
  - rewrite Ha. reflexivity.
Qed.

(** ** The descent along a path *)

Lemma inside_size (x n : node) : inside x n -> (size x <= size n)%nat.
Proof.
  intros H. induction H as [n | n r y x Hin _ IH]; [lia |].
  pose proof (size_child n (r, y) Hin) as Hc. simpl in Hc. lia.
Qed.

Lemma run_walk (h : heap.store) :
  forall (rs : list rune) (p : heap.ptr) (x : node),
    rep_ptr h p x ->
    match exact_prefix x rs with
    | Some y => exists q, heap.walk p rs h = (h, Ok (Some q)) /\
                          rep_ptr h q y
    | None => heap.walk p rs h = (h, Ok None)
    end.
Proof.
  induction rs as [| r rs IH]; intros p x Rp.
  - exists p. split; [reflexivity | exact Rp].
  - destruct (run_deref_node _ _ _ Rp) as [c [Ec Rc]].
    assert (E : heap.walk p (r :: rs) h =
                match runemap.lookup r (entries_of h (heap.child c)) with
                | Some q => heap.walk q rs h
                | None => (h, Ok None)
                end).
    { cbn [heap.walk]. unfold heap.mbind at 1. rewrite Ec.
      rewrite mbind_entries.
      destruct (runemap.lookup r (entries_of h (heap.child c)));
        reflexivity. }
    rewrite E. cbn [exact_prefix].
    pose proof (runemap_lookup_rel _ r _ _ (rep_children _ _ _ Rc)) as L.
    destruct (runemap.lookup r (child x)) as [y |].
    + destruct L as [q [-> Rq]]. apply IH. exact Rq.
    + rewrite L. reflexivity.
Qed.

Lemma run_Get (h : heap.store) (t : heap.Trie) (x : node) (key : string) :
  rep_ptr h (heap.root t) x ->
  heap.Get t key h = (h, Ok (Get (mkTrie x) key)).
Proof.
  intros Rp. unfold heap.Get, Get. cbn [root].
  rewrite <- exact_prefix_descend.
  pose proof (run_walk h (extractRunes key) _ _ Rp) as W.
  unfold heap.mbind at 1.
  destruct (exact_prefix x (extractRunes key)) as [y |].
  - destruct W as [q [-> Rq]].
    destruct (run_deref_node _ _ _ Rq) as [c [Ec Rc]].
    unfold heap.mbind at 1. rewrite Ec.
    pose proof (rep_data _ _ _ Rc) as D.
    destruct (data y) as [kv |].
    + destruct D as [l [E1 E2]]. rewrite E1 in *.
      unfold heap.mbind. rewrite E2. reflexivity.
    + rewrite D. reflexivity.
  - rewrite W. reflexivity.
Qed.

Lemma run_after_exact_prefix (cap : nat -> nat)
      (ph : heap.processAcceptingNode) (pr : processAcceptingNode)
      (B fuel : nat) (h : heap.store) (t : heap.Trie) (x : node)
      (key : string) (p d n : Z) :
  process_rel B ph pr -> rep_ptr h (heap.root t) x -> (size x <= B)%nat ->
  (size x + 128 < fuel)%nat ->
  snd (heap.after_exact_prefix cap fuel ph t key p d n h)
  = after_exact_prefix cap pr (mkTrie x) key p d n.
Proof.
  intros Hp Rp HB Hfuel. unfold heap.after_exact_prefix, after_exact_prefix.
  cbn [root]. cbn zeta. rewrite mbind_lift.
  destruct (slice_to 0 (Z.of_nat (cap (List.length (extractRunes key))))
                     (extractRunes key) p) as [prefix | q |];
    cbn [bind]; try reflexivity.
  pose proof (run_walk h prefix _ _ Rp) as W.
  pose proof (exact_prefix_inside prefix x) as Hin.
  unfold heap.mbind at 1.
  destruct (exact_prefix x prefix) as [y |].
  - destruct W as [q [-> Rq]].
    destruct (run_deref_node _ _ _ Rq) as [c [Ec Rc]].
    unfold heap.mbind at 1. rewrite Ec. rewrite mbind_lift.
    destruct (slice_from (extractRunes key) p) as [rest | q' |];
      cbn [bind]; try reflexivity.
    pose proof (inside_size _ _ (Hin y eq_refl)) as Hy.
    apply (run_suggest ph pr B); [exact Hp | exact Rc | lia | lia].
  - rewrite W. reflexivity.
Qed.

(** X26. The searches on the store are the searches of the path-addressed
    model. When the root pointer of the trie refers, in the store [h], to
    a representation of the tree [x], each of the four searches run on
    the store, with fuel beyond the size of [x] plus 128, has the outcome
    (the list returned, or the panic) of the same search on [x]. *)
Theorem store_searches_agree (cap : nat -> nat) (fuel : nat)
        (h : heap.store) (t : heap.Trie) (x : node) (key : string)
        (p d n : Z) :
  rep_ptr h (heap.root t) x -> (size x + 128 < fuel)%nat ->
  snd (heap.Suggest fuel t key d n h) = Suggest (mkTrie x) key d n /\
  snd (heap.SuggestSuffixes fuel t key d n h)
  = SuggestSuffixes (mkTrie x) key d n /\
  snd (heap.SuggestAfterExactPrefix cap fuel t key p d n h)
  = SuggestAfterExactPrefix cap (mkTrie x) key p d n /\
  snd (heap.SuggestSuffixesAfterExactPrefix cap fuel t key p d n h)
  = SuggestSuffixesAfterExactPrefix cap (mkTrie x) key p d n.
Proof.
  intros Rp Hfuel.
  assert (He : process_rel (size x) (heap.expandSuffixes fuel) expandSuffixes)
    by (apply expandSuffixes_rel; lia).
  pose proof (doNotExpandSuffixes_rel (size x)) as Hd.
  destruct (run_deref_node _ _ _ Rp) as [c [Ec Rc]].
  split; [| split; [| split]].
  - unfold heap.Suggest, Suggest. unfold heap.mbind. rewrite Ec.
    cbn [root].
    apply (run_suggest _ _ (size x)); [exact Hd | exact Rc | lia | lia].
  - unfold heap.SuggestSuffixes, SuggestSuffixes. unfold heap.mbind at 1.
    rewrite Ec. cbn [root].
    apply (run_suggest _ _ (size x)); [exact He | exact Rc | lia | lia].
  - apply (run_after_exact_prefix cap _ _ (size x));
      [exact Hd | exact Rp | lia | lia].
  - apply (run_after_exact_prefix cap _ _ (size x));
      [exact He | exact Rp | lia | lia].
Qed.

(** X27. [Get] on the store is [Get] of the path-addressed model: when
    the root pointer of the trie refers to a representation of the tree
    [x], [Get] returns what [Get] returns on [x], and leaves the store as
    it is. *)
Theorem store_Get_agrees (h : heap.store) (t : heap.Trie) (x : node)
        (key : string) :
  rep_ptr h (heap.root t) x ->
  heap.Get t key h = (h, Ok (Get (mkTrie x) key)).
Proof. apply run_Get. Qed.

Lemma store_a_ab_represents :
  rep_ptr store_a_ab (heap.root store_t) (root trie_a_ab).
Proof.
  exists O, (heap.mkNode (Some O) None).
  split; [reflexivity |]. split; [reflexivity |].
  vm_compute.
  repeat (cbv beta iota zeta;
          match goal with
          | |- _ /\ _ => split
          | |- exists _, _ => eexists
          | |- True => exact I
          | |- _ = _ => reflexivity
          | |- _ -> False => discriminate
          end).
Qed.

Lemma store_searches_agree_witness :
  rep_ptr store_a_ab (heap.root store_t) (root trie_a_ab) /\
  (size (root trie_a_ab) + 128 < 200)%nat /\
  snd (heap.Suggest 200 store_t "ab" 1 3 store_a_ab)
  = Ok [mkKV "a" "1"; mkKV "ab" "2"].
Proof.
  split; [exact store_a_ab_represents |].
  split; [vm_compute; lia |].
  rewrite (proj1 (store_searches_agree id_cap 200 store_a_ab store_t
                    (root trie_a_ab) "ab" 0 1 3 store_a_ab_represents
                    ltac:(vm_compute; lia))).
  vm_compute. reflexivity.
Defined.

Lemma store_Get_agrees_witness :
  rep_ptr store_a_ab (heap.root store_t) (root trie_a_ab) /\
  heap.Get store_t "ab" store_a_ab = (store_a_ab, Ok ("2"%string, true)).
Proof.
  split; [exact store_a_ab_represents |].
  rewrite (store_Get_agrees store_a_ab store_t (root trie_a_ab) "ab"
                            store_a_ab_represents).
  reflexivity.
Defined.

(* ================================================================== *)
(** * The trie in the store under [Set] and [Delete] *)

Lemma kv_at_agree (h h' : heap.store) (p : heap.ptr) (dt : option KV) :
  (forall q kv, nth_error (heap.kvs h) q = Some kv ->
                nth_error (heap.kvs h') q = Some kv) ->
  kv_at h p dt -> kv_at h' p dt.
Proof.
  intros Hk. destruct p as [q |]; simpl; [| trivial].
  intros [Hne E]. split; [exact Hne |].
  destruct dt as [kv |]; [| congruence]. apply Hk. exact E.
Qed.

Lemma agree_on_app_l (N1 N2 M1 M2 : list nat) (h h' : heap.store) :
  agree_on (N1 ++ N2) (M1 ++ M2) h h' -> agree_on N1 M1 h h'.
Proof.
  intros [A [B C]]. split; [| split; [| exact C]].
  - intros i c Hi. apply A. apply in_or_app. left. exact Hi.
  - intros j es Hj. apply B. apply in_or_app. left. exact Hj.
Qed.

Lemma agree_on_app_r (N1 N2 M1 M2 : list nat) (h h' : heap.store) :
  agree_on (N1 ++ N2) (M1 ++ M2) h h' -> agree_on N2 M2 h h'.
Proof.
  intros [A [B C]]. split; [| split; [| exact C]].
  - intros i c Hi. apply A. apply in_or_app. right. exact Hi.
  - intros j es Hj. apply B. apply in_or_app. right. exact Hj.
Qed.

Lemma agree_on_cons (l m : nat) (N M : list nat) (h h' : heap.store) :
  agree_on (l :: N) (m :: M) h h' -> agree_on N M h h'.
Proof.
  intros [A [B C]]. split; [| split; [| exact C]].
  - intros i c Hi. apply A. right. exact Hi.
  - intros j es Hj. apply B. right. exact Hj.
Qed.

Lemma owns_frame (h h' : heap.store) (l : nat) (x : node) (N M : list nat) :
  owns h l x N M -> agree_on N M h h' -> owns h' l x N M.
Proof.
  intros H. revert h'.
  induction H using owns_mut
    with (P0 := fun es cs Ns Ms _ =>
                  forall h', agree_on (List.concat Ns) (List.concat Ms) h h' ->
                             owns_edges h' es cs Ns Ms);
    intros h' Ha.
  - destruct Ha as [A [B C]] eqn:Ea.
    apply (owns_node h' l c m es dt cs Ns Ms).
    + apply A; [left; reflexivity | assumption].
    + exact (kv_at_agree _ _ _ _ C k).
    + assumption.
    + apply B; [left; reflexivity | assumption].
    + apply IHowns. exact (agree_on_cons _ _ _ _ _ _ (conj A (conj B C))).
  - constructor.
  - simpl in Ha. constructor.
    + apply IHowns. exact (agree_on_app_l _ _ _ _ _ _ Ha).
    + apply IHowns0. exact (agree_on_app_r _ _ _ _ _ _ Ha).
Qed.

Lemma owns_edges_frame (h h' : heap.store) (es : list (rune * heap.ptr))
      (cs : list (rune * node)) (Ns Ms : list (list nat)) :
  owns_edges h es cs Ns Ms ->
  agree_on (List.concat Ns) (List.concat Ms) h h' ->
  owns_edges h' es cs Ns Ms.
Proof.
  intros H. induction H as [| r l y es cs N1 M1 Ns Ms Hy H IH]; intros Ha.
  - constructor.
  - simpl in Ha. constructor.
    + exact (owns_frame _ _ _ _ _ _ Hy (agree_on_app_l _ _ _ _ _ _ Ha)).
    + apply IH. exact (agree_on_app_r _ _ _ _ _ _ Ha).
Qed.

Lemma owns_edges_app (h : heap.store) (es1 es2 : list (rune * heap.ptr))
      (cs1 cs2 : list (rune * node)) (Ns1 Ns2 Ms1 Ms2 : list (list nat)) :
  owns_edges h es1 cs1 Ns1 Ms1 -> owns_edges h es2 cs2 Ns2 Ms2 ->
  owns_edges h (es1 ++ es2) (cs1 ++ cs2) (Ns1 ++ Ns2) (Ms1 ++ Ms2).
Proof.
  intros H1 H2.
  induction H1 as [| r l y es cs N1 M1 Ns Ms Hy H IH]; [exact H2 |].
  simpl. constructor; assumption.
Qed.

Lemma owns_bounds (h : heap.store) (l : nat) (x : node) (N M : list nat) :
  owns h l x N M ->
  (forall i, In i N -> (i < List.length (heap.nodes h))%nat) /\
  (forall j, In j M -> (j < List.length (heap.maps h))%nat).
Proof.
  intros H.
  induction H using owns_mut
    with (P0 := fun es cs Ns Ms _ =>
                  (forall i, In i (List.concat Ns) ->
                             (i < List.length (heap.nodes h))%nat) /\
                  (forall j, In j (List.concat Ms) ->
                             (j < List.length (heap.maps h))%nat)).
  - destruct IHowns as [A B]. split.
    + intros i [<- | Hi]; [| exact (A i Hi)].
      apply nth_error_Some. congruence.
    + intros j [<- | Hj]; [| exact (B j Hj)].
      apply nth_error_Some. congruence.
  - split; intros i [].
  - destruct IHowns as [A B]. destruct IHowns0 as [A' B']. simpl. split.
    + intros i Hi. apply in_app_or in Hi. destruct Hi; [apply A | apply A'];
        assumption.
    + intros j Hj. apply in_app_or in Hj. destruct Hj; [apply B | apply B'];
        assumption.
Qed.

Lemma owns_rep (h : heap.store) (l : nat) (x : node) (N M : list nat) :
  owns h l x N M -> rep_ptr h (Some l) x.
Proof.
  intros H.
  induction H using owns_mut
    with (P0 := fun es cs Ns Ms _ =>
                  Forall2 (fun e c => fst e = fst c /\
                                      rep_ptr h (snd e) (snd c)) es cs).
  - exists l, c. split; [reflexivity |]. split; [assumption |].
    apply rep_unfold. cbn [data child]. split.
    + unfold kv_at in k. destruct (heap.data c); exact k.
    + unfold entries_of. rewrite e0. rewrite (nth_error_nth _ _ _ e1).
      exact IHowns.
  - constructor.
  - constructor; [| exact IHowns0]. split; [reflexivity | exact IHowns].
Qed.

(** ** Lists without repetition *)

Lemma NoDup_app_iff {A : Type} (l1 l2 : list A) :
  NoDup (l1 ++ l2) <->
  NoDup l1 /\ NoDup l2 /\ (forall a, In a l1 -> ~ In a l2).
Proof.
  split.
  - intros H. split; [exact (NoDup_app_remove_r _ _ H) |].
    split; [exact (NoDup_app_remove_l _ _ H) |].
    induction l1 as [| x l1 IH]; intros a Ha; [destruct Ha |].
    simpl in H. inversion H as [| ? ? Hx Hn]; subst.
    destruct Ha as [<- | Ha].
    + intros Hin. apply Hx. apply in_or_app. right. exact Hin.
    + exact (IH Hn a Ha).
  - intros [H1 [H2 H3]]. apply NoDup_app; assumption.
Qed.

Lemma NoDup_replace_middle {A : Type} (a x x' c : list A) :
  NoDup (a ++ x ++ c) -> NoDup x' ->
  (forall i, In i x' -> In i x \/ (~ In i a /\ ~ In i c)) ->
  NoDup (a ++ x' ++ c).
Proof.
  intros H Hx' Hin.
  apply NoDup_app_iff in H. destruct H as [Ha [Hxc Hd]].
  apply NoDup_app_iff in Hxc. destruct Hxc as [Hx [Hc Hd']].
  apply NoDup_app_iff. split; [exact Ha |]. split.
  - apply NoDup_app_iff. split; [exact Hx' |]. split; [exact Hc |].
    intros i Hi Hic. destruct (Hin i Hi) as [Hix | [_ Hnc]].
    + exact (Hd' i Hix Hic).
    + exact (Hnc Hic).
  - intros i Hia Hi. apply in_app_or in Hi. destruct Hi as [Hi | Hi].
    + destruct (Hin i Hi) as [Hix | [Hna _]].
      * apply (Hd i Hia). apply in_or_app. left. exact Hix.
      * exact (Hna Hia).
    + apply (Hd i Hia). apply in_or_app. right. exact Hi.
Qed.

(** ** The edge that a rune selects *)

Lemma owns_edges_lookup (h : heap.store) (r : rune)
      (es : list (rune * heap.ptr)) (cs : list (rune * node))
      (Ns Ms : list (list nat)) :
  owns_edges h es cs Ns Ms ->
  match runemap.lookup r es with
  | Some p =>
    exists es1 es2 cs1 cs2 Ns1 Ns2 Ms1 Ms2 l y N1 M1,
      p = Some l /\
      es = es1 ++ (r, Some l) :: es2 /\ cs = cs1 ++ (r, y) :: cs2 /\
      Ns = Ns1 ++ N1 :: Ns2 /\ Ms = Ms1 ++ M1 :: Ms2 /\
      owns_edges h es1 cs1 Ns1 Ms1 /\ owns h l y N1 M1 /\
      owns_edges h es2 cs2 Ns2 Ms2 /\
      runemap.lookup r cs = Some y /\
      (forall y', runemap.store r y' cs = cs1 ++ (r, y') :: cs2) /\
      (forall p', runemap.store r p' es = es1 ++ (r, p') :: es2) /\
      runemap.remove r cs = cs1 ++ runemap.remove r cs2 /\
      runemap.remove r es = es1 ++ runemap.remove r es2
  | None =>
    runemap.lookup r cs = None /\
    (forall y', runemap.store r y' cs = cs ++ [(r, y')]) /\
    (forall p', runemap.store r p' es = es ++ [(r, p')])
  end.
Proof.
  intros H. induction H as [| r0 l y es cs N1 M1 Ns Ms Hy H IH].
  - simpl. split; [reflexivity |]. split; reflexivity.
  - simpl. destruct (r =? r0) eqn:E.
    + apply Z.eqb_eq in E. subst r0.
      exists [], es, [], cs, [], Ns, [], Ms, l, y, N1, M1.
      split; [reflexivity |]. split; [reflexivity |].
      split; [reflexivity |]. split; [reflexivity |].
      split; [reflexivity |]. split; [constructor |].
      split; [exact Hy |]. split; [exact H |].
      split; [reflexivity |]. split; [intros; reflexivity |].
      split; [intros; reflexivity |]. split; reflexivity.
    + destruct (runemap.lookup r es) as [p |].
      * destruct IH as [es1 [es2 [cs1 [cs2 [Ns1 [Ns2 [Ms1 [Ms2 [l' [y' [N1' [M1'
          [Ep [Ees [Ecs [ENs [EMs [H1 [Hy' [H2 [L [S1 [S2 [R1 R2]]]]]]]]]]]]]]]]]]]]]]]].
        exists ((r0, Some l) :: es1), es2, ((r0, y) :: cs1), cs2,
          (N1 :: Ns1), Ns2, (M1 :: Ms1), Ms2, l', y', N1', M1'.
        subst. simpl.
        split; [reflexivity |]. split; [reflexivity |].
        split; [reflexivity |]. split; [reflexivity |].
        split; [reflexivity |]. split; [constructor; assumption |].
        split; [exact Hy' |]. split; [exact H2 |].
        split; [exact L |].
        split; [intros y0; rewrite S1; reflexivity |].
        split; [intros p0; rewrite S2; reflexivity |].
        split; [rewrite R1 | rewrite R2]; reflexivity.
      * destruct IH as [L [S1 S2]]. split; [exact L |].
        split; [intros y0; rewrite S1 | intros p0; rewrite S2]; reflexivity.
Qed.

(** ** [Set] *)

Lemma Set_from_nil (kv : KV) (h : heap.store) (l : nat) (x : node)
      (N M : list nat) :
  owns h l x N M -> NoDup N -> NoDup M ->
  exists h',
    Set_from (Some l) [] kv h = (h', Ok tt) /\
    owns h' l (Set_walk x [] kv) N M /\
    changes_within N M h h'.
Proof.
  intros Hown HN HM.
  inversion Hown as [l0 c m es dt cs Ns Ms Hn Hk Hc Hm He]; subst.
  pose proof (proj1 (nth_error_Some (heap.nodes h) l)
                    ltac:(congruence)) as Hl.
  exists (heap.mkStore
            (set_nth (heap.nodes h) l
                     (heap.mkNode (heap.child c)
                                  (Some (List.length (heap.kvs h)))))
            (heap.maps h) (heap.kvs h ++ [kv]) (heap.arrays h)).
  split; [| split].
  - unfold Set_from. cbn [heap.Set_walk]. rewrite mbind_ret.
    unfold heap.mbind, heap.new_kv, heap.set_data. cbn [heap.nodes].
    rewrite Hn. reflexivity.
  - cbn [Set_walk child].
    eapply (owns_node _ l _ m es (Some kv) cs Ns Ms).
    + cbn [heap.nodes]. apply nth_error_set_nth_same. exact Hl.
    + cbn [heap.data kv_at heap.kvs]. split; [discriminate |].
      rewrite nth_error_app2 by lia. rewrite Nat.sub_diag. reflexivity.
    + exact Hc.
    + exact Hm.
    + apply (owns_edges_frame h); [exact He |].
      inversion HN as [| ? ? Hnl _]; subst.
      split; [| split].
      * intros i c0 Hi E. cbn [heap.nodes].
        rewrite nth_error_set_nth_other; [exact E |].
        intros ->. exact (Hnl Hi).
      * intros j es0 _ E. exact E.
      * intros q kv0 E. cbn [heap.kvs]. rewrite nth_error_app1; [exact E |].
        apply nth_error_Some. congruence.
  - split; [| split; [| split]].
    + intros i c0 Hi E. cbn [heap.nodes].
      rewrite nth_error_set_nth_other; [exact E |].
      intros ->. apply Hi. left. reflexivity.
    + intros j es0 _ E. exact E.
    + intros q kv0 E. cbn [heap.kvs]. rewrite nth_error_app1; [exact E |].
      apply nth_error_Some. congruence.
    + reflexivity.
Qed.

Lemma Set_from_cons (kv : KV) (h : heap.store) (l : nat) (c : heap.node)
      (m : nat) (es : list (rune * heap.ptr)) (r : rune) (rs : list rune) :
  nth_error (heap.nodes h) l = Some c -> heap.child c = Some m ->
  nth_error (heap.maps h) m = Some es ->
  Set_from (Some l) (r :: rs) kv h =
  match runemap.lookup r es with
  | Some n' => Set_from n' rs kv h
  | None => Set_from (Some (List.length (heap.nodes h))) rs kv
                     (grown h m r es)
  end.
Proof.
  intros Hn Hc Hm. unfold Set_from. cbn [heap.Set_walk].
  rewrite !mbind_assoc. unfold heap.mbind at 1. unfold heap.deref_node.
  rewrite Hn. rewrite mbind_assoc. unfold heap.mbind at 1.
  unfold heap.entries. rewrite Hc, Hm.
  destruct (runemap.lookup r es) as [n' |]; [reflexivity |].
  rewrite !mbind_assoc. unfold heap.mbind at 1. unfold heap.new_map.
  rewrite !mbind_assoc. unfold heap.mbind at 1. unfold heap.new_node.
  cbn [heap.nodes heap.maps heap.kvs heap.arrays].
  rewrite !mbind_assoc. unfold heap.mbind at 1. unfold heap.map_assign.
  cbn [heap.nodes heap.maps heap.kvs heap.arrays].
  rewrite nth_error_app1 by (apply nth_error_Some; congruence).
  rewrite Hm. reflexivity.
Qed.

Lemma Set_from_owns (kv : KV) :
  forall (rs : list rune) (h : heap.store) (l : nat) (x : node)
         (N M : list nat),
    owns h l x N M -> NoDup N -> NoDup M ->
    exists h' N' M',
      Set_from (Some l) rs kv h = (h', Ok tt) /\
      owns h' l (Set_walk x rs kv) N' M' /\ NoDup N' /\ NoDup M' /\
      changes_within N M h h' /\
      (forall i, In i N' ->
                 In i N \/ (List.length (heap.nodes h) <= i)%nat) /\
      (forall j, In j M' ->
                 In j M \/ (List.length (heap.maps h) <= j)%nat).
Proof.
  induction rs as [| r rs IH]; intros h l x N M Hown HN HM.
  - destruct (Set_from_nil kv h l x N M Hown HN HM) as [h' [E [O C]]].
    exists h', N, M. split; [exact E |]. split; [exact O |].
    split; [exact HN |]. split; [exact HM |]. split; [exact C |].
    split; intros i Hi; left; exact Hi.
  - pose proof (owns_bounds _ _ _ _ _ Hown) as [BN BM].
    inversion Hown as [l0 c m es dt cs Ns Ms Hn Hk Hc Hm He]; subst.
    rewrite (Set_from_cons kv h l c m es r rs Hn Hc Hm).
    pose proof (owns_edges_lookup h r es cs Ns Ms He) as HL.
    cbn [Set_walk child data].
    destruct (runemap.lookup r es) as [p |].
    + destruct HL as (es1 & es2 & cs1 & cs2 & Ns1 & Ns2 & Ms1 & Ms2 & l' & y
                      & N1 & M1 & Ep & Ees & Ecs & ENs & EMs & H1 & Hy & H2
                      & L & S1 & S2 & _).
      subst p es cs Ns Ms. rewrite L, S1.
      rewrite concat_app, concat_cons in HN, HM, BN, BM.
      assert (HN' : NoDup ((l :: List.concat Ns1) ++ N1 ++ List.concat Ns2))
        by exact HN.
      assert (HM' : NoDup ((m :: List.concat Ms1) ++ M1 ++ List.concat Ms2))
        by exact HM.
      pose proof HN' as HNs. apply NoDup_app_iff in HNs.
      destruct HNs as [HNa [HNb HNd]].
      apply NoDup_app_iff in HNb. destruct HNb as [HN1 [HNc HNd']].
      pose proof HM' as HMs. apply NoDup_app_iff in HMs.
      destruct HMs as [HMa [HMb HMd]].
      apply NoDup_app_iff in HMb. destruct HMb as [HM1 [HMc HMd']].
      destruct (IH h l' y N1 M1 Hy HN1 HM1)
        as (h' & N1' & M1' & E & O & ND1 & MD1 & (C1 & C2 & C3 & C4)
            & F1 & F2).
      exists h', (l :: List.concat (Ns1 ++ N1' :: Ns2)),
        (m :: List.concat (Ms1 ++ M1' :: Ms2)).
      assert (Hl1 : ~ In l N1).
      { intros Hi. apply (HNd l); [left; reflexivity |].
        apply in_or_app. left. exact Hi. }
      assert (Hm1 : ~ In m M1).
      { intros Hi. apply (HMd m); [left; reflexivity |].
        apply in_or_app. left. exact Hi. }
      split; [exact E |]. split; [| split; [| split; [| split; [| split]]]].
      * eapply (owns_node h' l c m (es1 ++ (r, Some l') :: es2) dt).
        -- exact (C1 l c Hl1 Hn).
        -- exact (kv_at_agree _ _ _ _ C3 Hk).
        -- exact Hc.
        -- exact (C2 m _ Hm1 Hm).
        -- apply owns_edges_app.
           ++ apply (owns_edges_frame h); [exact H1 |].
              split; [| split; [| exact C3]].
              ** intros i c0 Hi. apply C1. intros Hi1.
                 apply (HNd i); [right; exact Hi |].
                 apply in_or_app. left. exact Hi1.
              ** intros j es0 Hj. apply C2. intros Hj1.
                 apply (HMd j); [right; exact Hj |].
                 apply in_or_app. left. exact Hj1.
           ++ constructor; [exact O |].
              apply (owns_edges_frame h); [exact H2 |].
              split; [| split; [| exact C3]].
              ** intros i c0 Hi. apply C1. intros Hi1.
                 exact (HNd' i Hi1 Hi).
              ** intros j es0 Hj. apply C2. intros Hj1.
                 exact (HMd' j Hj1 Hj).
      * rewrite concat_app, concat_cons.
        change (NoDup ((l :: List.concat Ns1) ++ N1' ++ List.concat Ns2)).
        apply (NoDup_replace_middle _ N1); [exact HN' | exact ND1 |].
        intros i Hi. destruct (F1 i Hi) as [Hi1 | Hfresh]; [left; exact Hi1 |].
        right. split; intros Hin.
        -- assert (i < List.length (heap.nodes h))%nat; [| lia].
           apply BN. destruct Hin as [<- | Hin]; [left; reflexivity |].
           right. apply in_or_app. left. exact Hin.
        -- assert (i < List.length (heap.nodes h))%nat; [| lia].
           apply BN. right. apply in_or_app. right.
           apply in_or_app. right. exact Hin.
      * rewrite concat_app, concat_cons.
        change (NoDup ((m :: List.concat Ms1) ++ M1' ++ List.concat Ms2)).
        apply (NoDup_replace_middle _ M1); [exact HM' | exact MD1 |].
        intros i Hi. destruct (F2 i Hi) as [Hi1 | Hfresh]; [left; exact Hi1 |].
        right. split; intros Hin.
        -- assert (i < List.length (heap.maps h))%nat; [| lia].
           apply BM. destruct Hin as [<- | Hin]; [left; reflexivity |].
           right. apply in_or_app. left. exact Hin.
        -- assert (i < List.length (heap.maps h))%nat; [| lia].
           apply BM. right. apply in_or_app. right.
           apply in_or_app. right. exact Hin.
      * split; [| split; [| split; [exact C3 | exact C4]]].
        -- intros i c0 Hi. rewrite concat_app, concat_cons in Hi.
           apply C1. intros Hi1. apply Hi. right.
           apply in_or_app. right. apply in_or_app. left. exact Hi1.
        -- intros j es0 Hj. rewrite concat_app, concat_cons in Hj.
           apply C2. intros Hj1. apply Hj. right.
           apply in_or_app. right. apply in_or_app. left. exact Hj1.
      * intros i Hi. rewrite concat_app, concat_cons in Hi.
        rewrite concat_app, concat_cons.
        destruct Hi as [<- | Hi]; [left; left; reflexivity |].
        apply in_app_or in Hi. destruct Hi as [Hi | Hi].
        { left. right. apply in_or_app. left. exact Hi. }
        apply in_app_or in Hi. destruct Hi as [Hi | Hi].
        { destruct (F1 i Hi) as [Hi1 | Hf]; [| right; exact Hf].
          left. right. apply in_or_app. right. apply in_or_app. left.
          exact Hi1. }
        left. right. apply in_or_app. right. apply in_or_app. right.
        exact Hi.
      * intros i Hi. rewrite concat_app, concat_cons in Hi.
        rewrite concat_app, concat_cons.
        destruct Hi as [<- | Hi]; [left; left; reflexivity |].
        apply in_app_or in Hi. destruct Hi as [Hi | Hi].
        { left. right. apply in_or_app. left. exact Hi. }
        apply in_app_or in Hi. destruct Hi as [Hi | Hi].
        { destruct (F2 i Hi) as [Hi1 | Hf]; [| right; exact Hf].
          left. right. apply in_or_app. right. apply in_or_app. left.
          exact Hi1. }
        left. right. apply in_or_app. right. apply in_or_app. right.
        exact Hi.
    + destruct HL as (L & S1 & S2). rewrite L, S1.
      set (z := List.length (heap.nodes h)) in *.
      set (mn := List.length (heap.maps h)) in *.
      set (h1 := grown h m r es).
      assert (Hlz : (l < z)%nat) by (apply BN; left; reflexivity).
      assert (Hmm : (m < mn)%nat) by (apply BM; left; reflexivity).
      assert (Hnodes1 : forall i c0, nth_error (heap.nodes h) i = Some c0 ->
                                     nth_error (heap.nodes h1) i = Some c0).
      { intros i c0 Ei. unfold h1, grown. cbn [heap.nodes].
        rewrite nth_error_app1; [exact Ei |].
        apply nth_error_Some. congruence. }
      assert (Hmaps1 : forall j es0, j <> m ->
                                     nth_error (heap.maps h) j = Some es0 ->
                                     nth_error (heap.maps h1) j = Some es0).
      { intros j es0 Hj Ej. unfold h1, grown. cbn [heap.maps].
        rewrite nth_error_set_nth_other by exact Hj.
        rewrite nth_error_app1; [exact Ej |].
        apply nth_error_Some. congruence. }
      assert (Hmap_m : nth_error (heap.maps h1) m
                       = Some (es ++ [(r, Some z)])).
      { unfold h1, grown. cbn [heap.maps]. rewrite S2.
        apply nth_error_set_nth_same. rewrite length_app. simpl.
        fold mn. lia. }
      assert (Hz : owns h1 z (Node None []) [z] [mn]).
      { apply (owns_node h1 z (heap.mkNode (Some mn) None) mn [] None []
                         [] []).
        - unfold h1, grown. cbn [heap.nodes].
          rewrite nth_error_app2 by (fold z; lia). fold z.
          rewrite Nat.sub_diag. reflexivity.
        - reflexivity.
        - reflexivity.
        - unfold h1, grown. cbn [heap.maps].
          rewrite nth_error_set_nth_other by lia.
          rewrite nth_error_app2 by (fold mn; lia). fold mn.
          rewrite Nat.sub_diag. reflexivity.
        - constructor. }
      assert (NDz : NoDup [z]) by (constructor; [intros [] | constructor]).
      assert (NDm : NoDup [mn]) by (constructor; [intros [] | constructor]).
      destruct (IH h1 z (Node None []) [z] [mn] Hz NDz NDm)
        as (h' & N0' & M0' & E & O & ND1 & MD1 & (C1 & C2 & C3 & C4)
            & F1 & F2).
      assert (Hlen1 : List.length (heap.nodes h1) = S z)
        by (unfold h1, grown; cbn [heap.nodes]; rewrite length_app;
            simpl; fold z; lia).
      assert (Hlen2 : List.length (heap.maps h1) = S mn)
        by (unfold h1, grown; cbn [heap.maps];
            rewrite length_set_nth, length_app; simpl; fold mn; lia).
      assert (FN : forall i, In i N0' -> (z <= i)%nat).
      { intros i Hi. destruct (F1 i Hi) as [[<- | []] | Hf]; lia. }
      assert (FM : forall j, In j M0' -> (mn <= j)%nat).
      { intros j Hj. destruct (F2 j Hj) as [[<- | []] | Hf]; lia. }
      assert (Cn : forall i c0, (i < z)%nat ->
                                nth_error (heap.nodes h) i = Some c0 ->
                                nth_error (heap.nodes h') i = Some c0).
      { intros i c0 Hi Ei. apply C1; [| exact (Hnodes1 _ _ Ei)].
        intros [<- | []]. lia. }
      assert (Cm : forall j es0, (j < mn)%nat -> j <> m ->
                                 nth_error (heap.maps h) j = Some es0 ->
                                 nth_error (heap.maps h') j = Some es0).
      { intros j es0 Hj Hjm Ej. apply C2; [| exact (Hmaps1 _ _ Hjm Ej)].
        intros [<- | []]. lia. }
      inversion HM as [| ? ? HmM _]; subst.
      exists h', (l :: List.concat (Ns ++ [N0'])),
        (m :: List.concat (Ms ++ [M0'])).
      split; [exact E |]. split; [| split; [| split; [| split; [| split]]]].
      * eapply (owns_node h' l c m (es ++ [(r, Some z)]) dt).
        -- exact (Cn l c Hlz Hn).
        -- exact (kv_at_agree h h' _ _ C3 Hk).
        -- exact Hc.
        -- apply C2; [| exact Hmap_m]. intros [<- | []]. lia.
        -- apply owns_edges_app.
           ++ apply (owns_edges_frame h); [exact He |].
              split; [| split; [| exact C3]].
              ** intros i c0 Hi. apply Cn. apply BN. right. exact Hi.
              ** intros j es0 Hj. apply Cm.
                 --- apply BM. right. exact Hj.
                 --- intros ->. exact (HmM Hj).
           ++ constructor; [exact O | constructor].
      * rewrite concat_app. simpl. rewrite app_nil_r.
        change (NoDup ((l :: List.concat Ns) ++ N0')).
        apply NoDup_app; [exact HN | exact ND1 |].
        intros i Hi Hi'. pose proof (BN i Hi). pose proof (FN i Hi'). lia.
      * rewrite concat_app. simpl. rewrite app_nil_r.
        change (NoDup ((m :: List.concat Ms) ++ M0')).
        apply NoDup_app; [exact HM | exact MD1 |].
        intros j Hj Hj'. pose proof (BM j Hj). pose proof (FM j Hj'). lia.
      * split; [| split; [| split; [exact C3 | exact C4]]].
        -- intros i c0 _ Ei. apply Cn; [| exact Ei].
           apply nth_error_Some. congruence.
        -- intros j es0 Hj Ej. apply Cm; [| | exact Ej].
           ++ apply nth_error_Some. congruence.
           ++ intros ->. apply Hj. left. reflexivity.
      * intros i Hi. rewrite concat_app in Hi. simpl in Hi.
        rewrite app_nil_r in Hi.
        destruct Hi as [<- | Hi]; [left; left; reflexivity |].
        apply in_app_or in Hi. destruct Hi as [Hi | Hi].
        -- left. right. exact Hi.
        -- right. exact (FN i Hi).
      * intros j Hj. rewrite concat_app in Hj. simpl in Hj.
        rewrite app_nil_r in Hj.
        destruct Hj as [<- | Hj]; [left; left; reflexivity |].
        apply in_app_or in Hj. destruct Hj as [Hj | Hj].
        -- left. right. exact Hj.
        -- right. exact (FM j Hj).
Qed.

Lemma wf_rep (h : heap.store) (t : heap.Trie) (x : node) :
  wf h t x -> rep_ptr h (heap.root t) x.
Proof.
  intros (l & N & M & -> & O & _). exact (owns_rep _ _ _ _ _ O).
Qed.

Lemma run_Set (h : heap.store) (t : heap.Trie) (x : node)
      (key val : string) :
  wf h t x ->
  exists h',
    heap.Set_ t key val h = (h', Ok tt) /\
    wf h' t (root (Set_ (mkTrie x) key val)) /\
    heap.arrays h' = heap.arrays h.
Proof.
  intros (l & N & M & El & O & HN & HM).
  destruct (Set_from_owns (mkKV key val) (extractRunes key) h l x N M
                          O HN HM)
    as (h' & N' & M' & E & O' & HN' & HM' & (_ & _ & _ & C4) & _).
  exists h'. split; [| split; [| exact C4]].
  - unfold heap.Set_. rewrite El. exact E.
  - exists l, N', M'. split; [exact El |].
    split; [exact O' |]. split; assumption.
Qed.

Lemma run_New (h : heap.store) :
  exists h' t,
    heap.New h = (h', Ok t) /\ wf h' t (root New) /\
    heap.arrays h' = heap.arrays h.
Proof.
  eexists _, _. split; [reflexivity |]. split; [| reflexivity].
  exists (List.length (heap.nodes h)), [List.length (heap.nodes h)],
    [List.length (heap.maps h)].
  split; [reflexivity |]. split; [| split].
  - apply (owns_node _ _ (heap.mkNode (Some (List.length (heap.maps h)))
                                      None)
                     (List.length (heap.maps h)) [] None [] [] []).
    + cbn [heap.nodes]. rewrite nth_error_app2 by lia.
      rewrite Nat.sub_diag. reflexivity.
    + reflexivity.
    + reflexivity.
    + cbn [heap.maps]. rewrite nth_error_app2 by lia.
      rewrite Nat.sub_diag. reflexivity.
    + constructor.
  - constructor; [intros [] | constructor].
  - constructor; [intros [] | constructor].
Qed.

(** ** Changes in place *)

Lemma owns_update (f : node -> node) :
  forall (path : list rune) (h : heap.store) (l : nat) (x : node)
         (N M : list nat) (ly : nat) (y : node),
    owns h l x N M -> NoDup N -> NoDup M ->
    locate h l path = Some ly -> descend x path = Some y ->
    exists Ny My,
      owns h ly y Ny My /\ NoDup Ny /\ NoDup My /\
      incl Ny N /\ incl My M /\
      forall h' Ny' My',
        owns h' ly (f y) Ny' My' -> NoDup Ny' -> NoDup My' ->
        changes_within Ny My h h' -> incl Ny' Ny -> incl My' My ->
        exists N' M',
          owns h' l (update x path f) N' M' /\ NoDup N' /\ NoDup M' /\
          incl N' N /\ incl M' M.
Proof.
  induction path as [| r path IH]; intros h l x N M ly y Hown HN HM Hloc Hd.
  - simpl in Hloc, Hd. injection Hloc as <-. injection Hd as <-.
    exists N, M. split; [exact Hown |]. split; [exact HN |].
    split; [exact HM |]. split; [apply incl_refl |].
    split; [apply incl_refl |].
    intros h' Ny' My' O ND MD _ I1 I2. exists Ny', My'. simpl.
    split; [exact O |]. split; [exact ND |]. split; [exact MD |].
    split; assumption.
  - inversion Hown as [l0 c m es dt cs Ns Ms Hn Hk Hc Hm He]; subst.
    cbn [locate] in Hloc. rewrite Hn in Hloc. unfold entries_of in Hloc.
    rewrite Hc, (nth_error_nth _ _ _ Hm) in Hloc.
    cbn [descend child] in Hd.
    pose proof (owns_edges_lookup h r es cs Ns Ms He) as HL.
    destruct (runemap.lookup r es) as [p |]; [| discriminate].
    destruct HL as (es1 & es2 & cs1 & cs2 & Ns1 & Ns2 & Ms1 & Ms2 & l' & y1
                    & N1 & M1 & Ep & Ees & Ecs & ENs & EMs & H1 & Hy & H2
                    & L & S1 & S2 & _).
    subst p es cs Ns Ms. rewrite L in Hd.
    rewrite concat_app, concat_cons in HN, HM.
    assert (HN' : NoDup ((l :: List.concat Ns1) ++ N1 ++ List.concat Ns2))
      by exact HN.
    assert (HM' : NoDup ((m :: List.concat Ms1) ++ M1 ++ List.concat Ms2))
      by exact HM.
    pose proof HN' as HNs. apply NoDup_app_iff in HNs.
    destruct HNs as [HNa [HNb HNd]].
    apply NoDup_app_iff in HNb. destruct HNb as [HN1 [HNc HNd']].
    pose proof HM' as HMs. apply NoDup_app_iff in HMs.
    destruct HMs as [HMa [HMb HMd]].
    apply NoDup_app_iff in HMb. destruct HMb as [HM1 [HMc HMd']].
    destruct (IH h l' y1 N1 M1 ly y Hy HN1 HM1 Hloc Hd)
      as (Ny & My & Oy & NDy & MDy & Iy & Jy & K).
    exists Ny, My. split; [exact Oy |]. split; [exact NDy |].
    split; [exact MDy |].
    assert (IN : incl N1 (l :: List.concat (Ns1 ++ N1 :: Ns2))).
    { intros i Hi. rewrite concat_app, concat_cons. right.
      apply in_or_app. right. apply in_or_app. left. exact Hi. }
    assert (IM : incl M1 (m :: List.concat (Ms1 ++ M1 :: Ms2))).
    { intros i Hi. rewrite concat_app, concat_cons. right.
      apply in_or_app. right. apply in_or_app. left. exact Hi. }
    split; [exact (incl_tran Iy IN) |]. split; [exact (incl_tran Jy IM) |].
    intros h' Ny' My' O' ND' MD' (C1 & C2 & C3 & C4) I1 I2.
    destruct (K h' Ny' My' O' ND' MD' (conj C1 (conj C2 (conj C3 C4))) I1 I2)
      as (N1' & M1' & O1 & ND1 & MD1 & I1' & I2').
    exists (l :: List.concat (Ns1 ++ N1' :: Ns2)),
      (m :: List.concat (Ms1 ++ M1' :: Ms2)).
    cbn [update child data]. rewrite L, S1.
    assert (Hl1 : ~ In l Ny).
    { intros Hi. apply (HNd l); [left; reflexivity |].
      apply in_or_app. left. exact (Iy _ Hi). }
    assert (Hm1 : ~ In m My).
    { intros Hi. apply (HMd m); [left; reflexivity |].
      apply in_or_app. left. exact (Jy _ Hi). }
    split; [| split; [| split; [| split]]].
    + eapply (owns_node h' l c m (es1 ++ (r, Some l') :: es2) dt).
      * exact (C1 l c Hl1 Hn).
      * exact (kv_at_agree _ _ _ _ C3 Hk).
      * exact Hc.
      * exact (C2 m _ Hm1 Hm).
      * apply owns_edges_app.
        -- apply (owns_edges_frame h); [exact H1 |].
           split; [| split; [| exact C3]].
           ++ intros i c0 Hi. apply C1. intros Hi1.
              apply (HNd i); [right; exact Hi |].
              apply in_or_app. left. exact (Iy _ Hi1).
           ++ intros j es0 Hj. apply C2. intros Hj1.
              apply (HMd j); [right; exact Hj |].
              apply in_or_app. left. exact (Jy _ Hj1).
        -- constructor; [exact O1 |].
           apply (owns_edges_frame h); [exact H2 |].
           split; [| split; [| exact C3]].
           ++ intros i c0 Hi. apply C1. intros Hi1.
              exact (HNd' i (Iy _ Hi1) Hi).
           ++ intros j es0 Hj. apply C2. intros Hj1.
              exact (HMd' j (Jy _ Hj1) Hj).
    + rewrite concat_app, concat_cons.
      change (NoDup ((l :: List.concat Ns1) ++ N1' ++ List.concat Ns2)).
      apply (NoDup_replace_middle _ N1); [exact HN' | exact ND1 |].
      intros i Hi. left. exact (I1' _ Hi).
    + rewrite concat_app, concat_cons.
      change (NoDup ((m :: List.concat Ms1) ++ M1' ++ List.concat Ms2)).
      apply (NoDup_replace_middle _ M1); [exact HM' | exact MD1 |].
      intros i Hi. left. exact (I2' _ Hi).
    + intros i Hi. rewrite concat_app, concat_cons in Hi.
      rewrite concat_app, concat_cons.
      destruct Hi as [<- | Hi]; [left; reflexivity |]. right.
      apply in_app_or in Hi. destruct Hi as [Hi | Hi];
        [apply in_or_app; left; exact Hi |].
      apply in_or_app. right.
      apply in_app_or in Hi. destruct Hi as [Hi | Hi].
      * apply in_or_app. left. exact (I1' _ Hi).
      * apply in_or_app. right. exact Hi.
    + intros i Hi. rewrite concat_app, concat_cons in Hi.
      rewrite concat_app, concat_cons.
      destruct Hi as [<- | Hi]; [left; reflexivity |]. right.
      apply in_app_or in Hi. destruct Hi as [Hi | Hi];
        [apply in_or_app; left; exact Hi |].
      apply in_or_app. right.
      apply in_app_or in Hi. destruct Hi as [Hi | Hi].
      * apply in_or_app. left. exact (I2' _ Hi).
      * apply in_or_app. right. exact Hi.
Qed.

(** ** [Delete] *)

Lemma owns_edges_length (h : heap.store) (es : list (rune * heap.ptr))
      (cs : list (rune * node)) (Ns Ms : list (list nat)) :
  owns_edges h es cs Ns Ms -> List.length es = List.length cs.
Proof.
  intros H. induction H; simpl; [reflexivity | congruence].
Qed.

Lemma locate_app (h : heap.store) (p q : list rune) :
  forall l,
    locate h l (p ++ q) =
    match locate h l p with
    | Some l' => locate h l' q
    | None => None
    end.
Proof.
  induction p as [| r p IH]; intros l; [reflexivity |].
  cbn [app locate]. destruct (nth_error (heap.nodes h) l) as [c |];
    [| reflexivity].
  destruct (runemap.lookup r (entries_of h (heap.child c))) as [[l' |] |];
    [apply IH | reflexivity | reflexivity].
Qed.

Lemma run_Delete_walk (h : heap.store) (l0 : nat) :
  forall (rs : list rune) (l : nat) (x : node) (N M : list nat)
         (here : list rune) (cut : option (list rune * rune))
         (cnode : heap.ptr) (crune : rune),
    owns h l x N M -> locate h l0 here = Some l ->
    cut_rel h l0 cut cnode crune ->
    match Delete_walk x here rs cut with
    | Some (n, cut') =>
      exists ln cnode' crune',
        heap.Delete_walk (Some l) rs cnode crune h
        = (h, Ok (Some (Some ln, cnode', crune'))) /\
        locate h l0 (here ++ rs) = Some ln /\
        cut_rel h l0 cut' cnode' crune'
    | None => heap.Delete_walk (Some l) rs cnode crune h = (h, Ok None)
    end.
Proof.
  induction rs as [| r rs IH];
    intros l x N M here cut cnode crune Hown Hloc Hcut.
  - simpl. exists l, cnode, crune. split; [reflexivity |].
    rewrite app_nil_r. split; assumption.
  - inversion Hown as [l1 c m es dt cs Ns Ms Hn Hk Hc Hm He]; subst.
    cbn [Delete_walk child heap.Delete_walk].
    assert (Hent : entries_of h (heap.child c) = es)
      by (unfold entries_of; rewrite Hc; exact (nth_error_nth _ _ _ Hm)).
    assert (Hstep : forall (k : heap.node -> heap.M (option (heap.ptr * heap.ptr * rune))),
               heap.mbind (heap.deref_node (Some l)) k h = k c h).
    { intros k. unfold heap.mbind, heap.deref_node. rewrite Hn.
      reflexivity. }
    rewrite Hstep, mbind_entries, Hent.
    assert (Hlen : len es = len cs)
      by (unfold len; rewrite (owns_edges_length _ _ _ _ _ He); reflexivity).
    rewrite Hlen.
    assert (Hnone : match cnode with None => true | Some _ => false end
                    = match cut with None => true | Some _ => false end).
    { destruct cut as [[cp cr] |]; simpl in Hcut.
      - destruct Hcut as (lc & -> & _). reflexivity.
      - rewrite Hcut. reflexivity. }
    rewrite Hnone.
    set (b := (1 <? len cs) ||
              match cut with None => true | Some _ => false end).
    pose proof (owns_edges_lookup h r es cs Ns Ms He) as HL.
    destruct (runemap.lookup r es) as [p |] eqn:El.
    + destruct HL as (es1 & es2 & cs1 & cs2 & Ns1 & Ns2 & Ms1 & Ms2 & l' & y
                      & N1 & M1 & Ep & Ees & Ecs & ENs & EMs & H1 & Hy & H2
                      & L & _).
      rewrite L. subst p.
      assert (Hloc' : locate h l0 (here ++ [r]) = Some l').
      { rewrite locate_app, Hloc. cbn [locate]. rewrite Hn, Hent, El.
        reflexivity. }
      destruct b.
      * assert (Hcut' : cut_rel h l0 (Some (here, r)) (Some l) r).
        { exists l. split; [reflexivity |].
          split; [exact Hloc | reflexivity]. }
        specialize (IH l' y N1 M1 (here ++ [r]) (Some (here, r)) (Some l) r
                       Hy Hloc' Hcut').
        rewrite <- app_assoc in IH. exact IH.
      * specialize (IH l' y N1 M1 (here ++ [r]) cut cnode crune
                       Hy Hloc' Hcut).
        rewrite <- app_assoc in IH. exact IH.
    + destruct HL as (L & _). rewrite L. destruct b; reflexivity.
Qed.

Lemma NoDup_app_incl_r {A : Type} (a b b' : list A) :
  NoDup (a ++ b) -> NoDup b' -> incl b' b -> NoDup (a ++ b').
Proof.
  intros H Hb' Hi. apply NoDup_app_iff in H. destruct H as [Ha [_ Hd]].
  apply NoDup_app; [exact Ha | exact Hb' |].
  intros x Hx Hx'. exact (Hd x Hx (Hi _ Hx')).
Qed.

Lemma owns_edges_remove (h : heap.store) (r : rune)
      (es : list (rune * heap.ptr)) (cs : list (rune * node))
      (Ns Ms : list (list nat)) :
  owns_edges h es cs Ns Ms ->
  exists Ns' Ms',
    owns_edges h (runemap.remove r es) (runemap.remove r cs) Ns' Ms' /\
    incl (List.concat Ns') (List.concat Ns) /\
    incl (List.concat Ms') (List.concat Ms) /\
    (NoDup (List.concat Ns) -> NoDup (List.concat Ns')) /\
    (NoDup (List.concat Ms) -> NoDup (List.concat Ms')).
Proof.
  intros H. induction H as [| r0 l y es cs N1 M1 Ns Ms Hy H IH].
  - exists [], []. simpl. split; [constructor |].
    split; [apply incl_refl |]. split; [apply incl_refl |].
    split; trivial.
  - destruct IH as (Ns' & Ms' & O & I1 & I2 & D1 & D2).
    simpl. destruct (r =? r0).
    + exists Ns', Ms'. split; [exact O |].
      split; [intros i Hi; apply in_or_app; right; exact (I1 _ Hi) |].
      split; [intros i Hi; apply in_or_app; right; exact (I2 _ Hi) |].
      split; intros Hd.
      * apply D1. exact (NoDup_app_remove_l _ _ Hd).
      * apply D2. exact (NoDup_app_remove_l _ _ Hd).
    + exists (N1 :: Ns'), (M1 :: Ms'). split; [constructor; assumption |].
      simpl.
      split; [intros i Hi; apply in_app_or in Hi; apply in_or_app;
              destruct Hi as [Hi | Hi]; [left; exact Hi
                                        | right; exact (I1 _ Hi)] |].
      split; [intros i Hi; apply in_app_or in Hi; apply in_or_app;
              destruct Hi as [Hi | Hi]; [left; exact Hi
                                        | right; exact (I2 _ Hi)] |].
      split; intros Hd.
      * apply (NoDup_app_incl_r _ (List.concat Ns)); [exact Hd | | exact I1].
        apply D1. exact (NoDup_app_remove_l _ _ Hd).
      * apply (NoDup_app_incl_r _ (List.concat Ms)); [exact Hd | | exact I2].
        apply D2. exact (NoDup_app_remove_l _ _ Hd).
Qed.

Lemma owns_locate_descend (h : heap.store) :
  forall (path : list rune) (l : nat) (x : node) (N M : list nat) (ly : nat),
    owns h l x N M -> locate h l path = Some ly ->
    exists y, descend x path = Some y.
Proof.
  induction path as [| r path IH]; intros l x N M ly Hown Hloc.
  - exists x. reflexivity.
  - inversion Hown as [l0 c m es dt cs Ns Ms Hn Hk Hc Hm He]; subst.
    cbn [locate] in Hloc. rewrite Hn in Hloc. unfold entries_of in Hloc.
    rewrite Hc, (nth_error_nth _ _ _ Hm) in Hloc.
    pose proof (owns_edges_lookup h r es cs Ns Ms He) as HL.
    destruct (runemap.lookup r es) as [p |]; [| discriminate].
    destruct HL as (es1 & es2 & cs1 & cs2 & Ns1 & Ns2 & Ms1 & Ms2 & l' & y1
                    & N1 & M1 & Ep & Ees & Ecs & ENs & EMs & H1 & Hy & H2
                    & L & _).
    subst p. cbn [descend child]. rewrite L.
    exact (IH l' y1 N1 M1 ly Hy Hloc).
Qed.

Lemma clear_in_place (h : heap.store) (ln : nat) (y : node)
      (Ny My : list nat) :
  owns h ln y Ny My -> NoDup Ny -> NoDup My ->
  exists h1 c,
    heap.set_data (Some ln) None h = (h1, Ok tt) /\
    owns h1 ln (Node None (child y)) Ny My /\
    changes_within Ny My h h1 /\
    nth_error (heap.nodes h1) ln = Some c /\
    len (entries_of h1 (heap.child c)) = len (child y) /\
    (forall l path, locate h1 l path = locate h l path).
Proof.
  intros Hown HN HM.
  inversion Hown as [l0 c m es dt cs Ns Ms Hn Hk Hc Hm He]; subst.
  pose proof (proj1 (nth_error_Some (heap.nodes h) ln)
                    ltac:(congruence)) as Hl.
  set (c' := heap.mkNode (heap.child c) None).
  set (h1 := heap.mkStore (set_nth (heap.nodes h) ln c') (heap.maps h)
                          (heap.kvs h) (heap.arrays h)).
  assert (Hn1 : nth_error (heap.nodes h1) ln = Some c')
    by (apply nth_error_set_nth_same; exact Hl).
  exists h1, c'.
  split; [unfold heap.set_data; rewrite Hn; reflexivity |].
  split; [| split; [| split; [exact Hn1 | split]]].
  - cbn [child]. apply (owns_node h1 ln c' m es None cs Ns Ms).
    + exact Hn1.
    + reflexivity.
    + exact Hc.
    + exact Hm.
    + apply (owns_edges_frame h); [exact He |].
      inversion HN as [| ? ? Hnl _]; subst.
      split; [| split].
      * intros i c0 Hi E. unfold h1. cbn [heap.nodes].
        rewrite nth_error_set_nth_other; [exact E |].
        intros ->. exact (Hnl Hi).
      * intros j es0 _ E. exact E.
      * intros q kv0 E. exact E.
  - split; [| split; [| split]].
    + intros i c0 Hi E. unfold h1. cbn [heap.nodes].
      rewrite nth_error_set_nth_other; [exact E |].
      intros ->. apply Hi. left. reflexivity.
    + intros j es0 _ E. exact E.
    + intros q kv0 E. exact E.
    + reflexivity.
  - cbn [child]. unfold entries_of, c'. cbn [heap.child]. rewrite Hc.
    unfold h1. cbn [heap.maps]. rewrite (nth_error_nth _ _ _ Hm).
    unfold len. rewrite (owns_edges_length _ _ _ _ _ He). reflexivity.
  - intros l path. revert l.
    induction path as [| r path IH]; intros l; [reflexivity |].
    cbn [locate]. unfold h1 at 1. cbn [heap.nodes].
    destruct (Nat.eq_dec l ln) as [-> | Hne].
    + rewrite nth_error_set_nth_same by exact Hl. rewrite Hn.
      unfold c'. cbn [heap.child].
      change (entries_of h1 (heap.child c))
        with (entries_of h (heap.child c)).
      destruct (runemap.lookup r (entries_of h (heap.child c)))
        as [[l' |] |]; [apply IH | reflexivity | reflexivity].
    + rewrite nth_error_set_nth_other by exact Hne.
      destruct (nth_error (heap.nodes h) l) as [c0 |]; [| reflexivity].
      change (entries_of h1 (heap.child c0))
        with (entries_of h (heap.child c0)).
      destruct (runemap.lookup r (entries_of h (heap.child c0)))
        as [[l' |] |]; [apply IH | reflexivity | reflexivity].
Qed.

Lemma cut_in_place (h : heap.store) (lc : nat) (yc : node)
      (Nc Mc : list nat) (cr : rune) :
  owns h lc yc Nc Mc -> NoDup Nc -> NoDup Mc ->
  exists h2 c Nc' Mc',
    heap.deref_node (Some lc) h = (h, Ok c) /\
    heap.map_delete (heap.child c) cr h = (h2, Ok tt) /\
    owns h2 lc (Node (data yc) (runemap.remove cr (child yc))) Nc' Mc' /\
    NoDup Nc' /\ NoDup Mc' /\ incl Nc' Nc /\ incl Mc' Mc /\
    changes_within Nc Mc h h2.
Proof.
  intros Hown HN HM.
  inversion Hown as [l0 c m es dt cs Ns Ms Hn Hk Hc Hm He]; subst.
  pose proof (proj1 (nth_error_Some (heap.maps h) m)
                    ltac:(congruence)) as Hml.
  destruct (owns_edges_remove h cr es cs Ns Ms He)
    as (Ns' & Ms' & O & I1 & I2 & D1 & D2).
  set (h2 := heap.mkStore (heap.nodes h)
                          (set_nth (heap.maps h) m (runemap.remove cr es))
                          (heap.kvs h) (heap.arrays h)).
  inversion HN as [| ? ? HlN HNs]; subst.
  inversion HM as [| ? ? HmM HMs]; subst.
  exists h2, c, (lc :: List.concat Ns'), (m :: List.concat Ms').
  split; [unfold heap.deref_node; rewrite Hn; reflexivity |].
  split; [unfold heap.map_delete; rewrite Hc, Hm; reflexivity |].
  split; [| split; [| split; [| split; [| split]]]].
  - cbn [data child].
    apply (owns_node h2 lc c m (runemap.remove cr es) dt _ Ns' Ms').
    + exact Hn.
    + exact Hk.
    + exact Hc.
    + unfold h2. cbn [heap.maps]. apply nth_error_set_nth_same. exact Hml.
    + apply (owns_edges_frame h); [exact O |].
      split; [| split].
      * intros i c0 _ E. exact E.
      * intros j es0 Hj E. unfold h2. cbn [heap.maps].
        rewrite nth_error_set_nth_other; [exact E |].
        intros ->. exact (HmM (I2 _ Hj)).
      * intros q kv0 E. exact E.
  - constructor; [| exact (D1 HNs)]. intros Hi. exact (HlN (I1 _ Hi)).
  - constructor; [| exact (D2 HMs)]. intros Hi. exact (HmM (I2 _ Hi)).
  - intros i [<- | Hi]; [left; reflexivity | right; exact (I1 _ Hi)].
  - intros i [<- | Hi]; [left; reflexivity | right; exact (I2 _ Hi)].
  - split; [| split; [| split]].
    + intros i c0 _ E. exact E.
    + intros j es0 Hj E. unfold h2. cbn [heap.maps].
      rewrite nth_error_set_nth_other; [exact E |].
      intros ->. apply Hj. left. reflexivity.
    + intros q kv0 E. exact E.
    + reflexivity.
Qed.

Lemma run_Delete (h : heap.store) (t : heap.Trie) (x : node) (key : string) :
  wf h t x ->
  match Delete (mkTrie x) key with
  | Ok t' =>
    exists h',
      heap.Delete t key h = (h', Ok tt) /\ wf h' t (root t') /\
      heap.arrays h' = heap.arrays h
  | Panic p => snd (heap.Delete t key h) = Panic p
  | OutOfFuel => False
  end.
Proof.
  intros (l0 & N & M & El & Hown & HN & HM).
  pose proof (run_Delete_walk h l0 (extractRunes key) l0 x N M [] None None 0
                              Hown eq_refl eq_refl) as HW.
  pose proof (Delete_walk_descend (extractRunes key) x [] None) as HD.
  unfold Delete, heap.Delete. cbn [root]. cbn zeta. rewrite El.
  set (rs := extractRunes key) in *.
  destruct (Delete_walk x [] rs None) as [[n cut] |].
  - destruct HW as (ln & cnode & crune & EW & Hloc & Hcut). simpl in Hloc.
    destruct (owns_update (fun y => Node None (child y)) rs h l0 x N M ln n
                          Hown HN HM Hloc HD)
      as (Ny & My & Oy & NDy & MDy & Iy & Jy & K).
    destruct (clear_in_place h ln n Ny My Oy NDy MDy)
      as (h1 & c1 & Es & O1 & C1 & Hn1 & Hlen & Hlocs).
    destruct (K h1 Ny My O1 NDy MDy C1 (incl_refl _) (incl_refl _))
      as (N1 & M1 & Oc & ND1 & MD1 & _ & _).
    set (cleared := update x rs (fun y => Node None (child y))) in *.
    assert (Hrun : heap.mbind
                     (heap.Delete_walk (Some l0) rs None 0)
                     (fun o =>
                        match o with
                        | Some (n0, cnode0, crune0) =>
                          heap.mbind (heap.set_data n0 None)
                            (fun _ =>
                               heap.mbind (heap.deref_node n0)
                                 (fun x0 =>
                                    heap.mbind (heap.entries (heap.child x0))
                                      (fun es =>
                                         if len es =? 0
                                         then heap.mbind
                                                (heap.deref_node cnode0)
                                                (fun c =>
                                                   heap.map_delete
                                                     (heap.child c) crune0)
                                         else heap.ret tt)))
                        | None => heap.ret tt
                        end) h
                   = (if len (child n) =? 0
                      then heap.mbind (heap.deref_node cnode)
                                      (fun c => heap.map_delete (heap.child c)
                                                                crune)
                      else heap.ret tt) h1).
    { unfold heap.mbind at 1. rewrite EW.
      unfold heap.mbind at 1. rewrite Es.
      unfold heap.mbind at 1. unfold heap.deref_node at 1. rewrite Hn1.
      rewrite mbind_entries, Hlen. reflexivity. }
    rewrite Hrun. destruct C1 as (C11 & C12 & C13 & C14).
    destruct (len (child n) =? 0).
    + destruct cut as [[cp cr] |]; simpl in Hcut.
      * destruct Hcut as (lc & -> & Hlc & ->).
        rewrite <- Hlocs in Hlc.
        destruct (owns_locate_descend h1 cp l0 cleared N1 M1 lc Oc Hlc)
          as [yc Hyc].
        destruct (owns_update
                    (fun y => Node (data y) (runemap.remove cr (child y)))
                    cp h1 l0 cleared N1 M1 lc yc Oc ND1 MD1 Hlc Hyc)
          as (Nc & Mc & Oyc & NDc & MDc & _ & _ & K2).
        destruct (cut_in_place h1 lc yc Nc Mc cr Oyc NDc MDc)
          as (h2 & c & Nc' & Mc' & Ed & Em & O2 & ND2 & MD2 & I2 & J2 & C2).
        destruct (K2 h2 Nc' Mc' O2 ND2 MD2 C2 I2 J2)
          as (N2 & M2 & Of & NDf & MDf & _ & _).
        exists h2. split; [| split].
        -- unfold heap.mbind. rewrite Ed. exact Em.
        -- exists l0, N2, M2. split; [exact El |].
           split; [exact Of |]. split; assumption.
        -- destruct C2 as (_ & _ & _ & C24). congruence.
      * subst cnode. reflexivity.
    + exists h1. split; [reflexivity |]. split; [| exact C14].
      exists l0, N1, M1. split; [exact El |].
      split; [exact Oc |]. split; assumption.
  - exists h. split; [| split; [| reflexivity]].
    + unfold heap.mbind. rewrite HW. reflexivity.
    + exists l0, N, M. split; [exact El |].
      split; [exact Hown |]. split; assumption.
Qed.

(** ** Calls *)

Lemma wf_same_trie (h h' : heap.store) (t : heap.Trie) (x : node) :
  same_trie h h' -> wf h t x -> wf h' t x.
Proof.
  intros (S1 & S2 & S3) (l & N & M & El & O & HN & HM).
  exists l, N, M. split; [exact El |]. split; [| split; assumption].
  apply (owns_frame h); [exact O |].
  split; [| split].
  - intros i c _ E. rewrite S1. exact E.
  - intros j es _ E. rewrite S2. exact E.
  - intros q kv E. rewrite S3. exact E.
Qed.

Lemma run_searches (cap : nat -> nat) (fuel : nat)
      (h : heap.store) (t : heap.Trie) (x : node) (key : string)
      (p d n : Z) :
  rep_ptr h (heap.root t) x -> (size x + 128 < fuel)%nat ->
  snd (heap.Suggest fuel t key d n h) = Suggest (mkTrie x) key d n /\
  snd (heap.SuggestSuffixes fuel t key d n h)
  = SuggestSuffixes (mkTrie x) key d n /\
  snd (heap.SuggestAfterExactPrefix cap fuel t key p d n h)
  = SuggestAfterExactPrefix cap (mkTrie x) key p d n /\
  snd (heap.SuggestSuffixesAfterExactPrefix cap fuel t key p d n h)
  = SuggestSuffixesAfterExactPrefix cap (mkTrie x) key p d n.
Proof.
  intros Rp Hfuel.
  assert (He : process_rel (size x) (heap.expandSuffixes fuel) expandSuffixes)
    by (apply expandSuffixes_rel; lia).
  pose proof (doNotExpandSuffixes_rel (size x)) as Hd.
  destruct (run_deref_node _ _ _ Rp) as [c [Ec Rc]].
  split; [| split; [| split]].
  - unfold heap.Suggest, Suggest. unfold heap.mbind. rewrite Ec.
    cbn [root].
    apply (run_suggest _ _ (size x)); [exact Hd | exact Rc | lia | lia].
  - unfold heap.SuggestSuffixes, SuggestSuffixes. unfold heap.mbind at 1.
    rewrite Ec. cbn [root].
    apply (run_suggest _ _ (size x)); [exact He | exact Rc | lia | lia].
  - apply (run_after_exact_prefix cap _ _ (size x));
      [exact Hd | exact Rp | lia | lia].
  - apply (run_after_exact_prefix cap _ _ (size x));
      [exact He | exact Rp | lia | lia].
Qed.

Lemma run_search_call (h : heap.store) (t : heap.Trie) (x : node)
      (m : heap.M (list KV)) (r : result (list KV)) :
  wf h t x -> keeps m -> snd (m h) = r ->
  match (kvs <- r ;; Ok (mkTrie x, Matches kvs)) with
  | Ok (t', a) =>
    exists h',
      heap.mbind m (fun kvs => heap.ret (Matches kvs)) h = (h', Ok a) /\
      wf h' t (root t')
  | Panic q =>
    snd (heap.mbind m (fun kvs => heap.ret (Matches kvs)) h) = Panic q
  | OutOfFuel =>
    snd (heap.mbind m (fun kvs => heap.ret (Matches kvs)) h) = OutOfFuel
  end.
Proof.
  intros Hwf Hk E. specialize (Hk h). unfold heap.mbind.
  destruct (m h) as [h' r']. simpl in E, Hk. subst r'.
  destruct r as [kvs | q |]; cbn [bind]; try reflexivity.
  exists h'. split; [reflexivity |]. cbn [root].
  exact (wf_same_trie _ _ _ _ Hk Hwf).
Qed.

Lemma run_call (cap : nat -> nat) (fuel : nat) (h : heap.store)
      (t : heap.Trie) (x : node) (o : op) :
  wf h t x -> (size x + 128 < fuel)%nat ->
  match call cap (mkTrie x) o with
  | Ok (t', a) =>
    exists h', heap.call cap fuel t o h = (h', Ok a) /\ wf h' t (root t')
  | Panic q => snd (heap.call cap fuel t o h) = Panic q
  | OutOfFuel => snd (heap.call cap fuel t o h) = OutOfFuel
  end.
Proof.
  intros Hwf Hfuel. pose proof (wf_rep _ _ _ Hwf) as Rp.
  destruct o as [key | key val | key | key d n | key d n | key p d n
                 | key p d n]; cbn [call heap.call].
  - rewrite (surjective_pairing (Get (mkTrie x) key)).
    exists h. split; [| exact Hwf].
    unfold heap.mbind. rewrite (run_Get h t x key Rp). reflexivity.
  - destruct (run_Set h t x key val Hwf) as (h' & E & W & _).
    exists h'. split; [| exact W]. unfold heap.mbind. rewrite E.
    reflexivity.
  - pose proof (run_Delete h t x key Hwf) as HD.
    destruct (Delete (mkTrie x) key) as [t' | q |]; cbn [bind].
    + destruct HD as (h' & E & W & _). exists h'. split; [| exact W].
      unfold heap.mbind. rewrite E. reflexivity.
    + unfold heap.mbind. destruct (heap.Delete t key h) as [h' r'].
      simpl in HD. subst r'. reflexivity.
    + destruct HD.
  - apply run_search_call; [exact Hwf | |].
    + exact (proj1 (keeps_searches cap fuel t key 0 d n)).
    + exact (proj1 (run_searches cap fuel h t x key 0 d n Rp Hfuel)).
  - apply run_search_call; [exact Hwf | |].
    + exact (proj1 (proj2 (keeps_searches cap fuel t key 0 d n))).
    + exact (proj1 (proj2 (run_searches cap fuel h t x key 0 d n Rp Hfuel))).
  - apply run_search_call; [exact Hwf | |].
    + exact (proj1 (proj2 (proj2 (keeps_searches cap fuel t key p d n)))).
    + exact (proj1 (proj2 (proj2 (run_searches cap fuel h t x key p d n
                                               Rp Hfuel)))).
  - apply run_search_call; [exact Hwf | |].
    + exact (proj2 (proj2 (proj2 (keeps_searches cap fuel t key p d n)))).
    + exact (proj2 (proj2 (proj2 (run_searches cap fuel h t x key p d n
                                               Rp Hfuel)))).
Qed.

(** X28. [New] and [Set] on the store are [New] and [Set] of the
    path-addressed model. [New] makes, in any store, a trie that stands
    for the empty tree. When the trie of the store stands for the tree
    [x], with no node and no map used twice, [Set] returns and the trie
    then stands, in the same way, for the tree that [Set] makes of [x];
    the arrays of the store are as before. *)
Theorem store_Set_refines (h : heap.store) (t : heap.Trie) (x : node)
        (key val : string) :
  (exists h0 t0, heap.New h = (h0, Ok t0) /\ wf h0 t0 (root New)) /\
  (wf h t x ->
   exists h',
     heap.Set_ t key val h = (h', Ok tt) /\
     wf h' t (root (Set_ (mkTrie x) key val)) /\
     heap.arrays h' = heap.arrays h).
Proof.
  split.
  - destruct (run_New h) as (h0 & t0 & E & W & _). exists h0, t0.
    split; assumption.
  - apply run_Set.
Qed.

(** X29. [Delete] on the store is [Delete] of the path-addressed model.
    When the trie of the store stands for the tree [x], with no node and
    no map used twice: if [Delete] returns on [x], it returns on the store
    and the trie then stands for the tree that [Delete] makes of [x], the
    arrays being as before; if it panics on [x], it panics on the store in
    the same way. *)
Theorem store_Delete_refines (h : heap.store) (t : heap.Trie) (x : node)
        (key : string) :
  wf h t x ->
  match Delete (mkTrie x) key with
  | Ok t' =>
    exists h',
      heap.Delete t key h = (h', Ok tt) /\ wf h' t (root t') /\
      heap.arrays h' = heap.arrays h
  | Panic p => snd (heap.Delete t key h) = Panic p
  | OutOfFuel => False
  end.
Proof. apply run_Delete. Qed.

(** X30. Every call on the store is the call of the path-addressed model.
    When the trie of the store stands for the tree [x], with no node and
    no map used twice, and the fuel is beyond the size of [x] plus 128:
    a call that returns on [x] returns the same answer on the store, and
    the trie then stands for the tree after the call; a call that panics
    on [x] panics on the store in the same way. *)
Theorem store_call_agrees (cap : nat -> nat) (fuel : nat) (h : heap.store)
        (t : heap.Trie) (x : node) (o : op) :
  wf h t x -> (size x + 128 < fuel)%nat ->
  match call cap (mkTrie x) o with
  | Ok (t', a) =>
    exists h', heap.call cap fuel t o h = (h', Ok a) /\ wf h' t (root t')
  | Panic q => snd (heap.call cap fuel t o h) = Panic q
  | OutOfFuel => snd (heap.call cap fuel t o h) = OutOfFuel
  end.
Proof. apply run_call. Qed.

Lemma store_a_ab_wf : wf store_a_ab store_t (root trie_a_ab).
Proof.
  exists O, [0; 1; 2]%nat, [0; 1; 2]%nat. split; [reflexivity |].
  split; [| split; repeat constructor; simpl; intuition discriminate].
  change (owns store_a_ab 0
               (Node None
                     [(97, Node (Some (mkKV "a" "1"))
                                [(98, Node (Some (mkKV "ab" "2")) [])])])
               [0; 1; 2]%nat [0; 1; 2]%nat).
  apply (owns_node store_a_ab 0 (heap.mkNode (Some O) None) 0
                   [(97, Some 1%nat)] None _ [[1; 2]%nat] [[1; 2]%nat]);
    try reflexivity.
  apply (owns_edges_cons store_a_ab 97 1 _ [] [] [1; 2]%nat [1; 2]%nat [] []);
    [| constructor].
  apply (owns_node store_a_ab 1 (heap.mkNode (Some 1%nat) (Some O)) 1
                   [(98, Some 2%nat)] _ _ [[2]%nat] [[2]%nat]);
    try reflexivity; [split; [discriminate | reflexivity] |].
  apply (owns_edges_cons store_a_ab 98 2 _ [] [] [2]%nat [2]%nat [] []);
    [| constructor].
  apply (owns_node store_a_ab 2 (heap.mkNode (Some 2%nat) (Some 1%nat)) 2
                   [] _ _ [] []);
    try reflexivity; [split; [discriminate | reflexivity] | constructor].
Qed.

Lemma store_Set_refines_witness :
  wf store_a_ab store_t (root trie_a_ab) /\
  exists h',
    heap.Set_ store_t "ac" "3" store_a_ab = (h', Ok tt) /\
    wf h' store_t (root (Set_ trie_a_ab "ac" "3")) /\
    heap.arrays h' = heap.arrays store_a_ab.
Proof.
  split; [exact store_a_ab_wf |].
  exact (proj2 (store_Set_refines store_a_ab store_t (root trie_a_ab)
                                  "ac" "3") store_a_ab_wf).
Defined.

Lemma store_Delete_refines_witness :
  wf store_a_ab store_t (root trie_a_ab) /\
  exists h',
    heap.Delete store_t "ab" store_a_ab = (h', Ok tt) /\
    wf h' store_t (Node None []) /\
    heap.arrays h' = heap.arrays store_a_ab.
Proof.
  split; [exact store_a_ab_wf |].
  exact (store_Delete_refines store_a_ab store_t (root trie_a_ab) "ab"
                              store_a_ab_wf).
Defined.

Lemma store_call_agrees_witness :
  wf store_a_ab store_t (root trie_a_ab) /\
  (size (root trie_a_ab) + 128 < 200)%nat /\
  exists h',
    heap.call id_cap 200 store_t (OpSuggest "ab" 1 3) store_a_ab
    = (h', Ok (Matches [mkKV "a" "1"; mkKV "ab" "2"])) /\
    wf h' store_t (root trie_a_ab).
Proof.
  split; [exact store_a_ab_wf |].
  split; [vm_compute; lia |].
  exact (store_call_agrees id_cap 200 store_a_ab store_t (root trie_a_ab)
                           (OpSuggest "ab" 1 3) store_a_ab_wf
                           ltac:(vm_compute; lia)).
Defined.
